(** * Sudoku Duel: the solver engine of sudoku_dp.py and sudoku_hybrid.py

    A shallow embedding of the two solver variants of the repository
    (the bitmask backtracking solver of [sudoku_dp.py] and the hybrid
    propagate-then-search solver of [sudoku_hybrid.py]) together with the
    puzzle generator and the move scheduler, followed by the properties
    of the engine.

    Conventions of the embedding.
    - A board is a Python list of nine lists of nine ints: [list (list Z)].
      Indices always come from [range(9)] loops, so they are [nat].
      On a board that is not 9x9 Python raises [IndexError]; here a read
      out of range gives 0 and a write out of range does nothing, and the
      statements that depend on it carry [wf_board].
    - Python ints are unbounded: [Z], with [Z.lor], [Z.land], [Z.lnot]
      and [Z.shiftl] for [|], [&], [~] and [<<].
    - In-place mutation is explicit state passing: every function that
      mutates the board or the mask arrays returns the new store. *)

From Stdlib Require Import ZArith List Lia Bool Permutation.
From stdpp Require Import base list relations gmap.
Import ListNotations.
Local Open Scope Z_scope.

(** ** Boards *)

Module Grid.

Abbreviation grid := (list (list Z)).

(** [board[r][c]] *)
Definition cell (b : grid) (r c : nat) : Z := (b !!! r) !!! c.

(** [board[r][c] = v] *)
Definition set_cell (b : grid) (r c : nat) (v : Z) : grid :=
  <[r := <[c := v]> (b !!! r)]> b.

(** [range(9)] *)
Definition range9 : list nat := seq 0 9.

(** [[(r, c) for r in range(9) for c in range(9)]]: row-major order. *)
Definition all_cells : list (nat * nat) :=
  r ← range9; c ← range9; [(r, c)].

(** [range(9)] when the loop variable is used as a bit index or digit. *)
Definition bits9 : list Z := [0; 1; 2; 3; 4; 5; 6; 7; 8].

(** [range(1, 10)] *)
Definition digits : list Z := [1; 2; 3; 4; 5; 6; 7; 8; 9].

(** [(r // 3) * 3 + (c // 3)] *)
Definition get_box_index (r c : nat) : nat := ((r / 3) * 3 + c / 3)%nat.

(** The cells [(i, j)] with [br <= i < br + 3] and [bc <= j < bc + 3]. *)
Definition box_cells (br bc : nat) : list (nat * nat) :=
  i ← seq br 3; j ← seq bc 3; [(i, j)].

(** The top-left corners of the nine boxes:
    [for box_r in range(0, 9, 3): for box_c in range(0, 9, 3)]. *)
Definition block_origins : list (nat * nat) :=
  (br ← [0; 3; 6]; bc ← [0; 3; 6]; [(br, bc)])%nat.

(** [board[r]], [[board[i][c] for i in range(9)]] and the nine values of
    the 3x3 box whose top-left corner is [(br, bc)]. *)
Definition row_vals (b : grid) (r : nat) : list Z := b !!! r.
Definition col_vals (b : grid) (c : nat) : list Z :=
  (fun i => cell b i c) <$> range9.
Definition box_vals (b : grid) (br bc : nat) : list Z :=
  (fun '(i, j) => cell b i j) <$> box_cells br bc.

(** Nine rows of nine cells. *)
Definition wf_board (b : grid) : Prop :=
  length b = 9%nat /\ Forall (fun row => length row = 9%nat) b.

(** Every cell holds 0 (empty) or a digit 1..9. *)
Definition digits_board (b : grid) : Prop :=
  forall r c, (r < 9)%nat -> (c < 9)%nat -> 0 <= cell b r c <= 9.

(** Two distinct positions see each other when they share a row, a
    column or a 3x3 box. *)
Definition peers (r c r' c' : nat) : Prop :=
  (r, c) <> (r', c') /\
  (r = r' \/ c = c' \/ get_box_index r c = get_box_index r' c').

(** The Sudoku invariant of the data model: two peers never hold the
    same non-zero value. *)
Definition no_conflict (b : grid) : Prop :=
  forall r c r' c', (r < 9)%nat -> (c < 9)%nat -> (r' < 9)%nat -> (c' < 9)%nat ->
    peers r c r' c' -> cell b r c <> 0 -> cell b r c <> cell b r' c'.

(** A complete valid grid: every cell a digit, no conflict. *)
Definition solution (b : grid) : Prop :=
  wf_board b /\
  (forall r c, (r < 9)%nat -> (c < 9)%nat -> 1 <= cell b r c <= 9) /\
  no_conflict b.

(** Every row, every column and every 3x3 box is a permutation of
    1..9. *)
Definition valid_complete (b : grid) : Prop :=
  (forall r, (r < 9)%nat -> row_vals b r ≡ₚ digits) /\
  (forall c, (c < 9)%nat -> col_vals b c ≡ₚ digits) /\
  (forall br bc, (br, bc) ∈ block_origins -> box_vals b br bc ≡ₚ digits).

(** [[(r, c) for r in range(9) for c in range(9) if board[r][c] == 0]] *)
Definition empty_cells (b : grid) : list (nat * nat) :=
  filter (fun '(r, c) => cell b r c = 0) all_cells.

(** Every position of the list [cells] is on the board and empty. *)
Definition cells_empty (b : grid) (cells : list (nat * nat)) : Prop :=
  Forall (fun '(r, c) => (r < 9)%nat /\ (c < 9)%nat /\ cell b r c = 0) cells.

(** [t] agrees with [b] on every cell that is filled in [b]. *)
Definition extends (b t : grid) : Prop :=
  forall r c, (r < 9)%nat -> (c < 9)%nat -> cell b r c <> 0 -> cell t r c = cell b r c.

End Grid.
Import Grid.

(** ** sudoku_dp.py: class BitmaskSolver *)

Module BitmaskSolver.

(** The store the search mutates: the [board] argument and the three
    mask arrays [self.rows], [self.cols], [self.boxes]. *)
Record store := Store {
  board : grid;
  rows : list Z;
  cols : list Z;
  boxes : list Z
}.

(** [self.rows[r] | self.cols[c] | self.boxes[box_idx]] *)
Definition taken_mask (s : store) (r c box_idx : nat) : Z :=
  Z.lor (Z.lor (rows s !!! r) (cols s !!! c)) (boxes s !!! box_idx).

(** [self.rows[r] |= mask; self.cols[c] |= mask; self.boxes[box_idx] |= mask] *)
Definition set_bits (s : store) (r c box_idx : nat) (mask : Z) : store :=
  Store (board s)
        (<[r := Z.lor (rows s !!! r) mask]> (rows s))
        (<[c := Z.lor (cols s !!! c) mask]> (cols s))
        (<[box_idx := Z.lor (boxes s !!! box_idx) mask]> (boxes s)).

(** [self.rows[r] &= ~mask; self.cols[c] &= ~mask; self.boxes[box_idx] &= ~mask] *)
Definition clear_bits (s : store) (r c box_idx : nat) (mask : Z) : store :=
  Store (board s)
        (<[r := Z.land (rows s !!! r) (Z.lnot mask)]> (rows s))
        (<[c := Z.land (cols s !!! c) (Z.lnot mask)]> (cols s))
        (<[box_idx := Z.land (boxes s !!! box_idx) (Z.lnot mask)]> (boxes s)).

(** [board[r][c] = v] on the store. *)
Definition write (s : store) (r c : nat) (v : Z) : store :=
  Store (set_cell (board s) r c v) (rows s) (cols s) (boxes s).

(** The body of the two nested loops of [_initialize_masks] for one
    cell.  (A negative shift count, from a negative cell, raises
    [ValueError] in Python; the cells of a board are 0..9.) *)
Definition init_cell (acc : store * list (nat * nat)) (rc : nat * nat)
  : store * list (nat * nat) :=
  let '(s, empty_cells) := acc in
  let '(r, c) := rc in
  if cell (board s) r c =? 0 then (s, empty_cells ++ [(r, c)])
  else
    let val := cell (board s) r c - 1 in
    let mask := Z.shiftl 1 val in
    (set_bits s r c (get_box_index r c) mask, empty_cells).

(** [_initialize_masks(board)]: resets the masks, then scans the board in
    row-major order; returns the store and [empty_cells]. *)
Definition _initialize_masks (b : grid) : store * list (nat * nat) :=
  fold_left init_cell all_cells
    (Store b (replicate 9 0) (replicate 9 0) (replicate 9 0), []).

(** [_count_options(r, c)] *)
Definition _count_options (s : store) (r c : nat) : nat :=
  let taken := taken_mask s r c (get_box_index r c) in
  length (filter (fun k => Z.land taken (Z.shiftl 1 k) = 0) bits9).

(** The [for k in range(9)] loop of [_backtrack] from digit index list
    [ks] on; [rec] is the recursive call [_backtrack(board, empty_cells,
    idx + 1)].  [taken] is read once, before the loop. *)
Fixpoint try_digits (rec : store -> bool * store) (taken : Z)
    (r c box_idx : nat) (ks : list Z) (s : store) : bool * store :=
  match ks with
  | [] => (false, s)
  | k :: ks' =>
      let mask := Z.shiftl 1 k in
      if Z.land taken mask =? 0 then
        let s1 := set_bits (write s r c (k + 1)) r c box_idx mask in
        let '(ok, s2) := rec s1 in
        if ok then (true, s2)
        else try_digits rec taken r c box_idx ks'
               (write (clear_bits s2 r c box_idx mask) r c 0)
      else try_digits rec taken r c box_idx ks' s
  end.

(** [_backtrack(board, empty_cells, idx)]; the pair [(empty_cells, idx)]
    is the suffix [empty_cells[idx:]], so [idx == len(empty_cells)] is
    the empty suffix. *)
Fixpoint _backtrack (cells : list (nat * nat)) (s : store) : bool * store :=
  match cells with
  | [] => (true, s)
  | (r, c) :: rest =>
      let box_idx := get_box_index r c in
      let taken := taken_mask s r c box_idx in
      try_digits (_backtrack rest) taken r c box_idx bits9 s
  end.

(** The [for k in range(9)] loop of [_backtrack_count], with the running
    [count]. *)
Fixpoint count_digits (rec : store -> Z * store) (taken : Z)
    (r c box_idx : nat) (limit : Z) (ks : list Z) (count : Z) (s : store)
  : Z * store :=
  match ks with
  | [] => (count, s)
  | k :: ks' =>
      let mask := Z.shiftl 1 k in
      if Z.land taken mask =? 0 then
        let s1 := set_bits (write s r c (k + 1)) r c box_idx mask in
        let '(n, s2) := rec s1 in
        let count' := count + n in
        let s3 := write (clear_bits s2 r c box_idx mask) r c 0 in
        if limit <=? count' then (count', s3)
        else count_digits rec taken r c box_idx limit ks' count' s3
      else count_digits rec taken r c box_idx limit ks' count s
  end.

(** [_backtrack_count(board, empty_cells, idx, limit)] on the suffix
    [empty_cells[idx:]]. *)
Fixpoint _backtrack_count (limit : Z) (cells : list (nat * nat)) (s : store)
  : Z * store :=
  match cells with
  | [] => (1, s)
  | (r, c) :: rest =>
      let box_idx := get_box_index r c in
      let taken := taken_mask s r c box_idx in
      count_digits (_backtrack_count limit rest) taken r c box_idx limit bits9 0 s
  end.

(** Python's stable [list.sort(key=...)]: [x] precedes everything already
    in [l] in the original order, so it goes in front of the first
    element whose key is not smaller. *)
Fixpoint insert_by_key {A} (key : A -> nat) (x : A) (l : list A) : list A :=
  match l with
  | [] => [x]
  | y :: l' => if (key x <=? key y)%nat then x :: l
               else y :: insert_by_key key x l'
  end.

Definition sort_by_key {A} (key : A -> nat) (l : list A) : list A :=
  fold_right (fun x acc => insert_by_key key x acc) [] l.

(** [solve(board)]: the solved board, or [None]. *)
Definition solve (b : grid) : option grid :=
  let '(s, empty_cells) := _initialize_masks b in
  let empty_cells := sort_by_key (fun cell => _count_options s cell.1 cell.2) empty_cells in
  let '(ok, s') := _backtrack empty_cells s in
  if ok then Some (board s') else None.

(** [count_solutions(board, limit)] *)
Definition count_solutions (b : grid) (limit : Z) : Z :=
  let '(s, _) := _initialize_masks b in
  (_backtrack_count limit (empty_cells b) s).1.

(** The tentative placement of [_backtrack] and [_backtrack_count]:
    [board[r][c] = k + 1] and the three [|= mask]. *)
Definition placed (s : store) (r c box_idx : nat) (k : Z) : store :=
  set_bits (write s r c (k + 1)) r c box_idx (Z.shiftl 1 k).

(** A row, a column or a box, by its index. *)
Inductive house := Row (r : nat) | Col (c : nat) | Box (i : nat).

Definition house_index (u : house) : nat :=
  match u with Row r => r | Col c => c | Box i => i end.

Definition in_house (u : house) (r c : nat) : Prop :=
  match u with
  | Row r' => r = r'
  | Col c' => c = c'
  | Box i => get_box_index r c = i
  end.

Definition mask_of (s : store) (u : house) : Z :=
  match u with
  | Row r => rows s !!! r
  | Col c => cols s !!! c
  | Box i => boxes s !!! i
  end.

(** The invariant of the mask arrays (data model, BitmaskState): bit
    [k] of a row, column or box mask is set exactly when digit [k + 1]
    stands in that row, column or box of the board. *)
Definition mirrors (s : store) : Prop :=
  (length (rows s) = 9 /\ length (cols s) = 9 /\ length (boxes s) = 9)%nat /\
  forall u k, (house_index u < 9)%nat -> 0 <= k < 9 ->
    Z.testbit (mask_of s u) k = true <->
    exists r c, (r < 9)%nat /\ (c < 9)%nat /\ in_house u r c
                /\ cell (board s) r c = k + 1.

(** The precondition of a search level: a 9x9 board, masks in step with
    it, and a duplicate-free list of empty cells still to fill. *)
Definition ready (s : store) (cells : list (nat * nat)) : Prop :=
  wf_board (board s) /\ mirrors s /\ cells_empty (board s) cells /\ NoDup cells.

End BitmaskSolver.

(** ** Randomness

    Every call to [random.shuffle(x)] is represented by its outcome: a
    list [sigma] of indices, the order in which the elements of [x] end
    up.  [random.shuffle] can produce exactly the rearrangements of [x],
    i.e. the [sigma] that are permutations of [range(len(x))]. *)

Module Rng.

Definition shuffled {A} (sigma : list nat) (l : list A) : list A :=
  omap (fun i => l !! i) sigma.

(** The outcomes a shuffle of an [n]-element list can have. *)
Definition outcome (n : nat) (sigma : list nat) : Prop :=
  Permutation sigma (seq 0 n).

(** The six outcomes of shuffling a three-row band. *)
Definition outcomes3 : list (list nat) :=
  [[0; 1; 2]; [0; 2; 1]; [1; 0; 2]; [1; 2; 0]; [2; 0; 1]; [2; 1; 0]]%nat.

End Rng.

(** ** Puzzle generation (class SudokuDuel, both files) *)

Module Generator.

(** [pattern(r, c) = (3 * (r % 3) + r // 3 + c) % 9] *)
Definition pattern (r c : nat) : nat := ((3 * (r mod 3) + r / 3 + c) mod 9)%nat.

(** [[[pattern(r, c) for c in range(9)] for r in range(9)]] *)
Definition pattern_grid : list (list nat) :=
  (fun r => (fun c => pattern r c) <$> range9) <$> range9.

(** [get_base_pattern()]; [nums] is [list(range(1, 10))] after
    [random.shuffle(nums)]. *)
Definition get_base_pattern (nums : list Z) : grid :=
  (fun r => (fun c => nums !!! pattern r c) <$> range9) <$> range9.

(** [zip( *board)] followed by [list(map(list, ...))]: the transposed
    board, cut to the shortest row. *)
Fixpoint transpose {A} (rows : list (list A)) : list (list A) :=
  match rows with
  | [] => []
  | r :: rest =>
      match rest with
      | [] => (fun x => [x]) <$> r
      | _ => zip_with cons r (transpose rest)
      end
  end.

(** One round of [block = board[i:i+3]; random.shuffle(block);
    board[i:i+3] = block]. *)
Definition shuffle_band {A} (i : nat) (sigma : list nat) (b : list (list A))
  : list (list A) :=
  take i b ++ Rng.shuffled sigma (take 3 (drop i b)) ++ drop (i + 3) b.

(** [for i in range(0, 9, 3): ...] with the three shuffle outcomes. *)
Definition shuffle_bands {A} (sg : list nat * list nat * list nat)
    (b : list (list A)) : list (list A) :=
  let '(s0, s3, s6) := sg in
  shuffle_band 6 s6 (shuffle_band 3 s3 (shuffle_band 0 s0 b)).

(** [shuffle_board(board)]: shuffle the rows of each band, transpose,
    shuffle again, transpose back. *)
Definition shuffle_board {A} (row_sg col_sg : list nat * list nat * list nat)
    (b : list (list A)) : list (list A) :=
  transpose (shuffle_bands col_sg (transpose (shuffle_bands row_sg b))).

(** The outcomes of the shuffles of one call to [generate_puzzle], in
    call order. *)
Record rng := Rand {
  nums_sigma : list nat;
  row_sigmas : list nat * list nat * list nat;
  col_sigmas : list nat * list nat * list nat;
  cells_sigma : list nat
}.

Definition rng_ok (g : rng) : Prop :=
  Rng.outcome 9 (nums_sigma g) /\
  (Rng.outcome 3 (row_sigmas g).1.1 /\ Rng.outcome 3 (row_sigmas g).1.2
     /\ Rng.outcome 3 (row_sigmas g).2) /\
  (Rng.outcome 3 (col_sigmas g).1.1 /\ Rng.outcome 3 (col_sigmas g).1.2
     /\ Rng.outcome 3 (col_sigmas g).2) /\
  Rng.outcome 81 (cells_sigma g).

(** The reference grid: [shuffle_board(get_base_pattern())]. *)
Definition full_board (g : rng) : grid :=
  shuffle_board (row_sigmas g) (col_sigmas g)
    (get_base_pattern (Rng.shuffled (nums_sigma g) digits)).

(** *** A checker for the shuffled pattern

    The rows, the columns and the boxes of a grid, as 27 lists. *)
Definition houses {A} `{Inhabited A} (g : list (list A)) : list (list A) :=
  ((fun r => g !!! r) <$> range9)
  ++ ((fun c => (fun r => (g !!! r) !!! c) <$> range9) <$> range9)
  ++ ((fun '(br, bc) => (fun '(i, j) => (g !!! i) !!! j) <$> box_cells br bc)
        <$> block_origins).

(** [l] has nine elements, among them each of 0..8. *)
Definition perm_check (l : list nat) : bool :=
  (length l =? 9)%nat && forallb (fun d => existsb (Nat.eqb d) l) (seq 0 9).

(** Nine rows, and every house holds each of 0..8 once. *)
Definition index_check (g : list (list nat)) : bool :=
  (length g =? 9)%nat && forallb perm_check (houses g).

(** The outcomes of the three band shuffles of one round. *)
Definition band_outcomes : list (list nat * list nat * list nat) :=
  a ← Rng.outcomes3; b ← Rng.outcomes3; c ← Rng.outcomes3; [(a, b, c)].

(** The difficulty levels offered by the radio buttons. *)
Inductive difficulty := Easy | Medium | Hard.

End Generator.

(** ** sudoku_dp.py: class SudokuDuel *)

Module SudokuDp.
Import Generator.

(** [target_holes]. *)
Definition target_holes (d : difficulty) : nat :=
  match d with Easy => 30 | Medium => 45 | Hard => 55 end%nat.

(** The carving loop [for r, c in cells: ...] of
    [generate_puzzle], with the counter [holes]. *)
Fixpoint carve (target : nat) (cells : list (nat * nat)) (holes : nat)
    (b : grid) : grid :=
  match cells with
  | [] => b
  | (r, c) :: rest =>
      if (target <=? holes)%nat then b
      else
        let backup := cell b r c in
        let b1 := set_cell b r c 0 in
        let solutions := BitmaskSolver.count_solutions b1 2 in
        if solutions =? 1 then carve target rest (S holes) b1
        else carve target rest holes (set_cell b1 r c backup)
  end.

(** [generate_puzzle()]; returns [(self.board,
    self.solution_board)]. *)
Definition generate_puzzle (d : difficulty) (g : rng) : grid * grid :=
  let full := full_board g in
  let cells := Rng.shuffled (cells_sigma g) all_cells in
  (carve (target_holes d) cells 0 full, full).

(** [len(set(l))] *)
Definition set_size (l : list Z) : nat := length (remove_dups l).

(** [is_complete()] on [self.board]. *)
Definition is_complete (b : grid) : bool :=
  forallb (fun '(i, j) => negb (cell b i j =? 0)) all_cells
  && forallb (fun i => (set_size (row_vals b i) =? 9)%nat) range9
  && forallb (fun j => (set_size (col_vals b j) =? 9)%nat) range9
  && forallb (fun '(br, bc) => (set_size (box_vals b br bc) =? 9)%nat)
       block_origins.

(** [b] is [sol] with some cells cleared. *)
Definition carved_from (sol b : grid) : Prop :=
  forall r c, (r < 9)%nat -> (c < 9)%nat ->
    cell b r c = 0 \/ cell b r c = cell sol r c.

(** [solve_dp(board_snapshot)]: the solver runs on a deep copy. *)
Definition solve_dp (board_snapshot : grid) : option grid :=
  BitmaskSolver.solve board_snapshot.

End SudokuDp.

(** ** sudoku_hybrid.py: the propagate-then-search solver and the scheduler *)

Module Hybrid.
Import Generator.

(** [remove_count]; [None] stands for a difficulty
    string other than the three levels. *)
Definition remove_count (d : option difficulty) : nat :=
  match d with
  | Some Easy => 30 | Some Medium => 45 | Some Hard => 55 | None => 40
  end%nat.

(** [generate_puzzle(difficulty)]: the first
    [remove_count] cells of the shuffled cell list are cleared. *)
Definition generate_puzzle (d : option difficulty) (g : rng)
  : grid * grid :=
  let full := full_board g in
  let cells := Rng.shuffled (cells_sigma g) all_cells in
  (fold_left (fun b '(r, c) => set_cell b r c 0) (take (remove_count d) cells) full,
   full).

(** [is_complete()] on [self.board]. *)
Definition is_complete (b : grid) : bool :=
  forallb (fun '(i, j) => negb (cell b i j =? 0)) all_cells.

(** [is_valid(board, row, col, num)] *)
Definition is_valid (b : grid) (row col : nat) (num : Z) : bool :=
  forallb (fun i =>
      negb ((cell b row i =? num) && negb (i =? col)%nat)
      && negb ((cell b i col =? num) && negb (i =? row)%nat)) range9
  && forallb (fun '(i, j) =>
      negb ((cell b i j =? num) && negb ((i =? row)%nat && (j =? col)%nat)))
      (box_cells (3 * (row / 3)) (3 * (col / 3))).

(** [get_candidates(board, row, col)]: a Python set of digits, kept here
    as the increasing list of its elements. *)
Definition get_candidates (b : grid) (row col : nat) : list Z :=
  if negb (cell b row col =? 0) then []
  else
    filter (fun d => (d ∉ row_vals b row) /\ (d ∉ col_vals b col)
                     /\ (d ∉ box_vals b (3 * (row / 3)) (3 * (col / 3))))
           digits.

(** [d] is the unique candidate of the empty cell [(r, c)]: the only
    digit in 1..9 absent from its row, its column and its box. *)
Definition unique_candidate (b : grid) (r c : nat) (d : Z) : Prop :=
  cell b r c = 0 /\
  forall d', (1 <= d' <= 9 /\ (d' ∉ row_vals b r) /\ (d' ∉ col_vals b c)
              /\ (d' ∉ box_vals b (3 * (r / 3)) (3 * (c / 3)))) <-> d' = d.

(** One forced move: an empty cell receives its unique candidate. *)
Definition forced_step (b b' : grid) : Prop :=
  exists r c d, (r < 9)%nat /\ (c < 9)%nat /\ unique_candidate b r c d
                /\ b' = set_cell b r c d.

(** The body of the two loops of [solve_dnc_subgrid] for one cell. *)
Definition dnc_cell (acc : grid * bool) (rc : nat * nat) : grid * bool :=
  let '(b, progress) := acc in
  let '(r, c) := rc in
  if cell b r c =? 0 then
    match get_candidates b r c with
    | [d] => (set_cell b r c d, true)
    | _ => (b, progress)
    end
  else (b, progress).

(** [solve_dnc_subgrid(board, sr, sc)]: the board after the sweep and
    [progress]. *)
Definition solve_dnc_subgrid (b : grid) (sr sc : nat) : grid * bool :=
  fold_left dnc_cell (box_cells sr sc) (b, false).

(** The body of the two loops over the blocks:
    [if self.solve_dnc_subgrid(board, box_r, box_c): changed = True]. *)
Definition pass_step (acc : grid * bool) (origin : nat * nat) : grid * bool :=
  let '(b, changed) := acc in
  let '(box_r, box_c) := origin in
  let '(b', progress) := solve_dnc_subgrid b box_r box_c in
  (b', if progress then true else changed).

(** One iteration of the [while changed] loop: a full sweep over the
    nine blocks. *)
Definition dnc_pass (b : grid) : grid * bool :=
  fold_left pass_step block_origins (b, false).

(** [solve_dnc_phase(board)]: the [while changed] loop, at most [fuel]
    iterations; [None] when the fuel runs out before the loop ends. *)
Fixpoint dnc_loop (fuel : nat) (b : grid) : option grid :=
  match fuel with
  | O => None
  | S fuel' =>
      let '(b', changed) := dnc_pass b in
      if changed then dnc_loop fuel' b' else Some b'
  end.

(** A board has 81 cells and every pass but the last fills one, so 82
    iterations are enough (lemma [solve_dnc_phase_total]). *)
Definition solve_dnc_phase (b : grid) : option grid := dnc_loop 82 b.

(** The result of [_solve_dp_helper]: the board object itself, mutated
    in place, or [None]. *)
Inductive pyres := RBoard | RNone.

Global Instance pyres_eq_dec : EqDecision pyres.
Proof. solve_decision. Defined.

(** The store of the search: the board and [self.row_mask],
    [self.col_mask], [self.box_mask], [self.dp_cache].  The cache is
    keyed by the board contents; a cached board is a reference to the
    one board object. *)
Record store := Store {
  board : grid;
  row_mask : list Z;
  col_mask : list Z;
  box_mask : list Z;
  dp_cache : gmap grid pyres
}.

(** The body of the loops of [_init_bitmasks] for one cell. *)
Definition init_cell (s : store) (rc : nat * nat) : store :=
  let '(r, c) := rc in
  if negb (cell (board s) r c =? 0) then
    let bit := Z.shiftl 1 (cell (board s) r c - 1) in
    Store (board s)
          (<[r := Z.lor (row_mask s !!! r) bit]> (row_mask s))
          (<[c := Z.lor (col_mask s !!! c) bit]> (col_mask s))
          (<[get_box_index r c := Z.lor (box_mask s !!! get_box_index r c) bit]>
             (box_mask s))
          (dp_cache s)
  else s.

(** [_init_bitmasks(board)] *)
Definition _init_bitmasks (s : store) : store :=
  fold_left init_cell all_cells
    (Store (board s) (replicate 9 0) (replicate 9 0) (replicate 9 0) (dp_cache s)).

(** [_candidates_bitmask(board, row, col)] *)
Definition _candidates_bitmask (s : store) (row col : nat) : Z :=
  if negb (cell (board s) row col =? 0) then 0
  else
    let box_id := get_box_index row col in
    let used := Z.lor (Z.lor (row_mask s !!! row) (col_mask s !!! col))
                      (box_mask s !!! box_id) in
    Z.land (Z.lnot used) 511.

(** [_bitmask_to_set(mask)]: the digits in insertion order. *)
Definition _bitmask_to_set (mask : Z) : list Z :=
  (fun d => d + 1) <$> filter (fun d => Z.land mask (Z.shiftl 1 d) <> 0) bits9.

(** The number of ones in the binary numeral of a positive number. *)
Fixpoint pos_ones (p : positive) : nat :=
  match p with
  | xH => 1
  | xO p' => pos_ones p'
  | xI p' => S (pos_ones p')
  end.

(** [bin(mask).count("1")]; [bin] writes a negative number as a minus
    sign and the numeral of its absolute value. *)
Definition popcount (mask : Z) : nat :=
  match mask with
  | Z0 => 0
  | Zpos p => pos_ones p
  | Zneg p => pos_ones p
  end.

(** The scan of [_find_mrv_cell_bitmask] from the cell list [cells] on,
    with [best] and [best_count]; the two [return]s inside the loops
    leave the scan. *)
Fixpoint mrv_scan (s : store) (cells : list (nat * nat))
    (best : option (nat * nat * list Z)) (best_count : nat)
  : option (nat * nat * list Z) :=
  match cells with
  | [] => best
  | (r, c) :: rest =>
      if cell (board s) r c =? 0 then
        let mask := _candidates_bitmask s r c in
        let count := popcount mask in
        if (count =? 0)%nat then Some (r, c, [])
        else if (count <? best_count)%nat then
          let best' := Some (r, c, _bitmask_to_set mask) in
          if (count =? 1)%nat then best'
          else mrv_scan s rest best' count
        else mrv_scan s rest best best_count
      else mrv_scan s rest best best_count
  end.

(** The cells the row-major scan visits before [(r, c)]. *)
Definition before (r c : nat) (rc : nat * nat) : Prop :=
  (rc.1 < r \/ (rc.1 = r /\ rc.2 < c))%nat.

(** [_find_mrv_cell_bitmask(board)] *)
Definition _find_mrv_cell_bitmask (s : store) : option (nat * nat * list Z) :=
  mrv_scan s all_cells None 10.

(** Python truth value of a result: [None] is false, a list is true
    unless it is empty. *)
Definition truthy (res : pyres) (b : grid) : bool :=
  match res with
  | RNone => false
  | RBoard => match b with [] => false | _ => true end
  end.

(** [self.dp_cache[state] = v] *)
Definition cache_put (s : store) (state : grid) (v : pyres) : store :=
  Store (board s) (row_mask s) (col_mask s) (box_mask s)
        (<[state := v]> (dp_cache s)).

(** [board[row][col] = num] and the three [|= bit]. *)
Definition place (s : store) (row col box_id : nat) (num bit : Z) : store :=
  Store (set_cell (board s) row col num)
        (<[row := Z.lor (row_mask s !!! row) bit]> (row_mask s))
        (<[col := Z.lor (col_mask s !!! col) bit]> (col_mask s))
        (<[box_id := Z.lor (box_mask s !!! box_id) bit]> (box_mask s))
        (dp_cache s).

(** [board[row][col] = 0] and the three [&= ~bit]. *)
Definition unplace (s : store) (row col box_id : nat) (bit : Z) : store :=
  Store (set_cell (board s) row col 0)
        (<[row := Z.land (row_mask s !!! row) (Z.lnot bit)]> (row_mask s))
        (<[col := Z.land (col_mask s !!! col) (Z.lnot bit)]> (col_mask s))
        (<[box_id := Z.land (box_mask s !!! box_id) (Z.lnot bit)]> (box_mask s))
        (dp_cache s).

(** The mask read by [_candidates_bitmask]. *)
Definition used_mask (s : store) (row col : nat) : Z :=
  Z.lor (Z.lor (row_mask s !!! row) (col_mask s !!! col))
        (box_mask s !!! get_box_index row col).

(** The part of the store the trial-and-undo discipline is about: the
    board and the three mask arrays (the cache only grows). *)
Definition same_position (s s' : store) : Prop :=
  board s' = board s /\ row_mask s' = row_mask s
  /\ col_mask s' = col_mask s /\ box_mask s' = box_mask s.

(** What the scan of [_find_mrv_cell_bitmask] can return: a cell of the
    scan list that is empty, with the empty set or with its candidate
    set. *)
Definition mrv_answer (s : store) (x : nat * nat * list Z) : Prop :=
  let '(r, c, cands) := x in
  (r < 9)%nat /\ (c < 9)%nat /\ cell (board s) r c = 0
  /\ (cands = [] \/ cands = _bitmask_to_set (_candidates_bitmask s r c)).

(** What a sweep has done so far, from board [b] and flag [p] to board
    [b'] and flag [p']: forced moves only; either nothing, or the flag
    is raised and a cell was filled. *)
Definition swept (b : grid) (p : bool) (b' : grid) (p' : bool) : Prop :=
  rtc forced_step b b' /\ wf_board b' /\
  ((b' = b /\ p' = p) \/
   (p' = true /\ (length (empty_cells b') < length (empty_cells b))%nat)).

Section Search.

(** The order in which [for num in candidates] visits a Python set is
    fixed by the interpreter's hash table, not by the program: it is a
    parameter of the search. *)
Variable set_iter : list Z -> list Z.

(** The [for num in candidates] loop of [_solve_dp_helper]; [rec] is the
    recursive call, [state] the cache key computed at entry. *)
Fixpoint try_candidates (rec : store -> option (pyres * store))
    (state : grid) (row col box_id : nat) (nums : list Z) (s : store)
  : option (pyres * store) :=
  match nums with
  | [] => Some (RNone, cache_put s state RNone)
  | num :: nums' =>
      let bit := Z.shiftl 1 (num - 1) in
      match rec (place s row col box_id num bit) with
      | None => None
      | Some (result, s2) =>
          if truthy result (board s2) then Some (result, cache_put s2 state result)
          else try_candidates rec state row col box_id nums'
                 (unplace s2 row col box_id bit)
      end
  end.

(** [_solve_dp_helper(board)], at most [fuel] nested calls; [None] when
    the fuel runs out. *)
Fixpoint _solve_dp_helper (fuel : nat) (s : store) : option (pyres * store) :=
  match fuel with
  | O => None
  | S fuel' =>
      let state := board s in
      match dp_cache s !! state with
      | Some v => Some (v, s)
      | None =>
          match _find_mrv_cell_bitmask s with
          | None => Some (RBoard, cache_put s state RBoard)
          | Some (row, col, candidates) =>
              match candidates with
              | [] => Some (RNone, cache_put s state RNone)
              | _ =>
                  try_candidates (_solve_dp_helper fuel') state row col
                    (get_box_index row col) (set_iter candidates) s
              end
          end
      end
  end.

(** [solve_dp(board)]: the cache is emptied, the masks rebuilt, and the
    search started; the recursion is at most 82 deep (lemma
    [solve_dp_total]).  The outer [option] is the fuel. *)
Definition solve_dp_store (b : grid) : option (pyres * store) :=
  _solve_dp_helper 82 (_init_bitmasks (Store b [] [] [] ∅)).

Definition solve_dp (b : grid) : option (option grid) :=
  match solve_dp_store b with
  | None => None
  | Some (RBoard, s) => Some (Some (board s))
  | Some (RNone, _) => Some None
  end.

(** [solve_hybrid(board_snapshot)] *)
Definition solve_hybrid (board_snapshot : grid) : option (option grid) :=
  match solve_dnc_phase board_snapshot with
  | None => None
  | Some b => solve_dp b
  end.

End Search.

End Hybrid.

(** ** sudoku_hybrid.py: the move scheduler

    [heapq] is Python's library heap.  Its contract on the tuples
    [(count, row, col)], which are totally ordered, is all the program
    uses: [pq[0]] is the least entry, [heappop] removes it, [heappush]
    adds an entry.  The heap is kept here as the ascending list of its
    entries, so [pq[0]] is the head and [heappop] takes it. *)

Module Scheduler.

Definition entry := (nat * nat * nat)%type.

(** Python's tuple comparison [x <= y]. *)
Definition entry_leb (x y : entry) : bool :=
  let '(n1, r1, c1) := x in
  let '(n2, r2, c2) := y in
  (n1 <? n2)%nat
  || ((n1 =? n2)%nat && ((r1 <? r2)%nat
      || ((r1 =? r2)%nat && (c1 <=? c2)%nat))).

(** [heapq.heappush(pq, x)] *)
Fixpoint heappush (pq : list entry) (x : entry) : list entry :=
  match pq with
  | [] => [x]
  | y :: pq' => if entry_leb x y then x :: pq else y :: heappush pq' x
  end.

(** The scheduler's part of [self]: the board, [self.pq] and
    [self.pq_entries]. *)
Record game := Game {
  board : grid;
  pq : list entry;
  pq_entries : gset (nat * nat)
}.

(** Every entry of the queue names an empty cell of [b]. *)
Definition live (b : grid) (q : list entry) : Prop :=
  Forall (fun '(_, r, c) => cell b r c = 0) q.

(** The body of the loops of [initialize_priority_queue] for one cell. *)
Definition enqueue_cell (b : grid) (acc : list entry * gset (nat * nat))
    (ij : nat * nat) : list entry * gset (nat * nat) :=
  let '(q, es) := acc in
  let '(i, j) := ij in
  if cell b i j =? 0 then
    match Hybrid.get_candidates b i j with
    | [] => (q, es)
    | c => (heappush q (length c, i, j), es ∪ {[(i, j)]})
    end
  else (q, es).

(** [initialize_priority_queue()] *)
Definition initialize_priority_queue (g : game) : game :=
  let '(q, es) := fold_left (enqueue_cell (board g)) all_cells ([], ∅) in
  Game (board g) q es.

(** The elements of the set [neighbours] of [update_neighbors]: the row,
    the column and the box of [(row, col)].  The heap holds the same
    entries whatever the order the set is visited in. *)
Definition neighbours (row col : nat) : list (nat * nat) :=
  remove_dups
    ((i ← range9; [(row, i); (i, col)])
     ++ box_cells (3 * (row / 3)) (3 * (col / 3))).

(** [update_neighbors(row, col)] *)
Definition update_neighbors (g : game) (row col : nat) : game :=
  let '(q, es) :=
    fold_left (fun acc rc =>
                 if bool_decide (rc <> (row, col))
                 then enqueue_cell (board g) acc rc else acc)
              (neighbours row col) (pq g, pq_entries g) in
  Game (board g) q es.

(** The loop [while self.pq and self.board[...] != 0: heappop; discard]. *)
Fixpoint clean_stale (b : grid) (q : list entry) (es : gset (nat * nat))
  : list entry * gset (nat * nat) :=
  match q with
  | [] => ([], es)
  | (n, r, c) :: q' =>
      if negb (cell b r c =? 0) then clean_stale b q' (es ∖ {[(r, c)]})
      else (q, es)
  end.

(** The first two steps of [ai_make_move()]: the stale entries are
    dropped, and the queue is rebuilt when it is empty while the board
    still has an empty cell. *)
Definition prepare_queue (g : game) : game :=
  let '(q, es) := clean_stale (board g) (pq g) (pq_entries g) in
  let g1 := Game (board g) q es in
  match q with
  | [] => if negb (Hybrid.is_complete (board g1))
          then initialize_priority_queue g1 else g1
  | _ => g1
  end.

(** [ai_make_move()] up to and including the [heappop] that selects the
    cell to play: [None] is the [return False] of an empty queue. *)
Definition select_move (g : game) : option (nat * nat * game) :=
  let g2 := prepare_queue g in
  match pq g2 with
  | [] => None
  | (_, row, col) :: q' =>
      Some (row, col, Game (board g2) q' (pq_entries g2 ∖ {[(row, col)]}))
  end.

Section Play.

Variable set_iter : list Z -> list Z.

(** [ai_make_move()]: the returned flag and the new state; the outer
    [option] is the fuel of the solver. *)
Definition ai_make_move (g : game) : option (bool * game) :=
  match select_move g with
  | None => Some (false, prepare_queue g)
  | Some (row, col, g3) =>
      match Hybrid.solve_hybrid set_iter (board g3) with
      | None => None
      | Some None => Some (false, g3)
      | Some (Some solved_board) =>
          if Hybrid.truthy Hybrid.RBoard solved_board then
            let correct_val := cell solved_board row col in
            let g4 := Game (set_cell (board g3) row col correct_val)
                           (pq g3) (pq_entries g3) in
            Some (true, update_neighbors g4 row col)
          else Some (false, g3)
      end
  end.

End Play.

End Scheduler.


(** ** Sample inputs *)

Module Examples.

(** Every shuffle leaves its list as it is. *)
Definition rng_id : Generator.rng :=
  Generator.Rand (seq 0 9) (seq 0 3, seq 0 3, seq 0 3)
                 (seq 0 3, seq 0 3, seq 0 3) (seq 0 81).

(** The reference grid of [rng_id], written out. *)
Definition pattern_board : grid :=
  [[1; 2; 3; 4; 5; 6; 7; 8; 9];
   [4; 5; 6; 7; 8; 9; 1; 2; 3];
   [7; 8; 9; 1; 2; 3; 4; 5; 6];
   [2; 3; 4; 5; 6; 7; 8; 9; 1];
   [5; 6; 7; 8; 9; 1; 2; 3; 4];
   [8; 9; 1; 2; 3; 4; 5; 6; 7];
   [3; 4; 5; 6; 7; 8; 9; 1; 2];
   [6; 7; 8; 9; 1; 2; 3; 4; 5];
   [9; 1; 2; 3; 4; 5; 6; 7; 8]].

(** Eight holes and four completions. *)
Definition four_solutions_board : grid :=
  [[1; 2; 3; 4; 5; 6; 7; 8; 9];
   [4; 5; 6; 7; 8; 9; 1; 2; 3];
   [7; 8; 9; 1; 2; 3; 4; 5; 6];
   [2; 3; 4; 5; 6; 7; 8; 9; 1];
   [5; 6; 7; 8; 9; 1; 2; 3; 4];
   [8; 9; 1; 2; 3; 4; 5; 6; 7];
   [3; 4; 0; 6; 7; 0; 9; 1; 0];
   [6; 7; 0; 9; 1; 0; 3; 4; 5];
   [9; 1; 0; 3; 4; 0; 6; 7; 0]].

(** Two holes, each with a single candidate. *)
Definition two_holes_board : grid :=
  set_cell (set_cell pattern_board 0 0 0) 5 5 0.

(** Cell (0, 0) has the single candidate 1; cell (4, 4) is empty and
    has none: 6 is the only digit missing from its row and stands in
    its column. *)
Definition late_dead_cell_board : grid :=
  [[0; 2; 3; 4; 5; 6; 7; 8; 9];
   [0; 0; 0; 0; 0; 0; 0; 0; 0];
   [0; 0; 0; 0; 0; 0; 0; 0; 0];
   [0; 0; 0; 0; 0; 0; 0; 0; 0];
   [2; 3; 4; 5; 0; 7; 8; 9; 1];
   [0; 0; 0; 0; 0; 0; 0; 0; 0];
   [0; 0; 0; 0; 0; 0; 0; 0; 0];
   [0; 0; 0; 0; 0; 0; 0; 0; 0];
   [0; 0; 0; 0; 6; 0; 0; 0; 0]].

(** The same board with cell (0, 0) filled: the first empty cell with
    fewer than two candidates is the dead cell (4, 4). *)
Definition first_dead_cell_board : grid := set_cell late_dead_cell_board 0 0 1.

(** The stores the two solvers start from on a board. *)
Definition dp_store (b : grid) : BitmaskSolver.store :=
  (BitmaskSolver._initialize_masks b).1.

Definition hybrid_store (b : grid) : Hybrid.store :=
  Hybrid._init_bitmasks (Hybrid.Store b [] [] [] ∅).

(** A queue whose least entry is stale: cell (0, 0) is filled. *)
Definition stale_game : Scheduler.game :=
  Scheduler.Game four_solutions_board
    [(1, 0, 0); (2, 6, 2); (2, 8, 8)]%nat
    ({[ (0, 0) ]} ∪ {[ (6, 2) ]} ∪ {[ (8, 8) ]})%nat.

End Examples.
From Stdlib Require Import Sorted.

(** ** Notions shared by the two solvers *)

Module Completion.

(** [t] is a completion of [b]: a complete valid grid that keeps every
    filled cell of [b]. *)
Definition completion (b t : grid) : Prop := solution t /\ extends b t.

(** No cell of the row, the column or the box of [(r, c)] holds [d]. *)
Definition absent (b : grid) (r c : nat) (d : Z) : Prop :=
  forall u r' c', (r' < 9)%nat -> (c' < 9)%nat ->
    BitmaskSolver.in_house u r c -> BitmaskSolver.in_house u r' c' ->
    cell b r' c' <> d.

(** The three mask arrays of the hybrid store, read as a store of the
    bitmask solver: both classes keep the same three arrays. *)
Definition masks_of (s : Hybrid.store) : BitmaskSolver.store :=
  BitmaskSolver.Store (Hybrid.board s) (Hybrid.row_mask s) (Hybrid.col_mask s)
                      (Hybrid.box_mask s).

(** The values [0 .. 511] a nine-bit mask can take. *)
Definition masks9 : list Z := Z.of_nat <$> seq 0 512.

(** A board the game can be in: 9x9, digits or blanks, no conflict. *)
Definition valid_board (b : grid) : Prop :=
  wf_board b /\ digits_board b /\ no_conflict b.

(** The state [_solve_dp_helper] works on: a valid board with the three
    mask arrays in step with it. *)
Definition position_ok (s : Hybrid.store) : Prop :=
  valid_board (Hybrid.board s) /\ BitmaskSolver.mirrors (masks_of s).

(** What [dp_cache] holds between two calls: failures only, each for a
    board that has no completion. *)
Definition cache_sound (s : Hybrid.store) : Prop :=
  forall key v, Hybrid.dp_cache s !! key = Some v ->
    v = Hybrid.RNone /\ ~ exists t, completion key t.

(** What a call of [_solve_dp_helper] on [s] has achieved when it
    returns [res] in store [s']. *)
Definition answer (s : Hybrid.store) (res : Hybrid.pyres) (s' : Hybrid.store)
  : Prop :=
  match res with
  | Hybrid.RBoard => completion (Hybrid.board s) (Hybrid.board s')
  | Hybrid.RNone =>
      Hybrid.same_position s s' /\ cache_sound s'
      /\ ~ exists t, completion (Hybrid.board s) t
  end.

End Completion.

(** ** What the search of the bitmask solver reaches *)

Module Reach.

(** [t] is the board [b] with the cells of [cells] filled with digits
    so that no two peers clash. *)
Definition fills (cells : list (nat * nat)) (b t : grid) : Prop :=
  wf_board t /\ no_conflict t /\
  (forall r c, (r, c) ∈ cells -> 1 <= cell t r c <= 9) /\
  (forall r c, (r, c) ∉ cells -> cell t r c = cell b r c).

(** The boards on which [_backtrack_count] reaches
    [idx == len(empty_cells)] when no level returns early: at each cell
    of [cells] every digit the masks allow is placed in turn. *)
Fixpoint leaves (cells : list (nat * nat)) (s : BitmaskSolver.store)
  : list grid :=
  match cells with
  | [] => [BitmaskSolver.board s]
  | (r, c) :: rest =>
      k ← filter (fun k =>
                    Z.land (BitmaskSolver.taken_mask s r c (get_box_index r c))
                           (Z.shiftl 1 k) = 0) bits9;
      leaves rest (BitmaskSolver.placed s r c (get_box_index r c) k)
  end.

(** The running [count] of one level of [_backtrack_count] as a
    function of the counts [ns] its recursive calls return, in the
    order of the calls: each one is added to [count], and the level
    returns the sum as soon as it is [>= limit]. *)
Fixpoint running_count (limit : Z) (ns : list Z) (count : Z) : Z :=
  match ns with
  | [] => count
  | n :: ns' =>
      if limit <=? count + n then count + n
      else running_count limit ns' (count + n)
  end.

End Reach.

(** ** The scheduler: the entries it queues *)

Module Queue.

(** The entry [(len(candidates), i, j)] the scheduler pushes for an
    empty cell that has a candidate. *)
Definition wanted (b : grid) (e : Scheduler.entry) : Prop :=
  cell b e.1.2 e.2 = 0
  /\ e.1.1 = length (Hybrid.get_candidates b e.1.2 e.2)
  /\ e.1.1 <> 0%nat.

(** Python's tuple order on the entries. *)
Definition entry_le (x y : Scheduler.entry) : Prop :=
  Scheduler.entry_leb x y = true.

(** The queue names cells of the board. *)
Definition in_range (q : list Scheduler.entry) : Prop :=
  Forall (fun e => (e.1.2 < 9)%nat /\ (e.2 < 9)%nat) q.

End Queue.

(** ** The entry widgets

    [on_cell_edit] reads the text of a cell with [cell.get().strip()]
    and parses it with [int(v)].  What the program does next depends on
    the outcome only: the stripped text is empty, [int] returns a
    number, or [int] raises [ValueError]. *)

Module Widget.

Inductive entry_text := Blank | Number (num : Z) | Garbage.

End Widget.

(** ** sudoku_dp.py: the game logic of class SudokuDuel *)

Module DpGame.
Import Generator Widget.

(** The part of [self] the game logic reads and writes; [strict] is the
    state of the check box [strict_var]. *)
Record game := Game {
  board : grid;
  initial_board : grid;
  solution_board : grid;
  game_over : bool;
  strict : bool;
  difficulty : Generator.difficulty
}.

(** The two [for] loops of [ai_turn] with their [break]s: the first
    empty cell in row-major order receives the solver's value. *)
Fixpoint fill_first_empty (cells : list (nat * nat)) (b solved : grid) : grid :=
  match cells with
  | [] => b
  | (r, c) :: rest =>
      if cell b r c =? 0 then set_cell b r c (cell solved r c)
      else fill_first_empty rest b solved
  end.

(** [ai_turn()]; [not solved] holds for [None] and for an empty list. *)
Definition ai_turn (g : game) : game :=
  if game_over g then g
  else
    match SudokuDp.solve_dp (board g) with
    | None | Some [] => g
    | Some solved =>
        let b := fill_first_empty all_cells (board g) solved in
        Game b (initial_board g) (solution_board g)
             (if SudokuDp.is_complete b then true else game_over g)
             (strict g) (difficulty g)
    end.

(** [on_cell_edit(row, col)] with the outcome [v] of reading the entry.
    (The [except ValueError] also catches the negative shift count the
    solver raises on a board with a negative cell; the boards of the
    game hold 0..9.) *)
Definition on_cell_edit (g : game) (row col : nat) (v : entry_text) : game :=
  if game_over g || negb (cell (initial_board g) row col =? 0) then g
  else
    match v with
    | Blank =>
        Game (set_cell (board g) row col 0) (initial_board g)
             (solution_board g) (game_over g) (strict g) (difficulty g)
    | Garbage => g
    | Number num =>
        if negb ((1 <=? num) && (num <=? 9)) then g
        else if strict g && negb (num =? cell (solution_board g) row col) then g
        else
          let b := set_cell (board g) row col num in
          if SudokuDp.is_complete b then
            Game b (initial_board g) (solution_board g) true (strict g)
                 (difficulty g)
          else
            ai_turn (Game b (initial_board g) (solution_board g) (game_over g)
                          (strict g) (difficulty g))
    end.

(** [new_game()] with the outcomes [r] of its shuffles. *)
Definition new_game (g : game) (r : rng) : game :=
  let '(puzzle, full) := SudokuDp.generate_puzzle (difficulty g) r in
  Game puzzle puzzle full false (strict g) (difficulty g).

(** [reset_board()] *)
Definition reset_board (g : game) : game :=
  Game (initial_board g) (initial_board g) (solution_board g) false (strict g)
       (difficulty g).

(** The scan of [show_hint]: the first empty cell and the solver's value
    for it. *)
Fixpoint first_empty (cells : list (nat * nat)) (b solved : grid)
  : option (nat * nat * Z) :=
  match cells with
  | [] => None
  | (r, c) :: rest =>
      if cell b r c =? 0 then Some (r, c, cell solved r c)
      else first_empty rest b solved
  end.

(** [show_hint()]: the cell and the value the message box names (the
    text shows them as [r + 1], [c + 1] and the value), or [None] when
    no message is shown. *)
Definition show_hint (g : game) : option (nat * nat * Z) :=
  match SudokuDp.solve_dp (board g) with
  | None | Some [] => None
  | Some solved => first_empty all_cells (board g) solved
  end.

(** What every state of the game satisfies: a 9x9 board of digits and
    blanks that still shows the clues.  (sudoku_dp.py does not check an
    entry against the rules, so the board may hold a clash.) *)
Definition sane (g : game) : Prop :=
  wf_board (board g) /\ digits_board (board g)
  /\ extends (initial_board g) (board g).

(** The game is on track: the puzzle has the reference grid as its only
    counted solution and every filled cell agrees with it. *)
Definition on_track (g : game) : Prop :=
  solution (solution_board g)
  /\ wf_board (initial_board g)
  /\ SudokuDp.carved_from (solution_board g) (initial_board g)
  /\ BitmaskSolver.count_solutions (initial_board g) 2 = 1
  /\ wf_board (board g)
  /\ SudokuDp.carved_from (solution_board g) (board g)
  /\ extends (initial_board g) (board g).

End DpGame.

(** ** sudoku_hybrid.py: the game logic of class SudokuDuel *)

Module HybridGame.
Import Generator Widget.

Inductive turn := User | Ai.

(** The part of [self] the game logic reads and writes: the scheduler's
    part (board and queue) and the rest. *)
Record game := Game {
  sched : Scheduler.game;
  initial_board : grid;
  solution_board : grid;
  game_over : bool;
  strict : bool;
  current_turn : turn;
  difficulty : option Generator.difficulty
}.

Definition board (g : game) : grid := Scheduler.board (sched g).

(** [self.board[row][col] = v] *)
Definition write (g : game) (row col : nat) (v : Z) : game :=
  Game (Scheduler.Game (set_cell (board g) row col v)
                       (Scheduler.pq (sched g)) (Scheduler.pq_entries (sched g)))
       (initial_board g) (solution_board g) (game_over g) (strict g)
       (current_turn g) (difficulty g).

(** [on_cell_edit(row, col)] with the outcome [v] of reading the entry;
    the flag tells whether [self.root.after(300, self.ai_turn)] was
    called. *)
Definition on_cell_edit (g : game) (row col : nat) (v : entry_text)
  : game * bool :=
  if game_over g then (g, false)
  else if negb (cell (initial_board g) row col =? 0) then (g, false)
  else
    match v with
    | Blank =>
        let g1 := write g row col 0 in
        (Game (Scheduler.initialize_priority_queue (sched g1))
              (initial_board g) (solution_board g) (game_over g) (strict g)
              (current_turn g) (difficulty g), false)
    | Garbage => (g, false)
    | Number num =>
        if negb ((1 <=? num) && (num <=? 9)) then (g, false)
        else if strict g && negb (num =? cell (solution_board g) row col)
        then (write g row col 0, false)
        else if Hybrid.is_valid (board g) row col num then
          let s1 := Scheduler.Game (set_cell (board g) row col num)
                      (Scheduler.pq (sched g))
                      (Scheduler.pq_entries (sched g) ∖ {[(row, col)]}) in
          let s2 := Scheduler.update_neighbors s1 row col in
          if Hybrid.is_complete (Scheduler.board s2) then
            (Game s2 (initial_board g) (solution_board g) true (strict g)
                  (current_turn g) (difficulty g), false)
          else
            (Game s2 (initial_board g) (solution_board g) (game_over g)
                  (strict g) Ai (difficulty g), true)
        else (write g row col 0, false)
    end.

(** [new_game()] with the outcomes [r] of its shuffles. *)
Definition new_game (g : game) (r : rng) : game :=
  let '(puzzle, full) := Hybrid.generate_puzzle (difficulty g) r in
  Game (Scheduler.initialize_priority_queue
          (Scheduler.Game puzzle (Scheduler.pq (sched g))
                          (Scheduler.pq_entries (sched g))))
       puzzle full false (strict g) User (difficulty g).

(** [reset_board()] *)
Definition reset_board (g : game) : game :=
  Game (Scheduler.initialize_priority_queue
          (Scheduler.Game (initial_board g) (Scheduler.pq (sched g))
                          (Scheduler.pq_entries (sched g))))
       (initial_board g) (solution_board g) false (strict g) User (difficulty g).

Section Play.

Variable set_iter : list Z -> list Z.

(** [ai_turn()]; [r] holds the outcomes of the shuffles of the
    [new_game()] it may call; the [option] is the fuel of the solver. *)
Definition ai_turn (g : game) (r : rng) : option game :=
  if game_over g then Some g
  else
    match Scheduler.ai_make_move set_iter (sched g) with
    | None => None
    | Some (false, s') =>
        if Hybrid.is_complete (Scheduler.board s') then
          Some (Game s' (initial_board g) (solution_board g) true (strict g)
                     (current_turn g) (difficulty g))
        else
          Some (new_game (Game s' (initial_board g) (solution_board g)
                               (game_over g) (strict g) (current_turn g)
                               (difficulty g)) r)
    | Some (true, s') =>
        if Hybrid.is_complete (Scheduler.board s') then
          Some (Game s' (initial_board g) (solution_board g) true (strict g)
                     (current_turn g) (difficulty g))
        else
          Some (Game s' (initial_board g) (solution_board g) (game_over g)
                     (strict g) User (difficulty g))
    end.

End Play.

(** The loop [while self.pq and self.board[...] != 0: heapq.heappop]
    of [show_hint]. *)
Fixpoint pop_stale (b : grid) (q : list Scheduler.entry) : list Scheduler.entry :=
  match q with
  | [] => []
  | (n, r, c) :: q' => if negb (cell b r c =? 0) then pop_stale b q' else q
  end.

(** [show_hint()]: the new state and the cell the hint highlights with
    [sorted(get_candidates(...))], or [None] when no cell is
    highlighted. *)
Definition show_hint (g : game) : game * option (nat * nat * list Z) :=
  if game_over g then (g, None)
  else
    let s1 := Scheduler.initialize_priority_queue (sched g) in
    let q := pop_stale (Scheduler.board s1) (Scheduler.pq s1) in
    let g' := Game (Scheduler.Game (Scheduler.board s1) q (Scheduler.pq_entries s1))
                   (initial_board g) (solution_board g) (game_over g)
                   (strict g) (current_turn g) (difficulty g) in
    match q with
    | [] => (g', None)
    | (_, row, col) :: _ =>
        (g', Some (row, col, Hybrid.get_candidates (Scheduler.board s1) row col))
    end.

(** What every state of the game satisfies: the puzzle and the board
    are valid, the board still shows the clues, and the queue names
    cells of the board. *)
Definition playable (g : game) : Prop :=
  Completion.valid_board (initial_board g)
  /\ Completion.valid_board (board g)
  /\ extends (initial_board g) (board g)
  /\ Queue.in_range (Scheduler.pq (sched g)).

End HybridGame.

(** ** Sample states *)

Module MoreExamples.
Import Examples.

(** A game of sudoku_dp.py on the two-holes puzzle, strict mode on. *)
Definition dp_game : DpGame.game :=
  DpGame.Game two_holes_board two_holes_board pattern_board false true
              Generator.Easy.

(** The scheduler of sudoku_hybrid.py on the two-holes puzzle, with an
    empty queue. *)
Definition idle_scheduler : Scheduler.game :=
  Scheduler.Game two_holes_board [] ∅.

(** A game of sudoku_hybrid.py on the two-holes puzzle. *)
Definition hybrid_game : HybridGame.game :=
  HybridGame.Game idle_scheduler two_holes_board pattern_board false false
                  HybridGame.User (Some Generator.Easy).

End MoreExamples.

(** * Properties *)

(** ** Reading and writing cells *)

Section GridFacts.

Implicit Types (b : grid) (r c : nat) (v : Z).

Lemma wf_board_row b r :
  wf_board b -> (r < 9)%nat -> length (b !!! r) = 9%nat.
Proof.
  intros [Hlen Hrows] Hr.
  rewrite Forall_forall in Hrows. apply Hrows.
  apply list_elem_of_lookup. exists r.
  apply list_lookup_lookup_total_lt. lia.
Qed.

Lemma cell_set_cell_eq b r c v :
  wf_board b -> (r < 9)%nat -> (c < 9)%nat -> cell (set_cell b r c v) r c = v.
Proof.
  intros Hwf Hr Hc. unfold cell, set_cell.
  rewrite list_lookup_total_insert_eq by (destruct Hwf; lia).
  apply list_lookup_total_insert_eq. rewrite wf_board_row; auto.
Qed.

Lemma cell_set_cell_ne b r c v r' c' :
  (r, c) <> (r', c') -> cell (set_cell b r c v) r' c' = cell b r' c'.
Proof.
  intros Hne. unfold cell, set_cell.
  destruct (decide (r = r')) as [<-|Hr].
  - destruct (decide (r < length b)%nat) as [Hlt|Hge].
    + rewrite list_lookup_total_insert_eq by done.
      apply list_lookup_total_insert_ne. congruence.
    + by rewrite list_insert_ge by lia.
  - by rewrite list_lookup_total_insert_ne.
Qed.

Lemma set_cell_same b r c : set_cell b r c (cell b r c) = b.
Proof.
  unfold set_cell, cell.
  destruct (decide (r < length b)%nat) as [Hlt|Hge].
  - apply list_insert_id.
    rewrite list_lookup_lookup_total_lt by done. f_equal. symmetry.
    apply list_insert_id'. intros Hc.
    by apply list_lookup_lookup_total_lt.
  - apply list_insert_ge. lia.
Qed.

Lemma set_cell_twice b r c v w :
  set_cell (set_cell b r c v) r c w = set_cell b r c w.
Proof.
  unfold set_cell.
  destruct (decide (r < length b)%nat) as [Hlt|Hge].
  - rewrite list_lookup_total_insert_eq by done.
    by rewrite !list_insert_insert_eq.
  - by rewrite !(list_insert_ge b) by lia.
Qed.

(** Clearing a cell that was empty before it was written restores the
    board. *)
Lemma set_cell_undo b r c v :
  cell b r c = 0 -> set_cell (set_cell b r c v) r c 0 = b.
Proof.
  intros H0. rewrite set_cell_twice, <- H0. apply set_cell_same.
Qed.

Lemma wf_set_cell b r c v : wf_board b -> wf_board (set_cell b r c v).
Proof.
  intros [Hlen Hrows]. unfold set_cell.
  destruct (decide (r < length b)%nat) as [Hlt|Hge].
  - split; [by rewrite length_insert|].
    apply Forall_insert; [done|].
    rewrite length_insert.
    rewrite Forall_forall in Hrows. apply Hrows.
    apply list_elem_of_lookup. exists r.
    by apply list_lookup_lookup_total_lt.
  - by rewrite list_insert_ge by lia.
Qed.

Lemma extends_refl b : extends b b.
Proof. by intros r c _ _ _. Qed.

Lemma extends_trans b1 b2 b3 :
  extends b1 b2 -> extends b2 b3 -> extends b1 b3.
Proof.
  intros H12 H23 r c Hr Hc Hne.
  rewrite <- (H12 r c Hr Hc Hne). apply H23; auto.
  by rewrite (H12 r c Hr Hc Hne).
Qed.

(** Filling an empty cell gives a board that extends the old one. *)
Lemma extends_set_cell b r c v : cell b r c = 0 -> extends b (set_cell b r c v).
Proof.
  intros H0 r' c' _ _ Hne.
  apply cell_set_cell_ne. intros [= -> ->]. congruence.
Qed.

End GridFacts.

(** ** Single-bit masks *)

Section BitFacts.

Lemma shiftl_1_testbit k i :
  0 <= k -> 0 <= i -> Z.testbit (Z.shiftl 1 k) i = bool_decide (i = k).
Proof.
  intros Hk Hi. rewrite Z.shiftl_spec by done.
  case_bool_decide as Hik.
  - subst. by rewrite Z.sub_diag.
  - destruct (decide (i < k)) as [Hlt|Hge].
    + apply Z.testbit_neg_r. lia.
    + replace 1 with (Z.ones 1) by done.
      apply Z.ones_spec_high. lia.
Qed.

(** [taken & mask == 0] tests one bit. *)
Lemma land_bit_eq_0 x k :
  0 <= k -> Z.land x (Z.shiftl 1 k) = 0 <-> Z.testbit x k = false.
Proof.
  intros Hk. split.
  - intros H0.
    assert (Z.testbit (Z.land x (Z.shiftl 1 k)) k = false) as Hb
      by (rewrite H0; apply Z.bits_0).
    rewrite Z.land_spec, shiftl_1_testbit, bool_decide_eq_true_2 in Hb by done.
    by rewrite andb_true_r in Hb.
  - intros Hb. apply Z.bits_inj'. intros i Hi.
    rewrite Z.land_spec, Z.bits_0, shiftl_1_testbit by done.
    case_bool_decide; subst; [by rewrite Hb | apply andb_false_r].
Qed.

Lemma lor_testbit_set x k i :
  0 <= k -> 0 <= i ->
  Z.testbit (Z.lor x (Z.shiftl 1 k)) i = Z.testbit x i || bool_decide (i = k).
Proof. intros. by rewrite Z.lor_spec, shiftl_1_testbit. Qed.

(** [x |= mask] followed by [x &= ~mask] gives [x] back when no bit of
    [mask] was set in [x]. *)
Lemma land_lnot_lor x m : Z.land x m = 0 -> Z.land (Z.lor x m) (Z.lnot m) = x.
Proof.
  intros H0. apply Z.bits_inj'. intros i Hi.
  rewrite Z.land_spec, Z.lor_spec, Z.lnot_spec by done.
  assert (Z.testbit (Z.land x m) i = false) as Hb by (rewrite H0; apply Z.bits_0).
  rewrite Z.land_spec in Hb.
  destruct (Z.testbit x i), (Z.testbit m i); done.
Qed.

Lemma land_lor3_eq_0 x y z m :
  Z.land (Z.lor (Z.lor x y) z) m = 0 <->
  Z.land x m = 0 /\ Z.land y m = 0 /\ Z.land z m = 0.
Proof.
  rewrite !Z.land_lor_distr_l, !Z.lor_eq_0_iff. tauto.
Qed.

(** On a mask array: [a[i] |= m] and then [a[i] &= ~m]. *)
Lemma insert_set_clear (a : list Z) (i : nat) m :
  Z.land (a !!! i) m = 0 ->
  <[i := Z.land (<[i := Z.lor (a !!! i) m]> a !!! i) (Z.lnot m)]>
    (<[i := Z.lor (a !!! i) m]> a) = a.
Proof.
  intros H0.
  destruct (decide (i < length a)%nat) as [Hlt|Hge].
  - rewrite list_lookup_total_insert_eq by done.
    rewrite list_insert_insert_eq, land_lnot_lor by done.
    apply list_insert_id. by apply list_lookup_lookup_total_lt.
  - by rewrite !(list_insert_ge a) by lia.
Qed.

End BitFacts.

(** ** BitmaskSolver: trial and undo *)

Module BitmaskSolverFacts.
Import BitmaskSolver.

Lemma backtrack_cons r c rest s :
  _backtrack ((r, c) :: rest) s =
  try_digits (_backtrack rest) (taken_mask s r c (get_box_index r c))
    r c (get_box_index r c) bits9 s.
Proof. reflexivity. Qed.

Lemma backtrack_count_cons limit r c rest s :
  _backtrack_count limit ((r, c) :: rest) s =
  count_digits (_backtrack_count limit rest)
    (taken_mask s r c (get_box_index r c)) r c (get_box_index r c) limit
    bits9 0 s.
Proof. reflexivity. Qed.

Lemma undo_placed s r c box_idx k :
  Z.land (taken_mask s r c box_idx) (Z.shiftl 1 k) = 0 ->
  cell (board s) r c = 0 ->
  write (clear_bits (placed s r c box_idx k) r c box_idx (Z.shiftl 1 k)) r c 0 = s.
Proof.
  unfold taken_mask. rewrite land_lor3_eq_0. intros (Hr & Hc & Hb) H0.
  destruct s as [b rs cs bs]. unfold placed, write, clear_bits, set_bits. simpl in *.
  f_equal.
  - by apply set_cell_undo.
  - by apply insert_set_clear.
  - by apply insert_set_clear.
  - by apply insert_set_clear.
Qed.

Lemma cells_empty_placed b r c v rest :
  cells_empty b ((r, c) :: rest) -> NoDup ((r, c) :: rest) ->
  cells_empty (set_cell b r c v) rest.
Proof.
  intros Hall Hnd. apply Forall_cons in Hall as [_ Hrest].
  apply NoDup_cons in Hnd as [Hnotin _].
  unfold cells_empty in *. rewrite Forall_forall in Hrest |- *.
  intros [r' c'] Hin. specialize (Hrest _ Hin). simpl in Hrest.
  rewrite cell_set_cell_ne; [done|]. intros [= <- <-]. done.
Qed.

(** The digit loop of [_backtrack]: when every failing recursive call
    gives back the store it was started on, a failing loop gives back
    its own. *)
Lemma try_digits_restores rec s r c box_idx ks s' :
  cell (board s) r c = 0 ->
  (forall k s2, rec (placed s r c box_idx k) = (false, s2) ->
                s2 = placed s r c box_idx k) ->
  try_digits rec (taken_mask s r c box_idx) r c box_idx ks s = (false, s') ->
  s' = s.
Proof.
  intros H0 Hrec. induction ks as [|k ks IH]; simpl.
  - by intros [= ->].
  - destruct (Z.eqb_spec (Z.land (taken_mask s r c box_idx) (Z.shiftl 1 k)) 0)
      as [Hfree|Htaken]; [|done].
    fold (placed s r c box_idx k).
    destruct (rec (placed s r c box_idx k)) as [ok s2] eqn:Hcall.
    destruct ok; [done|].
    rewrite (Hrec _ _ Hcall), undo_placed by done. done.
Qed.

Lemma backtrack_restores cells : forall s s',
  cells_empty (board s) cells -> NoDup cells ->
  _backtrack cells s = (false, s') -> s' = s.
Proof.
  induction cells as [|[r c] rest IH]; intros s s' Hall Hnd.
  - done.
  - rewrite backtrack_cons. intros Hrun.
    eapply try_digits_restores; [| |exact Hrun].
    + by apply Forall_cons in Hall as [(_ & _ & ?) _].
    + intros k s2. apply IH.
      * unfold placed. simpl. by eapply cells_empty_placed.
      * by apply NoDup_cons in Hnd as [_ ?].
Qed.

(** The digit loop of [_backtrack_count] undoes every placement. *)
Lemma count_digits_restores rec s r c box_idx limit ks : forall count,
  cell (board s) r c = 0 ->
  (forall k, (rec (placed s r c box_idx k)).2 = placed s r c box_idx k) ->
  (count_digits rec (taken_mask s r c box_idx) r c box_idx limit ks count s).2 = s.
Proof.
  intros count H0 Hrec. revert count. induction ks as [|k ks IH]; intros count; simpl.
  - done.
  - destruct (Z.eqb_spec (Z.land (taken_mask s r c box_idx) (Z.shiftl 1 k)) 0)
      as [Hfree|Htaken]; [|done].
    fold (placed s r c box_idx k).
    specialize (Hrec k).
    destruct (rec (placed s r c box_idx k)) as [n s2]. simpl in Hrec. subst s2.
    rewrite undo_placed by done.
    destruct (limit <=? count + n); [done|apply IH].
Qed.

Lemma backtrack_count_restores limit cells : forall s,
  cells_empty (board s) cells -> NoDup cells ->
  (_backtrack_count limit cells s).2 = s.
Proof.
  induction cells as [|[r c] rest IH]; intros s Hall Hnd.
  - done.
  - rewrite backtrack_count_cons. apply count_digits_restores.
    + by apply Forall_cons in Hall as [(_ & _ & ?) _].
    + intros k. apply IH.
      * unfold placed. simpl. by eapply cells_empty_placed.
      * by apply NoDup_cons in Hnd as [_ ?].
Qed.

(** *** The range of the count *)

Lemma count_digits_range rec taken r c box_idx limit B ks : forall count s,
  (forall s1, 0 <= (rec s1).1 <= B) ->
  0 <= count < limit ->
  0 <= (count_digits rec taken r c box_idx limit ks count s).1 <= limit - 1 + B.
Proof.
  intros count s Hrec. revert count s.
  induction ks as [|k ks IH]; intros count s Hcount; simpl.
  - specialize (Hrec s). lia.
  - destruct (Z.land taken (Z.shiftl 1 k) =? 0); [|by apply IH].
    match goal with |- context [rec ?s1] =>
      specialize (Hrec s1) as Hn; destruct (rec s1) as [n s2] end.
    simpl in Hn.
    destruct (Z.leb_spec limit (count + n)); simpl; [lia|].
    apply IH. lia.
Qed.

Lemma backtrack_count_range limit cells : forall s,
  1 <= limit ->
  0 <= (_backtrack_count limit cells s).1
    <= 1 + (limit - 1) * Z.of_nat (length cells).
Proof.
  induction cells as [|[r c] rest IH]; intros s Hlimit; simpl length.
  - simpl. lia.
  - rewrite backtrack_count_cons.
    pose proof (count_digits_range (_backtrack_count limit rest)
      (taken_mask s r c (get_box_index r c)) r c (get_box_index r c) limit
      (1 + (limit - 1) * Z.of_nat (length rest)) bits9 0 s
      (fun s1 => IH s1 Hlimit)) as Hloop.
    rewrite Nat2Z.inj_succ, Z.mul_succ_r. lia.
Qed.

(** *** The masks mirror the board *)

#[local] Instance in_house_dec u r c : Decision (in_house u r c).
Proof. destruct u; simpl; apply _. Defined.

Lemma peers_house r c r' c' :
  peers r c r' c' <->
  (r, c) <> (r', c') /\
  exists u, in_house u r c /\ in_house u r' c'.
Proof.
  unfold peers. split; intros [Hne H]; (split; [done|]).
  - destruct H as [<-|[<-|Hb]].
    + by exists (Row r).
    + by exists (Col c).
    + by exists (Box (get_box_index r c)).
  - destruct H as ([r0|c0|i] & H1 & H2); simpl in *; subst; auto.
Qed.

Lemma get_box_index_lt r c : (r < 9 -> c < 9 -> get_box_index r c < 9)%nat.
Proof.
  intros Hr Hc. unfold get_box_index.
  pose proof (Nat.Div0.div_lt_upper_bound r 3 3).
  pose proof (Nat.Div0.div_lt_upper_bound c 3 3). lia.
Qed.

Lemma in_house_index u r c :
  (r < 9)%nat -> (c < 9)%nat -> in_house u r c -> (house_index u < 9)%nat.
Proof.
  destruct u; simpl; intros ? ? <-; auto using get_box_index_lt.
Qed.

(** The effect of the three [|= mask] on the bit of any house. *)
Lemma mask_of_set_bits s r c k u k' :
  (length (rows s) = 9 /\ length (cols s) = 9 /\ length (boxes s) = 9)%nat ->
  (r < 9)%nat -> (c < 9)%nat -> 0 <= k -> 0 <= k' ->
  Z.testbit (mask_of (set_bits s r c (get_box_index r c) (Z.shiftl 1 k)) u) k'
  = Z.testbit (mask_of s u) k'
    || (bool_decide (in_house u r c) && bool_decide (k' = k)).
Proof.
  intros (Hr & Hc & Hb) Hr9 Hc9 Hk Hk'.
  pose proof (get_box_index_lt r c Hr9 Hc9) as Hbox.
  destruct u as [r0|c0|i0]; simpl; rewrite list_lookup_total_insert;
    case_decide as Hd; case_bool_decide as Hin; try (exfalso; lia);
    rewrite ?lor_testbit_set by done; subst;
    rewrite ?orb_false_r; try done; exfalso; apply Hd; split; auto; lia.
Qed.

Lemma mirrors_lengths s :
  mirrors s ->
  (length (rows s) = 9 /\ length (cols s) = 9 /\ length (boxes s) = 9)%nat.
Proof. by intros [? _]. Qed.

(** A placement on an empty cell keeps the masks in step with the
    board. *)
Lemma mirrors_placed s r c k :
  wf_board (board s) -> mirrors s ->
  (r < 9)%nat -> (c < 9)%nat -> cell (board s) r c = 0 -> 0 <= k < 9 ->
  mirrors (placed s r c (get_box_index r c) k).
Proof.
  intros Hwf [Hlen Hm] Hr Hc H0 Hk. split.
  - unfold placed, set_bits. simpl. by rewrite !length_insert.
  - intros u k' Hu Hk'. unfold placed.
    rewrite mask_of_set_bits by (simpl; auto; lia).
    change (mask_of (write s r c (k + 1)) u) with (mask_of s u).
    change (board (set_bits (write s r c (k + 1)) r c (get_box_index r c)
                     (Z.shiftl 1 k)))
      with (set_cell (board s) r c (k + 1)).
    rewrite orb_true_iff, andb_true_iff, !bool_decide_eq_true, (Hm u k' Hu Hk').
    split.
    + intros [(r' & c' & Hr' & Hc' & Hin & Hv)|[Hin ->]].
      * exists r', c'. repeat split; auto.
        rewrite cell_set_cell_ne; [done|]. intros [= <- <-]. lia.
      * exists r, c. repeat split; auto. by apply cell_set_cell_eq.
    + intros (r' & c' & Hr' & Hc' & Hin & Hv).
      destruct (decide ((r, c) = (r', c'))) as [[= <- <-]|Hne].
      * right. rewrite cell_set_cell_eq in Hv by done. split; [done|lia].
      * left. rewrite cell_set_cell_ne in Hv by done. by exists r', c'.
Qed.

(** The digit a solution puts on an empty cell is never excluded by the
    masks. *)
Lemma solution_digit_free s t r c k :
  mirrors s -> solution t -> extends (board s) t ->
  (r < 9)%nat -> (c < 9)%nat -> cell (board s) r c = 0 ->
  cell t r c = k + 1 -> 0 <= k < 9 ->
  Z.land (taken_mask s r c (get_box_index r c)) (Z.shiftl 1 k) = 0.
Proof.
  intros [Hlen Hm] (Hwft & Hdig & Hnc) Hext Hr Hc H0 Ht Hk.
  assert (forall u, in_house u r c -> Z.land (mask_of s u) (Z.shiftl 1 k) = 0)
    as Hfree.
  { intros u Hin. apply land_bit_eq_0; [lia|].
    apply not_true_is_false. intros Hbit.
    apply Hm in Hbit as (r' & c' & Hr' & Hc' & Hin' & Hv);
      [|by apply (in_house_index u r c)|done].
    assert ((r, c) <> (r', c')) as Hne by (intros [= <- <-]; lia).
    apply (Hnc r c r' c'); auto.
    - apply peers_house. split; [done|]. by exists u.
    - lia.
    - rewrite Ht, (Hext r' c') by (auto; lia). done. }
  unfold taken_mask. apply land_lor3_eq_0. split; [|split].
  - by apply (Hfree (Row r)).
  - by apply (Hfree (Col c)).
  - by apply (Hfree (Box (get_box_index r c))).
Qed.

Lemma extends_placed b t r c v :
  wf_board b -> extends b t -> cell t r c = v -> extends (set_cell b r c v) t.
Proof.
  intros Hwf Hext Ht r' c' Hr' Hc' Hne.
  destruct (decide ((r, c) = (r', c'))) as [[= <- <-]|Hd].
  - by rewrite cell_set_cell_eq.
  - rewrite cell_set_cell_ne in Hne |- * by done. by apply Hext.
Qed.

(** Placing a digit the masks allow keeps the board free of conflicts. *)
Lemma no_conflict_placed s r c k :
  wf_board (board s) -> mirrors s -> no_conflict (board s) ->
  (r < 9)%nat -> (c < 9)%nat -> cell (board s) r c = 0 -> 0 <= k < 9 ->
  Z.land (taken_mask s r c (get_box_index r c)) (Z.shiftl 1 k) = 0 ->
  no_conflict (set_cell (board s) r c (k + 1)).
Proof.
  intros Hwf [Hlen Hm] Hnc Hr Hc H0 Hk Hfree.
  unfold taken_mask in Hfree. apply land_lor3_eq_0 in Hfree as (Hfr & Hfc & Hfb).
  assert (forall r' c', (r' < 9)%nat -> (c' < 9)%nat -> peers r c r' c' ->
                        cell (board s) r' c' <> k + 1) as Habsent.
  { intros r' c' Hr' Hc' Hp Hv.
    apply peers_house in Hp as (Hne & u & Hin & Hin').
    assert (Z.testbit (mask_of s u) k = true) as Hbit.
    { apply Hm; [by apply (in_house_index u r c)|done|]. by exists r', c'. }
    assert (Z.land (mask_of s u) (Z.shiftl 1 k) = 0) as Hz
      by (destruct u; simpl in *; subst; done).
    apply land_bit_eq_0 in Hz; [congruence|lia]. }
  intros r1 c1 r2 c2 Hr1 Hc1 Hr2 Hc2 Hp Hnz.
  pose proof Hp as [Hne Hshare].
  destruct (decide ((r, c) = (r1, c1))) as [[= <- <-]|Hd1].
  - rewrite cell_set_cell_eq, cell_set_cell_ne by done.
    intros Heq. by apply (Habsent r2 c2).
  - rewrite (cell_set_cell_ne _ _ _ _ r1 c1) in Hnz |- * by done.
    destruct (decide ((r, c) = (r2, c2))) as [[= <- <-]|Hd2].
    + rewrite cell_set_cell_eq by done.
      apply (Habsent r1 c1); auto.
      destruct Hshare as [?|[?|?]]; split; auto.
    + rewrite cell_set_cell_ne by done. by apply Hnc.
Qed.

(** *** What the search finds *)

Lemma bits9_range k : k ∈ bits9 <-> 0 <= k < 9.
Proof.
  unfold bits9. rewrite !elem_of_cons, elem_of_nil. lia.
Qed.

Lemma ready_head s r c rest :
  ready s ((r, c) :: rest) ->
  (r < 9)%nat /\ (c < 9)%nat /\ cell (board s) r c = 0 /\ (r, c) ∉ rest.
Proof.
  intros (_ & _ & Hall & Hnd).
  apply Forall_cons in Hall as [(? & ? & ?) _].
  apply NoDup_cons in Hnd as [? _]. auto.
Qed.

Lemma ready_placed s r c rest k :
  ready s ((r, c) :: rest) -> 0 <= k < 9 ->
  ready (placed s r c (get_box_index r c) k) rest.
Proof.
  intros Hready Hk. pose proof (ready_head _ _ _ _ Hready) as (Hr & Hc & H0 & _).
  destruct Hready as (Hwf & Hm & Hall & Hnd).
  split; [|split; [|split]].
  - by apply wf_set_cell.
  - by apply mirrors_placed.
  - by eapply cells_empty_placed.
  - by apply NoDup_cons in Hnd as [_ ?].
Qed.

Lemma failing_call_restores s r c rest k s2 :
  ready s ((r, c) :: rest) ->
  _backtrack rest (placed s r c (get_box_index r c) k) = (false, s2) ->
  s2 = placed s r c (get_box_index r c) k.
Proof.
  intros (_ & _ & Hall & Hnd). apply backtrack_restores.
  - unfold placed. simpl. by eapply cells_empty_placed.
  - by apply NoDup_cons in Hnd as [_ ?].
Qed.

Lemma counting_call_restores limit s r c rest k :
  ready s ((r, c) :: rest) ->
  (_backtrack_count limit rest (placed s r c (get_box_index r c) k)).2
  = placed s r c (get_box_index r c) k.
Proof.
  intros (_ & _ & Hall & Hnd). apply backtrack_count_restores.
  - unfold placed. simpl. by eapply cells_empty_placed.
  - by apply NoDup_cons in Hnd as [_ ?].
Qed.

(** A successful digit loop returns from one of its recursive calls. *)
Lemma try_digits_true rec s r c box_idx ks s' :
  cell (board s) r c = 0 ->
  (forall k s2, rec (placed s r c box_idx k) = (false, s2) ->
                s2 = placed s r c box_idx k) ->
  try_digits rec (taken_mask s r c box_idx) r c box_idx ks s = (true, s') ->
  exists k, k ∈ ks /\ Z.land (taken_mask s r c box_idx) (Z.shiftl 1 k) = 0
            /\ rec (placed s r c box_idx k) = (true, s').
Proof.
  intros H0 Hrec. induction ks as [|k ks IH]; simpl; [done|].
  destruct (Z.eqb_spec (Z.land (taken_mask s r c box_idx) (Z.shiftl 1 k)) 0)
    as [Hfree|Htaken].
  - fold (placed s r c box_idx k).
    destruct (rec (placed s r c box_idx k)) as [ok s2] eqn:Hcall.
    destruct ok.
    + intros [= ->]. exists k. split; [left|done].
    + rewrite (Hrec _ _ Hcall), undo_placed by done.
      intros Hrun. destruct (IH Hrun) as (k' & ? & ?). exists k'. split; [by right|done].
  - intros Hrun. destruct (IH Hrun) as (k' & ? & ?). exists k'. split; [by right|done].
Qed.

(** The digit loop succeeds when the recursive call of some allowed
    digit does. *)
Lemma try_digits_finds rec s r c box_idx ks k :
  cell (board s) r c = 0 ->
  (forall k s2, rec (placed s r c box_idx k) = (false, s2) ->
                s2 = placed s r c box_idx k) ->
  k ∈ ks -> Z.land (taken_mask s r c box_idx) (Z.shiftl 1 k) = 0 ->
  (rec (placed s r c box_idx k)).1 = true ->
  (try_digits rec (taken_mask s r c box_idx) r c box_idx ks s).1 = true.
Proof.
  intros H0 Hrec Hin Hfree Hok. induction ks as [|k0 ks IH]; simpl.
  - by apply elem_of_nil in Hin.
  - destruct (Z.eqb_spec (Z.land (taken_mask s r c box_idx) (Z.shiftl 1 k0)) 0)
      as [Hfree0|Htaken0].
    + fold (placed s r c box_idx k0).
      destruct (rec (placed s r c box_idx k0)) as [ok s2] eqn:Hcall.
      destruct ok; [done|].
      rewrite (Hrec _ _ Hcall), undo_placed by done.
      apply IH. apply elem_of_cons in Hin as [->|Hin]; [|done].
      rewrite Hcall in Hok. done.
    + apply IH. apply elem_of_cons in Hin as [->|Hin]; [done|done].
Qed.

(** Soundness: a successful search fills exactly the listed cells, with
    digits, and creates no conflict. *)
Lemma backtrack_sound cells : forall s s',
  ready s cells -> no_conflict (board s) ->
  _backtrack cells s = (true, s') ->
  wf_board (board s') /\ no_conflict (board s') /\
  (forall r c, (r, c) ∈ cells -> 1 <= cell (board s') r c <= 9) /\
  (forall r c, (r, c) ∉ cells -> cell (board s') r c = cell (board s) r c).
Proof.
  induction cells as [|[r c] rest IH]; intros s s' Hready Hnc.
  - intros [= <-]. destruct Hready as (Hwf & _).
    split; [done|split; [done|split; [|done]]].
    intros r c Hin. by apply elem_of_nil in Hin.
  - rewrite backtrack_cons. intros Hrun.
    pose proof (ready_head _ _ _ _ Hready) as (Hr & Hc & H0 & Hnotin).
    apply try_digits_true in Hrun as (k & Hk & Hfree & Hcall); [|done|].
    2:{ intros k s2. by apply failing_call_restores. }
    apply bits9_range in Hk.
    pose proof Hready as (Hwf & Hm & _).
    apply IH in Hcall as (Hwf' & Hnc' & Hfilled & Hframe);
      [|by apply ready_placed|by apply no_conflict_placed].
    split; [done|split; [done|split]].
    + intros r' c' [[= -> ->]|Hin]%elem_of_cons; [|by apply Hfilled].
      rewrite Hframe by done. unfold placed. simpl.
      rewrite cell_set_cell_eq by done. lia.
    + intros r' c' [Hne Hnin]%not_elem_of_cons.
      rewrite Hframe by done. unfold placed. simpl.
      apply cell_set_cell_ne. congruence.
Qed.

Lemma solution_digit t r c :
  solution t -> (r < 9)%nat -> (c < 9)%nat ->
  exists k, 0 <= k < 9 /\ cell t r c = k + 1.
Proof.
  intros (_ & Hdig & _) Hr Hc. exists (cell t r c - 1).
  specialize (Hdig r c Hr Hc). lia.
Qed.

(** Completeness: when some solution extends the board, the search
    succeeds. *)
Lemma backtrack_complete cells : forall s t,
  ready s cells -> solution t -> extends (board s) t ->
  (_backtrack cells s).1 = true.
Proof.
  induction cells as [|[r c] rest IH]; intros s t Hready Hsol Hext; [done|].
  rewrite backtrack_cons.
  pose proof (ready_head _ _ _ _ Hready) as (Hr & Hc & H0 & Hnotin).
  pose proof Hready as (Hwf & Hm & _ & Hnd).
  destruct (solution_digit t r c Hsol Hr Hc) as (k & Hk & Ht).
  apply (try_digits_finds _ _ _ _ _ _ k); auto.
  - intros k' s2. by apply failing_call_restores.
  - by apply bits9_range.
  - by eapply solution_digit_free.
  - apply (IH _ t); [by apply ready_placed|done|].
    unfold placed. simpl. by apply extends_placed.
Qed.

(** *** What the count sees *)

Section CountLoop.

Variables (rec : store -> Z * store) (s : store) (r c box_idx : nat) (limit : Z).

Hypothesis cell_empty : cell (board s) r c = 0.
Hypothesis rec_restores :
  forall k, (rec (placed s r c box_idx k)).2 = placed s r c box_idx k.
Hypothesis rec_nonneg : forall s1, 0 <= (rec s1).1.

Let loop := count_digits rec (taken_mask s r c box_idx) r c box_idx limit.

(** One step of the loop on an allowed digit; the store is back to [s]
    afterwards. *)
Lemma count_digits_step k ks count :
  Z.land (taken_mask s r c box_idx) (Z.shiftl 1 k) = 0 ->
  loop (k :: ks) count s =
  let count' := count + (rec (placed s r c box_idx k)).1 in
  if limit <=? count' then (count', s) else loop ks count' s.
Proof.
  intros Hfree. unfold loop. cbn [count_digits].
  destruct (Z.eqb_spec (Z.land (taken_mask s r c box_idx) (Z.shiftl 1 k)) 0);
    [|done].
  fold (placed s r c box_idx k).
  pose proof (rec_restores k) as Hres.
  destruct (rec (placed s r c box_idx k)) as [n s2]. cbn [fst snd] in *.
  subst s2. by rewrite undo_placed by done.
Qed.

Lemma count_digits_skip k ks count :
  Z.land (taken_mask s r c box_idx) (Z.shiftl 1 k) <> 0 ->
  loop (k :: ks) count s = loop ks count s.
Proof.
  intros Htaken. unfold loop. cbn [count_digits].
  apply Z.eqb_neq in Htaken. by rewrite Htaken.
Qed.

(** The running count never decreases. *)
Lemma count_digits_mono ks : forall count, count <= (loop ks count s).1.
Proof.
  induction ks as [|k ks IH]; intros count; [done|].
  destruct (decide (Z.land (taken_mask s r c box_idx) (Z.shiftl 1 k) = 0))
    as [Hfree|Htaken].
  - rewrite count_digits_step by done. simpl.
    pose proof (rec_nonneg (placed s r c box_idx k)).
    destruct (Z.leb_spec limit (count + (rec (placed s r c box_idx k)).1));
      simpl; [lia|].
    etrans; [|apply IH]. lia.
  - rewrite count_digits_skip by done. apply IH.
Qed.

(** A branch worth [j] is counted, unless the limit is reached first. *)
Lemma count_digits_one ks k j : forall count,
  k ∈ ks -> Z.land (taken_mask s r c box_idx) (Z.shiftl 1 k) = 0 ->
  j <= (rec (placed s r c box_idx k)).1 ->
  Z.min limit (count + j) <= (loop ks count s).1.
Proof.
  induction ks as [|k0 ks IH]; intros count Hin Hfree Hj.
  - by apply elem_of_nil in Hin.
  - destruct (decide (Z.land (taken_mask s r c box_idx) (Z.shiftl 1 k0) = 0))
      as [Hfree0|Htaken0].
    + rewrite count_digits_step by done. simpl.
      pose proof (rec_nonneg (placed s r c box_idx k0)).
      destruct (Z.leb_spec limit (count + (rec (placed s r c box_idx k0)).1));
        simpl; [lia|].
      apply elem_of_cons in Hin as [->|Hin].
      * etrans; [|apply count_digits_mono]. lia.
      * etrans; [|by apply IH]. lia.
    + rewrite count_digits_skip by done.
      apply elem_of_cons in Hin as [->|Hin]; [done|by apply IH].
Qed.

(** Two different branches worth one each are both counted, unless the
    limit is reached first. *)
Lemma count_digits_two ks k1 k2 : forall count,
  k1 <> k2 -> k1 ∈ ks -> k2 ∈ ks ->
  Z.land (taken_mask s r c box_idx) (Z.shiftl 1 k1) = 0 ->
  Z.land (taken_mask s r c box_idx) (Z.shiftl 1 k2) = 0 ->
  1 <= (rec (placed s r c box_idx k1)).1 ->
  1 <= (rec (placed s r c box_idx k2)).1 ->
  Z.min limit (count + 2) <= (loop ks count s).1.
Proof.
  induction ks as [|k0 ks IH]; intros count Hne Hin1 Hin2 Hfree1 Hfree2 H1 H2.
  - by apply elem_of_nil in Hin1.
  - destruct (decide (Z.land (taken_mask s r c box_idx) (Z.shiftl 1 k0) = 0))
      as [Hfree0|Htaken0].
    + rewrite count_digits_step by done. simpl.
      pose proof (rec_nonneg (placed s r c box_idx k0)).
      destruct (Z.leb_spec limit (count + (rec (placed s r c box_idx k0)).1));
        simpl; [lia|].
      apply elem_of_cons in Hin1 as [->|Hin1];
        apply elem_of_cons in Hin2 as [->|Hin2]; try done.
      * etrans; [|by apply (count_digits_one ks k2 1)]. lia.
      * etrans; [|by apply (count_digits_one ks k1 1)]. lia.
      * etrans; [|by apply IH]. lia.
    + rewrite count_digits_skip by done.
      apply elem_of_cons in Hin1 as [->|Hin1]; [done|].
      apply elem_of_cons in Hin2 as [->|Hin2]; [done|].
      by apply IH.
Qed.

End CountLoop.

Lemma backtrack_count_nonneg limit cells s :
  1 <= limit -> 0 <= (_backtrack_count limit cells s).1.
Proof. intros. by apply backtrack_count_range. Qed.

(** A solution that extends the board is counted. *)
Lemma backtrack_count_ge1 limit cells : forall s t,
  1 <= limit -> ready s cells -> solution t -> extends (board s) t ->
  1 <= (_backtrack_count limit cells s).1.
Proof.
  induction cells as [|[r c] rest IH]; intros s t Hlimit Hready Hsol Hext; [done|].
  rewrite backtrack_count_cons.
  pose proof (ready_head _ _ _ _ Hready) as (Hr & Hc & H0 & Hnotin).
  pose proof Hready as (Hwf & Hm & _ & Hnd).
  destruct (solution_digit t r c Hsol Hr Hc) as (k & Hk & Ht).
  etrans; [|apply (count_digits_one _ s r c _ limit H0) with (k := k) (j := 1)].
  - lia.
  - intros k'. by apply counting_call_restores.
  - intros s1. by apply backtrack_count_nonneg.
  - by apply bits9_range.
  - by eapply solution_digit_free.
  - apply (IH _ t); [done|by apply ready_placed|done|].
    unfold placed. simpl. by apply extends_placed.
Qed.

(** Two solutions that extend the board and differ on a listed cell are
    both counted, up to the limit. *)
Lemma backtrack_count_ge2 limit cells : forall s t1 t2,
  1 <= limit -> ready s cells ->
  solution t1 -> extends (board s) t1 ->
  solution t2 -> extends (board s) t2 ->
  (exists r c, (r, c) ∈ cells /\ cell t1 r c <> cell t2 r c) ->
  Z.min limit 2 <= (_backtrack_count limit cells s).1.
Proof.
  induction cells as [|[r c] rest IH];
    intros s t1 t2 Hlimit Hready Hsol1 Hext1 Hsol2 Hext2 (r0 & c0 & Hin & Hdiff).
  { by apply elem_of_nil in Hin. }
  rewrite backtrack_count_cons.
  pose proof (ready_head _ _ _ _ Hready) as (Hr & Hc & H0 & Hnotin).
  pose proof Hready as (Hwf & Hm & _ & Hnd).
  destruct (solution_digit t1 r c Hsol1 Hr Hc) as (k1 & Hk1 & Ht1).
  destruct (solution_digit t2 r c Hsol2 Hr Hc) as (k2 & Hk2 & Ht2).
  assert (forall k', (_backtrack_count limit rest
                        (placed s r c (get_box_index r c) k')).2
                     = placed s r c (get_box_index r c) k') as Hrestore
    by (intros; by apply counting_call_restores).
  assert (forall s1, 0 <= (_backtrack_count limit rest s1).1) as Hnonneg
    by (intros; by apply backtrack_count_nonneg).
  assert (forall t k, solution t -> extends (board s) t -> cell t r c = k + 1 ->
            0 <= k < 9 ->
            extends (board (placed s r c (get_box_index r c) k)) t) as Hext'
    by (intros; unfold placed; simpl; by apply extends_placed).
  destruct (decide (k1 = k2)) as [<-|Hne].
  - assert ((r0, c0) ∈ rest) as Hin'.
    { apply elem_of_cons in Hin as [[= -> ->]|?]; [|done]. congruence. }
    etrans; [|apply (count_digits_one _ s r c _ limit H0 Hrestore Hnonneg)
                with (k := k1) (j := Z.min limit 2)].
    + lia.
    + by apply bits9_range.
    + by eapply solution_digit_free.
    + apply (IH _ t1 t2); auto using ready_placed. by exists r0, c0.
  - apply (count_digits_two _ s r c _ limit H0 Hrestore Hnonneg bits9 k1 k2 0);
      auto.
    + by apply bits9_range.
    + by apply bits9_range.
    + by apply (solution_digit_free s t1).
    + by apply (solution_digit_free s t2).
    + apply (backtrack_count_ge1 limit rest _ t1); auto using ready_placed.
    + apply (backtrack_count_ge1 limit rest _ t2); auto using ready_placed.
Qed.

(** *** The entry points *)

Lemma elem_of_all_cells r c : (r, c) ∈ all_cells <-> (r < 9)%nat /\ (c < 9)%nat.
Proof.
  unfold all_cells, range9. rewrite list_elem_of_bind. split.
  - intros (r' & (c' & Hin & Hc)%list_elem_of_bind & Hr).
    apply list_elem_of_singleton in Hin as [= -> ->].
    apply elem_of_seq in Hr, Hc. lia.
  - intros [Hr Hc]. exists r. split; [|apply elem_of_seq; lia].
    apply list_elem_of_bind. exists c. split; [|apply elem_of_seq; lia].
    by apply list_elem_of_singleton.
Qed.

Lemma NoDup_all_cells : NoDup all_cells.
Proof. apply (bool_decide_unpack _). by vm_compute. Qed.

Lemma elem_of_empty_cells b r c :
  (r, c) ∈ empty_cells b <-> (r < 9)%nat /\ (c < 9)%nat /\ cell b r c = 0.
Proof.
  unfold empty_cells. rewrite list_elem_of_filter, elem_of_all_cells. tauto.
Qed.

Lemma cells_empty_empty_cells b : cells_empty b (empty_cells b).
Proof.
  apply Forall_forall. intros [r c] Hin. by apply elem_of_empty_cells.
Qed.

Lemma NoDup_empty_cells b : NoDup (empty_cells b).
Proof. apply NoDup_filter, NoDup_all_cells. Qed.

(** The scan of [_initialize_masks] over a list of cells: the board is
    only read, and the empty cells are collected in scan order. *)
Lemma init_cells_scan l : forall s acc,
  let res := fold_left init_cell l (s, acc) in
  board res.1 = board s /\
  res.2 = acc ++ filter (fun '(r, c) => cell (board s) r c = 0) l.
Proof.
  induction l as [|[r c] l IH]; intros s acc; simpl.
  - by rewrite app_nil_r.
  - destruct (Z.eqb_spec (cell (board s) r c) 0) as [H0|Hnz].
    + destruct (IH s (acc ++ [(r, c)])) as [Hb Hacc]. split; [done|].
      rewrite Hacc, filter_cons_True by done. by rewrite <- app_assoc.
    + destruct (IH (set_bits s r c (get_box_index r c)
                      (Z.shiftl 1 (cell (board s) r c - 1))) acc) as [Hb Hacc].
      split; [done|]. rewrite Hacc. simpl. by rewrite filter_cons_False.
Qed.

(** The bits the scan sets: those that were set, and one for each digit
    met. *)
Lemma init_cells_bits l : forall s acc,
  Forall (fun '(r, c) => (r < 9)%nat /\ (c < 9)%nat) l ->
  (length (rows s) = 9 /\ length (cols s) = 9 /\ length (boxes s) = 9)%nat ->
  digits_board (board s) ->
  let s' := (fold_left init_cell l (s, acc)).1 in
  (length (rows s') = 9 /\ length (cols s') = 9 /\ length (boxes s') = 9)%nat /\
  forall u k, (house_index u < 9)%nat -> 0 <= k < 9 ->
    Z.testbit (mask_of s' u) k = true <->
    Z.testbit (mask_of s u) k = true \/
    exists r c, (r, c) ∈ l /\ in_house u r c /\ cell (board s) r c = k + 1.
Proof.
  induction l as [|[r c] l IH]; intros s acc Hrange Hlen Hdig; simpl.
  - split; [done|]. intros u k _ _. split; [by left|].
    intros [?|(r & c & Hin & _)]; [done|]. by apply elem_of_nil in Hin.
  - apply Forall_cons in Hrange as [[Hr Hc] Hrange].
    destruct (Z.eqb_spec (cell (board s) r c) 0) as [H0|Hnz].
    + destruct (IH s (acc ++ [(r, c)]) Hrange Hlen Hdig) as [Hlen' Hbits].
      split; [done|]. intros u k Hu Hk. rewrite (Hbits u k Hu Hk).
      split; (intros [?|(r' & c' & Hin & Hh & Hv)]; [by left|right]).
      * exists r', c'. split; [by right|done].
      * apply elem_of_cons in Hin as [[= -> ->]|Hin]; [lia|]. by exists r', c'.
    + set (v := cell (board s) r c) in *.
      assert (1 <= v <= 9) as Hv by (specialize (Hdig r c Hr Hc); lia).
      set (s1 := set_bits s r c (get_box_index r c) (Z.shiftl 1 (v - 1))).
      destruct (IH s1 acc Hrange) as [Hlen' Hbits].
      { unfold s1, set_bits. simpl. by rewrite !length_insert. }
      { done. }
      split; [done|]. intros u k Hu Hk. rewrite (Hbits u k Hu Hk).
      unfold s1 at 1. rewrite mask_of_set_bits by (auto; lia).
      rewrite orb_true_iff, andb_true_iff, !bool_decide_eq_true.
      change (board s1) with (board s).
      split.
      * intros [[?|[Hh ->]]|(r' & c' & Hin & Hh & Hv')]; [by left|right..].
        -- exists r, c. split; [left|]. split; [done|]. fold v. lia.
        -- exists r', c'. split; [by right|done].
      * intros [?|(r' & c' & Hin & Hh & Hv')]; [by left; left|].
        apply elem_of_cons in Hin as [[= -> ->]|Hin].
        -- left; right. split; [done|]. fold v in Hv'. lia.
        -- right. by exists r', c'.
Qed.

Lemma initialize_masks_board b :
  board (_initialize_masks b).1 = b /\ (_initialize_masks b).2 = empty_cells b.
Proof.
  unfold _initialize_masks.
  destruct (init_cells_scan all_cells
              (Store b (replicate 9 0) (replicate 9 0) (replicate 9 0)) [])
    as [Hb Hacc].
  split; [done|]. by rewrite Hacc.
Qed.

(** After [_initialize_masks] the masks mirror the board. *)
Lemma initialize_masks_mirrors b :
  digits_board b -> mirrors (_initialize_masks b).1.
Proof.
  intros Hdig. unfold _initialize_masks.
  set (s0 := Store b (replicate 9 0) (replicate 9 0) (replicate 9 0)).
  destruct (init_cells_bits all_cells s0 []) as [Hlen Hbits].
  { apply Forall_forall. intros [r c]. apply elem_of_all_cells. }
  { unfold s0. simpl. by rewrite ?length_replicate. }
  { done. }
  split; [done|]. intros u k Hu Hk. rewrite (Hbits u k Hu Hk).
  destruct (initialize_masks_board b) as [Hb _].
  unfold _initialize_masks in Hb. fold s0 in Hb. rewrite Hb.
  split.
  - intros [Hbit|(r & c & Hin & Hh & Hv)].
    + exfalso. destruct u; unfold s0 in Hbit;
        cbn [mask_of rows cols boxes house_index] in Hbit, Hu;
        rewrite lookup_total_replicate_2, Z.bits_0 in Hbit by done; done.
    + apply elem_of_all_cells in Hin as [Hr Hc]. by exists r, c.
  - intros (r & c & Hr & Hc & Hh & Hv). right. exists r, c.
    split; [by apply elem_of_all_cells|done].
Qed.

Lemma insert_by_key_perm {A} (key : A -> nat) x l :
  insert_by_key key x l ≡ₚ x :: l.
Proof.
  induction l as [|y l IH]; simpl; [done|].
  destruct (key x <=? key y)%nat; [done|].
  rewrite IH. apply perm_swap.
Qed.

Lemma sort_by_key_perm {A} (key : A -> nat) (l : list A) :
  sort_by_key key l ≡ₚ l.
Proof.
  induction l as [|x l IH]; simpl; [done|].
  by rewrite insert_by_key_perm, IH.
Qed.

(** The store and the cell list [solve] starts the search with. *)
Lemma solve_ready b :
  wf_board b -> digits_board b ->
  forall key, ready (_initialize_masks b).1
                (sort_by_key key (_initialize_masks b).2).
Proof.
  intros Hwf Hdig key.
  destruct (initialize_masks_board b) as [Hb Hcells].
  split; [|split; [|split]].
  - by rewrite Hb.
  - by apply initialize_masks_mirrors.
  - unfold cells_empty. rewrite sort_by_key_perm, Hb, Hcells.
    apply cells_empty_empty_cells.
  - rewrite sort_by_key_perm, Hcells. apply NoDup_empty_cells.
Qed.

Lemma count_ready b :
  wf_board b -> digits_board b ->
  ready (_initialize_masks b).1 (empty_cells b).
Proof.
  intros Hwf Hdig.
  destruct (initialize_masks_board b) as [Hb Hcells].
  split; [|split; [|split]].
  - by rewrite Hb.
  - by apply initialize_masks_mirrors.
  - rewrite Hb. apply cells_empty_empty_cells.
  - apply NoDup_empty_cells.
Qed.

Lemma solve_unfold b :
  solve b =
  let s := (_initialize_masks b).1 in
  let cells := sort_by_key (fun cell => _count_options s cell.1 cell.2)
                 (_initialize_masks b).2 in
  if (_backtrack cells s).1 then Some (board (_backtrack cells s).2) else None.
Proof.
  unfold solve. destruct (_initialize_masks b) as [s cells]. simpl.
  by destruct (_backtrack _ s) as [[] s'].
Qed.

(** [solve] returns a complete valid grid that keeps the clues. *)
Lemma solve_sound b t :
  wf_board b -> digits_board b -> no_conflict b ->
  solve b = Some t -> solution t /\ extends b t.
Proof.
  intros Hwf Hdig Hnc. rewrite solve_unfold. cbv zeta.
  set (s := (_initialize_masks b).1).
  set (cells := sort_by_key _ _).
  pose proof (solve_ready b Hwf Hdig
                (fun cell => _count_options s cell.1 cell.2)) as Hready.
  fold s cells in Hready.
  destruct (initialize_masks_board b) as [Hb Hcells]. fold s in Hb.
  destruct (_backtrack cells s) as [ok s'] eqn:Hrun. cbn [fst snd].
  destruct ok; [|done]. intros [= <-].
  apply backtrack_sound in Hrun as (Hwf' & Hnc' & Hfilled & Hframe);
    [|done|by rewrite Hb].
  rewrite Hb in Hframe.
  assert (forall r c, (r, c) ∈ cells <-> (r < 9)%nat /\ (c < 9)%nat /\ cell b r c = 0)
    as Hcells_spec.
  { intros r c. unfold cells. rewrite sort_by_key_perm, Hcells.
    apply elem_of_empty_cells. }
  split; [split; [done|split; [|done]]|].
  - intros r c Hr Hc. destruct (decide (cell b r c = 0)) as [H0|Hnz].
    + apply Hfilled, Hcells_spec. auto.
    + rewrite Hframe by (rewrite Hcells_spec; tauto).
      specialize (Hdig r c Hr Hc). lia.
  - intros r c Hr Hc Hnz. apply Hframe. rewrite Hcells_spec. tauto.
Qed.

(** [solve] finds a solution whenever the clues have one. *)
Lemma solve_complete b t :
  wf_board b -> digits_board b -> solution t -> extends b t ->
  is_Some (solve b).
Proof.
  intros Hwf Hdig Hsol Hext. rewrite solve_unfold. cbv zeta.
  set (s := (_initialize_masks b).1).
  set (cells := sort_by_key _ _).
  pose proof (solve_ready b Hwf Hdig
                (fun cell => _count_options s cell.1 cell.2)) as Hready.
  fold s cells in Hready.
  destruct (initialize_masks_board b) as [Hb Hcells]. fold s in Hb.
  rewrite (backtrack_complete cells s t); [done|done|done|by rewrite Hb].
Qed.

Lemma count_solutions_unfold b limit :
  count_solutions b limit =
  (_backtrack_count limit (empty_cells b) (_initialize_masks b).1).1.
Proof. unfold count_solutions. by destruct (_initialize_masks b). Qed.

(** A 9x9 board is determined by its 81 cells. *)
Lemma grid_ext t1 t2 :
  wf_board t1 -> wf_board t2 ->
  (forall r c, (r < 9)%nat -> (c < 9)%nat -> cell t1 r c = cell t2 r c) ->
  t1 = t2.
Proof.
  intros [Hlen1 Hrows1] [Hlen2 Hrows2] Hcells.
  apply (list_eq_same_length _ _ 9%nat); [done..|].
  intros r x y Hr Hx Hy.
  rewrite Forall_forall in Hrows1, Hrows2.
  apply (list_eq_same_length _ _ 9%nat).
  - apply Hrows2. eapply list_elem_of_lookup_2, Hy.
  - apply Hrows1. eapply list_elem_of_lookup_2, Hx.
  - intros c v w Hc Hv Hw.
    specialize (Hcells r c Hr Hc). unfold cell in Hcells.
    rewrite (list_lookup_total_correct _ _ _ Hx) in Hcells.
    rewrite (list_lookup_total_correct _ _ _ Hy) in Hcells.
    rewrite (list_lookup_total_correct _ _ _ Hv) in Hcells.
    by rewrite (list_lookup_total_correct _ _ _ Hw) in Hcells.
Qed.

Lemma grid_differ t1 t2 :
  wf_board t1 -> wf_board t2 -> t1 <> t2 ->
  exists r c, (r < 9)%nat /\ (c < 9)%nat /\ cell t1 r c <> cell t2 r c.
Proof.
  intros Hwf1 Hwf2 Hne.
  destruct (decide (Forall (fun '(r, c) => cell t1 r c = cell t2 r c) all_cells))
    as [Hall|Hex].
  - exfalso. apply Hne, grid_ext; [done..|]. intros r c Hr Hc.
    rewrite Forall_forall in Hall.
    apply (Hall (r, c)), elem_of_all_cells. done.
  - apply not_Forall_Exists in Hex; [|intros [??]; apply _].
    apply Exists_exists in Hex as ([r c] & Hin & Hd).
    apply elem_of_all_cells in Hin as [Hr Hc]. by exists r, c.
Qed.

(** Two different solutions of the clues make the count reach
    [min(limit, 2)]. *)
Lemma count_solutions_two b limit t1 t2 :
  1 <= limit -> wf_board b -> digits_board b ->
  solution t1 -> extends b t1 -> solution t2 -> extends b t2 ->
  t1 <> t2 -> Z.min limit 2 <= count_solutions b limit.
Proof.
  intros Hlimit Hwf Hdig Hsol1 Hext1 Hsol2 Hext2 Hne.
  rewrite count_solutions_unfold.
  destruct (initialize_masks_board b) as [Hb _].
  destruct (grid_differ t1 t2) as (r & c & Hr & Hc & Hd);
    [by destruct Hsol1|by destruct Hsol2|done|].
  apply (backtrack_count_ge2 limit _ _ t1 t2); auto using count_ready;
    try by rewrite Hb.
  exists r, c. split; [|done]. apply elem_of_empty_cells.
  split; [done|split; [done|]].
  destruct (decide (cell b r c = 0)) as [|Hnz]; [done|].
  exfalso. apply Hd. by rewrite Hext1, Hext2.
Qed.

(** On a board without an empty cell the count is 1. *)
Lemma count_solutions_full b limit :
  (forall r c, (r < 9)%nat -> (c < 9)%nat -> cell b r c <> 0) ->
  count_solutions b limit = 1.
Proof.
  intros Hfull. rewrite count_solutions_unfold.
  assert (forall s, (_backtrack_count limit [] s).1 = 1) as Hnil by done.
  assert (empty_cells b = []) as ->; [|apply Hnil].
  apply elem_of_nil_inv. intros [r c] Hin.
  apply elem_of_empty_cells in Hin as (Hr & Hc & H0). by apply (Hfull r c).
Qed.

(** *** The cells the search writes *)

Lemma try_digits_frame rec taken r c box_idx r' c' :
  (r, c) <> (r', c') ->
  (forall s1, cell (board (rec s1).2) r' c' = cell (board s1) r' c') ->
  forall ks s,
    cell (board (try_digits rec taken r c box_idx ks s).2) r' c'
    = cell (board s) r' c'.
Proof.
  intros Hne Hrec. induction ks as [|k ks IH]; intros s; simpl; [done|].
  destruct (Z.land taken (Z.shiftl 1 k) =? 0); [|apply IH].
  match goal with |- context [rec ?s1] =>
    pose proof (Hrec s1) as Hs1; destruct (rec s1) as [ok s2] end.
  simpl in Hs1. rewrite cell_set_cell_ne in Hs1 by done.
  destruct ok; [done|].
  rewrite IH. simpl. by rewrite cell_set_cell_ne.
Qed.

(** [_backtrack] never changes a cell outside its cell list, whether it
    succeeds or not. *)
Lemma backtrack_frame cells r' c' :
  (r', c') ∉ cells ->
  forall s, cell (board (_backtrack cells s).2) r' c' = cell (board s) r' c'.
Proof.
  induction cells as [|[r c] rest IH]; intros Hnotin s; [done|].
  apply not_elem_of_cons in Hnotin as [Hne Hnotin].
  rewrite backtrack_cons. apply try_digits_frame; [congruence|].
  by apply IH.
Qed.

(** [solve] keeps the clues, on any board. *)
Lemma solve_extends b t : solve b = Some t -> extends b t.
Proof.
  rewrite solve_unfold. cbv zeta.
  destruct (initialize_masks_board b) as [Hb Hcells].
  set (s := (_initialize_masks b).1) in *.
  set (cells := sort_by_key _ _).
  assert (forall r c, (r < 9)%nat -> (c < 9)%nat -> cell b r c <> 0 ->
            (r, c) ∉ cells) as Hnotin.
  { intros r c Hr Hc Hnz. unfold cells.
    rewrite sort_by_key_perm, Hcells, elem_of_empty_cells. tauto. }
  pose proof (fun r c H => backtrack_frame cells r c H s) as Hframe.
  destruct (_backtrack cells s) as [ok s'] eqn:Hrun. cbn [fst snd] in *.
  destruct ok; [|done]. intros [= <-] r c Hr Hc Hnz.
  rewrite Hframe, Hb; auto.
Qed.

End BitmaskSolverFacts.

(** ** The reference grid *)

Module GeneratorFacts.
Import Generator.

Lemma lookup_all_from {A} (l pre : list A) :
  omap (fun i => (pre ++ l) !! i) (seq (length pre) (length l)) = l.
Proof.
  revert pre. induction l as [|x l IH]; intros pre; [done|].
  csimpl. rewrite list_lookup_middle by done. csimpl. f_equal.
  specialize (IH (pre ++ [x])).
  rewrite <- app_assoc, length_app in IH. simpl in IH.
  by rewrite Nat.add_1_r in IH.
Qed.

(** A shuffle rearranges: its result is a permutation of the list. *)
Lemma shuffled_perm {A} (sigma : list nat) (l : list A) :
  Rng.outcome (length l) sigma -> Rng.shuffled sigma l ≡ₚ l.
Proof.
  unfold Rng.outcome, Rng.shuffled. intros ->.
  pose proof (lookup_all_from l []) as Hall. simpl in Hall. by rewrite Hall.
Qed.

Lemma shuffled_fmap {A B} (g : A -> B) sigma (l : list A) :
  Rng.shuffled sigma (g <$> l) = g <$> Rng.shuffled sigma l.
Proof.
  unfold Rng.shuffled. induction sigma as [|i sigma IH]; csimpl; [done|].
  rewrite list_lookup_fmap, IH. by destruct (l !! i).
Qed.

(** The six ways a band of three rows can come out of a shuffle. *)
Lemma outcome3_cases sigma : Rng.outcome 3 sigma -> sigma ∈ Rng.outcomes3.
Proof.
  unfold Rng.outcome. intros Hperm.
  assert (sigma ∈ permutations (seq 0 3)) as Hin
    by (by apply permutations_Permutation).
  vm_compute in Hin. unfold Rng.outcomes3.
  repeat (apply elem_of_cons in Hin as [->|Hin]; [set_solver|]).
  by apply elem_of_nil in Hin.
Qed.

Lemma band_outcomes_spec s0 s3 s6 :
  Rng.outcome 3 s0 -> Rng.outcome 3 s3 -> Rng.outcome 3 s6 ->
  (s0, s3, s6) ∈ band_outcomes.
Proof.
  intros H0%outcome3_cases H3%outcome3_cases H6%outcome3_cases.
  unfold band_outcomes.
  apply list_elem_of_bind. exists s0. split; [|done].
  apply list_elem_of_bind. exists s3. split; [|done].
  apply list_elem_of_bind. exists s6. split; [|done].
  by apply list_elem_of_singleton.
Qed.

(** *** The shuffles act on positions, not on values *)

Lemma shuffle_band_fmap {A B} (g : list A -> list B) i sigma b :
  shuffle_band i sigma (g <$> b) = g <$> shuffle_band i sigma b.
Proof.
  unfold shuffle_band.
  by rewrite !fmap_app, <- shuffled_fmap, !fmap_take, !fmap_drop.
Qed.

Lemma shuffle_bands_fmap {A B} (g : list A -> list B) sg b :
  shuffle_bands sg (g <$> b) = g <$> shuffle_bands sg b.
Proof.
  destruct sg as [[s0 s3] s6]. unfold shuffle_bands.
  by rewrite !shuffle_band_fmap.
Qed.

Lemma zip_with_cons_fmap {A B} (f : A -> B) (r : list A) (t : list (list A)) :
  zip_with cons (f <$> r) (fmap (M := list) f <$> t)
  = fmap (M := list) f <$> zip_with cons r t.
Proof.
  revert t. induction r as [|x r IH]; intros [|y t]; simpl; try done.
  by rewrite IH.
Qed.

Lemma transpose_cons2 {A} (r r' : list A) rest :
  transpose (r :: r' :: rest) = zip_with cons r (transpose (r' :: rest)).
Proof. reflexivity. Qed.

Lemma transpose_fmap {A B} (f : A -> B) (b : list (list A)) :
  transpose (fmap (M := list) f <$> b) = fmap (M := list) f <$> transpose b.
Proof.
  induction b as [|r [|r' rest] IH]; [done| |].
  - simpl. rewrite <- !list_fmap_compose. done.
  - rewrite transpose_cons2, <- zip_with_cons_fmap, <- IH.
    by rewrite !fmap_cons, transpose_cons2.
Qed.

Lemma shuffle_board_fmap {A B} (f : A -> B) rs cs (b : list (list A)) :
  shuffle_board rs cs (fmap (M := list) f <$> b)
  = fmap (M := list) f <$> shuffle_board rs cs b.
Proof.
  unfold shuffle_board.
  by rewrite shuffle_bands_fmap, transpose_fmap, shuffle_bands_fmap,
    transpose_fmap.
Qed.

Lemma get_base_pattern_fmap nums :
  get_base_pattern nums
  = fmap (M := list) (fun i => nums !!! i) <$> pattern_grid.
Proof. reflexivity. Qed.

(** *** All shuffles of the index pattern *)

(** Each of the 216 x 216 outcomes of the row and column shuffles
    leaves a grid of indices whose 27 houses hold 0..8. *)
Lemma all_shuffles_check :
  forallb (fun rs =>
    forallb (fun cs => index_check (shuffle_board rs cs pattern_grid))
            band_outcomes) band_outcomes = true.
Proof. vm_cast_no_check (eq_refl true). Qed.

Lemma perm_check_sound l : perm_check l = true -> l ≡ₚ seq 0 9.
Proof.
  unfold perm_check. intros [Hlen Hall]%andb_true_iff.
  apply Nat.eqb_eq in Hlen. symmetry.
  apply submseteq_length_Permutation; [|by rewrite Hlen].
  apply NoDup_submseteq; [apply NoDup_seq|].
  intros d Hd. rewrite forallb_forall in Hall.
  specialize (Hall d). rewrite <- list_elem_of_In in Hall.
  apply Hall in Hd. apply existsb_exists in Hd as (d' & Hin & ->%Nat.eqb_eq).
  by apply list_elem_of_In.
Qed.

Lemma shuffled_index_grid rs cs :
  rs ∈ band_outcomes -> cs ∈ band_outcomes ->
  index_check (shuffle_board rs cs pattern_grid) = true.
Proof.
  intros Hrs Hcs. pose proof all_shuffles_check as Hall.
  rewrite forallb_forall in Hall.
  specialize (Hall rs). rewrite <- list_elem_of_In in Hall.
  specialize (Hall Hrs). rewrite forallb_forall in Hall.
  apply Hall. by apply list_elem_of_In.
Qed.

(** *** From indices to digits *)

Lemma fmap_lookup_total_seq (l : list Z) :
  (fun i => l !!! i) <$> seq 0 (length l) = l.
Proof.
  apply list_eq. intros i. rewrite list_lookup_fmap.
  destruct (decide (i < length l)%nat) as [Hlt|Hge].
  - rewrite lookup_seq_lt by done. simpl.
    by rewrite list_lookup_lookup_total_lt.
  - rewrite lookup_seq_ge, lookup_ge_None_2 by lia. done.
Qed.

Section Relabel.

(** [nums] is the shuffled digit list, [g] a grid of indices into it
    that passes the check. *)
Variables (nums : list Z) (g : list (list nat)).
Hypothesis nums_perm : nums ≡ₚ digits.
Hypothesis g_ok : index_check g = true.

Let f := fun i : nat => nums !!! i.
Let b : grid := fmap (M := list) f <$> g.

Lemma relabel_length : length g = 9%nat.
Proof. by apply andb_true_iff in g_ok as [?%Nat.eqb_eq _]. Qed.

Lemma relabel_house h : h ∈ houses g -> f <$> h ≡ₚ digits.
Proof.
  intros Hin. apply andb_true_iff in g_ok as [_ Hall].
  rewrite forallb_forall in Hall. specialize (Hall h).
  rewrite <- list_elem_of_In in Hall.
  rewrite (perm_check_sound h (Hall Hin)).
  assert (length nums = 9%nat) as Hlen by by rewrite nums_perm.
  unfold f. rewrite <- Hlen at 1. by rewrite fmap_lookup_total_seq.
Qed.

Lemma relabel_row_length r : (r < 9)%nat -> length (g !!! r) = 9%nat.
Proof.
  intros Hr. apply andb_true_iff in g_ok as [_ Hall].
  rewrite forallb_forall in Hall. specialize (Hall (g !!! r)).
  rewrite <- list_elem_of_In in Hall.
  assert (g !!! r ∈ houses g) as Hin.
  { unfold houses. apply elem_of_app. left.
    apply list_elem_of_fmap. exists r. split; [done|].
    apply elem_of_seq. lia. }
  apply Hall, andb_true_iff in Hin as [Hlen _]. by apply Nat.eqb_eq.
Qed.

Lemma relabel_row r : (r < 9)%nat -> b !!! r = f <$> (g !!! r).
Proof.
  intros Hr. unfold b.
  apply list_lookup_total_fmap. rewrite relabel_length. done.
Qed.

Lemma relabel_cell r c :
  (r < 9)%nat -> (c < 9)%nat -> cell b r c = f ((g !!! r) !!! c).
Proof.
  intros Hr Hc. unfold cell. rewrite relabel_row by done.
  apply list_lookup_total_fmap. by rewrite relabel_row_length.
Qed.

Lemma relabel_wf : wf_board b.
Proof.
  split.
  - unfold b. by rewrite length_fmap, relabel_length.
  - apply Forall_forall. intros row Hin.
    apply list_elem_of_lookup in Hin as [r Hr].
    assert (r < 9)%nat as Hr9.
    { apply lookup_lt_Some in Hr. unfold b in Hr.
      by rewrite length_fmap, relabel_length in Hr. }
    apply list_lookup_total_correct in Hr. rewrite <- Hr, relabel_row by done.
    by rewrite length_fmap, relabel_row_length.
Qed.

Lemma relabel_valid : valid_complete b.
Proof.
  split; [|split].
  - intros r Hr. unfold row_vals. rewrite relabel_row by done.
    apply relabel_house. unfold houses. apply elem_of_app. left.
    apply list_elem_of_fmap. exists r. split; [done|]. apply elem_of_seq. lia.
  - intros c Hc. unfold col_vals.
    rewrite (list_fmap_ext _ (f ∘ (fun r => (g !!! r) !!! c))).
    2:{ intros i r Hi. apply relabel_cell; [|done].
        apply list_elem_of_lookup_2, elem_of_seq in Hi. lia. }
    rewrite list_fmap_compose.
    apply relabel_house. unfold houses. apply elem_of_app. right.
    apply elem_of_app. left.
    apply list_elem_of_fmap. exists c. split; [done|]. apply elem_of_seq. lia.
  - intros br bc Hin. unfold box_vals.
    rewrite (list_fmap_ext _ (f ∘ (fun '(i, j) => (g !!! i) !!! j))).
    2:{ intros i [r c] Hi. apply list_elem_of_lookup_2 in Hi.
        assert (r < 9 /\ c < 9)%nat as [Hr Hc].
        { unfold block_origins, box_cells in *.
          apply list_elem_of_bind in Hin as (br' & Hin & Hbr).
          apply list_elem_of_bind in Hin as (bc' & Hin & Hbc).
          apply list_elem_of_singleton in Hin as [= -> ->].
          apply list_elem_of_bind in Hi as (r' & Hi & Hr').
          apply list_elem_of_bind in Hi as (c' & Hi & Hc').
          apply list_elem_of_singleton in Hi as [= -> ->].
          apply elem_of_seq in Hr', Hc'.
          set_unfold. lia. }
        by apply relabel_cell. }
    rewrite list_fmap_compose.
    apply relabel_house. unfold houses. apply elem_of_app. right.
    apply elem_of_app. right.
    apply list_elem_of_fmap. by exists (br, bc).
Qed.

End Relabel.

Lemma full_board_relabel g :
  full_board g =
  fmap (M := list) (fun i => Rng.shuffled (nums_sigma g) digits !!! i)
    <$> shuffle_board (row_sigmas g) (col_sigmas g) pattern_grid.
Proof.
  unfold full_board. by rewrite get_base_pattern_fmap, shuffle_board_fmap.
Qed.

Lemma full_board_index_check g :
  rng_ok g ->
  index_check (shuffle_board (row_sigmas g) (col_sigmas g) pattern_grid) = true.
Proof.
  intros (_ & (Hr0 & Hr3 & Hr6) & (Hc0 & Hc3 & Hc6) & _).
  destruct (row_sigmas g) as [[r0 r3] r6], (col_sigmas g) as [[c0 c3] c6].
  apply shuffled_index_grid; by apply band_outcomes_spec.
Qed.

Lemma full_board_wf g : rng_ok g -> wf_board (full_board g).
Proof.
  intros Hok. rewrite full_board_relabel.
  apply relabel_wf. by apply full_board_index_check.
Qed.

Lemma full_board_valid g : rng_ok g -> valid_complete (full_board g).
Proof.
  intros Hok. rewrite full_board_relabel.
  apply relabel_valid; [|by apply full_board_index_check].
  apply shuffled_perm. by destruct Hok as [? _].
Qed.

(** *** A grid of permutations is a solution *)

Lemma NoDup_fmap_inj_on {A B} (f : A -> B) (l : list A) x y :
  NoDup (f <$> l) -> x ∈ l -> y ∈ l -> f x = f y -> x = y.
Proof.
  induction l as [|z l IH]; csimpl; intros Hnd Hx Hy Hxy.
  - by apply elem_of_nil in Hx.
  - apply NoDup_cons in Hnd as [Hz Hnd].
    apply elem_of_cons in Hx as [->|Hx]; apply elem_of_cons in Hy as [->|Hy];
      auto.
    + exfalso. apply Hz. rewrite Hxy. by apply list_elem_of_fmap_2.
    + exfalso. apply Hz. rewrite <- Hxy. by apply list_elem_of_fmap_2.
Qed.

Lemma elem_of_box_cells br bc i j :
  (i, j) ∈ box_cells br bc <->
  (br <= i < br + 3)%nat /\ (bc <= j < bc + 3)%nat.
Proof.
  unfold box_cells. rewrite list_elem_of_bind. split.
  - intros (i' & (j' & Hin & Hj)%list_elem_of_bind & Hi).
    apply list_elem_of_singleton in Hin as [= -> ->].
    apply elem_of_seq in Hi, Hj. lia.
  - intros [Hi Hj]. exists i. split; [|apply elem_of_seq; lia].
    apply list_elem_of_bind. exists j. split; [|apply elem_of_seq; lia].
    by apply list_elem_of_singleton.
Qed.

Lemma block_origin_of r c :
  (r < 9)%nat -> (c < 9)%nat ->
  (3 * (r / 3), 3 * (c / 3))%nat ∈ block_origins
  /\ (r, c) ∈ box_cells (3 * (r / 3)) (3 * (c / 3)).
Proof.
  intros Hr Hc.
  pose proof (Nat.div_mod_eq r 3). pose proof (Nat.mod_upper_bound r 3).
  pose proof (Nat.div_mod_eq c 3). pose proof (Nat.mod_upper_bound c 3).
  split; [|apply elem_of_box_cells; lia].
  assert (r / 3 < 3)%nat as Hr3 by (apply Nat.Div0.div_lt_upper_bound; lia).
  assert (c / 3 < 3)%nat as Hc3 by (apply Nat.Div0.div_lt_upper_bound; lia).
  destruct (r / 3)%nat as [|[|[|?]]], (c / 3)%nat as [|[|[|?]]]; try lia;
    vm_compute; set_solver.
Qed.

Lemma same_box r c r' c' :
  (r < 9)%nat -> (c < 9)%nat -> (r' < 9)%nat -> (c' < 9)%nat ->
  get_box_index r c = get_box_index r' c' ->
  (r / 3 = r' / 3 /\ c / 3 = c' / 3)%nat.
Proof.
  unfold get_box_index. intros Hr Hc Hr' Hc' Heq.
  assert (c / 3 < 3)%nat by (apply Nat.Div0.div_lt_upper_bound; lia).
  assert (c' / 3 < 3)%nat by (apply Nat.Div0.div_lt_upper_bound; lia).
  lia.
Qed.

Lemma valid_complete_solution b :
  wf_board b -> valid_complete b -> solution b.
Proof.
  intros Hwf (Hrows & Hcols & Hboxes).
  assert (NoDup digits) as Hnd by (apply (bool_decide_unpack _); by vm_compute).
  split; [done|split].
  - intros r c Hr Hc.
    assert (cell b r c ∈ digits) as Hin.
    { rewrite <- (Hrows r Hr). unfold row_vals, cell.
      apply list_elem_of_lookup_total_2. by rewrite wf_board_row. }
    unfold digits in Hin. set_unfold. lia.
  - intros r c r' c' Hr Hc Hr' Hc' [Hne Hshare] _ Heq.
    destruct Hshare as [<-|[<-|Hbox]].
    + assert (NoDup (row_vals b r)) as Hnd' by by rewrite Hrows.
      unfold row_vals in Hnd'. unfold cell in Heq.
      assert (c = c'); [|congruence].
      eapply (NoDup_lookup _ _ _ _ Hnd');
        [apply list_lookup_lookup_total_lt; by rewrite wf_board_row|].
      rewrite Heq. apply list_lookup_lookup_total_lt. by rewrite wf_board_row.
    + assert (NoDup (col_vals b c)) as Hnd' by by rewrite Hcols.
      assert (r = r'); [|congruence].
      apply (NoDup_fmap_inj_on _ _ _ _ Hnd'); [| |done];
        apply elem_of_seq; lia.
    + destruct (same_box r c r' c') as [Hr3 Hc3]; auto.
      destruct (block_origin_of r c Hr Hc) as [Ho Hin].
      destruct (block_origin_of r' c' Hr' Hc') as [_ Hin'].
      rewrite <- Hr3, <- Hc3 in Hin'.
      assert (NoDup (box_vals b (3 * (r / 3)) (3 * (c / 3)))) as Hnd'
        by by rewrite Hboxes.
      apply Hne. by apply (NoDup_fmap_inj_on _ _ (r, c) (r', c') Hnd').
Qed.

Lemma full_board_solution g : rng_ok g -> solution (full_board g).
Proof.
  intros Hok. apply valid_complete_solution;
    auto using full_board_wf, full_board_valid.
Qed.

(** *** Carving (sudoku_dp.py) *)

Lemma carved_from_refl sol : SudokuDp.carved_from sol sol.
Proof. intros r c _ _. by right. Qed.

Lemma carved_from_clear sol b r c :
  wf_board b -> SudokuDp.carved_from sol b -> SudokuDp.carved_from sol (set_cell b r c 0).
Proof.
  intros Hwf Hcarved r' c' Hr' Hc'.
  destruct (decide ((r, c) = (r', c'))) as [[= <- <-]|Hne].
  - left. by apply cell_set_cell_eq.
  - rewrite cell_set_cell_ne by done. by apply Hcarved.
Qed.

Lemma carved_from_extends sol b : SudokuDp.carved_from sol b -> extends b sol.
Proof.
  intros Hcarved r c Hr Hc Hnz. by destruct (Hcarved r c Hr Hc).
Qed.

Lemma carved_from_digits sol b :
  solution sol -> SudokuDp.carved_from sol b -> digits_board b.
Proof.
  intros (_ & Hdig & _) Hcarved r c Hr Hc.
  specialize (Hdig r c Hr Hc). destruct (Hcarved r c Hr Hc); lia.
Qed.

Lemma carved_from_no_conflict sol b :
  solution sol -> SudokuDp.carved_from sol b -> no_conflict b.
Proof.
  intros (_ & _ & Hnc) Hcarved r c r' c' Hr Hc Hr' Hc' Hp Hnz.
  destruct (Hcarved r c Hr Hc) as [?|Hv]; [done|].
  destruct (Hcarved r' c' Hr' Hc') as [H0|Hv']; [congruence|].
  rewrite Hv, Hv'. apply Hnc; auto. congruence.
Qed.

(** The invariant of the carving loop: whatever it clears, the board
    keeps exactly one counted solution. *)
Lemma carve_invariant sol target cells : forall holes b,
  wf_board b -> SudokuDp.carved_from sol b -> BitmaskSolver.count_solutions b 2 = 1 ->
  wf_board (SudokuDp.carve target cells holes b)
  /\ SudokuDp.carved_from sol (SudokuDp.carve target cells holes b)
  /\ BitmaskSolver.count_solutions (SudokuDp.carve target cells holes b) 2 = 1.
Proof.
  induction cells as [|[r c] rest IH]; intros holes b Hwf Hcarved Hone.
  - done.
  - cbn [SudokuDp.carve]. destruct (target <=? holes)%nat; [done|].
    destruct (Z.eqb_spec (BitmaskSolver.count_solutions (set_cell b r c 0) 2) 1)
      as [Hone'|Hmany].
    + apply IH; auto using wf_set_cell, carved_from_clear.
    + rewrite set_cell_twice, set_cell_same. by apply IH.
Qed.

(** A board carved from a solution and counted once is solved back to
    that solution. *)
Lemma unique_solve sol b :
  solution sol -> wf_board b -> SudokuDp.carved_from sol b ->
  BitmaskSolver.count_solutions b 2 = 1 ->
  BitmaskSolver.solve b = Some sol.
Proof.
  intros Hsol Hwf Hcarved Hone.
  pose proof (carved_from_digits _ _ Hsol Hcarved) as Hdig.
  pose proof (carved_from_extends _ _ Hcarved) as Hext.
  destruct (BitmaskSolverFacts.solve_complete b sol Hwf Hdig Hsol Hext)
    as [t Ht].
  destruct (BitmaskSolverFacts.solve_sound b t Hwf Hdig) as [Hsolt Hextt];
    [by eapply carved_from_no_conflict|done|].
  destruct (decide (t = sol)) as [->|Hne]; [done|].
  pose proof (BitmaskSolverFacts.count_solutions_two b 2 t sol) as Htwo.
  rewrite Hone in Htwo. exfalso.
  assert (Z.min 2 2 <= 1) by (apply Htwo; auto; lia). lia.
Qed.

(** Such a board has no other completion. *)
Lemma unique_completion sol b t :
  solution sol -> wf_board b -> SudokuDp.carved_from sol b ->
  BitmaskSolver.count_solutions b 2 = 1 ->
  solution t -> extends b t -> t = sol.
Proof.
  intros Hsol Hwf Hcarved Hone Hsolt Hextt.
  pose proof (carved_from_digits _ _ Hsol Hcarved) as Hdig.
  pose proof (carved_from_extends _ _ Hcarved) as Hext.
  destruct (decide (t = sol)) as [->|Hne]; [done|].
  pose proof (BitmaskSolverFacts.count_solutions_two b 2 t sol) as Htwo.
  rewrite Hone in Htwo. exfalso.
  assert (Z.min 2 2 <= 1) by (apply Htwo; auto; lia). lia.
Qed.

Lemma generate_puzzle_dp_carved d g :
  Generator.rng_ok g ->
  wf_board (SudokuDp.generate_puzzle d g).1
  /\ SudokuDp.carved_from (SudokuDp.generate_puzzle d g).2
       (SudokuDp.generate_puzzle d g).1
  /\ BitmaskSolver.count_solutions (SudokuDp.generate_puzzle d g).1 2 = 1.
Proof.
  intros Hok. unfold SudokuDp.generate_puzzle. cbn [fst snd].
  pose proof (full_board_solution g Hok) as (Hwf & Hdig & _).
  apply carve_invariant; [done|apply carved_from_refl|].
  apply BitmaskSolverFacts.count_solutions_full.
  intros r c Hr Hc. specialize (Hdig r c Hr Hc). lia.
Qed.

Lemma generate_puzzle_dp_unique d g :
  rng_ok g ->
  BitmaskSolver.count_solutions (SudokuDp.generate_puzzle d g).1 2 = 1
  /\ SudokuDp.solve_dp (SudokuDp.generate_puzzle d g).1
     = Some (SudokuDp.generate_puzzle d g).2.
Proof.
  intros Hok. unfold SudokuDp.generate_puzzle, SudokuDp.solve_dp.
  cbn [fst snd].
  pose proof (full_board_solution g Hok) as Hsol.
  pose proof Hsol as (Hwf & Hdig & _).
  destruct (carve_invariant (full_board g) (SudokuDp.target_holes d)
              (Rng.shuffled (cells_sigma g) all_cells) 0 (full_board g))
    as (Hwf' & Hcarved & Hone).
  - done.
  - apply carved_from_refl.
  - apply BitmaskSolverFacts.count_solutions_full.
    intros r c Hr Hc. specialize (Hdig r c Hr Hc). lia.
  - split; [done|]. by apply unique_solve.
Qed.

End GeneratorFacts.

(** ** The hybrid solver: the recursive search *)

Module HybridSearchFacts.
Import Hybrid.

Lemma same_position_refl s : same_position s s.
Proof. done. Qed.

Lemma same_position_cache_put s s' state v :
  same_position s s' -> same_position s (cache_put s' state v).
Proof. done. Qed.

Lemma candidates_bitmask_empty s row col :
  cell (board s) row col = 0 ->
  _candidates_bitmask s row col = Z.land (Z.lnot (used_mask s row col)) 511.
Proof. intros H0. unfold _candidates_bitmask. by rewrite H0. Qed.

(** A digit of the candidate set is a digit, and its bit is clear in the
    three masks. *)
Lemma elem_of_bitmask_to_set s row col num :
  cell (board s) row col = 0 ->
  num ∈ _bitmask_to_set (_candidates_bitmask s row col) ->
  1 <= num <= 9
  /\ Z.land (used_mask s row col) (Z.shiftl 1 (num - 1)) = 0.
Proof.
  intros H0. rewrite candidates_bitmask_empty by done.
  unfold _bitmask_to_set.
  intros (d & -> & [Hbit Hd]%list_elem_of_filter)%list_elem_of_fmap.
  apply BitmaskSolverFacts.bits9_range in Hd.
  split; [lia|]. replace (d + 1 - 1) with d by lia.
  apply land_bit_eq_0; [lia|].
  destruct (Z.testbit (used_mask s row col) d) eqn:Hused; [|done].
  exfalso. apply Hbit. apply land_bit_eq_0; [lia|].
  rewrite Z.land_spec, Z.lnot_spec, Hused by lia. done.
Qed.

Lemma unplace_place s row col num bit :
  cell (board s) row col = 0 ->
  Z.land (used_mask s row col) bit = 0 ->
  forall s2, same_position (place s row col (get_box_index row col) num bit) s2 ->
  same_position s (unplace s2 row col (get_box_index row col) bit).
Proof.
  unfold used_mask. rewrite land_lor3_eq_0. intros H0 (Hr & Hc & Hb).
  intros s2 (Hboard & Hrow & Hcol & Hbox). unfold same_position, unplace.
  simpl in *. rewrite Hboard, Hrow, Hcol, Hbox.
  split; [by apply set_cell_undo|].
  split; [by apply insert_set_clear|].
  split; by apply insert_set_clear.
Qed.

Lemma mrv_scan_answer s cells : forall best best_count x,
  Forall (fun '(r, c) => (r < 9)%nat /\ (c < 9)%nat) cells ->
  (forall y, best = Some y -> mrv_answer s y) ->
  mrv_scan s cells best best_count = Some x -> mrv_answer s x.
Proof.
  induction cells as [|[r c] cells IH]; intros best best_count x Hrange Hbest;
    simpl.
  - apply Hbest.
  - apply Forall_cons in Hrange as [[Hr Hc] Hrange].
    destruct (Z.eqb_spec (cell (board s) r c) 0) as [H0|Hnz]; [|by apply IH].
    destruct (popcount (_candidates_bitmask s r c) =? 0)%nat.
    { intros [= <-]. repeat split; auto. }
    destruct (popcount (_candidates_bitmask s r c) <? best_count)%nat;
      [|by apply IH].
    destruct (popcount (_candidates_bitmask s r c) =? 1)%nat.
    { intros [= <-]. repeat split; auto. }
    apply IH; [done|]. intros y [= <-]. repeat split; auto.
Qed.

Lemma find_mrv_answer s x :
  _find_mrv_cell_bitmask s = Some x -> mrv_answer s x.
Proof.
  apply mrv_scan_answer; [|done].
  apply Forall_forall. intros [r c].
  apply BitmaskSolverFacts.elem_of_all_cells.
Qed.

Section Search.

Variable set_iter : list Z -> list Z.
Hypothesis set_iter_perm : forall l, set_iter l ≡ₚ l.

(** The candidate loop: every write goes to the empty cell the scan
    chose, and a failing loop leaves board and masks as they were. *)
Lemma try_candidates_frame rec state s row col nums :
  cell (board s) row col = 0 ->
  (forall num, num ∈ nums ->
     1 <= num <= 9 /\ Z.land (used_mask s row col) (Z.shiftl 1 (num - 1)) = 0) ->
  (forall s1 res s2, rec s1 = Some (res, s2) ->
     extends (board s1) (board s2)
     /\ (truthy res (board s2) = false -> same_position s1 s2)) ->
  forall s0 res s', same_position s s0 ->
    try_candidates rec state row col (get_box_index row col) nums s0
      = Some (res, s') ->
    extends (board s) (board s')
    /\ (truthy res (board s') = false -> same_position s s').
Proof.
  intros H0 Hnums Hrec. induction nums as [|num nums IH];
    intros s0 res s' Hsame; simpl.
  - intros [= <- <-]. split; [|intros _; exact Hsame].
    simpl. destruct Hsame as [-> _]. apply extends_refl.
  - destruct (Hnums num) as [Hnum Hfree]; [left|].
    destruct (rec _) as [[result s2]|] eqn:Hcall; [|done].
    apply Hrec in Hcall as [Hext Hfail].
    assert (extends (board s) (board s2)) as Hext'.
    { eapply extends_trans; [|exact Hext]. simpl.
      destruct Hsame as [-> _]. by apply extends_set_cell. }
    destruct (truthy result (board s2)) eqn:Htruthy.
    + intros [= <- <-]. simpl. split; [done|]. by rewrite Htruthy.
    + apply IH.
      * intros num' Hin. apply Hnums. by right.
      * apply (unplace_place s row col num); [done..|].
        destruct (Hfail eq_refl) as (Hb & Hr & Hc & Hx).
        destruct Hsame as (Hb0 & Hr0 & Hc0 & Hx0).
        unfold same_position, place in *. simpl in *.
        by rewrite Hb, Hr, Hc, Hx, Hb0, Hr0, Hc0, Hx0.
Qed.

(** [_solve_dp_helper] only fills empty cells, and when it fails the
    board and the masks are those of the call. *)
Lemma solve_dp_helper_frame fuel : forall s res s',
  _solve_dp_helper set_iter fuel s = Some (res, s') ->
  extends (board s) (board s')
  /\ (truthy res (board s') = false -> same_position s s').
Proof.
  induction fuel as [|fuel IH]; intros s res s'; simpl; [done|].
  destruct (dp_cache s !! board s) as [v|].
  { intros [= <- <-]. split; [apply extends_refl|done]. }
  destruct (_find_mrv_cell_bitmask s) as [[[row col] cands]|] eqn:Hmrv.
  2:{ intros [= <- <-]. split; [apply extends_refl|done]. }
  apply find_mrv_answer in Hmrv as (Hr & Hc & H0 & Hcands).
  destruct cands as [|d cands].
  { intros [= <- <-]. split; [apply extends_refl|done]. }
  destruct Hcands as [?|Hcands]; [done|].
  apply try_candidates_frame; auto using same_position_refl.
  intros num Hin. rewrite set_iter_perm, Hcands in Hin.
  by apply elem_of_bitmask_to_set.
Qed.

End Search.

(** *** The search ends *)

(** Filling an empty cell leaves one empty cell fewer. *)
Lemma empty_cells_fill b r c v :
  wf_board b -> (r < 9)%nat -> (c < 9)%nat -> cell b r c = 0 -> v <> 0 ->
  (length (empty_cells (set_cell b r c v)) < length (empty_cells b))%nat.
Proof.
  intros Hwf Hr Hc H0 Hv. unfold empty_cells.
  rewrite (list_filter_iff _
             (fun y => y <> (r, c) /\ (let '(r', c') := y in cell b r' c' = 0))).
  - rewrite <- list_filter_filter.
    apply (length_filter_lt _ _ (r, c)); [|by intros ?].
    by apply BitmaskSolverFacts.elem_of_empty_cells.
  - intros [r' c']. destruct (decide ((r, c) = (r', c'))) as [[= <- <-]|Hne].
    + rewrite cell_set_cell_eq by done. split; [done|]. by intros [? _].
    + rewrite cell_set_cell_ne by done. split; [|by intros [_ ?]].
      intros ?. split; [congruence|done].
Qed.

Lemma length_empty_cells b : (length (empty_cells b) <= 81)%nat.
Proof. unfold empty_cells. etrans; [apply length_filter|]. done. Qed.

Section Termination.

Variable set_iter : list Z -> list Z.
Hypothesis set_iter_perm : forall l, set_iter l ≡ₚ l.

Lemma try_candidates_total rec state s row col nums n :
  wf_board (board s) -> (row < 9)%nat -> (col < 9)%nat ->
  cell (board s) row col = 0 ->
  (length (empty_cells (board s)) <= n)%nat ->
  (forall num, num ∈ nums ->
     1 <= num <= 9 /\ Z.land (used_mask s row col) (Z.shiftl 1 (num - 1)) = 0) ->
  (forall s1 res s2, rec s1 = Some (res, s2) ->
     extends (board s1) (board s2)
     /\ (truthy res (board s2) = false -> same_position s1 s2)) ->
  (forall s1, wf_board (board s1) ->
     (length (empty_cells (board s1)) < n)%nat -> is_Some (rec s1)) ->
  forall s0, same_position s s0 ->
    is_Some (try_candidates rec state row col (get_box_index row col) nums s0).
Proof.
  intros Hwf Hr Hc H0 Hn Hnums Hframe Hrec.
  induction nums as [|num nums IH]; intros s0 Hsame; simpl; [done|].
  destruct (Hnums num) as [Hnum Hfree]; [left|].
  pose proof Hsame as (Hb0 & _).
  destruct (Hrec (place s0 row col (get_box_index row col) num
                    (Z.shiftl 1 (num - 1)))) as [[result s2] Hcall].
  { simpl. rewrite Hb0. by apply wf_set_cell. }
  { simpl. rewrite Hb0. eapply Nat.lt_le_trans; [|exact Hn].
    apply empty_cells_fill; auto. lia. }
  rewrite Hcall. destruct (truthy result (board s2)) eqn:Htruthy; [done|].
  apply IH.
  - intros num' Hin. apply Hnums. by right.
  - apply Hframe in Hcall as [_ Hfail].
    apply (unplace_place s row col num); [done..|].
    destruct (Hfail Htruthy) as (Hb & Hr' & Hc' & Hx).
    destruct Hsame as (_ & Hr0 & Hc0 & Hx0).
    unfold same_position, place in *. simpl in *.
    by rewrite Hb, Hr', Hc', Hx, Hb0, Hr0, Hc0, Hx0.
Qed.

(** With more fuel than empty cells [_solve_dp_helper] returns. *)
Lemma solve_dp_helper_total fuel : forall s,
  wf_board (board s) -> (length (empty_cells (board s)) < fuel)%nat ->
  is_Some (_solve_dp_helper set_iter fuel s).
Proof.
  induction fuel as [|fuel IH]; intros s Hwf Hfuel; simpl; [lia|].
  destruct (dp_cache s !! board s) as [v|]; [done|].
  destruct (_find_mrv_cell_bitmask s) as [[[row col] cands]|] eqn:Hmrv; [|done].
  apply find_mrv_answer in Hmrv as (Hr & Hc & H0 & Hcands).
  destruct cands as [|d cands]; [done|].
  destruct Hcands as [?|Hcands]; [done|].
  apply (try_candidates_total _ _ s row col _ fuel); try done.
  - lia.
  - intros num Hin. rewrite set_iter_perm, Hcands in Hin.
    by apply elem_of_bitmask_to_set.
  - intros s1 res s2. by apply solve_dp_helper_frame.
Qed.

Lemma init_bitmasks_board s : board (_init_bitmasks s) = board s.
Proof.
  unfold _init_bitmasks.
  set (s0 := Store _ _ _ _ _).
  change (board s) with (board s0).
  generalize s0. clear s0.
  induction all_cells as [|[r c] l IH]; intros s0; simpl; [done|].
  rewrite IH. unfold init_cell. by destruct (negb _).
Qed.

(** [solve_dp] returns on every 9x9 board. *)
Lemma solve_dp_total b : wf_board b -> is_Some (solve_dp set_iter b).
Proof.
  intros Hwf. unfold solve_dp, solve_dp_store.
  destruct (solve_dp_helper_total 82 (_init_bitmasks (Store b [] [] [] ∅)))
    as [[[] s] ->]; try done.
  - by rewrite init_bitmasks_board.
  - rewrite init_bitmasks_board. simpl.
    pose proof (length_empty_cells b). lia.
Qed.

(** [solve_dp] keeps the clues. *)
Lemma solve_dp_extends b t :
  solve_dp set_iter b = Some (Some t) -> extends b t.
Proof.
  unfold solve_dp, solve_dp_store.
  destruct (_solve_dp_helper _ _ _) as [[[] s]|] eqn:Hrun; [|done..].
  intros [= <-].
  apply solve_dp_helper_frame in Hrun as [Hext _]; [|done].
  by rewrite init_bitmasks_board in Hext.
Qed.

End Termination.

End HybridSearchFacts.

(** ** The hybrid solver: constraint propagation *)

Module PropagationFacts.
Import Hybrid.

Lemma elem_of_get_candidates b r c d :
  d ∈ get_candidates b r c <->
  cell b r c = 0 /\ 1 <= d <= 9 /\ (d ∉ row_vals b r) /\ (d ∉ col_vals b c)
  /\ (d ∉ box_vals b (3 * (r / 3)) (3 * (c / 3))).
Proof.
  unfold get_candidates.
  destruct (Z.eqb_spec (cell b r c) 0) as [H0|Hnz]; simpl.
  - rewrite list_elem_of_filter.
    assert (d ∈ digits <-> 1 <= d <= 9) as ->.
    { unfold digits. set_unfold. lia. }
    tauto.
  - rewrite elem_of_nil. tauto.
Qed.

(** A placement of [solve_dnc_subgrid] is a forced move. *)
Lemma get_candidates_singleton b r c d :
  get_candidates b r c = [d] -> unique_candidate b r c d.
Proof.
  intros Hcands.
  assert (forall d', d' ∈ get_candidates b r c <-> d' = d) as Hin.
  { intros d'. rewrite Hcands. apply list_elem_of_singleton. }
  pose proof (proj2 (Hin d) eq_refl) as Hd.
  apply elem_of_get_candidates in Hd as [H0 _].
  split; [done|].
  intros d'. rewrite <- Hin, elem_of_get_candidates. tauto.
Qed.

(** What [solve_dnc_subgrid] does on one cell: nothing, or it writes the
    unique candidate of the cell and raises [progress]. *)
Lemma dnc_cell_forced b p r c :
  dnc_cell (b, p) (r, c) = (b, p)
  \/ exists d, unique_candidate b r c d
               /\ dnc_cell (b, p) (r, c) = (set_cell b r c d, true).
Proof.
  unfold dnc_cell. destruct (cell b r c =? 0); [|by left].
  destruct (get_candidates b r c) as [|d [|d' l]] eqn:Hcands; try by left.
  right. exists d. split; [|done]. by apply get_candidates_singleton.
Qed.

Lemma unique_candidate_digit b r c d : unique_candidate b r c d -> 1 <= d <= 9.
Proof. intros [_ Huniq]. by destruct (proj2 (Huniq d) eq_refl) as [? _]. Qed.

Lemma forced_step_wf b b' : wf_board b -> forced_step b b' -> wf_board b'.
Proof. intros Hwf (r & c & d & _ & _ & _ & ->). by apply wf_set_cell. Qed.

Lemma forced_step_fewer b b' :
  wf_board b -> forced_step b b' ->
  (length (empty_cells b') < length (empty_cells b))%nat.
Proof.
  intros Hwf (r & c & d & Hr & Hc & Huniq & ->).
  pose proof (unique_candidate_digit _ _ _ _ Huniq).
  apply HybridSearchFacts.empty_cells_fill; auto; [by destruct Huniq|lia].
Qed.

Lemma swept_refl b p : wf_board b -> swept b p b p.
Proof. intros. split; [done|]. split; [done|]. by left. Qed.

Lemma swept_trans b1 p1 b2 p2 b3 p3 :
  swept b1 p1 b2 p2 -> swept b2 p2 b3 p3 -> swept b1 p1 b3 p3.
Proof.
  intros (Hrtc1 & Hwf2 & Hcase1) (Hrtc2 & Hwf3 & Hcase2).
  split; [by etrans|]. split; [done|].
  destruct Hcase1 as [[-> ->]|[-> Hlt1]], Hcase2 as [[-> ->]|[-> Hlt2]];
    auto. right. split; [done|lia].
Qed.

Lemma dnc_cell_swept b p r c :
  wf_board b -> (r < 9)%nat -> (c < 9)%nat ->
  swept b p (dnc_cell (b, p) (r, c)).1 (dnc_cell (b, p) (r, c)).2.
Proof.
  intros Hwf Hr Hc. unfold dnc_cell.
  destruct (cell b r c =? 0); [|by apply swept_refl].
  destruct (get_candidates b r c) as [|d [|d' l]] eqn:Hcands;
    try by apply swept_refl.
  assert (forced_step b (set_cell b r c d)) as Hstep.
  { exists r, c, d. auto using get_candidates_singleton. }
  simpl. split; [by apply rtc_once|]. split; [by apply wf_set_cell|].
  right. split; [done|]. by apply forced_step_fewer.
Qed.

Lemma dnc_cells_swept cells : forall b p,
  wf_board b -> Forall (fun '(r, c) => (r < 9)%nat /\ (c < 9)%nat) cells ->
  swept b p (fold_left dnc_cell cells (b, p)).1
            (fold_left dnc_cell cells (b, p)).2.
Proof.
  induction cells as [|[r c] cells IH]; intros b p Hwf Hrange;
    cbn [fold_left].
  - by apply swept_refl.
  - apply Forall_cons in Hrange as [[Hr Hc] Hrange].
    pose proof (dnc_cell_swept b p r c Hwf Hr Hc) as Hstep.
    destruct (dnc_cell (b, p) (r, c)) as [b1 p1]. simpl in Hstep.
    eapply swept_trans; [exact Hstep|]. apply IH; [|done].
    by destruct Hstep as (_ & ? & _).
Qed.

Lemma block_origin_cells sr sc :
  (sr, sc) ∈ block_origins ->
  Forall (fun '(r, c) => (r < 9)%nat /\ (c < 9)%nat) (box_cells sr sc).
Proof.
  intros Hin. apply Forall_forall. intros [r c] Hrc.
  apply GeneratorFacts.elem_of_box_cells in Hrc.
  vm_compute in Hin.
  repeat (apply elem_of_cons in Hin as [[= -> ->]|Hin]; [lia|]).
  by apply elem_of_nil in Hin.
Qed.

Lemma solve_dnc_subgrid_swept b sr sc :
  wf_board b -> (sr, sc) ∈ block_origins ->
  swept b false (solve_dnc_subgrid b sr sc).1 (solve_dnc_subgrid b sr sc).2.
Proof.
  intros Hwf Hin. apply dnc_cells_swept; [done|by apply block_origin_cells].
Qed.

Lemma dnc_pass_fold b : dnc_pass b = fold_left pass_step block_origins (b, false).
Proof. reflexivity. Qed.

Lemma pass_steps_swept origins : forall b changed,
  wf_board b -> Forall (fun o => o ∈ block_origins) origins ->
  swept b changed (fold_left pass_step origins (b, changed)).1
                  (fold_left pass_step origins (b, changed)).2.
Proof.
  induction origins as [|[sr sc] origins IH]; intros b changed Hwf Hin;
    cbn [fold_left].
  - by apply swept_refl.
  - apply Forall_cons in Hin as [Ho Hin]. cbn [pass_step].
    pose proof (solve_dnc_subgrid_swept b sr sc Hwf Ho) as Hsub.
    destruct (solve_dnc_subgrid b sr sc) as [b1 progress]. simpl in Hsub.
    eapply swept_trans; [|apply IH; [by destruct Hsub as (_ & ? & _)|done]].
    destruct Hsub as (Hrtc & Hwf1 & [[-> ->]|[-> Hlt]]).
    + by apply swept_refl.
    + split; [done|]. split; [done|]. by right.
Qed.

Lemma dnc_pass_swept b :
  wf_board b -> swept b false (dnc_pass b).1 (dnc_pass b).2.
Proof.
  intros Hwf. rewrite dnc_pass_fold. apply pass_steps_swept; [done|].
  by apply Forall_forall.
Qed.

(** A pass that reports no change has left the board alone. *)
Lemma dnc_pass_unchanged b :
  wf_board b -> (dnc_pass b).2 = false -> (dnc_pass b).1 = b.
Proof.
  intros Hwf Hflag.
  destruct (dnc_pass_swept b Hwf) as (_ & _ & [[? _]|[Htrue _]]); [done|].
  congruence.
Qed.

(** The [while changed] loop ends within the fuel, by forced moves, on
    a board that a further pass leaves unchanged. *)
Lemma dnc_loop_fixpoint fuel : forall b,
  wf_board b -> (length (empty_cells b) < fuel)%nat ->
  exists b', dnc_loop fuel b = Some b' /\ rtc forced_step b b' /\ wf_board b'
             /\ dnc_pass b' = (b', false).
Proof.
  induction fuel as [|fuel IH]; intros b Hwf Hfuel; [lia|].
  simpl. pose proof (dnc_pass_swept b Hwf) as Hpass.
  pose proof (dnc_pass_unchanged b Hwf) as Hsame.
  destruct (dnc_pass b) as [b1 changed] eqn:Hrun. simpl in *.
  destruct Hpass as (Hrtc & Hwf1 & Hcase). destruct changed.
  - destruct Hcase as [[_ ?]|[_ Hlt]]; [done|].
    destruct (IH b1) as (b' & Hloop & Hrtc' & Hwf' & Hfix); [done|lia|].
    exists b'. split; [done|]. split; [by etrans|done].
  - rewrite Hsame in * by done. exists b. by rewrite Hrun.
Qed.

(** [solve_dnc_phase] returns on every 9x9 board. *)
Lemma solve_dnc_phase_total b :
  wf_board b ->
  exists b', solve_dnc_phase b = Some b' /\ rtc forced_step b b' /\ wf_board b'
             /\ dnc_pass b' = (b', false).
Proof.
  intros Hwf. apply dnc_loop_fixpoint; [done|].
  pose proof (HybridSearchFacts.length_empty_cells b). lia.
Qed.

(** *** Forced moves lose no solution *)

Lemma elem_of_row_vals b r v :
  wf_board b -> (r < 9)%nat ->
  v ∈ row_vals b r <-> exists c, (c < 9)%nat /\ cell b r c = v.
Proof.
  intros Hwf Hr. unfold row_vals, cell. rewrite list_elem_of_lookup. split.
  - intros [c Hc]. exists c. split.
    + apply lookup_lt_Some in Hc. by rewrite wf_board_row in Hc.
    + by apply list_lookup_total_correct.
  - intros (c & Hc & <-). exists c.
    apply list_lookup_lookup_total_lt. by rewrite wf_board_row.
Qed.

Lemma elem_of_col_vals b c v :
  v ∈ col_vals b c <-> exists r, (r < 9)%nat /\ cell b r c = v.
Proof.
  unfold col_vals, range9. rewrite list_elem_of_fmap. split.
  - intros (r & -> & Hr%elem_of_seq). exists r. split; [lia|done].
  - intros (r & Hr & <-). exists r. split; [done|]. apply elem_of_seq. lia.
Qed.

Lemma elem_of_box_vals b br bc v :
  v ∈ box_vals b br bc <->
  exists i j, (br <= i < br + 3)%nat /\ (bc <= j < bc + 3)%nat /\ cell b i j = v.
Proof.
  unfold box_vals. rewrite list_elem_of_fmap. split.
  - intros ([i j] & -> & Hin%GeneratorFacts.elem_of_box_cells).
    exists i, j. tauto.
  - intros (i & j & Hi & Hj & <-). exists (i, j). split; [done|].
    by apply GeneratorFacts.elem_of_box_cells.
Qed.

Lemma box_corner_index r c i j :
  (r < 9)%nat -> (c < 9)%nat ->
  (3 * (r / 3) <= i < 3 * (r / 3) + 3)%nat ->
  (3 * (c / 3) <= j < 3 * (c / 3) + 3)%nat ->
  (i < 9)%nat /\ (j < 9)%nat /\ get_box_index r c = get_box_index i j.
Proof.
  intros Hr Hc Hi Hj. unfold get_box_index.
  assert (r / 3 < 3)%nat by (apply Nat.Div0.div_lt_upper_bound; lia).
  assert (c / 3 < 3)%nat by (apply Nat.Div0.div_lt_upper_bound; lia).
  assert (i / 3 = r / 3)%nat as ->
    by (symmetry; apply (Nat.div_unique i 3 _ (i - 3 * (r / 3))); lia).
  assert (j / 3 = c / 3)%nat as ->
    by (symmetry; apply (Nat.div_unique j 3 _ (j - 3 * (c / 3))); lia).
  lia.
Qed.

(** The digit a solution has on an empty cell is one of its candidates. *)
Lemma solution_digit_candidate b t r c :
  wf_board b -> solution t -> extends b t ->
  (r < 9)%nat -> (c < 9)%nat -> cell b r c = 0 ->
  cell t r c ∈ get_candidates b r c.
Proof.
  intros Hwf (Hwft & Hdig & Hnc) Hext Hr Hc H0.
  pose proof (Hdig r c Hr Hc) as Hv.
  assert (forall r' c', (r' < 9)%nat -> (c' < 9)%nat -> peers r c r' c' ->
                        cell b r' c' <> cell t r c) as Habsent.
  { intros r' c' Hr' Hc' Hp Heq.
    apply (Hnc r c r' c'); auto; [lia|].
    rewrite <- Heq. symmetry. apply Hext; auto. lia. }
  apply elem_of_get_candidates. split; [done|]. split; [done|].
  split; [|split].
  - rewrite elem_of_row_vals by done. intros (c' & Hc' & Heq).
    apply (Habsent r c'); auto. split; [|by left]. intros [= <-]. lia.
  - rewrite elem_of_col_vals. intros (r' & Hr' & Heq).
    apply (Habsent r' c); auto. split; [|by right; left]. intros [= <-]. lia.
  - rewrite elem_of_box_vals. intros (i & j & Hi & Hj & Heq).
    destruct (box_corner_index r c i j) as (Hi9 & Hj9 & Hbox); auto.
    apply (Habsent i j); auto. split; [|by right; right].
    intros [= <- <-]. lia.
Qed.

Lemma forced_step_keeps_solution b b' t :
  wf_board b -> forced_step b b' -> solution t -> extends b t -> extends b' t.
Proof.
  intros Hwf (r & c & d & Hr & Hc & [H0 Huniq] & ->) Hsol Hext.
  apply BitmaskSolverFacts.extends_placed; [done..|].
  apply Huniq.
  pose proof (solution_digit_candidate b t r c Hwf Hsol Hext Hr Hc H0) as Hin.
  apply elem_of_get_candidates in Hin. tauto.
Qed.

Lemma forced_steps_keep_solution b b' t :
  wf_board b -> rtc forced_step b b' -> solution t -> extends b t ->
  extends b' t.
Proof.
  intros Hwf Hrtc Hsol. induction Hrtc as [|b b1 b' Hstep _ IH]; [done|].
  intros Hext. apply IH; [by eapply forced_step_wf|].
  by eapply forced_step_keeps_solution.
Qed.

(** Forced moves fill empty cells only. *)
Lemma forced_steps_extend b b' : rtc forced_step b b' -> extends b b'.
Proof.
  induction 1 as [|b b1 b' (r & c & d & _ & _ & [H0 _] & ->) _ IH].
  - apply extends_refl.
  - eapply extends_trans; [|exact IH]. by apply extends_set_cell.
Qed.

End PropagationFacts.

(** ** The hybrid solver: entry point and cell choice *)

Module HybridFacts.
Import Hybrid HybridSearchFacts PropagationFacts.

(** The propagation only fills empty cells, on any board. *)
Lemma dnc_cell_extends b p rc : extends b (dnc_cell (b, p) rc).1.
Proof.
  destruct rc as [r c]. unfold dnc_cell.
  destruct (Z.eqb_spec (cell b r c) 0) as [H0|?]; [|apply extends_refl].
  destruct (get_candidates b r c) as [|d [|d' l]]; try apply extends_refl.
  by apply extends_set_cell.
Qed.

Lemma dnc_cells_extend cells : forall b p,
  extends b (fold_left dnc_cell cells (b, p)).1.
Proof.
  induction cells as [|rc cells IH]; intros b p; cbn [fold_left].
  - apply extends_refl.
  - pose proof (dnc_cell_extends b p rc) as Hstep.
    destruct (dnc_cell (b, p) rc) as [b1 p1].
    eapply extends_trans; [exact Hstep|apply IH].
Qed.

Lemma pass_steps_extend origins : forall b changed,
  extends b (fold_left pass_step origins (b, changed)).1.
Proof.
  induction origins as [|[sr sc] origins IH]; intros b changed;
    cbn [fold_left pass_step].
  - apply extends_refl.
  - pose proof (dnc_cells_extend (box_cells sr sc) b false) as Hsub.
    fold (solve_dnc_subgrid b sr sc) in Hsub.
    destruct (solve_dnc_subgrid b sr sc) as [b1 progress].
    eapply extends_trans; [exact Hsub|apply IH].
Qed.

Lemma dnc_loop_extends fuel : forall b b',
  dnc_loop fuel b = Some b' -> extends b b'.
Proof.
  induction fuel as [|fuel IH]; intros b b'; simpl; [done|].
  pose proof (pass_steps_extend block_origins b false) as Hpass.
  fold (dnc_pass b) in Hpass.
  destruct (dnc_pass b) as [b1 changed]. destruct changed.
  - intros Hloop%IH. by eapply extends_trans.
  - by intros [= <-].
Qed.

Section Entry.

Variable set_iter : list Z -> list Z.
Hypothesis set_iter_perm : forall l, set_iter l ≡ₚ l.

(** [solve_hybrid] returns on every 9x9 board. *)
Lemma solve_hybrid_total b : wf_board b -> is_Some (solve_hybrid set_iter b).
Proof.
  intros Hwf. unfold solve_hybrid.
  destruct (solve_dnc_phase_total b Hwf) as (b' & -> & _ & Hwf' & _).
  by apply solve_dp_total.
Qed.

(** [solve_hybrid] keeps the clues. *)
Lemma solve_hybrid_extends b t :
  solve_hybrid set_iter b = Some (Some t) -> extends b t.
Proof.
  unfold solve_hybrid, solve_dnc_phase.
  destruct (dnc_loop 82 b) as [b'|] eqn:Hloop; [|done].
  intros Hsolve%solve_dp_extends; [|done].
  eapply extends_trans; [|exact Hsolve].
  by eapply dnc_loop_extends.
Qed.

End Entry.

(** *** The most constrained cell *)

Lemma pos_ones_size p : (pos_ones p <= Pos.size_nat p)%nat.
Proof. induction p; simpl; lia. Qed.

(** A 9-bit mask has at most nine ones. *)
Lemma popcount_land_511 x : (popcount (Z.land x 511) <= 9)%nat.
Proof.
  assert (0 <= Z.land x 511 <= 511) as Hrange.
  { assert (Z.land x 511 = x mod 2 ^ 9) as ->
      by (apply (Z.land_ones x 9); lia).
    pose proof (Z.mod_pos_bound x (2 ^ 9)). change (2 ^ 9) with 512 in *. lia. }
  destruct (Z.land x 511) as [|p|p]; simpl; [lia| |lia].
  etrans; [apply pos_ones_size|].
  destruct (decide (p = 511%positive)) as [->|Hne]; [done|].
  change 9%nat with (Pos.size_nat 511).
  apply Pos.size_nat_monotone. lia.
Qed.

Lemma popcount_candidates s r c :
  (popcount (_candidates_bitmask s r c) <= 9)%nat.
Proof.
  unfold _candidates_bitmask. destruct (negb _); [simpl; lia|].
  apply popcount_land_511.
Qed.

Lemma mrv_scan_some s cells : forall x best_count,
  is_Some (mrv_scan s cells (Some x) best_count).
Proof.
  induction cells as [|[r c] cells IH]; intros x best_count; simpl; [done|].
  destruct (cell (board s) r c =? 0); [|done].
  destruct (_ =? 0)%nat; [done|].
  destruct (_ <? _)%nat; [|done].
  by destruct (_ =? 1)%nat.
Qed.

(** The scan answers [None] only when no cell of the list is empty. *)
Lemma mrv_scan_none s cells :
  mrv_scan s cells None 10 = None <->
  Forall (fun '(r, c) => cell (board s) r c <> 0) cells.
Proof.
  induction cells as [|[r c] cells IH]; simpl; [done|].
  rewrite Forall_cons.
  destruct (Z.eqb_spec (cell (board s) r c) 0) as [H0|Hnz]; [|tauto].
  split; [|tauto]. intros Hnone. exfalso.
  destruct (_ =? 0)%nat; [done|].
  pose proof (popcount_candidates s r c) as Hle.
  destruct (Nat.ltb_spec (popcount (_candidates_bitmask s r c)) 10); [|lia].
  destruct (_ =? 1)%nat; [done|].
  pose proof (mrv_scan_some s cells (r, c, _bitmask_to_set (_candidates_bitmask s r c))
                (popcount (_candidates_bitmask s r c))) as [y Hy].
  congruence.
Qed.

(** An empty cell with two candidates or more never ends the scan, and
    keeps [best_count] at two or more. *)
Lemma mrv_scan_pass s pre rest : forall best best_count,
  (2 <= best_count)%nat ->
  Forall (fun '(r, c) => cell (board s) r c = 0 ->
                         (2 <= popcount (_candidates_bitmask s r c))%nat) pre ->
  exists best' best_count',
    (2 <= best_count')%nat /\
    mrv_scan s (pre ++ rest) best best_count
    = mrv_scan s rest best' best_count'.
Proof.
  induction pre as [|[r c] pre IH]; intros best best_count Hbc Hpre; simpl.
  - by exists best, best_count.
  - apply Forall_cons in Hpre as [Hrc Hpre].
    destruct (Z.eqb_spec (cell (board s) r c) 0) as [H0|Hnz]; [|by apply IH].
    specialize (Hrc H0).
    destruct (Nat.eqb_spec (popcount (_candidates_bitmask s r c)) 0); [lia|].
    destruct (_ <? _)%nat; [|by apply IH].
    destruct (Nat.eqb_spec (popcount (_candidates_bitmask s r c)) 1); [lia|].
    by apply IH.
Qed.

Lemma all_cells_split r c :
  (r < 9)%nat -> (c < 9)%nat ->
  exists post, all_cells = filter (before r c) all_cells ++ (r, c) :: post.
Proof.
  intros Hr Hc.
  exists (filter (fun rc => ~ before r c rc /\ rc <> (r, c)) all_cells).
  do 9 (destruct r as [|r]; [do 9 (destruct c as [|c]; [by vm_compute|]); lia|]).
  lia.
Qed.

(** The scan up to the first empty cell with fewer than two candidates. *)
Lemma find_mrv_reaches s r c :
  (r < 9)%nat -> (c < 9)%nat ->
  (forall r' c', (r' < 9)%nat -> (c' < 9)%nat -> before r c (r', c') ->
                 cell (board s) r' c' = 0 ->
                 (2 <= popcount (_candidates_bitmask s r' c'))%nat) ->
  exists post best best_count,
    (2 <= best_count)%nat /\
    _find_mrv_cell_bitmask s = mrv_scan s ((r, c) :: post) best best_count.
Proof.
  intros Hr Hc Hbefore. unfold _find_mrv_cell_bitmask.
  destruct (all_cells_split r c Hr Hc) as [post Hsplit].
  destruct (mrv_scan_pass s (filter (before r c) all_cells) ((r, c) :: post)
              None 10) as (best' & bc' & Hbc & Hscan).
  { lia. }
  { apply Forall_forall. intros [r' c'] [Hb Hin]%list_elem_of_filter.
    apply BitmaskSolverFacts.elem_of_all_cells in Hin as [Hr' Hc'].
    by apply Hbefore. }
  exists post, best', bc'. split; [done|]. by rewrite Hsplit at 1.
Qed.

Lemma find_mrv_first_dead s r c :
  (r < 9)%nat -> (c < 9)%nat ->
  cell (board s) r c = 0 -> popcount (_candidates_bitmask s r c) = 0%nat ->
  (forall r' c', (r' < 9)%nat -> (c' < 9)%nat -> before r c (r', c') ->
                 cell (board s) r' c' = 0 ->
                 (2 <= popcount (_candidates_bitmask s r' c'))%nat) ->
  _find_mrv_cell_bitmask s = Some (r, c, []).
Proof.
  intros Hr Hc H0 Hdead Hbefore.
  destruct (find_mrv_reaches s r c Hr Hc Hbefore) as (post & best & bc & _ & ->).
  simpl. apply Z.eqb_eq in H0. by rewrite H0, Hdead.
Qed.

Lemma find_mrv_first_single s r c :
  (r < 9)%nat -> (c < 9)%nat ->
  cell (board s) r c = 0 -> popcount (_candidates_bitmask s r c) = 1%nat ->
  (forall r' c', (r' < 9)%nat -> (c' < 9)%nat -> before r c (r', c') ->
                 cell (board s) r' c' = 0 ->
                 (2 <= popcount (_candidates_bitmask s r' c'))%nat) ->
  _find_mrv_cell_bitmask s
  = Some (r, c, _bitmask_to_set (_candidates_bitmask s r c)).
Proof.
  intros Hr Hc H0 Hone Hbefore.
  destruct (find_mrv_reaches s r c Hr Hc Hbefore)
    as (post & best & bc & Hbc & ->).
  simpl. apply Z.eqb_eq in H0. rewrite H0, Hone. simpl.
  by destruct (Nat.ltb_spec 1 bc); [|lia].
Qed.

Lemma find_mrv_none s :
  _find_mrv_cell_bitmask s = None <->
  forall r c, (r < 9)%nat -> (c < 9)%nat -> cell (board s) r c <> 0.
Proof.
  unfold _find_mrv_cell_bitmask. rewrite mrv_scan_none, Forall_forall. split.
  - intros Hall r c Hr Hc.
    apply (Hall (r, c)), BitmaskSolverFacts.elem_of_all_cells. done.
  - intros Hall [r c] [Hr Hc]%BitmaskSolverFacts.elem_of_all_cells.
    by apply Hall.
Qed.

End HybridFacts.

(** ** is_complete *)

Module CompleteFacts.

Lemma length_remove_dups_le (l : list Z) : (length (remove_dups l) <= length l)%nat.
Proof.
  induction l as [|x l IH]; simpl; [done|].
  destruct (decide_rel _ x l); simpl; lia.
Qed.

(** [len(set(l)) == len(l)] says that [l] has no repeated element. *)
Lemma set_size_NoDup (l : list Z) :
  SudokuDp.set_size l = length l <-> NoDup l.
Proof.
  unfold SudokuDp.set_size. induction l as [|x l IH]; simpl.
  - split; [constructor|done].
  - pose proof (length_remove_dups_le l).
    rewrite NoDup_cons. destruct (decide_rel _ x l) as [Hin|Hnotin]; simpl.
    + split; [lia|]. by intros [? _].
    + rewrite <- IH. split; [intros [= ?]; done|intros [_ ->]; done].
Qed.

Lemma forallb_range9 (f : nat -> bool) :
  forallb f range9 = true <-> forall i, (i < 9)%nat -> f i = true.
Proof.
  rewrite forallb_forall. unfold range9.
  setoid_rewrite <- list_elem_of_In. setoid_rewrite elem_of_seq.
  split; intros H i Hi; apply H; lia.
Qed.

Lemma forallb_all_cells (f : nat * nat -> bool) :
  forallb f all_cells = true <->
  forall r c, (r < 9)%nat -> (c < 9)%nat -> f (r, c) = true.
Proof.
  rewrite forallb_forall. setoid_rewrite <- list_elem_of_In. split.
  - intros H r c Hr Hc. by apply H, BitmaskSolverFacts.elem_of_all_cells.
  - intros H [r c] [Hr Hc]%BitmaskSolverFacts.elem_of_all_cells. by apply H.
Qed.

Lemma forallb_block_origins (f : nat * nat -> bool) :
  forallb f block_origins = true <->
  forall br bc, (br, bc) ∈ block_origins -> f (br, bc) = true.
Proof.
  rewrite forallb_forall. setoid_rewrite <- list_elem_of_In. split.
  - intros H br bc. apply H.
  - intros H [br bc]. apply H.
Qed.

(** The four stages of the check of sudoku_dp.py. *)
Lemma is_complete_dp_spec b :
  wf_board b ->
  SudokuDp.is_complete b = true <->
  (forall r c, (r < 9)%nat -> (c < 9)%nat -> cell b r c <> 0)
  /\ (forall r, (r < 9)%nat -> NoDup (row_vals b r))
  /\ (forall c, (c < 9)%nat -> NoDup (col_vals b c))
  /\ (forall br bc, (br, bc) ∈ block_origins -> NoDup (box_vals b br bc)).
Proof.
  intros Hwf. unfold SudokuDp.is_complete.
  rewrite !andb_true_iff, forallb_all_cells, !forallb_range9,
    forallb_block_origins.
  assert (forall l, length l = 9%nat ->
            (SudokuDp.set_size l =? 9)%nat = true <-> NoDup l) as Hsize.
  { intros l Hl. rewrite Nat.eqb_eq, <- Hl. apply set_size_NoDup. }
  split.
  - intros (((Hfull & Hrows) & Hcols) & Hboxes). split; [|split; [|split]].
    + intros r c Hr Hc. specialize (Hfull r c Hr Hc). simpl in Hfull.
      apply negb_true_iff, Z.eqb_neq in Hfull. done.
    + intros r Hr. apply Hsize; [by apply wf_board_row|by apply Hrows].
    + intros c Hc. apply Hsize; [done|by apply Hcols].
    + intros br bc Hin. apply Hsize; [done|by apply Hboxes].
  - intros (Hfull & Hrows & Hcols & Hboxes). repeat split.
    + intros r c Hr Hc. simpl. apply negb_true_iff, Z.eqb_neq. by apply Hfull.
    + intros r Hr. apply Hsize; [by apply wf_board_row|by apply Hrows].
    + intros c Hc. apply Hsize; [done|by apply Hcols].
    + intros br bc Hin. apply Hsize; [done|by apply Hboxes].
Qed.

(** The check of sudoku_hybrid.py looks for empty cells only. *)
Lemma is_complete_hybrid_spec b :
  Hybrid.is_complete b = true <->
  forall r c, (r < 9)%nat -> (c < 9)%nat -> cell b r c <> 0.
Proof.
  unfold Hybrid.is_complete. rewrite forallb_all_cells.
  split; intros Hfull r c Hr Hc; specialize (Hfull r c Hr Hc); simpl in *.
  - by apply negb_true_iff, Z.eqb_neq in Hfull.
  - by apply negb_true_iff, Z.eqb_neq.
Qed.

End CompleteFacts.

(** ** The move scheduler *)

Module SchedulerFacts.
Import Scheduler.

Lemma heappush_live b q n r c :
  live b q -> cell b r c = 0 -> live b (heappush q (n, r, c)).
Proof.
  unfold live. induction q as [|y q IH]; cbn [heappush]; intros Hq H0.
  - by constructor.
  - destruct (entry_leb (n, r, c) y).
    + by constructor.
    + apply Forall_cons in Hq as [Hy Hq]. constructor; auto.
Qed.

Lemma enqueue_cell_live b q es ij :
  live b q -> live b (enqueue_cell b (q, es) ij).1.
Proof.
  intros Hq. destruct ij as [i j]. unfold enqueue_cell.
  destruct (Z.eqb_spec (cell b i j) 0) as [H0|?]; [|done].
  destruct (Hybrid.get_candidates b i j); [done|].
  by apply heappush_live.
Qed.

Lemma enqueue_cells_live b cells : forall acc,
  live b acc.1 -> live b (fold_left (enqueue_cell b) cells acc).1.
Proof.
  induction cells as [|ij cells IH]; intros [q es] Hq; cbn [fold_left]; [done|].
  apply IH. by apply enqueue_cell_live.
Qed.

(** A rebuilt queue holds empty cells only. *)
Lemma initialize_priority_queue_live g :
  live (board g) (pq (initialize_priority_queue g))
  /\ board (initialize_priority_queue g) = board g.
Proof.
  unfold initialize_priority_queue.
  pose proof (enqueue_cells_live (board g) all_cells ([], ∅)) as Hfold.
  destruct (fold_left _ _ _) as [q es]. cbn [fst pq board] in *.
  split; [|done]. apply Hfold. constructor.
Qed.

(** After the cleaning loop the queue is empty or its least entry names
    an empty cell. *)
Lemma clean_stale_head b q es :
  match (clean_stale b q es).1 with
  | [] => True
  | (_, r, c) :: _ => cell b r c = 0
  end.
Proof.
  revert es. induction q as [|[[n r] c] q IH]; intros es; simpl; [done|].
  destruct (Z.eqb_spec (cell b r c) 0) as [H0|Hnz]; simpl; [done|].
  apply IH.
Qed.

Lemma prepare_queue_head g :
  board (prepare_queue g) = board g /\
  match pq (prepare_queue g) with
  | [] => True
  | (_, r, c) :: _ => cell (board g) r c = 0
  end.
Proof.
  unfold prepare_queue.
  pose proof (clean_stale_head (board g) (pq g) (pq_entries g)) as Hhead.
  destruct (clean_stale _ _ _) as [q es]. cbn [fst] in Hhead.
  destruct q as [|[[n r] c] q]; [|done].
  destruct (negb _); [|done].
  destruct (initialize_priority_queue_live (Game (board g) [] es))
    as [Hlive Hboard].
  split; [done|]. cbn [board] in Hlive.
  destruct (pq _) as [|[[n r] c] q]; [done|].
  by apply Forall_cons in Hlive as [? _].
Qed.

End SchedulerFacts.

(** ** Checking concrete boards *)

Module Checks.

#[global] Instance wf_board_dec b : Decision (wf_board b).
Proof. unfold wf_board. apply _. Defined.

#[global] Instance cells_empty_dec b cells : Decision (cells_empty b cells).
Proof.
  unfold cells_empty. apply Forall_dec. intros [r c]. apply _.
Defined.

#[global] Instance before_dec r c rc : Decision (Hybrid.before r c rc).
Proof. unfold Hybrid.before. apply _. Defined.

(** A property of the 81 cells can be checked cell by cell. *)
Lemma all_cells_forall (P : nat -> nat -> Prop) :
  Forall (fun '(r, c) => P r c) all_cells ->
  forall r c, (r < 9)%nat -> (c < 9)%nat -> P r c.
Proof.
  intros Hall r c Hr Hc. rewrite Forall_forall in Hall.
  by apply (Hall (r, c)), BitmaskSolverFacts.elem_of_all_cells.
Qed.

Lemma extends_check b t :
  Forall (fun '(r, c) => cell b r c <> 0 -> cell t r c = cell b r c) all_cells ->
  extends b t.
Proof.
  intros Hall r c Hr Hc.
  by apply (all_cells_forall
              (fun r c => cell b r c <> 0 -> cell t r c = cell b r c)).
Qed.

Lemma rng_id_ok : Generator.rng_ok Examples.rng_id.
Proof. unfold Generator.rng_ok, Rng.outcome. simpl. repeat split; done. Qed.

Lemma pattern_board_solution : solution Examples.pattern_board.
Proof. exact (GeneratorFacts.full_board_solution Examples.rng_id rng_id_ok). Qed.

End Checks.
(** * Further properties of the engine *)

(** ** Candidates: the set view, the mask view and [is_valid] *)

Module CandidateFacts.
Import Completion BitmaskSolver BitmaskSolverFacts PropagationFacts.

Lemma filter_ext_elem {A} (P Q : A -> Prop) `{!forall x, Decision (P x)}
    `{!forall x, Decision (Q x)} (l : list A) :
  (forall x, x ∈ l -> P x <-> Q x) -> filter P l = filter Q l.
Proof.
  induction l as [|x l IH]; intros Hpq; [done|].
  rewrite !filter_cons.
  rewrite IH by (intros y Hy; apply Hpq; by right).
  pose proof (Hpq x (list_elem_of_here _ _)) as Hx.
  destruct (decide (P x)), (decide (Q x)); tauto.
Qed.

Lemma filter_fmap_comm {A B} (f : A -> B) (Q : B -> Prop)
    `{!forall y, Decision (Q y)} (l : list A) :
  filter Q (f <$> l) = f <$> filter (fun x => Q (f x)) l.
Proof.
  induction l as [|x l IH]; [done|].
  rewrite fmap_cons, !filter_cons, IH.
  by destruct (decide (Q (f x))).
Qed.

Lemma digits_bits9 : digits = (fun k => k + 1) <$> bits9.
Proof. reflexivity. Qed.

(** The three membership tests of [get_candidates] say that no cell of
    the three houses of [(r, c)] holds [d]. *)
Lemma absent_vals b r c d :
  wf_board b -> (r < 9)%nat -> (c < 9)%nat ->
  ((d ∉ row_vals b r) /\ (d ∉ col_vals b c)
   /\ (d ∉ box_vals b (3 * (r / 3)) (3 * (c / 3))))
  <-> absent b r c d.
Proof.
  intros Hwf Hr Hc. split.
  - intros (Hrow & Hcol & Hbox) u r' c' Hr' Hc' Hu Hu' Heq.
    destruct u as [r0|c0|i]; simpl in Hu, Hu'; subst.
    + apply Hrow. apply elem_of_row_vals; eauto.
    + apply Hcol. apply elem_of_col_vals; eauto.
    + apply Hbox. apply elem_of_box_vals. exists r', c'.
      symmetry in Hu'.
      apply GeneratorFacts.same_box in Hu' as [Hr3 Hc3]; auto.
      rewrite Hr3, Hc3.
      pose proof (Nat.div_mod_eq r' 3). pose proof (Nat.div_mod_eq c' 3).
      pose proof (Nat.mod_upper_bound r' 3). pose proof (Nat.mod_upper_bound c' 3).
      repeat split; lia.
  - intros Habs. split; [|split].
    + rewrite elem_of_row_vals by done. intros (c' & Hc' & Heq).
      by apply (Habs (Row r) r c').
    + rewrite elem_of_col_vals. intros (r' & Hr' & Heq).
      by apply (Habs (Col c) r' c).
    + rewrite elem_of_box_vals. intros (i & j & Hi & Hj & Heq).
      destruct (box_corner_index r c i j) as (Hi9 & Hj9 & Hbox); auto.
      by apply (Habs (Box (get_box_index r c)) i j).
Qed.

(** A bit of [rows[r] | cols[c] | boxes[box]] is clear exactly when the
    digit is absent from the three houses. *)
Lemma free_absent s r c k :
  mirrors s -> (r < 9)%nat -> (c < 9)%nat -> 0 <= k < 9 ->
  Z.land (taken_mask s r c (get_box_index r c)) (Z.shiftl 1 k) = 0
  <-> absent (board s) r c (k + 1).
Proof.
  intros [Hlen Hm] Hr Hc Hk. unfold taken_mask.
  rewrite land_lor3_eq_0, !land_bit_eq_0 by lia.
  change (rows s !!! r) with (mask_of s (Row r)).
  change (cols s !!! c) with (mask_of s (Col c)).
  change (boxes s !!! get_box_index r c) with (mask_of s (Box (get_box_index r c))).
  split.
  - intros (Hrow & Hcol & Hbox) u r' c' Hr' Hc' Hu Hu' Heq.
    assert (Z.testbit (mask_of s u) k = true) as Hbit.
    { apply Hm; [by apply (in_house_index u r c)|done|]. by exists r', c'. }
    destruct u as [r0|c0|i]; simpl in Hu; subst; congruence.
  - intros Habs.
    assert (forall u, in_house u r c -> Z.testbit (mask_of s u) k = false) as Hu.
    { intros u Hin. apply not_true_is_false. intros Hbit.
      apply Hm in Hbit as (r' & c' & Hr' & Hc' & Hin' & Hv);
        [|by apply (in_house_index u r c)|done].
      by apply (Habs u r' c'). }
    split; [|split]; by apply Hu.
Qed.

(** The mask view and the set view of the candidates agree. *)
Lemma free_candidate s r c k :
  wf_board (board s) -> mirrors s -> (r < 9)%nat -> (c < 9)%nat ->
  cell (board s) r c = 0 -> 0 <= k < 9 ->
  Z.land (taken_mask s r c (get_box_index r c)) (Z.shiftl 1 k) = 0
  <-> k + 1 ∈ Hybrid.get_candidates (board s) r c.
Proof.
  intros Hwf Hm Hr Hc H0 Hk.
  rewrite free_absent, elem_of_get_candidates, absent_vals by done.
  split; [intros; repeat split; auto; lia | tauto].
Qed.

Lemma candidates_of_masks s r c :
  wf_board (board s) -> mirrors s -> (r < 9)%nat -> (c < 9)%nat ->
  cell (board s) r c = 0 ->
  Hybrid.get_candidates (board s) r c
  = (fun k => k + 1) <$>
      filter (fun k => Z.land (taken_mask s r c (get_box_index r c))
                              (Z.shiftl 1 k) = 0) bits9.
Proof.
  intros Hwf Hm Hr Hc H0. unfold Hybrid.get_candidates.
  rewrite H0. simpl negb. cbv iota.
  rewrite digits_bits9, filter_fmap_comm. f_equal.
  apply filter_ext_elem. intros k Hk%bits9_range.
  rewrite free_absent, absent_vals by done. done.
Qed.

(** [_count_options] counts the candidates of the cell. *)
Lemma count_options_candidates s r c :
  wf_board (board s) -> mirrors s -> (r < 9)%nat -> (c < 9)%nat ->
  cell (board s) r c = 0 ->
  _count_options s r c = length (Hybrid.get_candidates (board s) r c).
Proof.
  intros. rewrite candidates_of_masks by done.
  by rewrite length_fmap.
Qed.

Lemma testbit_511 k : 0 <= k < 9 -> Z.testbit 511 k = true.
Proof. intros Hk. change 511 with (Z.ones 9). apply Z.ones_spec_low. lia. Qed.

Lemma candidate_bit used k :
  0 <= k < 9 ->
  Z.land (Z.land (Z.lnot used) 511) (Z.shiftl 1 k) <> 0
  <-> Z.land used (Z.shiftl 1 k) = 0.
Proof.
  intros Hk. rewrite !land_bit_eq_0 by lia.
  rewrite Z.land_spec, Z.lnot_spec, testbit_511 by lia.
  destruct (Z.testbit used k); simpl; split; try done; by intros [].
Qed.

Lemma bitmask_to_set_0 : Hybrid._bitmask_to_set 0 = [].
Proof. reflexivity. Qed.

(** [_bitmask_to_set(_candidates_bitmask(board, r, c))] is
    [get_candidates(board, r, c)] when the masks mirror the board. *)
Lemma bitmask_candidates (s : Hybrid.store) r c :
  wf_board (Hybrid.board s) -> mirrors (masks_of s) ->
  (r < 9)%nat -> (c < 9)%nat ->
  Hybrid._bitmask_to_set (Hybrid._candidates_bitmask s r c)
  = Hybrid.get_candidates (Hybrid.board s) r c.
Proof.
  intros Hwf Hm Hr Hc.
  destruct (decide (cell (Hybrid.board s) r c = 0)) as [H0|Hnz].
  - rewrite HybridSearchFacts.candidates_bitmask_empty by done.
    rewrite (candidates_of_masks (masks_of s)) by done.
    unfold Hybrid._bitmask_to_set. f_equal.
    apply filter_ext_elem. intros k Hk%bits9_range.
    by rewrite candidate_bit.
  - unfold Hybrid._candidates_bitmask, Hybrid.get_candidates.
    apply Z.eqb_neq in Hnz. by rewrite Hnz.
Qed.

(** [bin(mask).count("1")] of a nine-bit mask is the size of the set
    [_bitmask_to_set(mask)]. *)
Lemma popcount_masks9 :
  forallb (fun m => (Hybrid.popcount m =? length (Hybrid._bitmask_to_set m))%nat)
          masks9 = true.
Proof. vm_compute. reflexivity. Qed.

Lemma popcount_bitmask_to_set m :
  0 <= m < 512 -> Hybrid.popcount m = length (Hybrid._bitmask_to_set m).
Proof.
  intros Hm. pose proof popcount_masks9 as Hall.
  rewrite forallb_forall in Hall.
  apply Nat.eqb_eq, Hall. apply list_elem_of_In.
  unfold masks9. apply list_elem_of_fmap. exists (Z.to_nat m).
  split; [lia|]. apply elem_of_seq. lia.
Qed.

Lemma candidates_bitmask_range s r c :
  0 <= Hybrid._candidates_bitmask s r c < 512.
Proof.
  unfold Hybrid._candidates_bitmask.
  destruct (negb _); [lia|].
  change 511 with (Z.ones 9). rewrite Z.land_ones by lia.
  apply Z.mod_pos_bound. lia.
Qed.

Lemma popcount_candidates_length (s : Hybrid.store) r c :
  wf_board (Hybrid.board s) -> mirrors (masks_of s) ->
  (r < 9)%nat -> (c < 9)%nat ->
  Hybrid.popcount (Hybrid._candidates_bitmask s r c)
  = length (Hybrid.get_candidates (Hybrid.board s) r c).
Proof.
  intros. rewrite popcount_bitmask_to_set by apply candidates_bitmask_range.
  by rewrite bitmask_candidates.
Qed.

(** *** The masks after [_init_bitmasks] *)

Lemma init_cell_masks_of s rc acc :
  masks_of (Hybrid.init_cell s rc) = (init_cell (masks_of s, acc) rc).1.
Proof.
  destruct rc as [r c]. unfold Hybrid.init_cell, init_cell.
  change (board (masks_of s)) with (Hybrid.board s).
  by destruct (cell (Hybrid.board s) r c =? 0).
Qed.

Lemma init_cells_masks_of l : forall s acc,
  masks_of (fold_left Hybrid.init_cell l s)
  = (fold_left init_cell l (masks_of s, acc)).1.
Proof.
  induction l as [|rc l IH]; intros s acc; [done|].
  cbn [fold_left]. 
  destruct (init_cell (masks_of s, acc) rc) as [s1 acc1] eqn:Hstep.
  rewrite (IH _ acc1). f_equal. f_equal.
  rewrite (init_cell_masks_of s rc acc), Hstep. done.
Qed.

Lemma init_bitmasks_masks_of s :
  masks_of (Hybrid._init_bitmasks s) = (_initialize_masks (Hybrid.board s)).1.
Proof. unfold Hybrid._init_bitmasks. by rewrite (init_cells_masks_of _ _ []). Qed.

Lemma init_bitmasks_mirrors s :
  digits_board (Hybrid.board s) -> mirrors (masks_of (Hybrid._init_bitmasks s)).
Proof.
  intros Hd. rewrite init_bitmasks_masks_of. by apply initialize_masks_mirrors.
Qed.

(** *** [is_valid] *)

Lemma is_valid_spec b row col num :
  (row < 9)%nat -> (col < 9)%nat ->
  Hybrid.is_valid b row col num = true <->
  forall r' c', (r' < 9)%nat -> (c' < 9)%nat -> peers row col r' c' ->
                cell b r' c' <> num.
Proof.
  intros Hr Hc. unfold Hybrid.is_valid.
  rewrite andb_true_iff, CompleteFacts.forallb_range9, forallb_forall.
  split.
  - intros [Hline Hbox] r' c' Hr' Hc' [Hne [<-|[<-|Hb]]] Heq.
    + specialize (Hline c' Hc'). apply andb_true_iff in Hline as [Hrow _].
      apply negb_true_iff, andb_false_iff in Hrow as [Hrow|Hrow].
      * apply Z.eqb_neq in Hrow. done.
      * apply negb_false_iff, Nat.eqb_eq in Hrow. by subst.
    + specialize (Hline r' Hr'). apply andb_true_iff in Hline as [_ Hcol].
      apply negb_true_iff, andb_false_iff in Hcol as [Hcol|Hcol].
      * apply Z.eqb_neq in Hcol. done.
      * apply negb_false_iff, Nat.eqb_eq in Hcol. by subst.
    + apply GeneratorFacts.same_box in Hb as [Hr3 Hc3]; auto.
      assert ((r', c') ∈ box_cells (3 * (row / 3)) (3 * (col / 3))) as Hin.
      { rewrite Hr3, Hc3. by apply GeneratorFacts.block_origin_of. }
      apply list_elem_of_In, Hbox in Hin.
      apply negb_true_iff, andb_false_iff in Hin as [Hin|Hin].
      * apply Z.eqb_neq in Hin. done.
      * apply negb_false_iff, andb_true_iff in Hin as [->%Nat.eqb_eq ->%Nat.eqb_eq].
        done.
  - intros Habs. split.
    + intros i Hi. apply andb_true_iff. split.
      * apply negb_true_iff, andb_false_iff.
        destruct (decide (i = col)) as [->|Hne].
        -- right. by rewrite Nat.eqb_refl.
        -- left. apply Z.eqb_neq. apply Habs; auto.
           split; [|by left]. intros [= ?]. done.
      * apply negb_true_iff, andb_false_iff.
        destruct (decide (i = row)) as [->|Hne].
        -- right. by rewrite Nat.eqb_refl.
        -- left. apply Z.eqb_neq. apply Habs; auto.
           split; [|by right; left]. intros [= ?]. done.
    + intros [i j] Hin%list_elem_of_In%GeneratorFacts.elem_of_box_cells.
      destruct Hin as [Hi Hj].
      destruct (box_corner_index row col i j) as (Hi9 & Hj9 & Hbox); auto.
      apply negb_true_iff, andb_false_iff.
      destruct (decide ((row, col) = (i, j))) as [[= <- <-]|Hne].
      * right. by rewrite !Nat.eqb_refl.
      * left. apply Z.eqb_neq. apply Habs; auto. split; [done|]. by right; right.
Qed.

Lemma absent_peers b r c d :
  cell b r c <> d -> (r < 9)%nat -> (c < 9)%nat ->
  absent b r c d <->
  forall r' c', (r' < 9)%nat -> (c' < 9)%nat -> peers r c r' c' -> cell b r' c' <> d.
Proof.
  intros Hrc Hr Hc. split.
  - intros Habs r' c' Hr' Hc' Hp.
    apply peers_house in Hp as [_ (u & Hu & Hu')]. by apply (Habs u).
  - intros Hp u r' c' Hr' Hc' Hu Hu'.
    destruct (decide ((r, c) = (r', c'))) as [[= <- <-]|Hne]; [done|].
    apply Hp; auto. apply peers_house. split; [done|]. by exists u.
Qed.

End CandidateFacts.

(** ** The bitmask solver: what a count says about the completions *)

Module CountFacts.
Import Completion Reach BitmaskSolver BitmaskSolverFacts.

Section CountLoop.

Variables (rec : store -> Z * store) (s : store) (r c box_idx : nat) (limit : Z).

Hypothesis cell_empty : cell (board s) r c = 0.
Hypothesis rec_restores :
  forall k, (rec (placed s r c box_idx k)).2 = placed s r c box_idx k.
Hypothesis rec_nonneg : forall s1, 0 <= (rec s1).1.

Let loop := count_digits rec (taken_mask s r c box_idx) r c box_idx limit.
Let free k := Z.land (taken_mask s r c box_idx) (Z.shiftl 1 k) = 0.
Let sub k := (rec (placed s r c box_idx k)).1.

(** A positive count comes from a branch with a positive count. *)
Lemma count_digits_pos ks : forall count,
  0 <= count -> 1 <= (loop ks count s).1 ->
  1 <= count \/ exists k, k ∈ ks /\ free k /\ 1 <= sub k.
Proof.
  induction ks as [|k ks IH]; intros count Hc Hres.
  - left. exact Hres.
  - destruct (decide (free k)) as [Hfree|Hfree].
    + unfold loop in Hres. rewrite count_digits_step in Hres by done.
      cbv zeta in Hres. fold (sub k) in Hres.
      pose proof (rec_nonneg (placed s r c box_idx k)) as Hn. fold (sub k) in Hn.
      destruct (decide (1 <= count)) as [|Hsmall]; [by left|].
      assert (1 <= count + sub k \/ exists k', k' ∈ ks /\ free k' /\ 1 <= sub k')
        as [Hsum|(k' & Hin & Hf & Hk')].
      { destruct (limit <=? count + sub k); [by left|].
        apply IH; [lia|done]. }
      * right. exists k. split; [by left|]. split; [done|lia].
      * right. exists k'. split; [by right|done].
    + unfold loop in Hres. rewrite count_digits_skip in Hres by done.
      destruct (IH count Hc Hres) as [|(k' & Hin & Hf & Hk')]; [by left|].
      right. exists k'. split; [by right|done].
Qed.

(** A count of two or more comes from one branch with two, or from two
    branches with one each. *)
Lemma count_digits_two_origin ks : forall count,
  NoDup ks -> 0 <= count -> 2 <= (loop ks count s).1 ->
  2 <= count
  \/ (1 <= count /\ exists k, k ∈ ks /\ free k /\ 1 <= sub k)
  \/ (exists k, k ∈ ks /\ free k /\ 2 <= sub k)
  \/ (exists k1 k2, k1 <> k2 /\ k1 ∈ ks /\ k2 ∈ ks /\ free k1 /\ free k2
                    /\ 1 <= sub k1 /\ 1 <= sub k2).
Proof.
  induction ks as [|k ks IH]; intros count Hnd Hc Hres.
  - left. exact Hres.
  - apply NoDup_cons in Hnd as [Hk Hnd].
    assert (forall count', 0 <= count' -> 2 <= (loop ks count' s).1 ->
              2 <= count'
              \/ (1 <= count' /\ exists k', k' ∈ k :: ks /\ k' <> k /\ free k' /\ 1 <= sub k')
              \/ (exists k', k' ∈ k :: ks /\ free k' /\ 2 <= sub k')
              \/ (exists k1 k2, k1 <> k2 /\ k1 ∈ k :: ks /\ k2 ∈ k :: ks
                                /\ free k1 /\ free k2 /\ 1 <= sub k1 /\ 1 <= sub k2))
      as Hrest.
    { intros count' Hc' Hres'.
      destruct (IH count' Hnd Hc' Hres')
        as [H2|[[H1 (k' & Hin & Hf & Hk')]|[(k' & Hin & Hf & Hk')
            |(k1 & k2 & Hne & Hin1 & Hin2 & Hrest)]]].
      - by left.
      - right; left. split; [done|]. exists k'.
        split; [by right|]. split; [by intros ->|done].
      - right; right; left. exists k'. split; [by right|done].
      - right; right; right. exists k1, k2.
        split; [done|]. split; [by right|]. split; [by right|done]. }
    destruct (decide (free k)) as [Hfree|Hfree].
    + unfold loop in Hres. rewrite count_digits_step in Hres by done.
      cbv zeta in Hres. fold (sub k) in Hres.
      pose proof (rec_nonneg (placed s r c box_idx k)) as Hn. fold (sub k) in Hn.
      assert (2 <= count + sub k
              \/ (1 <= count + sub k /\ exists k', k' ∈ k :: ks /\ k' <> k /\ free k' /\ 1 <= sub k')
              \/ (exists k', k' ∈ k :: ks /\ free k' /\ 2 <= sub k')
              \/ (exists k1 k2, k1 <> k2 /\ k1 ∈ k :: ks /\ k2 ∈ k :: ks
                                /\ free k1 /\ free k2 /\ 1 <= sub k1 /\ 1 <= sub k2))
        as Hcases.
      { destruct (limit <=? count + sub k); [by left|].
        apply Hrest; [lia|done]. }
      destruct Hcases as [H2|[[H1 (k' & Hin & Hne & Hf & Hk')]|[H3|H4]]].
      * destruct (decide (2 <= count)) as [|Hlt2]; [by left|].
        destruct (decide (1 <= count)) as [H1|Hlt1].
        -- right; left. split; [done|]. exists k.
           split; [by left|]. split; [done|lia].
        -- right; right; left. exists k. split; [by left|]. split; [done|lia].
      * destruct (decide (1 <= count)) as [H1c|Hlt1].
        -- right; left. split; [done|]. by exists k'.
        -- right; right; right. exists k, k'.
           split; [done|]. split; [by left|]. split; [done|].
           split; [done|]. split; [done|]. split; [lia|done].
      * right; right; left. exact H3.
      * right; right; right. exact H4.
    + unfold loop in Hres. rewrite count_digits_skip in Hres by done.
      destruct (Hrest count Hc Hres) as [H2|[[H1 (k' & Hin & Hne & Hf & Hk')]|[H3|H4]]].
      * by left.
      * right; left. split; [done|]. by exists k'.
      * right; right; left. exact H3.
      * right; right; right. exact H4.
Qed.

End CountLoop.

Lemma NoDup_bits9 : NoDup bits9.
Proof. apply (bool_decide_unpack _). by vm_compute. Qed.

(** Filling the head cell and then the rest fills the whole list. *)
Lemma fills_cons s r c rest k t :
  ready s ((r, c) :: rest) ->
  fills rest (board (placed s r c (get_box_index r c) k)) t ->
  0 <= k < 9 ->
  fills ((r, c) :: rest) (board s) t /\ cell t r c = k + 1.
Proof.
  intros Hready (Hwf & Hnc & Hin & Hout) Hk.
  pose proof (ready_head _ _ _ _ Hready) as (Hr & Hc & H0 & Hnotin).
  destruct Hready as (Hwfs & _).
  assert (cell t r c = k + 1) as Hrc.
  { rewrite Hout by done. unfold placed. simpl. by apply cell_set_cell_eq. }
  split; [|done]. split; [done|]. split; [done|]. split.
  - intros r' c' [[= -> ->]|Hrest]%elem_of_cons; [lia|by apply Hin].
  - intros r' c' Hnot. apply not_elem_of_cons in Hnot as [Hne Hnot].
    rewrite Hout by done. unfold placed. simpl.
    by rewrite cell_set_cell_ne.
Qed.

(** A positive count: the cells can be filled. *)
Lemma backtrack_count_pos limit cells : forall s,
  1 <= limit -> ready s cells -> no_conflict (board s) ->
  1 <= (_backtrack_count limit cells s).1 ->
  exists t, fills cells (board s) t.
Proof.
  induction cells as [|[r c] rest IH]; intros s Hlim Hready Hnc Hpos.
  - exists (board s). destruct Hready as (Hwf & _).
    split; [done|]. split; [done|].
    split; [by intros r c Hin%elem_of_nil|done].
  - pose proof (ready_head _ _ _ _ Hready) as (Hr & Hc & H0 & Hnotin).
    rewrite backtrack_count_cons in Hpos.
    apply count_digits_pos in Hpos as [Hbad|(k & Hk%bits9_range & Hfree & Hsub)];
      [lia|..|lia].
    + destruct (IH (placed s r c (get_box_index r c) k)) as [t Ht]; auto.
      * by apply (ready_placed s r c rest).
      * destruct Hready as (Hwf & Hm & _). by apply no_conflict_placed.
      * exists t. by apply (fills_cons s r c rest k).
    + done.
    + intros k. by apply (counting_call_restores limit s r c rest).
    + intros s1. by apply backtrack_count_nonneg.
Qed.

(** A count of two or more: the cells can be filled in two ways. *)
Lemma backtrack_count_two limit cells : forall s,
  1 <= limit -> ready s cells -> no_conflict (board s) ->
  2 <= (_backtrack_count limit cells s).1 ->
  exists t1 t2, fills cells (board s) t1 /\ fills cells (board s) t2 /\ t1 <> t2.
Proof.
  induction cells as [|[r c] rest IH]; intros s Hlim Hready Hnc Htwo.
  - simpl in Htwo. lia.
  - pose proof (ready_head _ _ _ _ Hready) as (Hr & Hc & H0 & Hnotin).
    assert (forall k, 0 <= k < 9 ->
              Z.land (taken_mask s r c (get_box_index r c)) (Z.shiftl 1 k) = 0 ->
              ready (placed s r c (get_box_index r c) k) rest
              /\ no_conflict (board (placed s r c (get_box_index r c) k)))
      as Hnext.
    { intros k Hk Hfree. split; [by apply (ready_placed s r c rest)|].
      destruct Hready as (Hwf & Hm & _). by apply no_conflict_placed. }
    rewrite backtrack_count_cons in Htwo.
    apply count_digits_two_origin in Htwo
      as [Hbad|[[Hbad _]|[(k & Hk%bits9_range & Hfree & Hsub)
          |(k1 & k2 & Hne & Hk1%bits9_range & Hk2%bits9_range
            & Hf1 & Hf2 & Hs1 & Hs2)]]]; [lia|lia|..].
    + destruct (Hnext k Hk Hfree) as [Hrk Hnk].
      destruct (IH _ Hlim Hrk Hnk Hsub) as (t1 & t2 & Ht1 & Ht2 & Hne).
      exists t1, t2.
      split; [by apply (fills_cons s r c rest k)|].
      split; [by apply (fills_cons s r c rest k)|done].
    + destruct (Hnext k1 Hk1 Hf1) as [Hr1 Hn1].
      destruct (Hnext k2 Hk2 Hf2) as [Hr2 Hn2].
      destruct (backtrack_count_pos _ _ _ Hlim Hr1 Hn1 Hs1) as [t1 Ht1].
      destruct (backtrack_count_pos _ _ _ Hlim Hr2 Hn2 Hs2) as [t2 Ht2].
      apply (fills_cons s r c rest k1) in Ht1 as [Ht1 Hv1]; [|done..].
      apply (fills_cons s r c rest k2) in Ht2 as [Ht2 Hv2]; [|done..].
      exists t1, t2. split; [done|]. split; [done|].
      intros ->. rewrite Hv1 in Hv2. lia.
    + done.
    + intros k. by apply (counting_call_restores limit s r c rest).
    + intros s1. by apply backtrack_count_nonneg.
    + apply NoDup_bits9.
    + lia.
Qed.

(** Filling all the empty cells of a board of digits gives a
    completion. *)
Lemma fills_completion b t :
  digits_board b -> fills (empty_cells b) b t -> completion b t.
Proof.
  intros Hd (Hwf & Hnc & Hin & Hout). split.
  - split; [done|]. split; [|done]. intros r c Hr Hc.
    destruct (decide (cell b r c = 0)) as [H0|Hnz].
    + apply Hin. by apply elem_of_empty_cells.
    + rewrite Hout by (rewrite elem_of_empty_cells; tauto).
      specialize (Hd r c Hr Hc). lia.
  - intros r c Hr Hc Hnz. apply Hout. rewrite elem_of_empty_cells. tauto.
Qed.

Lemma count_pos_completion b limit :
  1 <= limit -> wf_board b -> digits_board b -> no_conflict b ->
  1 <= count_solutions b limit -> exists t, completion b t.
Proof.
  intros Hlim Hwf Hd Hnc Hpos. rewrite count_solutions_unfold in Hpos.
  pose proof (initialize_masks_board b) as [Hb _].
  apply backtrack_count_pos in Hpos as [t Ht]; auto.
  - exists t. rewrite Hb in Ht. by apply fills_completion.
  - by apply count_ready.
  - by rewrite Hb.
Qed.

Lemma count_two_completions b limit :
  1 <= limit -> wf_board b -> digits_board b -> no_conflict b ->
  2 <= count_solutions b limit ->
  exists t1 t2, completion b t1 /\ completion b t2 /\ t1 <> t2.
Proof.
  intros Hlim Hwf Hd Hnc Htwo. rewrite count_solutions_unfold in Htwo.
  pose proof (initialize_masks_board b) as [Hb _].
  apply backtrack_count_two in Htwo as (t1 & t2 & Ht1 & Ht2 & Hne); auto.
  - exists t1, t2. rewrite Hb in Ht1, Ht2.
    split; [by apply fills_completion|]. split; [by apply fills_completion|done].
  - by apply count_ready.
  - by rewrite Hb.
Qed.

Lemma completion_count_pos b limit t :
  1 <= limit -> wf_board b -> digits_board b -> completion b t ->
  1 <= count_solutions b limit.
Proof.
  intros Hlim Hwf Hd [Hsol Hext]. rewrite count_solutions_unfold.
  apply (backtrack_count_ge1 limit _ _ t); auto.
  - by apply count_ready.
  - by rewrite (proj1 (initialize_masks_board b)).
Qed.

End CountFacts.


(** ** The bitmask solver: the count and the number of completions *)

Module LeavesFacts.
Import Completion Reach BitmaskSolver BitmaskSolverFacts CountFacts.

Section LevelLoop.

Variables (rec : store -> Z * store) (s : store) (r c box_idx : nat) (limit : Z).

Hypothesis cell_empty : cell (board s) r c = 0.
Hypothesis rec_restores :
  forall k, (rec (placed s r c box_idx k)).2 = placed s r c box_idx k.
Hypothesis rec_nonneg : forall s1, 0 <= (rec s1).1.

Let loop := count_digits rec (taken_mask s r c box_idx) r c box_idx limit.
Let allowed (ks : list Z) : list Z :=
  filter (fun k => Z.land (taken_mask s r c box_idx) (Z.shiftl 1 k) = 0) ks.
Let sub k := (rec (placed s r c box_idx k)).1.

(** The loop adds the counts of the calls on the allowed digits and
    returns as soon as the sum has reached the limit. *)
Lemma count_digits_running ks : forall count,
  (loop ks count s).1 = running_count limit (sub <$> allowed ks) count.
Proof.
  induction ks as [|k ks IH]; intros count; [done|].
  unfold allowed. rewrite filter_cons.
  destruct (decide (Z.land (taken_mask s r c box_idx) (Z.shiftl 1 k) = 0))
    as [Hfree|Htaken].
  - unfold loop. rewrite count_digits_step by done.
    cbv zeta. rewrite fmap_cons. cbn [running_count]. fold (sub k).
    destruct (limit <=? count + sub k); [done|]. apply IH.
  - unfold loop. rewrite count_digits_skip by done. apply IH.
Qed.

Variables (A : Type) (L : Z -> list A).

(** If every call counts the elements of its list up to the limit, so
    does the loop for the lists of the allowed digits together. *)
Lemma count_digits_leaves ks : forall count,
  0 <= count ->
  (forall k, k ∈ allowed ks ->
     Z.min limit (Z.of_nat (length (L k))) <= sub k <= Z.of_nat (length (L k))) ->
  Z.min limit (count + Z.of_nat (length (allowed ks ≫= L)))
    <= (loop ks count s).1
    <= count + Z.of_nat (length (allowed ks ≫= L)).
Proof.
  induction ks as [|k ks IH]; intros count Hcount Hsub.
  - unfold loop. simpl. lia.
  - unfold allowed in *. rewrite filter_cons in *.
    destruct (decide (Z.land (taken_mask s r c box_idx) (Z.shiftl 1 k) = 0))
      as [Hfree|Htaken].
    + unfold loop. rewrite count_digits_step by done. cbv zeta. fold (sub k).
      rewrite bind_cons, length_app, Nat2Z.inj_add.
      pose proof (Hsub k (list_elem_of_here _ _)) as Hk.
      pose proof (rec_nonneg (placed s r c box_idx k)) as Hn. fold (sub k) in Hn.
      destruct (Z.leb_spec limit (count + sub k)) as [Hstop|Hgo]; cbn [fst].
      * lia.
      * assert (sub k = Z.of_nat (length (L k))) as Heq by lia.
        specialize (IH (count + sub k)).
        fold loop in IH |- *.
        rewrite Heq in IH |- *. rewrite <- Z.add_assoc in IH.
        apply IH; [lia|]. intros k' Hk'. apply Hsub. by right.
    + unfold loop. rewrite count_digits_skip by done. by apply IH.
Qed.

End LevelLoop.

(** One level of [_backtrack_count]. *)
Lemma backtrack_count_running limit s r c rest :
  ready s ((r, c) :: rest) ->
  (_backtrack_count limit ((r, c) :: rest) s).1
  = running_count limit
      ((fun k => (_backtrack_count limit rest
                    (placed s r c (get_box_index r c) k)).1)
         <$> filter (fun k => Z.land (taken_mask s r c (get_box_index r c))
                                     (Z.shiftl 1 k) = 0) bits9) 0.
Proof.
  intros Hready. pose proof (ready_head _ _ _ _ Hready) as (Hr & Hc & H0 & _).
  rewrite backtrack_count_cons.
  apply (count_digits_running (_backtrack_count limit rest) s r c
           (get_box_index r c) limit H0).
  intros k. by apply counting_call_restores.
Qed.

(** The count is the number of leaves, up to the limit. *)
Lemma backtrack_count_leaves limit cells : forall s,
  1 <= limit -> ready s cells ->
  Z.min limit (Z.of_nat (length (leaves cells s)))
    <= (_backtrack_count limit cells s).1
    <= Z.of_nat (length (leaves cells s)).
Proof.
  induction cells as [|[r c] rest IH]; intros s Hlimit Hready.
  - simpl. lia.
  - pose proof (ready_head _ _ _ _ Hready) as (Hr & Hc & H0 & _).
    rewrite backtrack_count_cons. cbn [leaves].
    pose proof (count_digits_leaves (_backtrack_count limit rest) s r c
                  (get_box_index r c) limit H0) as Hloop.
    specialize (Hloop (fun k => counting_call_restores limit s r c rest k Hready)).
    specialize (Hloop (fun s1 => backtrack_count_nonneg limit rest s1 Hlimit)).
    specialize (Hloop grid
                  (fun k => leaves rest (placed s r c (get_box_index r c) k))
                  bits9 0).
    rewrite !Z.add_0_l in Hloop. apply Hloop; [lia|].
    intros k [_ Hk%bits9_range]%list_elem_of_filter.
    apply IH; [done|]. by apply ready_placed.
Qed.

(** *** The leaves are the ways to fill the cells *)

(** Two 9x9 boards read the same outside the board. *)
Lemma cell_outside b t r c :
  wf_board b -> wf_board t -> ~ ((r < 9)%nat /\ (c < 9)%nat) ->
  cell t r c = cell b r c.
Proof.
  intros Hb Ht Hout. unfold cell.
  destruct (decide (r < 9)%nat) as [Hr|Hr].
  - rewrite (list_lookup_total_alt (t !!! r)), (list_lookup_total_alt (b !!! r)).
    rewrite !lookup_ge_None_2; [done|..]; rewrite wf_board_row by done; lia.
  - rewrite (list_lookup_total_alt t), (list_lookup_total_alt b).
    destruct Hb as [Hlb _], Ht as [Hlt _].
    by rewrite !lookup_ge_None_2 by lia.
Qed.

Lemma fills_extends cells b t :
  cells_empty b cells -> fills cells b t -> extends b t.
Proof.
  intros Hempty (_ & _ & _ & Hout) r c Hr Hc Hnz. apply Hout.
  intros Hin. unfold cells_empty in Hempty. rewrite Forall_forall in Hempty.
  by destruct (Hempty _ Hin) as (_ & _ & H0).
Qed.

(** The digit a filling puts on an empty cell is never excluded by the
    masks. *)
Lemma filling_digit_free s t r c k :
  mirrors s -> no_conflict t -> extends (board s) t ->
  (r < 9)%nat -> (c < 9)%nat -> cell (board s) r c = 0 ->
  cell t r c = k + 1 -> 0 <= k < 9 ->
  Z.land (taken_mask s r c (get_box_index r c)) (Z.shiftl 1 k) = 0.
Proof.
  intros [Hlen Hm] Hnc Hext Hr Hc H0 Ht Hk.
  assert (forall u, in_house u r c -> Z.land (mask_of s u) (Z.shiftl 1 k) = 0)
    as Hfree.
  { intros u Hin. apply land_bit_eq_0; [lia|].
    apply not_true_is_false. intros Hbit.
    apply Hm in Hbit as (r' & c' & Hr' & Hc' & Hin' & Hv);
      [|by apply (in_house_index u r c)|done].
    assert ((r, c) <> (r', c')) as Hne by (intros [= <- <-]; lia).
    apply (Hnc r c r' c'); auto.
    - apply peers_house. split; [done|]. by exists u.
    - lia.
    - rewrite Ht, (Hext r' c') by (auto; lia). done. }
  unfold taken_mask. apply land_lor3_eq_0. split; [|split].
  - by apply (Hfree (Row r)).
  - by apply (Hfree (Col c)).
  - by apply (Hfree (Box (get_box_index r c))).
Qed.

Lemma leaves_fills cells : forall s t,
  ready s cells -> no_conflict (board s) ->
  t ∈ leaves cells s -> fills cells (board s) t.
Proof.
  induction cells as [|[r c] rest IH]; intros s t Hready Hnc Hin.
  - apply list_elem_of_singleton in Hin as ->. destruct Hready as (Hwf & _).
    split; [done|]. split; [done|].
    split; [by intros r c Hin%elem_of_nil|done].
  - pose proof (ready_head _ _ _ _ Hready) as (Hr & Hc & H0 & _).
    cbn [leaves] in Hin.
    apply list_elem_of_bind in Hin
      as (k & Hin & [Hfree Hk%bits9_range]%list_elem_of_filter).
    apply (fills_cons s r c rest k); [done| |done].
    apply IH; [by apply ready_placed| |done].
    destruct Hready as (Hwf & Hm & _). by apply no_conflict_placed.
Qed.

Lemma fills_leaves cells : forall s t,
  ready s cells -> fills cells (board s) t -> t ∈ leaves cells s.
Proof.
  induction cells as [|[r c] rest IH]; intros s t Hready Hfill.
  - destruct Hready as (Hwf & _). destruct Hfill as (Hwft & _ & _ & Hout).
    apply list_elem_of_singleton, grid_ext; [done..|].
    intros r c _ _. apply Hout, not_elem_of_nil.
  - pose proof (ready_head _ _ _ _ Hready) as (Hr & Hc & H0 & Hnotin).
    pose proof Hready as (Hwf & Hm & Hempty & _).
    pose proof (fills_extends _ _ _ Hempty Hfill) as Hext.
    destruct Hfill as (Hwft & Hnc & Hin & Hout).
    pose proof (Hin r c (list_elem_of_here _ _)) as Hdigit.
    set (k := cell t r c - 1).
    assert (0 <= k < 9) as Hk by (unfold k; lia).
    assert (cell t r c = k + 1) as Hv by (unfold k; lia).
    cbn [leaves]. apply list_elem_of_bind. exists k. split.
    + apply IH; [by apply ready_placed|].
      unfold placed. simpl. split; [done|]. split; [done|]. split.
      * intros r' c' Hrest. apply Hin. by right.
      * intros r' c' Hrest.
        destruct (decide ((r, c) = (r', c'))) as [[= <- <-]|Hne].
        -- by rewrite cell_set_cell_eq.
        -- rewrite cell_set_cell_ne by done. apply Hout.
           apply not_elem_of_cons. split; [congruence|done].
    + apply list_elem_of_filter. split; [|by apply bits9_range].
      by apply (filling_digit_free s t).
Qed.

Lemma NoDup_leaves cells : forall s,
  ready s cells -> no_conflict (board s) -> NoDup (leaves cells s).
Proof.
  induction cells as [|[r c] rest IH]; intros s Hready Hnc.
  - apply NoDup_singleton.
  - pose proof (ready_head _ _ _ _ Hready) as (Hr & Hc & H0 & _).
    assert (forall k t,
              k ∈ filter (fun k => Z.land (taken_mask s r c (get_box_index r c))
                                          (Z.shiftl 1 k) = 0) bits9 ->
              ready (placed s r c (get_box_index r c) k) rest
              /\ no_conflict (board (placed s r c (get_box_index r c) k))
              /\ (t ∈ leaves rest (placed s r c (get_box_index r c) k) ->
                  cell t r c = k + 1)) as Hnext.
    { intros k t [Hfree Hk%bits9_range]%list_elem_of_filter.
      assert (ready (placed s r c (get_box_index r c) k) rest) as Hrk
        by by apply ready_placed.
      assert (no_conflict (board (placed s r c (get_box_index r c) k))) as Hnk.
      { destruct Hready as (Hwf & Hm & _). by apply no_conflict_placed. }
      split; [done|]. split; [done|]. intros Hin.
      apply leaves_fills in Hin; [|done..].
      by apply (fills_cons s r c rest k) in Hin as [_ ?]. }
    cbn [leaves]. apply NoDup_bind.
    + intros k1 k2 t Hk1 Hk2 Hin1 Hin2.
      destruct (Hnext k1 t Hk1) as (_ & _ & Hv1).
      destruct (Hnext k2 t Hk2) as (_ & _ & Hv2).
      specialize (Hv1 Hin1). specialize (Hv2 Hin2). lia.
    + intros k Hk. destruct (Hnext k (board s) Hk) as (Hrk & Hnk & _).
      by apply IH.
    + apply NoDup_filter, NoDup_bits9.
Qed.

(** *** The count of a board *)

Lemma completion_fills b t :
  wf_board b -> completion b t -> fills (empty_cells b) b t.
Proof.
  intros Hwf [(Hwft & Hdig & Hnc) Hext]. split; [done|]. split; [done|]. split.
  - intros r c (Hr & Hc & _)%elem_of_empty_cells. by apply Hdig.
  - intros r c Hnot.
    destruct (decide ((r < 9)%nat /\ (c < 9)%nat)) as [[Hr Hc]|Hout].
    + apply Hext; [done..|]. intros H0. apply Hnot. by apply elem_of_empty_cells.
    + by apply cell_outside.
Qed.

(** On a valid board the leaves of the search are the completions, each
    one once, and the count is their number up to the limit. *)
Lemma count_solutions_leaves b limit :
  1 <= limit -> valid_board b ->
  NoDup (leaves (empty_cells b) (_initialize_masks b).1)
  /\ (forall t, t ∈ leaves (empty_cells b) (_initialize_masks b).1
                <-> completion b t)
  /\ Z.min limit (Z.of_nat (length (leaves (empty_cells b) (_initialize_masks b).1)))
       <= count_solutions b limit
       <= Z.of_nat (length (leaves (empty_cells b) (_initialize_masks b).1)).
Proof.
  intros Hlimit (Hwf & Hd & Hnc).
  pose proof (count_ready b Hwf Hd) as Hready.
  pose proof (initialize_masks_board b) as [Hb _].
  rewrite count_solutions_unfold.
  revert Hready Hb. generalize (_initialize_masks b).1. intros s Hready Hb.
  split; [|split].
  - apply NoDup_leaves; [done|by rewrite Hb].
  - intros t. split.
    + intros Hin. apply fills_completion; [done|].
      apply leaves_fills in Hin; [|done|by rewrite Hb]. by rewrite Hb in Hin.
    + intros Hcomp. apply fills_leaves; [done|]. rewrite Hb.
      by apply completion_fills.
  - by apply backtrack_count_leaves.
Qed.

End LeavesFacts.
(** ** The hybrid solver: the search finds a completion when there is one *)

Module HybridSoundFacts.
Import Completion Hybrid HybridSearchFacts CandidateFacts PropagationFacts.

(** Writing [v] on a cell keeps the board free of conflicts when [v] is
    a blank or stands on no peer of the cell. *)
Lemma no_conflict_set_cell b r c v :
  wf_board b -> no_conflict b -> (r < 9)%nat -> (c < 9)%nat ->
  (v = 0 \/ forall r' c', (r' < 9)%nat -> (c' < 9)%nat -> peers r c r' c' ->
                          cell b r' c' <> v) ->
  no_conflict (set_cell b r c v).
Proof.
  intros Hwf Hnc Hr Hc Hv r1 c1 r2 c2 Hr1 Hc1 Hr2 Hc2 Hp Hnz.
  destruct (decide ((r, c) = (r1, c1))) as [[= <- <-]|Hne1].
  - rewrite cell_set_cell_eq in Hnz |- * by done.
    destruct Hv as [->|Hv]; [done|].
    rewrite cell_set_cell_ne by apply Hp.
    intros Heq. by apply (Hv r2 c2).
  - rewrite (cell_set_cell_ne _ _ _ _ r1 c1) in Hnz |- * by done.
    destruct (decide ((r, c) = (r2, c2))) as [[= <- <-]|Hne2].
    + rewrite cell_set_cell_eq by done.
      destruct Hv as [->|Hv]; [done|].
      apply (Hv r1 c1); auto.
      destruct Hp as [Hd Hh]. split; [done|]. intuition.
    + rewrite cell_set_cell_ne by done. by apply Hnc.
Qed.

Lemma digits_board_set_cell b r c v :
  wf_board b -> digits_board b -> 0 <= v <= 9 -> digits_board (set_cell b r c v).
Proof.
  intros Hwf Hd Hv r' c' Hr' Hc'.
  destruct (decide ((r, c) = (r', c'))) as [[= <- <-]|Hne].
  - by rewrite cell_set_cell_eq.
  - rewrite cell_set_cell_ne by done. by apply Hd.
Qed.

(** A candidate on an empty cell keeps the board valid. *)
Lemma valid_board_candidate b r c d :
  valid_board b -> (r < 9)%nat -> (c < 9)%nat ->
  d ∈ get_candidates b r c -> valid_board (set_cell b r c d).
Proof.
  intros (Hwf & Hd & Hnc) Hr Hc (H0 & Hdig & Habs)%elem_of_get_candidates.
  split; [by apply wf_set_cell|]. split.
  - apply digits_board_set_cell; auto. lia.
  - apply no_conflict_set_cell; auto. right.
    apply absent_peers; auto; [lia|]. by apply absent_vals.
Qed.

Lemma valid_board_completion b : 
  valid_board b ->
  (forall r c, (r < 9)%nat -> (c < 9)%nat -> cell b r c <> 0) ->
  completion b b.
Proof.
  intros (Hwf & Hd & Hnc) Hfull. split; [|apply extends_refl].
  split; [done|]. split; [|done]. intros r c Hr Hc.
  specialize (Hd r c Hr Hc). specialize (Hfull r c Hr Hc). lia.
Qed.

Lemma completion_candidate b t r c :
  wf_board b -> completion b t -> (r < 9)%nat -> (c < 9)%nat ->
  cell b r c = 0 -> cell t r c ∈ get_candidates b r c.
Proof. intros Hwf [Hsol Hext]. by apply solution_digit_candidate. Qed.

Lemma completion_set_cell b t r c :
  wf_board b -> completion b t -> completion (set_cell b r c (cell t r c)) t.
Proof. intros Hwf [Hsol Hext]. split; [done|]. by apply BitmaskSolverFacts.extends_placed. Qed.

Lemma completion_weaken b b' t :
  extends b b' -> completion b' t -> completion b t.
Proof. intros Hext [Hsol Hext']. split; [done|]. by eapply extends_trans. Qed.

(** *** The scan returns the candidate set of its cell *)

Lemma mrv_scan_exact s cells : forall best best_count r c cands,
  (forall r c cands, best = Some (r, c, cands) ->
     cands = _bitmask_to_set (_candidates_bitmask s r c)) ->
  mrv_scan s cells best best_count = Some (r, c, cands) ->
  cands = _bitmask_to_set (_candidates_bitmask s r c).
Proof.
  induction cells as [|[r0 c0] cells IH]; intros best best_count r c cands Hbest;
    simpl.
  - apply Hbest.
  - destruct (cell (board s) r0 c0 =? 0); [|by apply IH].
    destruct (Nat.eqb_spec (popcount (_candidates_bitmask s r0 c0)) 0) as [Hz|_].
    { intros [= <- <- <-].
      rewrite popcount_bitmask_to_set in Hz by apply candidates_bitmask_range.
      symmetry. by apply nil_length_inv. }
    destruct (popcount (_candidates_bitmask s r0 c0) <? best_count)%nat;
      [|by apply IH].
    destruct (popcount (_candidates_bitmask s r0 c0) =? 1)%nat.
    { by intros [= <- <- <-]. }
    apply IH. by intros r1 c1 cands1 [= <- <- <-].
Qed.

Lemma find_mrv_candidates s r c cands :
  wf_board (board s) -> BitmaskSolver.mirrors (masks_of s) ->
  _find_mrv_cell_bitmask s = Some (r, c, cands) ->
  (r < 9)%nat /\ (c < 9)%nat /\ cell (board s) r c = 0
  /\ cands = get_candidates (board s) r c.
Proof.
  intros Hwf Hm Hmrv.
  pose proof (find_mrv_answer _ _ Hmrv) as (Hr & Hc & H0 & _).
  apply mrv_scan_exact in Hmrv; [|done].
  rewrite bitmask_candidates in Hmrv by done. done.
Qed.

(** *** The store after a placement *)

Lemma masks_of_place s row col box_id num :
  masks_of (place s row col box_id num (Z.shiftl 1 (num - 1)))
  = BitmaskSolver.placed (masks_of s) row col box_id (num - 1).
Proof.
  unfold place, masks_of, BitmaskSolver.placed, BitmaskSolver.set_bits,
    BitmaskSolver.write. simpl. by rewrite Z.sub_add.
Qed.

Lemma candidate_free s row col num :
  wf_board (board s) -> BitmaskSolver.mirrors (masks_of s) ->
  (row < 9)%nat -> (col < 9)%nat ->
  num ∈ get_candidates (board s) row col ->
  1 <= num <= 9 /\ Z.land (used_mask s row col) (Z.shiftl 1 (num - 1)) = 0.
Proof.
  intros Hwf Hm Hr Hc Hin.
  pose proof Hin as (H0 & Hdig & _)%elem_of_get_candidates.
  split; [done|].
  apply (free_candidate (masks_of s)); auto; [lia|].
  by rewrite Z.sub_add.
Qed.

Lemma position_ok_place s row col num :
  position_ok s -> (row < 9)%nat -> (col < 9)%nat ->
  num ∈ get_candidates (board s) row col ->
  position_ok (place s row col (get_box_index row col) num (Z.shiftl 1 (num - 1))).
Proof.
  intros [Hv Hm] Hr Hc Hin. pose proof Hv as (Hwf & _).
  pose proof Hin as (H0 & Hdig & _)%elem_of_get_candidates.
  split.
  - by apply valid_board_candidate.
  - rewrite masks_of_place.
    apply BitmaskSolverFacts.mirrors_placed; auto. lia.
Qed.

Lemma position_ok_same s s0 :
  same_position s s0 -> position_ok s -> position_ok s0.
Proof.
  intros (Hb & Hr & Hc & Hx) [Hv Hm]. unfold position_ok, masks_of.
  by rewrite Hb, Hr, Hc, Hx.
Qed.

Lemma place_same s s0 row col box_id num bit :
  same_position s s0 ->
  same_position (place s row col box_id num bit) (place s0 row col box_id num bit).
Proof.
  intros (Hb & Hr & Hc & Hx). unfold same_position, place. simpl.
  by rewrite Hb, Hr, Hc, Hx.
Qed.

Lemma same_position_trans s1 s2 s3 :
  same_position s1 s2 -> same_position s2 s3 -> same_position s1 s3.
Proof.
  intros (Hb & Hr & Hc & Hx) (Hb' & Hr' & Hc' & Hx'). unfold same_position.
  by rewrite Hb', Hr', Hc', Hx', Hb, Hr, Hc, Hx.
Qed.

Lemma cache_sound_put s state :
  cache_sound s -> (~ exists t, completion state t) ->
  cache_sound (cache_put s state RNone).
Proof.
  intros Hcache Hnone key v. unfold cache_put. simpl.
  destruct (decide (state = key)) as [<-|Hne].
  - rewrite lookup_insert_eq. by intros [= <-].
  - rewrite lookup_insert_ne by done. apply Hcache.
Qed.

Lemma init_bitmasks_cache s : dp_cache (_init_bitmasks s) = dp_cache s.
Proof.
  unfold _init_bitmasks.
  set (s0 := Store _ _ _ _ _).
  change (dp_cache s) with (dp_cache s0).
  generalize s0. clear s0.
  induction all_cells as [|[r c] l IH]; intros s0; simpl; [done|].
  rewrite IH. unfold init_cell. by destruct (negb _).
Qed.

Section Search.

Variable set_iter : list Z -> list Z.
Hypothesis set_iter_perm : forall l, set_iter l ≡ₚ l.

(** The candidate loop.  [nums] are the candidates still to try; the
    digits already tried have been refuted. *)
Lemma try_candidates_answer rec s row col nums :
  position_ok s -> (row < 9)%nat -> (col < 9)%nat ->
  cell (board s) row col = 0 ->
  (forall num, num ∈ nums -> num ∈ get_candidates (board s) row col) ->
  (forall s1 res s2, position_ok s1 -> cache_sound s1 ->
     rec s1 = Some (res, s2) -> answer s1 res s2) ->
  forall s0 res s', same_position s s0 -> cache_sound s0 ->
    (forall t, completion (board s) t -> cell t row col ∈ nums) ->
    try_candidates rec (board s) row col (get_box_index row col) nums s0
      = Some (res, s') ->
    answer s res s'.
Proof.
  intros Hok Hr Hc H0 Hnums Hrec. pose proof Hok as [(Hwf & _) Hm].
  induction nums as [|num nums IH]; intros s0 res s' Hsame Hcache Htried; simpl.
  - intros [= <- <-].
    assert (~ exists t, completion (board s) t) as Hnone.
    { intros [t Ht]. by apply Htried, elem_of_nil in Ht. }
    split; [by apply same_position_cache_put|].
    split; [by apply cache_sound_put|done].
  - pose proof (Hnums num (list_elem_of_here _ _)) as Hnum.
    destruct (candidate_free s row col num) as [Hdig Hfree]; auto.
    set (bit := Z.shiftl 1 (num - 1)) in *.
    pose proof (place_same s s0 row col (get_box_index row col) num bit Hsame)
      as Hsame1.
    destruct (rec _) as [[result s2]|] eqn:Hcall; [|done].
    apply Hrec in Hcall.
    2:{ apply (position_ok_same _ _ Hsame1). by apply position_ok_place. }
    2:{ exact Hcache. }
    destruct result; simpl in Hcall.
    + destruct Hcall as [Hsol Hext].
      assert (truthy RBoard (board s2) = true) as ->.
      { destruct Hsol as ([Hlen _] & _). simpl.
        destruct (board s2); [done|done]. }
      intros [= <- <-]. simpl. split; [done|].
      eapply extends_trans; [|exact Hext].
      destruct Hsame as [-> _]. simpl. by apply extends_set_cell.
    + destruct Hcall as (Hsame2 & Hcache2 & Hnone). simpl truthy. cbv iota.
      apply IH.
      * intros num' Hin. apply Hnums. by right.
      * apply (unplace_place s row col num); [done..|].
        by apply (same_position_trans _ _ _ Hsame1).
      * exact Hcache2.
      * intros t Ht.
        pose proof (Htried t Ht) as [Heq|Hin]%elem_of_cons; [|done].
        exfalso. apply Hnone. exists t.
        destruct Hsame as [-> _]. simpl. rewrite <- Heq.
        by apply completion_set_cell.
Qed.

(** [_solve_dp_helper] on a valid position with a sound cache: a board
    it returns is a completion of the board it was called on, and when
    it returns [None] there is none. *)
Lemma solve_dp_helper_answer fuel : forall s res s',
  position_ok s -> cache_sound s ->
  _solve_dp_helper set_iter fuel s = Some (res, s') -> answer s res s'.
Proof.
  induction fuel as [|fuel IH]; intros s res s' Hok Hcache; simpl; [done|].
  pose proof Hok as [Hv Hm]. pose proof Hv as (Hwf & _).
  destruct (dp_cache s !! board s) as [v|] eqn:Hhit.
  { intros [= <- <-]. apply Hcache in Hhit as [-> Hnone].
    split; [apply same_position_refl|]. split; done. }
  destruct (_find_mrv_cell_bitmask s) as [[[row col] cands]|] eqn:Hmrv.
  2:{ intros [= <- <-]. simpl.
      apply valid_board_completion; [done|].
      by apply HybridFacts.find_mrv_none. }
  apply find_mrv_candidates in Hmrv as (Hr & Hc & H0 & Hcands); [|done..].
  destruct cands as [|d cands].
  { intros [= <- <-].
    assert (~ exists t, completion (board s) t) as Hnone.
    { intros [t Ht].
      pose proof (completion_candidate _ _ row col Hwf Ht Hr Hc H0) as Hin.
      rewrite <- Hcands in Hin. by apply elem_of_nil in Hin. }
    split; [by apply same_position_cache_put, same_position_refl|].
    split; [by apply cache_sound_put|done]. }
  apply try_candidates_answer; auto using same_position_refl.
  - intros num Hin. by rewrite set_iter_perm, Hcands in Hin.
  - intros t Ht. rewrite set_iter_perm, Hcands.
    by apply completion_candidate.
Qed.

Lemma helper_init_answer fuel b res s' :
  valid_board b ->
  _solve_dp_helper set_iter fuel (_init_bitmasks (Store b [] [] [] ∅))
    = Some (res, s') ->
  match res with
  | RBoard => completion b (board s')
  | RNone => ~ exists t, completion b t
  end.
Proof.
  intros Hv.
  generalize (init_bitmasks_board (Store b [] [] [] ∅)).
  generalize (init_bitmasks_cache (Store b [] [] [] ∅)).
  generalize (init_bitmasks_mirrors (Store b [] [] [] ∅)).
  generalize (_init_bitmasks (Store b [] [] [] ∅)).
  intros s0 Hm Hc Hb Hrun.
  change (dp_cache s0 = ∅) in Hc. change (board s0 = b) in Hb.
  change (digits_board b -> BitmaskSolver.mirrors (masks_of s0)) in Hm.
  apply solve_dp_helper_answer in Hrun.
  - destruct res; unfold answer in Hrun.
    + by rewrite Hb in Hrun.
    + destruct Hrun as (_ & _ & Hnone). by rewrite Hb in Hnone.
  - split.
    + by rewrite Hb.
    + apply Hm. by destruct Hv as (_ & Hd & _).
  - intros key v. rewrite Hc. by rewrite lookup_empty.
Qed.

Lemma solve_dp_store_answer b res s' :
  valid_board b ->
  solve_dp_store set_iter b = Some (res, s') ->
  match res with
  | RBoard => completion b (board s')
  | RNone => ~ exists t, completion b t
  end.
Proof. apply helper_init_answer. Qed.

Lemma solve_dp_some b t :
  valid_board b -> solve_dp set_iter b = Some (Some t) -> completion b t.
Proof.
  intros Hv. unfold solve_dp.
  destruct (solve_dp_store set_iter b) as [[[] s']|] eqn:Hrun; [|done..].
  intros [= <-]. by apply (solve_dp_store_answer b RBoard s').
Qed.

Lemma solve_dp_none b :
  valid_board b -> solve_dp set_iter b = Some None -> ~ exists t, completion b t.
Proof.
  intros Hv. unfold solve_dp.
  destruct (solve_dp_store set_iter b) as [[[] s']|] eqn:Hrun; [done| |done].
  intros _. by apply (solve_dp_store_answer b RNone s').
Qed.

End Search.

End HybridSoundFacts.

(** ** Propagation: what the fixed point looks like *)

Module FixpointFacts.
Import Completion Hybrid PropagationFacts HybridSoundFacts.

Lemma unique_candidate_elem b r c d :
  unique_candidate b r c d -> d ∈ get_candidates b r c.
Proof.
  intros [H0 Huniq]. apply elem_of_get_candidates.
  split; [done|]. by apply Huniq.
Qed.

Lemma forced_step_valid b b' : valid_board b -> forced_step b b' -> valid_board b'.
Proof.
  intros Hv (r & c & d & Hr & Hc & Huniq & ->).
  apply valid_board_candidate; auto. by apply unique_candidate_elem.
Qed.

Lemma forced_steps_valid b b' :
  valid_board b -> rtc forced_step b b' -> valid_board b'.
Proof.
  intros Hv Hsteps. induction Hsteps as [|b1 b2 b3 Hstep _ IH]; [done|].
  apply IH. by apply (forced_step_valid b1).
Qed.

Lemma forced_steps_completions b b' t :
  wf_board b -> rtc forced_step b b' -> completion b' t <-> completion b t.
Proof.
  intros Hwf Hsteps. split.
  - apply completion_weaken. by apply forced_steps_extend.
  - intros [Hsol Hext]. split; [done|].
    by apply (forced_steps_keep_solution b).
Qed.

(** Once [progress] is raised it stays raised. *)
Lemma dnc_cells_flag cells : forall b,
  (fold_left dnc_cell cells (b, true)).2 = true.
Proof.
  induction cells as [|[r c] cells IH]; intros b; [done|].
  cbn [fold_left]. unfold dnc_cell at 2.
  destruct (cell b r c =? 0); [|apply IH].
  destruct (get_candidates b r c) as [|d [|d' l]]; apply IH.
Qed.

Lemma pass_steps_flag origins : forall b,
  (fold_left pass_step origins (b, true)).2 = true.
Proof.
  induction origins as [|[br bc] origins IH]; intros b; [done|].
  cbn [fold_left]. unfold pass_step at 2.
  destruct (solve_dnc_subgrid b br bc) as [b' []]; apply IH.
Qed.

(** A sweep that reports no progress met no empty cell with exactly one
    candidate. *)
Lemma dnc_cells_quiet cells : forall b,
  (fold_left dnc_cell cells (b, false)).2 = false ->
  fold_left dnc_cell cells (b, false) = (b, false)
  /\ forall r c d, (r, c) ∈ cells -> cell b r c = 0 -> get_candidates b r c <> [d].
Proof.
  induction cells as [|[r c] cells IH]; intros b Hflag.
  - split; [done|]. by intros r c d Hin%elem_of_nil.
  - cbn [fold_left] in Hflag |- *.
    assert (dnc_cell (b, false) (r, c) = (b, false)
            /\ forall d, cell b r c = 0 -> get_candidates b r c <> [d])
      as [Hstep Hcell].
    { unfold dnc_cell in Hflag |- *.
      destruct (Z.eqb_spec (cell b r c) 0) as [H0|Hnz]; [|done].
      destruct (get_candidates b r c) as [|d [|d' l]]; try done.
      by rewrite dnc_cells_flag in Hflag. }
    rewrite Hstep in Hflag |- *.
    destruct (IH b Hflag) as [Hfold Hrest]. split; [done|].
    intros r' c' d [[= -> ->]|Hin]%elem_of_cons; [apply Hcell|by apply Hrest].
Qed.

Lemma pass_steps_quiet origins : forall b,
  (fold_left pass_step origins (b, false)).2 = false ->
  forall br bc r c d, (br, bc) ∈ origins -> (r, c) ∈ box_cells br bc ->
    cell b r c = 0 -> get_candidates b r c <> [d].
Proof.
  induction origins as [|[br bc] origins IH]; intros b Hflag.
  - by intros br bc r c d Hin%elem_of_nil.
  - cbn [fold_left] in Hflag.
    assert (pass_step (b, false) (br, bc) = (b, false)
            /\ forall r c d, (r, c) ∈ box_cells br bc -> cell b r c = 0 ->
                             get_candidates b r c <> [d])
      as [Hstep Hbox].
    { unfold pass_step in Hflag |- *. unfold solve_dnc_subgrid in Hflag |- *.
      destruct (fold_left dnc_cell (box_cells br bc) (b, false))
        as [b' progress] eqn:Hsweep.
      destruct progress; [by rewrite pass_steps_flag in Hflag|].
      destruct (dnc_cells_quiet (box_cells br bc) b) as [Hsame Hcells];
        [by rewrite Hsweep|].
      rewrite Hsweep in Hsame. injection Hsame as ->. done. }
    rewrite Hstep in Hflag.
    intros br' bc' r c d [[= -> ->]|Hin]%elem_of_cons.
    + apply Hbox.
    + by apply (IH b Hflag).
Qed.

(** After a pass without progress no empty cell of the board has
    exactly one candidate. *)
Lemma dnc_pass_quiet b r c :
  (dnc_pass b).2 = false -> (r < 9)%nat -> (c < 9)%nat -> cell b r c = 0 ->
  length (get_candidates b r c) <> 1%nat.
Proof.
  intros Hflag Hr Hc H0 Hlen.
  destruct (get_candidates b r c) as [|d [|d' l]] eqn:Hcands; try done.
  destruct (GeneratorFacts.block_origin_of r c Hr Hc) as [Ho Hin].
  by apply (pass_steps_quiet block_origins b Hflag _ _ r c d Ho Hin).
Qed.

Section Entry.

Variable set_iter : list Z -> list Z.
Hypothesis set_iter_perm : forall l, set_iter l ≡ₚ l.

Lemma solve_hybrid_some b t :
  valid_board b -> solve_hybrid set_iter b = Some (Some t) -> completion b t.
Proof.
  intros Hv. pose proof Hv as (Hwf & _). unfold solve_hybrid.
  destruct (solve_dnc_phase_total b Hwf) as (b' & -> & Hsteps & Hwf' & _).
  intros Hrun. apply (solve_dp_some set_iter set_iter_perm) in Hrun.
  - by apply (forced_steps_completions b b').
  - by apply (forced_steps_valid b).
Qed.

Lemma solve_hybrid_none b :
  valid_board b -> solve_hybrid set_iter b = Some None ->
  ~ exists t, completion b t.
Proof.
  intros Hv. pose proof Hv as (Hwf & _). unfold solve_hybrid.
  destruct (solve_dnc_phase_total b Hwf) as (b' & -> & Hsteps & Hwf' & _).
  intros Hrun [t Ht]. apply (solve_dp_none set_iter set_iter_perm) in Hrun.
  - apply Hrun. exists t. by apply (forced_steps_completions b b').
  - by apply (forced_steps_valid b).
Qed.

End Entry.

End FixpointFacts.

(** ** Puzzle generation: the number of blanks *)

Module HolesFacts.
Import Completion Generator GeneratorFacts BitmaskSolverFacts.

(** Clearing one cell adds at most one blank. *)
Lemma filter_length_one_more {A} `{EqDecision A} (P Q : A -> Prop)
    `{!forall x, Decision (P x)} `{!forall x, Decision (Q x)} (a : A) (l : list A) :
  NoDup l -> (forall x, Q x -> P x \/ x = a) ->
  (length (filter Q l) <= length (filter P l) + (if decide (a ∈ l) then 1 else 0))%nat.
Proof.
  intros Hnd Hpq. induction l as [|x l IH]; [simpl; lia|].
  apply NoDup_cons in Hnd as [Hx Hnd]. specialize (IH Hnd).
  rewrite !filter_cons.
  destruct (decide (a ∈ l)) as [Hal|Hal].
  - destruct (decide (a ∈ x :: l)) as [_|Hin]; [|exfalso; apply Hin; by right].
    destruct (decide (Q x)) as [Hq|Hq], (decide (P x)) as [Hp|Hp]; simpl; try lia.
    destruct (Hpq x Hq) as [? | ->]; done.
  - destruct (decide (a ∈ x :: l)) as [Hin|Hin];
      destruct (decide (Q x)) as [Hq|Hq], (decide (P x)) as [Hp|Hp]; simpl; try lia.
    destruct (Hpq x Hq) as [? | ->]; [done|]. exfalso. apply Hin. by left.
Qed.

Lemma empty_cells_clear b r c :
  (length (empty_cells (set_cell b r c 0)) <= S (length (empty_cells b)))%nat.
Proof.
  unfold empty_cells.
  pose proof (filter_length_one_more
                (fun '(r', c') => cell b r' c' = 0)
                (fun '(r', c') => cell (set_cell b r c 0) r' c' = 0)
                (r, c) all_cells NoDup_all_cells) as Hlen.
  destruct (decide ((r, c) ∈ all_cells)); (etrans; [apply Hlen|lia]);
    intros [r' c'] Hq;
    (destruct (decide ((r, c) = (r', c'))) as [[= <- <-]|Hne]; [by right|];
     left; by rewrite cell_set_cell_ne in Hq).
Qed.

(** The carving loop of sudoku_dp.py never makes more than [target]
    blanks. *)
Lemma carve_holes target cells : forall holes b,
  (holes <= target)%nat -> (length (empty_cells b) <= holes)%nat ->
  (length (empty_cells (SudokuDp.carve target cells holes b)) <= target)%nat.
Proof.
  induction cells as [|[r c] rest IH]; intros holes b Hle Hempty.
  - simpl. lia.
  - cbn [SudokuDp.carve].
    destruct (Nat.leb_spec target holes) as [Hfull|Hroom]; [lia|].
    destruct (BitmaskSolver.count_solutions (set_cell b r c 0) 2 =? 1).
    + apply IH; [lia|]. pose proof (empty_cells_clear b r c). lia.
    + rewrite set_cell_twice, set_cell_same. by apply IH.
Qed.

Lemma full_board_no_blank g :
  rng_ok g -> empty_cells (full_board g) = [].
Proof.
  intros Hok. pose proof (full_board_solution g Hok) as (_ & Hdig & _).
  apply elem_of_nil_inv. intros [r c] (Hr & Hc & H0)%elem_of_empty_cells.
  specialize (Hdig r c Hr Hc). lia.
Qed.

(** *** sudoku_hybrid.py: exactly [remove_count] blanks *)

(** The clearing loop of the hybrid generator. *)
Lemma clear_cells_wf l : forall b,
  wf_board b -> wf_board (fold_left (fun b '(r, c) => set_cell b r c 0) l b).
Proof.
  induction l as [|[r c] l IH]; intros b Hwf; [done|].
  cbn [fold_left]. by apply IH, wf_set_cell.
Qed.

Lemma clear_cells_cell l : forall b r c,
  wf_board b -> (r < 9)%nat -> (c < 9)%nat ->
  cell (fold_left (fun b '(r, c) => set_cell b r c 0) l b) r c
  = if decide ((r, c) ∈ l) then 0 else cell b r c.
Proof.
  induction l as [|[r0 c0] l IH]; intros b r c Hwf Hr Hc.
  - by destruct (decide ((r, c) ∈ [])) as [Hin%elem_of_nil|_].
  - cbn [fold_left]. rewrite IH by auto using wf_set_cell.
    destruct (decide ((r, c) ∈ (r0, c0) :: l)) as [Hin|Hnin].
    + destruct (decide ((r, c) ∈ l)) as [_|Hnl]; [done|].
      apply elem_of_cons in Hin as [[= -> ->]|Hin]; [|done].
      by apply cell_set_cell_eq.
    + apply not_elem_of_cons in Hnin as [Hne Hnin].
      destruct (decide ((r, c) ∈ l)) as [|_]; [done|].
      apply cell_set_cell_ne. by intros [= -> ->].
Qed.

Lemma length_all_cells : length all_cells = 81%nat.
Proof. reflexivity. Qed.

Lemma shuffled_cells g :
  rng_ok g -> Rng.shuffled (cells_sigma g) all_cells ≡ₚ all_cells.
Proof. intros (_ & _ & _ & Hcells). by apply shuffled_perm. Qed.

Lemma hybrid_puzzle_cell d g r c :
  rng_ok g -> (r < 9)%nat -> (c < 9)%nat ->
  cell (Hybrid.generate_puzzle d g).1 r c
  = if decide ((r, c) ∈ take (Hybrid.remove_count d)
                           (Rng.shuffled (cells_sigma g) all_cells))
    then 0 else cell (full_board g) r c.
Proof.
  intros Hok Hr Hc. unfold Hybrid.generate_puzzle. cbn [fst].
  apply clear_cells_cell; auto. by apply full_board_wf.
Qed.

Lemma hybrid_puzzle_blanks d g :
  rng_ok g ->
  empty_cells (Hybrid.generate_puzzle d g).1
  ≡ₚ take (Hybrid.remove_count d) (Rng.shuffled (cells_sigma g) all_cells).
Proof.
  intros Hok. pose proof (shuffled_cells g Hok) as Hperm.
  pose proof (full_board_solution g Hok) as (_ & Hdig & _).
  apply NoDup_Permutation.
  - apply NoDup_empty_cells.
  - eapply sublist_NoDup; [|apply sublist_take].
    rewrite Hperm. apply NoDup_all_cells.
  - intros [r c]. rewrite elem_of_empty_cells. split.
    + intros (Hr & Hc & H0). rewrite hybrid_puzzle_cell in H0 by done.
      destruct (decide _) as [Hin|_]; [done|].
      specialize (Hdig r c Hr Hc). lia.
    + intros Hin.
      assert ((r, c) ∈ all_cells) as [Hr Hc]%elem_of_all_cells.
      { rewrite <- Hperm. apply elem_of_take in Hin as (i & Hi & _).
        by eapply list_elem_of_lookup_2. }
      split; [done|]. split; [done|].
      rewrite hybrid_puzzle_cell by done. by destruct (decide _).
Qed.

Lemma remove_count_le d : (Hybrid.remove_count d <= 81)%nat.
Proof. destruct d as [[]|]; simpl; lia. Qed.

Lemma hybrid_puzzle_carved d g :
  rng_ok g ->
  wf_board (Hybrid.generate_puzzle d g).1
  /\ SudokuDp.carved_from (Hybrid.generate_puzzle d g).2 (Hybrid.generate_puzzle d g).1.
Proof.
  intros Hok. split.
  - unfold Hybrid.generate_puzzle. cbn [fst].
    by apply clear_cells_wf, full_board_wf.
  - intros r c Hr Hc. rewrite hybrid_puzzle_cell by done.
    destruct (decide _); [by left|by right].
Qed.

Lemma carved_valid sol b :
  solution sol -> wf_board b -> SudokuDp.carved_from sol b ->
  valid_board b /\ completion b sol.
Proof.
  intros Hsol Hwf Hcarved. split.
  - split; [done|]. split.
    + by apply (carved_from_digits sol).
    + by apply (carved_from_no_conflict sol).
  - split; [done|]. by apply carved_from_extends.
Qed.

End HolesFacts.

(** ** The scan of [_find_mrv_cell_bitmask]: least count, first in scan order *)

Module MrvFacts.
Import Completion Hybrid HybridSearchFacts CandidateFacts.

(** When every empty cell keeps two candidates or more, no [return]
    inside the loops fires and the scan returns the first cell of least
    count. *)
Lemma mrv_scan_least s cells : forall best best_count r c cands,
  Forall (fun '(r', c') => cell (board s) r' c' = 0 ->
            (2 <= popcount (_candidates_bitmask s r' c'))%nat) cells ->
  mrv_scan s cells best best_count = Some (r, c, cands) ->
  (best = Some (r, c, cands)
   /\ Forall (fun '(r', c') => cell (board s) r' c' = 0 ->
                (best_count <= popcount (_candidates_bitmask s r' c'))%nat) cells)
  \/ exists pre post,
       cells = pre ++ (r, c) :: post
       /\ cell (board s) r c = 0
       /\ (popcount (_candidates_bitmask s r c) < best_count)%nat
       /\ Forall (fun '(r', c') => cell (board s) r' c' = 0 ->
                    (popcount (_candidates_bitmask s r c)
                     < popcount (_candidates_bitmask s r' c'))%nat) pre
       /\ Forall (fun '(r', c') => cell (board s) r' c' = 0 ->
                    (popcount (_candidates_bitmask s r c)
                     <= popcount (_candidates_bitmask s r' c'))%nat) post.
Proof.
  induction cells as [|[r0 c0] cells IH]; intros best best_count r c cands Hall;
    cbn [mrv_scan].
  - intros ->. left. split; [done|constructor].
  - apply Forall_cons in Hall as [Hhead Hall].
    destruct (Z.eqb_spec (cell (board s) r0 c0) 0) as [H0|Hnz].
    2:{ intros Hscan.
        destruct (IH _ _ _ _ _ Hall Hscan)
          as [[Hbest Hrest]|(pre & post & -> & Hrc & Hlt & Hpre & Hpost)].
        - left. split; [done|]. constructor; [done|done].
        - right. exists ((r0, c0) :: pre), post.
          split; [done|]. split; [done|]. split; [done|].
          split; [|done]. constructor; [done|done]. }
    specialize (Hhead H0).
    set (n := popcount (_candidates_bitmask s r0 c0)) in *.
    destruct (Nat.eqb_spec n 0) as [|_]; [lia|].
    destruct (Nat.ltb_spec n best_count) as [Hlt|Hge].
    + destruct (Nat.eqb_spec n 1) as [|_]; [lia|].
      intros Hscan.
      destruct (IH _ _ _ _ _ Hall Hscan)
        as [[[= <- <- <-] Hrest]|(pre & post & -> & Hrc & Hlt' & Hpre & Hpost)].
      * right. exists [], cells. split; [done|]. split; [done|].
        split; [done|]. split; [constructor|done].
      * right. exists ((r0, c0) :: pre), post.
        split; [done|]. split; [done|]. split; [lia|].
        split; [|done]. constructor; [|done]. intros _. exact Hlt'.
    + intros Hscan.
      destruct (IH _ _ _ _ _ Hall Hscan)
        as [[Hbest Hrest]|(pre & post & -> & Hrc & Hlt' & Hpre & Hpost)].
      * left. split; [done|]. constructor; [|done]. intros _. exact Hge.
      * right. exists ((r0, c0) :: pre), post.
        split; [done|]. split; [done|]. split; [done|].
        split; [|done]. constructor; [|done]. intros _. fold n. lia.
Qed.

Lemma Forall_cells_weaken (P Q : nat -> nat -> Prop) (l : list (nat * nat)) :
  Forall (fun '(r, c) => (r < 9)%nat /\ (c < 9)%nat) l ->
  (forall r c, (r < 9)%nat -> (c < 9)%nat -> P r c -> Q r c) ->
  Forall (fun '(r, c) => P r c) l -> Forall (fun '(r, c) => Q r c) l.
Proof.
  intros Hrange Hpq Hp. induction l as [|[r c] l IH]; [constructor|].
  apply Forall_cons in Hrange as [[Hr Hc] Hrange].
  apply Forall_cons in Hp as [Hp Hps].
  constructor; [by apply Hpq|by apply IH].
Qed.

Lemma all_cells_range :
  Forall (fun '(r, c) => (r < 9)%nat /\ (c < 9)%nat) all_cells.
Proof.
  apply Forall_forall. intros [r c]. apply BitmaskSolverFacts.elem_of_all_cells.
Qed.

Lemma find_mrv_least s r c cands :
  wf_board (board s) -> BitmaskSolver.mirrors (masks_of s) ->
  (forall r' c', (r' < 9)%nat -> (c' < 9)%nat -> cell (board s) r' c' = 0 ->
                 (2 <= length (get_candidates (board s) r' c'))%nat) ->
  _find_mrv_cell_bitmask s = Some (r, c, cands) ->
  (r < 9)%nat /\ (c < 9)%nat /\ cell (board s) r c = 0
  /\ cands = get_candidates (board s) r c
  /\ exists pre post,
       all_cells = pre ++ (r, c) :: post
       /\ Forall (fun '(r', c') => cell (board s) r' c' = 0 ->
                    (length cands < length (get_candidates (board s) r' c'))%nat) pre
       /\ Forall (fun '(r', c') => cell (board s) r' c' = 0 ->
                    (length cands <= length (get_candidates (board s) r' c'))%nat) post.
Proof.
  intros Hwf Hm Htwo Hmrv.
  pose proof (HybridSoundFacts.find_mrv_candidates s r c cands Hwf Hm Hmrv)
    as (Hr & Hc & H0 & Hcands).
  split; [done|]. split; [done|]. split; [done|]. split; [done|].
  unfold _find_mrv_cell_bitmask in Hmrv.
  apply mrv_scan_least in Hmrv
    as [[? _]|(pre & post & Hsplit & _ & _ & Hpre & Hpost)]; [done|..].
  - exists pre, post. split; [done|].
    pose proof all_cells_range as Hrange. rewrite Hsplit in Hrange.
    apply Forall_app in Hrange as [Hrpre Hrpost].
    apply Forall_cons in Hrpost as [_ Hrpost].
    rewrite Hcands, <- (popcount_candidates_length s r c) by done.
    split.
    + revert Hpre. apply Forall_cells_weaken; [done|].
      intros r' c' Hr' Hc' Hlt He.
      rewrite <- (popcount_candidates_length s r' c') by done. by apply Hlt.
    + revert Hpost. apply Forall_cells_weaken; [done|].
      intros r' c' Hr' Hc' Hle He.
      rewrite <- (popcount_candidates_length s r' c') by done. by apply Hle.
  - generalize all_cells_range. apply Forall_cells_weaken; [apply all_cells_range|].
    intros r' c' Hr' Hc' _ He.
    rewrite (popcount_candidates_length s r' c') by done. by apply Htwo.
Qed.

End MrvFacts.

(** ** The scheduler: what the queue holds *)

Module QueueFacts.
Import Completion Queue Scheduler SchedulerFacts PropagationFacts.

Lemma heappush_perm q x : heappush q x ≡ₚ x :: q.
Proof.
  induction q as [|y q IH]; cbn [heappush]; [done|].
  destruct (entry_leb x y); [done|].
  rewrite IH. apply Permutation_swap.
Qed.

Lemma entry_leb_spec x y :
  entry_leb x y = true <->
  (x.1.1 < y.1.1 \/ (x.1.1 = y.1.1 /\
     (x.1.2 < y.1.2 \/ (x.1.2 = y.1.2 /\ x.2 <= y.2))))%nat.
Proof.
  destruct x as [[n1 r1] c1], y as [[n2 r2] c2]. unfold entry_leb. simpl.
  rewrite !orb_true_iff, !andb_true_iff, !orb_true_iff, !andb_true_iff,
    !Nat.ltb_lt, !Nat.eqb_eq, Nat.leb_le.
  tauto.
Qed.

Lemma entry_le_total x y : entry_le x y \/ entry_le y x.
Proof. unfold entry_le. rewrite !entry_leb_spec. lia. Qed.

Lemma entry_le_trans x y z : entry_le x y -> entry_le y z -> entry_le x z.
Proof. unfold entry_le. rewrite !entry_leb_spec. lia. Qed.

(** [heappush] keeps the queue in ascending order. *)
Lemma heappush_sorted q x :
  StronglySorted entry_le q -> StronglySorted entry_le (heappush q x).
Proof.
  induction q as [|y q IH]; cbn [heappush]; intros Hs.
  - repeat constructor.
  - apply StronglySorted_inv in Hs as [Hq Hy].
    destruct (entry_leb x y) eqn:Hxy.
    + constructor; [by constructor|]. constructor; [done|].
      eapply Forall_impl; [exact Hy|]. intros z Hz.
      by apply (entry_le_trans x y z).
    + constructor; [by apply IH|].
      rewrite heappush_perm. constructor; [|done].
      destruct (entry_le_total x y) as [Hle|Hle]; [|done].
      unfold entry_le in Hle. congruence.
Qed.

(** *** One cell, then a list of cells *)

Lemma enqueue_cell_elem b q es i j e :
  e ∈ (enqueue_cell b (q, es) (i, j)).1 <->
  e ∈ q \/ ((e.1.2, e.2) = (i, j) /\ wanted b e).
Proof.
  unfold enqueue_cell, wanted.
  destruct (Z.eqb_spec (cell b i j) 0) as [H0|Hnz].
  - destruct (Hybrid.get_candidates b i j) as [|d l] eqn:Hc; cbn [fst].
    + split; [by left|]. intros [?|[[= <- <-] (_ & Hn & Hnz)]]; [done|].
      rewrite Hc in Hn. simpl in Hn. lia.
    + rewrite heappush_perm, elem_of_cons. split.
      * intros [-> |?]; [|by left]. right. simpl. by rewrite Hc.
      * intros [?|[[= <- <-] (_ & Hn & _)]]; [by right|]. left.
        rewrite Hc in Hn. destruct e as [[n i'] j']. simpl in *. by subst.
  - cbn [fst]. split; [by left|]. intros [?|[[= <- <-] (He & _)]]; done.
Qed.

Lemma enqueue_cell_entries b q es i j ij :
  ij ∈ (enqueue_cell b (q, es) (i, j)).2 <->
  ij ∈ es \/ (ij = (i, j) /\ exists n, wanted b (n, i, j)).
Proof.
  unfold enqueue_cell, wanted. simpl.
  destruct (Z.eqb_spec (cell b i j) 0) as [H0|Hnz].
  - destruct (Hybrid.get_candidates b i j) as [|d l] eqn:Hc; cbn [snd].
    + split; [by left|]. intros [?|[-> (n & _ & Hn & Hnz)]]; [done|].
      simpl in Hn. lia.
    + rewrite elem_of_union, elem_of_singleton. split.
      * intros [?| ->]; [by left|]. right. split; [done|].
        exists (length (d :: l)). done.
      * intros [?|[-> _]]; [by left|by right].
  - cbn [snd]. split; [by left|]. intros [?|[-> (n & He & _)]]; done.
Qed.

Lemma enqueue_cell_sorted b q es ij :
  StronglySorted entry_le q ->
  StronglySorted entry_le (enqueue_cell b (q, es) ij).1.
Proof.
  intros Hs. destruct ij as [i j]. unfold enqueue_cell.
  destruct (cell b i j =? 0); [|done].
  destruct (Hybrid.get_candidates b i j); [done|].
  by apply heappush_sorted.
Qed.

Lemma enqueue_cells_elem b cells : forall q es e,
  e ∈ (fold_left (enqueue_cell b) cells (q, es)).1 <->
  e ∈ q \/ ((e.1.2, e.2) ∈ cells /\ wanted b e).
Proof.
  induction cells as [|[i j] cells IH]; intros q es e; cbn [fold_left].
  - split; [by left|]. by intros [?|[Hin%elem_of_nil _]].
  - destruct (enqueue_cell b (q, es) (i, j)) as [q1 es1] eqn:Hstep.
    rewrite IH.
    pose proof (enqueue_cell_elem b q es i j e) as Hone.
    rewrite Hstep in Hone. cbn [fst] in Hone. rewrite Hone, elem_of_cons.
    tauto.
Qed.

Lemma enqueue_cells_entries b cells : forall q es ij,
  ij ∈ (fold_left (enqueue_cell b) cells (q, es)).2 <->
  ij ∈ es \/ (ij ∈ cells /\ exists n, wanted b (n, ij.1, ij.2)).
Proof.
  induction cells as [|[i j] cells IH]; intros q es ij; cbn [fold_left].
  - split; [by left|]. by intros [?|[Hin%elem_of_nil _]].
  - destruct (enqueue_cell b (q, es) (i, j)) as [q1 es1] eqn:Hstep.
    rewrite IH.
    pose proof (enqueue_cell_entries b q es i j ij) as Hone.
    rewrite Hstep in Hone. cbn [snd] in Hone. rewrite Hone, elem_of_cons.
    split.
    + intros [[?|[-> Hw]]|?]; [by left| |tauto].
      right. split; [by left|done].
    + intros [?|[[-> |?] Hw]]; [tauto| |tauto].
      left. right. done.
Qed.

Lemma enqueue_cells_sorted b cells : forall q es,
  StronglySorted entry_le q ->
  StronglySorted entry_le (fold_left (enqueue_cell b) cells (q, es)).1.
Proof.
  induction cells as [|ij cells IH]; intros q es Hs; cbn [fold_left]; [done|].
  destruct (enqueue_cell b (q, es) ij) as [q1 es1] eqn:Hstep.
  apply IH. pose proof (enqueue_cell_sorted b q es ij Hs) as H1.
  by rewrite Hstep in H1.
Qed.

(** The entries of a rebuilt queue: one per cell, no duplicate. *)
Lemma enqueue_cells_NoDup b cells : forall q es,
  NoDup cells -> NoDup q ->
  (forall e, e ∈ q -> (e.1.2, e.2) ∉ cells) ->
  NoDup (fold_left (enqueue_cell b) cells (q, es)).1.
Proof.
  induction cells as [|[i j] cells IH]; intros q es Hcells Hq Hfresh;
    cbn [fold_left]; [done|].
  apply NoDup_cons in Hcells as [Hij Hcells].
  destruct (enqueue_cell b (q, es) (i, j)) as [q1 es1] eqn:Hstep.
  pose proof (fun e => enqueue_cell_elem b q es i j e) as Hone.
  rewrite Hstep in Hone. cbn [fst] in Hone.
  apply IH; [done|..].
  - revert Hstep. unfold enqueue_cell.
    destruct (cell b i j =? 0); [|by intros [= <- _]].
    destruct (Hybrid.get_candidates b i j) as [|d l]; [by intros [= <- _]|].
    intros [= <- _]. rewrite heappush_perm. apply NoDup_cons. split; [|done].
    intros Hin. apply (Hfresh _ Hin). by left.
  - intros e [Hin|[Heq _]]%Hone.
    + intros Hc. apply (Hfresh e Hin). by right.
    + by rewrite Heq.
Qed.

(** *** [initialize_priority_queue] *)

Lemma initialize_priority_queue_spec g :
  board (initialize_priority_queue g) = board g
  /\ (forall e, e ∈ pq (initialize_priority_queue g) <->
        (e.1.2 < 9)%nat /\ (e.2 < 9)%nat /\ wanted (board g) e)
  /\ (forall ij, ij ∈ pq_entries (initialize_priority_queue g) <->
        (ij.1 < 9)%nat /\ (ij.2 < 9)%nat /\ exists n, wanted (board g) (n, ij.1, ij.2))
  /\ NoDup (pq (initialize_priority_queue g))
  /\ StronglySorted entry_le (pq (initialize_priority_queue g)).
Proof.
  unfold initialize_priority_queue.
  pose proof (fun e => enqueue_cells_elem (board g) all_cells [] ∅ e) as Helem.
  pose proof (fun ij => enqueue_cells_entries (board g) all_cells [] ∅ ij) as Hent.
  pose proof (enqueue_cells_sorted (board g) all_cells [] ∅) as Hsort.
  pose proof (enqueue_cells_NoDup (board g) all_cells [] ∅) as Hnd.
  destruct (fold_left _ _ _) as [q es]. cbn [fst snd pq pq_entries board] in *.
  split; [done|]. split; [|split; [|split]].
  - intros e. rewrite Helem, BitmaskSolverFacts.elem_of_all_cells.
    split; [intros [Hin%elem_of_nil|?]; [done|tauto]|tauto].
  - intros [i j]. rewrite Hent, BitmaskSolverFacts.elem_of_all_cells.
    split; [intros [Hin%elem_of_empty|?]; [done|tauto]|tauto].
  - apply Hnd; [apply BitmaskSolverFacts.NoDup_all_cells|constructor|].
    by intros e Hin%elem_of_nil.
  - apply Hsort. constructor.
Qed.

(** *** [update_neighbors] *)

Lemma fold_left_guard {A B} (f : A -> B -> A) (P : B -> Prop)
    `{!forall x, Decision (P x)} (l : list B) : forall acc,
  fold_left (fun acc x => if bool_decide (P x) then f acc x else acc) l acc
  = fold_left f (filter P l) acc.
Proof.
  induction l as [|x l IH]; intros acc; [done|].
  cbn [fold_left]. rewrite filter_cons.
  case_bool_decide; rewrite IH.
  - by rewrite decide_True by done.
  - by rewrite decide_False by done.
Qed.

Lemma elem_of_neighbours row col i j :
  (row < 9)%nat -> (col < 9)%nat ->
  (i, j) ∈ neighbours row col <->
  (i < 9)%nat /\ (j < 9)%nat /\ ((i, j) = (row, col) \/ peers row col i j).
Proof.
  intros Hr Hc. unfold neighbours.
  rewrite elem_of_remove_dups, elem_of_app, list_elem_of_bind,
    GeneratorFacts.elem_of_box_cells.
  split.
  - intros [(k & Hin & Hk%elem_of_seq)|[Hi Hj]].
    + apply elem_of_cons in Hin as [[= -> ->]|Hin].
      * split; [done|]. split; [lia|].
        destruct (decide (k = col)) as [-> |Hne]; [by left|].
        right. split; [congruence|by left].
      * apply list_elem_of_singleton in Hin as [= -> ->].
        split; [lia|]. split; [done|].
        destruct (decide (k = row)) as [-> |Hne]; [by left|].
        right. split; [congruence|by right; left].
    + destruct (box_corner_index row col i j) as (Hi9 & Hj9 & Hbox); auto.
      split; [done|]. split; [done|].
      destruct (decide ((i, j) = (row, col))) as [|Hne]; [by left|].
      right. split; [congruence|by right; right].
  - intros (Hi & Hj & [[= -> ->]|[Hne [<- |[<- |Hbox]]]]).
    + left. exists col. split; [by left|]. apply elem_of_seq. lia.
    + left. exists j. split; [by left|]. apply elem_of_seq. lia.
    + left. exists i. split; [by right; left|]. apply elem_of_seq. lia.
    + right. apply GeneratorFacts.same_box in Hbox as [Hr3 Hc3]; auto.
      rewrite Hr3, Hc3.
      by apply GeneratorFacts.elem_of_box_cells, GeneratorFacts.block_origin_of.
Qed.

Lemma update_neighbors_spec g row col :
  (row < 9)%nat -> (col < 9)%nat ->
  board (update_neighbors g row col) = board g
  /\ (forall e, e ∈ pq (update_neighbors g row col) <->
        e ∈ pq g
        \/ ((e.1.2 < 9)%nat /\ (e.2 < 9)%nat /\ peers row col e.1.2 e.2
            /\ wanted (board g) e))
  /\ (StronglySorted entry_le (pq g) ->
      StronglySorted entry_le (pq (update_neighbors g row col))).
Proof.
  intros Hr Hc. unfold update_neighbors.
  rewrite (fold_left_guard (enqueue_cell (board g)) (fun rc => rc <> (row, col))).
  pose proof (fun e => enqueue_cells_elem (board g)
                (filter (fun rc => rc <> (row, col)) (neighbours row col))
                (pq g) (pq_entries g) e) as Helem.
  pose proof (enqueue_cells_sorted (board g)
                (filter (fun rc => rc <> (row, col)) (neighbours row col))
                (pq g) (pq_entries g)) as Hsort.
  destruct (fold_left _ _ _) as [q es]. cbn [fst snd pq board] in *.
  split; [done|]. split; [|done].
  intros e. rewrite Helem, list_elem_of_filter, elem_of_neighbours by done.
  split.
  - intros [?|[[Hne (Hi & Hj & [Heq|Hp])] Hw]]; [by left|done|].
    right. tauto.
  - intros [?|(Hi & Hj & Hp & Hw)]; [by left|]. right.
    split; [|done]. split; [|tauto].
    destruct Hp as [Hne _]. congruence.
Qed.

(** *** What a pass over a list of cells adds *)




(** *** The head of an ascending queue *)

Lemma clean_stale_live b q es : live b q -> (clean_stale b q es).1 = q.
Proof.
  destruct q as [|[[n r] c] q]; [done|]. intros [H0 _]%Forall_cons.
  simpl. by rewrite H0.
Qed.

Lemma sorted_head_least q e :
  StronglySorted entry_le q -> e ∈ q ->
  match q with [] => False | x :: _ => entry_le x e end.
Proof.
  intros Hs Hin. destruct q as [|x q]; [by apply elem_of_nil in Hin|].
  apply StronglySorted_inv in Hs as [_ Hall].
  apply elem_of_cons in Hin as [-> |Hin].
  - unfold entry_le. rewrite entry_leb_spec. lia.
  - rewrite Forall_forall in Hall. by apply Hall.
Qed.

End QueueFacts.

(** ** The AI move of sudoku_hybrid.py *)

Module AiFacts.
Import Completion Queue Scheduler SchedulerFacts QueueFacts HybridSoundFacts
  FixpointFacts.

(** Filling an empty cell with the digit of a completion keeps the
    board valid and keeps the completion. *)
Lemma completion_fill b t r c :
  valid_board b -> completion b t -> (r < 9)%nat -> (c < 9)%nat ->
  cell b r c = 0 ->
  valid_board (set_cell b r c (cell t r c))
  /\ completion (set_cell b r c (cell t r c)) t
  /\ 1 <= cell t r c <= 9.
Proof.
  intros Hv Ht Hr Hc H0. pose proof Hv as (Hwf & _).
  pose proof (completion_candidate b t r c Hwf Ht Hr Hc H0) as Hin.
  split; [by apply valid_board_candidate|].
  split; [by apply completion_set_cell|].
  apply PropagationFacts.elem_of_get_candidates in Hin. tauto.
Qed.

Lemma clean_stale_suffix b q es :
  exists pre, q = pre ++ (clean_stale b q es).1.
Proof.
  revert es. induction q as [|[[n r] c] q IH]; intros es; simpl.
  - by exists [].
  - destruct (negb _).
    + destruct (IH (es ∖ {[(r, c)]})) as [pre Hpre].
      exists ((n, r, c) :: pre). simpl. by rewrite <- Hpre.
    + by exists [].
Qed.

Lemma initialize_priority_queue_in_range g :
  in_range (pq (initialize_priority_queue g)).
Proof.
  destruct (initialize_priority_queue_spec g) as (_ & Helem & _).
  apply Forall_forall. intros e He%Helem. tauto.
Qed.

Lemma prepare_queue_in_range g :
  in_range (pq g) -> in_range (pq (prepare_queue g)).
Proof.
  intros Hq. unfold prepare_queue.
  destruct (clean_stale_suffix (board g) (pq g) (pq_entries g)) as [pre Hpre].
  destruct (clean_stale _ _ _) as [q es]. cbn [fst] in Hpre.
  destruct q as [|e q].
  - destruct (negb _); [apply initialize_priority_queue_in_range|constructor].
  - cbn [pq]. rewrite Hpre in Hq. by apply Forall_app in Hq as [_ ?].
Qed.

Lemma select_move_in_range g row col g3 :
  in_range (pq g) -> select_move g = Some (row, col, g3) ->
  (row < 9)%nat /\ (col < 9)%nat /\ in_range (pq g3)
  /\ board g3 = board g /\ cell (board g) row col = 0.
Proof.
  intros Hq%prepare_queue_in_range. unfold select_move.
  destruct (prepare_queue_head g) as [Hboard Hhead].
  destruct (pq (prepare_queue g)) as [|[[n r] c] q]; [done|].
  apply Forall_cons in Hq as [[Hr Hc] Hq].
  intros [= <- <- <-]. done.
Qed.

Lemma update_neighbors_in_range g row col :
  (row < 9)%nat -> (col < 9)%nat ->
  in_range (pq g) -> in_range (pq (update_neighbors g row col)).
Proof.
  intros Hr Hc Hq.
  destruct (update_neighbors_spec g row col Hr Hc) as (_ & Helem & _).
  apply Forall_forall. intros e [Hin|?]%Helem; [|tauto].
  unfold in_range in Hq. rewrite Forall_forall in Hq. by apply Hq.
Qed.

Lemma truthy_solution t : solution t -> Hybrid.truthy Hybrid.RBoard t = true.
Proof. intros [[Hlen _] _]. by destruct t. Qed.

(** While an empty cell is left on a board that has a completion, the
    queue offers a cell after the cleaning and the rebuild. *)
Lemma select_move_some g t r c :
  wf_board (board g) -> completion (board g) t ->
  (r < 9)%nat -> (c < 9)%nat -> cell (board g) r c = 0 ->
  is_Some (select_move g).
Proof.
  intros Hwf Ht Hr Hc H0. unfold select_move, prepare_queue.
  destruct (clean_stale _ _ _) as [q es].
  destruct q as [|[[n0 r0] c0] q]; [|by eexists].
  assert (Hybrid.is_complete (board (Game (board g) [] es)) = false) as ->.
  { apply not_true_is_false. intros Hfull.
    by apply (proj1 (CompleteFacts.is_complete_hybrid_spec _) Hfull r c). }
  cbn [negb].
  destruct (initialize_priority_queue_spec (Game (board g) [] es))
    as (_ & Helem & _).
  pose proof (completion_candidate _ _ r c Hwf Ht Hr Hc H0) as Hcand.
  assert ((length (Hybrid.get_candidates (board g) r c), r, c)
            ∈ pq (initialize_priority_queue (Game (board g) [] es))) as Hin.
  { apply Helem. cbn. split; [done|]. split; [done|].
    split; [done|]. split; [done|].
    destruct (Hybrid.get_candidates (board g) r c); [|done].
    by apply elem_of_nil in Hcand. }
  destruct (pq (initialize_priority_queue (Game (board g) [] es)))
    as [|[[n1 r1] c1] q1]; [by apply elem_of_nil in Hin|by eexists].
Qed.

Section Play.

Variable set_iter : list Z -> list Z.
Hypothesis set_iter_perm : forall l, set_iter l ≡ₚ l.

(** A move that is made: one empty cell receives the digit a
    completion of the board has there. *)
Lemma ai_make_move_true g g' :
  valid_board (board g) -> in_range (pq g) ->
  ai_make_move set_iter g = Some (true, g') ->
  exists row col t,
    (row < 9)%nat /\ (col < 9)%nat /\ cell (board g) row col = 0
    /\ completion (board g) t
    /\ board g' = set_cell (board g) row col (cell t row col)
    /\ in_range (pq g').
Proof.
  intros Hv Hq. unfold ai_make_move.
  destruct (select_move g) as [[[row col] g3]|] eqn:Hsel; [|done].
  apply select_move_in_range in Hsel as (Hr & Hc & Hq3 & Hb3 & H0); [|done].
  destruct (Hybrid.solve_hybrid set_iter (board g3)) as [[t|]|] eqn:Hsolve;
    [|done..].
  rewrite Hb3 in Hsolve.
  apply (solve_hybrid_some set_iter set_iter_perm) in Hsolve; [|done].
  rewrite truthy_solution by apply Hsolve.
  intros [= <-]. exists row, col, t.
  split; [done|]. split; [done|]. split; [done|]. split; [done|].
  destruct (update_neighbors_spec
              (Game (set_cell (board g3) row col (cell t row col)) (pq g3)
                    (pq_entries g3)) row col Hr Hc) as (Hb & _).
  split; [by rewrite Hb, <- Hb3|].
  by apply update_neighbors_in_range.
Qed.

(** A move that is not made leaves the board as it is. *)
Lemma ai_make_move_false g g' :
  ai_make_move set_iter g = Some (false, g') -> board g' = board g.
Proof.
  unfold ai_make_move.
  destruct (select_move g) as [[[row col] g3]|] eqn:Hsel.
  - assert (board g3 = board g) as Hb3.
    { unfold select_move in Hsel.
      destruct (prepare_queue_head g) as [Hb _].
      destruct (pq (prepare_queue g)) as [|[[n r] c] q]; [done|].
      by injection Hsel as <- <- <-. }
    destruct (Hybrid.solve_hybrid set_iter (board g3)) as [[t|]|]; [|by intros [= <-]|done].
    destruct (Hybrid.truthy _ _); [done|by intros [= <-]].
  - intros [= <-]. by destruct (prepare_queue_head g).
Qed.

Lemma select_move_board g row col g3 :
  select_move g = Some (row, col, g3) -> board g3 = board g.
Proof.
  unfold select_move. destruct (prepare_queue_head g) as [Hb _].
  destruct (pq (prepare_queue g)) as [|[[n r] c] q]; [done|].
  by intros [= <- <- <-].
Qed.

(** [ai_make_move] returns on every 9x9 board. *)
Lemma ai_make_move_total g :
  wf_board (board g) -> is_Some (ai_make_move set_iter g).
Proof.
  intros Hwf. unfold ai_make_move.
  destruct (select_move g) as [[[row col] g3]|] eqn:Hsel; [|by eexists].
  apply select_move_board in Hsel. rewrite <- Hsel in Hwf.
  destruct (HybridFacts.solve_hybrid_total set_iter set_iter_perm (board g3) Hwf)
    as [[t|] ->]; [|by eexists].
  destruct (Hybrid.truthy _ _); by eexists.
Qed.

Lemma ai_make_move_false_in_range g g' :
  in_range (pq g) ->
  ai_make_move set_iter g = Some (false, g') -> in_range (pq g').
Proof.
  intros Hq. unfold ai_make_move.
  destruct (select_move g) as [[[row col] g3]|] eqn:Hsel.
  - apply select_move_in_range in Hsel as (_ & _ & Hq3 & _); [|done].
    destruct (Hybrid.solve_hybrid set_iter (board g3)) as [[t|]|];
      [|by intros [= <-]|done].
    destruct (Hybrid.truthy _ _); [done|by intros [= <-]].
  - intros [= <-]. by apply prepare_queue_in_range.
Qed.

(** On a valid board that has a completion and an empty cell the move
    is made. *)
Lemma ai_make_move_moves g t r c :
  valid_board (board g) -> completion (board g) t ->
  (r < 9)%nat -> (c < 9)%nat -> cell (board g) r c = 0 ->
  exists g', ai_make_move set_iter g = Some (true, g').
Proof.
  intros Hv Ht Hr Hc H0. pose proof Hv as (Hwf & _).
  unfold ai_make_move.
  destruct (select_move_some g t r c Hwf Ht Hr Hc H0) as [[[row col] g3] Hsel].
  rewrite Hsel.
  assert (board g3 = board g) as Hb3.
  { unfold select_move in Hsel.
    destruct (prepare_queue_head g) as [Hb _].
    destruct (pq (prepare_queue g)) as [|[[n r'] c'] q]; [done|].
    by injection Hsel as <- <- <-. }
  rewrite Hb3.
  destruct (HybridFacts.solve_hybrid_total set_iter set_iter_perm (board g) Hwf)
    as [[t'|] Hsolve]; rewrite Hsolve.
  - apply (solve_hybrid_some set_iter set_iter_perm) in Hsolve; [|done].
    rewrite truthy_solution by apply Hsolve. by eexists.
  - apply (solve_hybrid_none set_iter set_iter_perm) in Hsolve; [|done].
    exfalso. apply Hsolve. by exists t.
Qed.

End Play.

End AiFacts.

(** ** The game of sudoku_hybrid.py: what every move keeps *)

Module HybridGameFacts.
Import Completion Queue Widget HybridGame QueueFacts AiFacts HybridSoundFacts
  CandidateFacts.

(** Editing a cell that is no clue never hides a clue. *)
Lemma extends_edit init b row col v :
  extends init b -> cell init row col = 0 -> extends init (set_cell b row col v).
Proof.
  intros Hext H0 r c Hr Hc Hnz.
  destruct (decide ((row, col) = (r, c))) as [[= <- <-]|Hne]; [done|].
  rewrite cell_set_cell_ne by done. by apply Hext.
Qed.

Lemma valid_board_clear b row col :
  valid_board b -> (row < 9)%nat -> (col < 9)%nat ->
  valid_board (set_cell b row col 0).
Proof.
  intros (Hwf & Hd & Hnc) Hr Hc. split; [by apply wf_set_cell|]. split.
  - apply digits_board_set_cell; auto. lia.
  - apply no_conflict_set_cell; auto.
Qed.

Lemma valid_board_enter b row col num :
  valid_board b -> (row < 9)%nat -> (col < 9)%nat -> 1 <= num <= 9 ->
  Hybrid.is_valid b row col num = true ->
  valid_board (set_cell b row col num).
Proof.
  intros (Hwf & Hd & Hnc) Hr Hc Hnum Hok. split; [by apply wf_set_cell|]. split.
  - apply digits_board_set_cell; auto. lia.
  - apply no_conflict_set_cell; auto. right. by apply is_valid_spec.
Qed.

Lemma full_valid_solution b :
  valid_board b -> Hybrid.is_complete b = true -> solution b.
Proof.
  intros Hv Hfull.
  pose proof (proj1 (CompleteFacts.is_complete_hybrid_spec b) Hfull) as Hnz.
  by apply valid_board_completion.
Qed.

(** The branches that return without a change. *)
Ltac unchanged :=
  cbn [fst]; split; [done|]; split; [done|]; split; [done|];
  intros ?; left; congruence.

(** [on_cell_edit] keeps the state playable, changes no other cell than
    the edited one, and ends the game only on a solved grid. *)
Lemma on_cell_edit_playable g row col v :
  (row < 9)%nat -> (col < 9)%nat -> playable g ->
  playable (on_cell_edit g row col v).1
  /\ initial_board (on_cell_edit g row col v).1 = initial_board g
  /\ (forall r c, (r, c) <> (row, col) ->
        cell (board (on_cell_edit g row col v).1) r c = cell (board g) r c)
  /\ (game_over (on_cell_edit g row col v).1 = true ->
        game_over g = true \/ solution (board (on_cell_edit g row col v).1)).
Proof.
  intros Hr Hc Hplay. pose proof Hplay as (Hvi & Hv & Hext & Hq).
  unfold on_cell_edit.
  destruct (game_over g) eqn:Hover; [unchanged|].
  destruct (Z.eqb_spec (cell (initial_board g) row col) 0) as [H0|Hnz];
    cbn [negb]; [|unchanged].
  assert (playable (write g row col 0)
          /\ initial_board (write g row col 0) = initial_board g
          /\ (forall r c, (r, c) <> (row, col) ->
                cell (board (write g row col 0)) r c = cell (board g) r c)
          /\ (game_over (write g row col 0) = true ->
                game_over g = true \/ solution (board (write g row col 0))))
    as Hclear.
  { split; [|split; [done|split]].
    - split; [done|]. split; [by apply valid_board_clear|].
      split; [by apply extends_edit|done].
    - intros r c Hne. by apply cell_set_cell_ne.
    - intros Hg. cbn in Hg. congruence. }
  rewrite Hover in Hclear.
  destruct v as [|num|]; cbn [fst].
  - destruct (initialize_priority_queue_spec (sched (write g row col 0)))
      as (Hb & _).
    split; [|split; [done|split]].
    + split; [done|]. unfold playable, board. cbn [sched initial_board].
      rewrite Hb. split; [by apply valid_board_clear|].
      split; [by apply extends_edit|].
      apply initialize_priority_queue_in_range.
    + intros r c Hne. unfold board at 1. cbn [sched]. rewrite Hb.
      by apply cell_set_cell_ne.
    + intros Hg. cbn in Hg. congruence.
  - destruct (negb ((1 <=? num) && (num <=? 9))) eqn:Hnum; [unchanged|].
    apply negb_false_iff, andb_true_iff in Hnum as [H1%Z.leb_le H9%Z.leb_le].
    destruct (strict g && negb (num =? cell (solution_board g) row col));
      [exact Hclear|].
    destruct (Hybrid.is_valid (board g) row col num) eqn:Hok; [|exact Hclear].
    set (s1 := Scheduler.Game (set_cell (board g) row col num) _ _).
    destruct (update_neighbors_spec s1 row col Hr Hc) as (Hb & _).
    assert (valid_board (Scheduler.board (Scheduler.update_neighbors s1 row col)))
      as Hv'.
    { rewrite Hb. by apply valid_board_enter. }
    assert (Queue.in_range
              (Scheduler.pq (Scheduler.update_neighbors s1 row col))) as Hq'.
    { by apply update_neighbors_in_range. }
    assert (extends (initial_board g)
              (Scheduler.board (Scheduler.update_neighbors s1 row col))) as Hext'.
    { rewrite Hb. by apply extends_edit. }
    destruct (Hybrid.is_complete _) eqn:Hfull; cbn [fst].
    + split; [done|]. split; [done|]. split.
      * intros r c Hne. unfold board at 1. cbn [sched]. rewrite Hb.
        by apply cell_set_cell_ne.
      * intros _. right. unfold board. cbn [sched].
        by apply full_valid_solution.
    + split; [done|]. split; [done|]. split.
      * intros r c Hne. unfold board at 1. cbn [sched]. rewrite Hb.
        by apply cell_set_cell_ne.
      * intros Hg. cbn in Hg. congruence.
  - unchanged.
Qed.

Lemma new_game_playable g r :
  Generator.rng_ok r ->
  playable (new_game g r)
  /\ game_over (new_game g r) = false
  /\ completion (board (new_game g r)) (solution_board (new_game g r)).
Proof.
  intros Hok. unfold new_game.
  pose proof (HolesFacts.hybrid_puzzle_carved (difficulty g) r Hok) as [Hwf Hcarved].
  pose proof (GeneratorFacts.full_board_solution r Hok) as Hsol.
  destruct (Hybrid.generate_puzzle (difficulty g) r) as [puzzle full] eqn:Hgen.
  assert (full = Generator.full_board r) as ->.
  { unfold Hybrid.generate_puzzle in Hgen. by injection Hgen as _ <-. }
  cbn [fst snd] in Hwf, Hcarved.
  destruct (HolesFacts.carved_valid _ _ Hsol Hwf Hcarved) as [Hv Hc].
  set (s0 := Scheduler.Game puzzle _ _).
  destruct (initialize_priority_queue_spec s0) as (Hb & _).
  unfold playable, board. cbn [sched initial_board solution_board game_over].
  rewrite Hb. cbn [Scheduler.board s0].
  split; [|done]. split; [done|]. split; [done|].
  split; [apply extends_refl|apply initialize_priority_queue_in_range].
Qed.

Lemma reset_board_playable g :
  playable g ->
  playable (reset_board g) /\ board (reset_board g) = initial_board g
  /\ game_over (reset_board g) = false.
Proof.
  intros (Hvi & _). unfold reset_board.
  set (s0 := Scheduler.Game (initial_board g) _ _).
  destruct (initialize_priority_queue_spec s0) as (Hb & _).
  unfold playable, board. cbn [sched initial_board game_over].
  rewrite Hb. cbn [Scheduler.board s0].
  split; [|done]. split; [done|]. split; [done|].
  split; [apply extends_refl|apply initialize_priority_queue_in_range].
Qed.

(** *** [show_hint] *)

Lemma pop_stale_live b q : Scheduler.live b q -> pop_stale b q = q.
Proof.
  destruct q as [|[[n r] c] q]; [done|]. intros [H0 _]%Forall_cons.
  simpl. by rewrite H0.
Qed.

(** The hint names the least entry of a rebuilt queue: an empty cell
    with the fewest candidates, the first such cell in row-major
    order. *)
Lemma show_hint_least g :
  game_over g = false ->
  board (show_hint g).1 = board g
  /\ match (show_hint g).2 with
     | Some (row, col, cands) =>
         (row < 9)%nat /\ (col < 9)%nat /\ cell (board g) row col = 0
         /\ cands = Hybrid.get_candidates (board g) row col /\ cands <> []
         /\ forall r c, (r < 9)%nat -> (c < 9)%nat -> cell (board g) r c = 0 ->
              Hybrid.get_candidates (board g) r c <> [] ->
              Scheduler.entry_leb
                (length cands, row, col)
                (length (Hybrid.get_candidates (board g) r c), r, c) = true
     | None =>
         forall r c, (r < 9)%nat -> (c < 9)%nat -> cell (board g) r c = 0 ->
           Hybrid.get_candidates (board g) r c = []
     end.
Proof.
  intros Hover. unfold show_hint. rewrite Hover.
  destruct (initialize_priority_queue_spec (sched g))
    as (Hb & Helem & _ & _ & Hsorted).
  destruct (SchedulerFacts.initialize_priority_queue_live (sched g)) as [Hlive _].
  rewrite <- Hb in Hlive. rewrite pop_stale_live by done.
  fold (board g) in Hb, Helem.
  assert (forall r c, (r < 9)%nat -> (c < 9)%nat -> cell (board g) r c = 0 ->
            Hybrid.get_candidates (board g) r c <> [] ->
            (length (Hybrid.get_candidates (board g) r c), r, c)
              ∈ Scheduler.pq (Scheduler.initialize_priority_queue (sched g)))
    as Hqueued.
  { intros r c Hr Hc H0 Hne. apply Helem. cbn.
    split; [done|]. split; [done|]. split; [done|]. split; [done|].
    by destruct (Hybrid.get_candidates (board g) r c). }
  destruct (Scheduler.pq (Scheduler.initialize_priority_queue (sched g)))
    as [|[[n row] col] q] eqn:Hq; cbn [fst snd].
  - split; [done|]. intros r c Hr Hc H0.
    destruct (Hybrid.get_candidates (board g) r c) as [|d l] eqn:Hc'; [done|].
    exfalso. eapply elem_of_nil. apply (Hqueued r c); auto. by rewrite Hc'.
  - split; [done|]. rewrite Hb.
    destruct (proj1 (Helem (n, row, col))) as (Hr & Hc & H0 & Hn & Hnz);
      [by left|]. cbn in Hr, Hc, H0, Hn, Hnz.
    split; [done|]. split; [done|]. split; [done|]. split; [done|].
    split; [intros Hnil; rewrite Hnil in Hn; simpl in Hn; lia|].
    intros r c Hr' Hc' H0' Hne. rewrite <- Hn.
    by apply (sorted_head_least _ _ Hsorted (Hqueued r c Hr' Hc' H0' Hne)).
Qed.

Section Play.

Variable set_iter : list Z -> list Z.
Hypothesis set_iter_perm : forall l, set_iter l ≡ₚ l.

(** [ai_turn] keeps the state playable and ends the game only on a
    solved grid. *)
Lemma ai_turn_playable g r g' :
  playable g -> Generator.rng_ok r ->
  ai_turn set_iter g r = Some g' ->
  playable g'
  /\ (game_over g' = true -> game_over g = true \/ solution (board g')).
Proof.
  intros Hplay Hok. pose proof Hplay as (Hvi & Hv & Hext & Hq).
  unfold board in Hv, Hext. unfold ai_turn.
  destruct (game_over g) eqn:Hover; [intros [= <-]; split; [done|by left]|].
  destruct (Scheduler.ai_make_move set_iter (sched g)) as [[[] s']|] eqn:Hmove;
    [| |done].
  - apply (ai_make_move_true set_iter set_iter_perm) in Hmove
      as (row & col & t & Hr & Hc & H0 & Ht & Hb & Hq'); [|done..].
    destruct (completion_fill _ t row col Hv Ht Hr Hc H0) as (Hv' & _).
    rewrite <- Hb in Hv'.
    assert (extends (initial_board g) (Scheduler.board s')) as Hext'.
    { rewrite Hb. apply extends_edit; [done|].
      destruct (decide (cell (initial_board g) row col = 0)) as [|Hnz]; [done|].
      apply Hext in Hnz; auto. congruence. }
    destruct (Hybrid.is_complete (Scheduler.board s')) eqn:Hfull;
      intros [= <-].
    + split; [done|]. intros _. right. by apply full_valid_solution.
    + split; [done|]. intros Hg. cbn in Hg. congruence.
  - pose proof (ai_make_move_false_in_range set_iter _ _ Hq Hmove) as Hq'.
    apply ai_make_move_false in Hmove.
    destruct (Hybrid.is_complete (Scheduler.board s')) eqn:Hfull;
      intros [= <-].
    + split.
      * unfold playable, board. cbn [sched initial_board]. rewrite Hmove.
        split; [done|]. split; [done|]. split; [done|].
        exact Hq'.
      * intros _. right. unfold board. cbn [sched].
        apply full_valid_solution; [|done]. by rewrite Hmove.
    + match goal with
      | |- context [new_game ?g0 r] =>
          destruct (new_game_playable g0 r Hok) as (Hp & Hno & _)
      end.
      split; [done|]. rewrite Hno. done.
Qed.

Lemma ai_turn_total g r :
  wf_board (board g) -> is_Some (ai_turn set_iter g r).
Proof.
  intros Hwf. unfold ai_turn. destruct (game_over g); [by eexists|].
  destruct (ai_make_move_total set_iter set_iter_perm (sched g) Hwf)
    as [[[] s'] ->]; destruct (Hybrid.is_complete _); by eexists.
Qed.

End Play.

End HybridGameFacts.

(** ** The game of sudoku_dp.py *)

Module DigitFacts.
Import BitmaskSolver BitmaskSolverFacts.

(** *** The solver writes digits, whatever the clues are *)

Lemma backtrack_fills cells : forall s s',
  ready s cells -> _backtrack cells s = (true, s') ->
  wf_board (board s') /\
  (forall r c, (r, c) ∈ cells -> 1 <= cell (board s') r c <= 9) /\
  (forall r c, (r, c) ∉ cells -> cell (board s') r c = cell (board s) r c).
Proof.
  induction cells as [|[r c] rest IH]; intros s s' Hready.
  - intros [= <-]. destruct Hready as (Hwf & _).
    split; [done|]. split; [|done].
    intros r c Hin. by apply elem_of_nil in Hin.
  - rewrite backtrack_cons. intros Hrun.
    pose proof (ready_head _ _ _ _ Hready) as (Hr & Hc & H0 & Hnotin).
    apply try_digits_true in Hrun as (k & Hk & Hfree & Hcall); [|done|].
    2:{ intros k s2. by apply failing_call_restores. }
    apply bits9_range in Hk.
    pose proof Hready as (Hwf & Hm & _).
    apply IH in Hcall as (Hwf' & Hfilled & Hframe); [|by apply ready_placed].
    split; [done|]. split.
    + intros r' c' [[= -> ->]|Hin]%elem_of_cons; [|by apply Hfilled].
      rewrite Hframe by done. unfold placed. simpl.
      rewrite cell_set_cell_eq by done. lia.
    + intros r' c' [Hne Hnin]%not_elem_of_cons.
      rewrite Hframe by done. unfold placed. simpl.
      apply cell_set_cell_ne. congruence.
Qed.

Lemma solve_digits b t :
  wf_board b -> digits_board b -> solve b = Some t ->
  wf_board t /\ digits_board t.
Proof.
  intros Hwf Hd. rewrite solve_unfold. cbv zeta.
  set (s := (_initialize_masks b).1).
  set (cells := sort_by_key _ _).
  destruct (_backtrack cells s) as [ok s'] eqn:Hrun. cbn [fst snd].
  destruct ok; [|done]. intros [= <-].
  pose proof (initialize_masks_board b) as [Hb Hcells].
  apply backtrack_fills in Hrun as (Hwf' & Hfilled & Hframe);
    [|by apply solve_ready].
  split; [done|]. intros r c Hr Hc.
  destruct (decide ((r, c) ∈ cells)) as [Hin|Hnin].
  - specialize (Hfilled r c Hin). lia.
  - rewrite Hframe by done. fold s in Hb. rewrite Hb. by apply Hd.
Qed.

End DigitFacts.

Module DpGameFacts.
Import Completion Widget DpGame BitmaskSolverFacts GeneratorFacts
  HybridSoundFacts HybridGameFacts DigitFacts.

(** *** The scan for the first empty cell *)

Lemma fill_first_empty_hint cells b solved :
  fill_first_empty cells b solved
  = match first_empty cells b solved with
    | None => b
    | Some (r, c, v) => set_cell b r c v
    end.
Proof.
  induction cells as [|[r c] cells IH]; [done|]. simpl.
  by destruct (cell b r c =? 0).
Qed.

Lemma first_empty_filter cells b solved :
  first_empty cells b solved
  = match filter (fun '(r, c) => cell b r c = 0) cells with
    | [] => None
    | (r, c) :: _ => Some (r, c, cell solved r c)
    end.
Proof.
  induction cells as [|[r c] cells IH]; [done|].
  cbn [first_empty]. rewrite filter_cons.
  destruct (Z.eqb_spec (cell b r c) 0) as [H0|Hnz].
  - by rewrite decide_True by done.
  - by rewrite decide_False by done.
Qed.

Lemma filter_drop_head {A} `{EqDecision A} (P Q : A -> Prop)
    `{!forall x, Decision (P x)} `{!forall x, Decision (Q x)} (l : list A) x rest :
  NoDup l -> filter P l = x :: rest ->
  (forall y, Q y <-> P y /\ y <> x) -> filter Q l = rest.
Proof.
  intros Hnd Hfil Hq. induction l as [|y l IH]; [done|].
  apply NoDup_cons in Hnd as [Hy Hnd].
  rewrite filter_cons in Hfil. rewrite filter_cons.
  destruct (decide (P y)) as [Hp|Hp].
  - injection Hfil as -> Hrest.
    rewrite decide_False by (rewrite Hq; tauto).
    rewrite <- Hrest. apply CandidateFacts.filter_ext_elem.
    intros z Hz. rewrite Hq. split; [tauto|]. intros Hpz. split; [done|].
    by intros ->.
  - rewrite decide_False by (rewrite Hq; tauto). by apply IH.
Qed.

Lemma empty_cells_fill_head b r c rest v :
  wf_board b -> empty_cells b = (r, c) :: rest -> v <> 0 ->
  empty_cells (set_cell b r c v) = rest.
Proof.
  intros Hwf Hempty Hv.
  assert ((r, c) ∈ empty_cells b) as (Hr & Hc & H0)%elem_of_empty_cells
    by (rewrite Hempty; by left).
  unfold empty_cells in *.
  eapply (filter_drop_head _ _ all_cells (r, c)); [apply NoDup_all_cells|done|].
  intros [r' c'].
  destruct (decide ((r, c) = (r', c'))) as [[= <- <-]|Hne].
  - rewrite cell_set_cell_eq by done. split; [done|]. by intros [_ ?].
  - rewrite cell_set_cell_ne by done. split; [|tauto]. intros ?. split; [done|].
    congruence.
Qed.

(** *** [is_complete] on a board of digits *)

Lemma elem_of_digits x : x ∈ digits <-> 1 <= x <= 9.
Proof. unfold digits. set_unfold. lia. Qed.

Lemma NoDup_digits l :
  NoDup l -> length l = 9%nat -> (forall x, x ∈ l -> 1 <= x <= 9) -> l ≡ₚ digits.
Proof.
  intros Hnd Hlen Hrange. apply submseteq_length_Permutation.
  - apply NoDup_submseteq; [done|]. intros x Hx. by apply elem_of_digits, Hrange.
  - rewrite Hlen. done.
Qed.

Lemma complete_solution b :
  wf_board b -> digits_board b -> SudokuDp.is_complete b = true -> solution b.
Proof.
  intros Hwf Hd Hfull.
  apply CompleteFacts.is_complete_dp_spec in Hfull
    as (Hnz & Hrows & Hcols & Hboxes); [|done].
  assert (forall r c, (r < 9)%nat -> (c < 9)%nat -> 1 <= cell b r c <= 9) as Hdig.
  { intros r c Hr Hc. specialize (Hd r c Hr Hc). specialize (Hnz r c Hr Hc). lia. }
  apply valid_complete_solution; [done|]. split; [|split].
  - intros r Hr. apply NoDup_digits; [by apply Hrows|by apply wf_board_row|].
    intros x (c & Hc & <-)%PropagationFacts.elem_of_row_vals; auto.
  - intros c Hc. apply NoDup_digits; [by apply Hcols|done|].
    intros x (r & Hr & <-)%PropagationFacts.elem_of_col_vals; auto.
  - intros br bc Ho. apply NoDup_digits; [by apply Hboxes|done|].
    intros x (i & j & Hi & Hj & <-)%PropagationFacts.elem_of_box_vals.
    pose proof (PropagationFacts.block_origin_cells br bc Ho) as Hrange.
    rewrite Forall_forall in Hrange.
    destruct (Hrange (i, j)) as [Hi9 Hj9]; [by apply elem_of_box_cells|].
    by apply Hdig.
Qed.

(** *** [ai_turn] *)

(** What [ai_turn] does when the game is running. *)
Lemma ai_turn_cases g :
  game_over g = false ->
  ai_turn g = g
  \/ exists solved,
       BitmaskSolver.solve (board g) = Some solved
       /\ initial_board (ai_turn g) = initial_board g
       /\ solution_board (ai_turn g) = solution_board g
       /\ strict (ai_turn g) = strict g
       /\ game_over (ai_turn g) = SudokuDp.is_complete (board (ai_turn g))
       /\ board (ai_turn g)
          = match empty_cells (board g) with
            | [] => board g
            | (r, c) :: _ => set_cell (board g) r c (cell solved r c)
            end.
Proof.
  intros Hover. unfold ai_turn. rewrite Hover. unfold SudokuDp.solve_dp.
  destruct (BitmaskSolver.solve (board g)) as [[|row0 solved]|] eqn:Hsolve; [by left| |by left].
  right. exists (row0 :: solved). split; [done|].
  rewrite fill_first_empty_hint, first_empty_filter.
  fold (empty_cells (board g)). cbn [initial_board solution_board strict game_over board].
  split; [done|]. split; [done|]. split; [done|].
  split; [by destruct (SudokuDp.is_complete _)|].
  by destruct (empty_cells (board g)) as [|[r c] rest].
Qed.

Lemma ai_turn_solved g solved :
  game_over g = false -> BitmaskSolver.solve (board g) = Some solved ->
  wf_board solved ->
  board (ai_turn g)
  = match empty_cells (board g) with
    | [] => board g
    | (r, c) :: _ => set_cell (board g) r c (cell solved r c)
    end.
Proof.
  intros Hover Hsolve [Hlen _]. unfold ai_turn. rewrite Hover.
  unfold SudokuDp.solve_dp. rewrite Hsolve.
  destruct solved as [|row0 solved]; [done|].
  rewrite fill_first_empty_hint, first_empty_filter.
  fold (empty_cells (board g)). cbn [board].
  by destruct (empty_cells (board g)) as [|[r c] rest].
Qed.

Lemma extends_blank init b r c :
  extends init b -> (r < 9)%nat -> (c < 9)%nat -> cell b r c = 0 ->
  cell init r c = 0.
Proof.
  intros Hext Hr Hc H0.
  destruct (decide (cell init r c = 0)) as [|Hnz]; [done|].
  apply Hext in Hnz; auto. congruence.
Qed.

(** [ai_turn] keeps the board sane and ends the game only on a solved
    grid. *)
Lemma ai_turn_sane g :
  sane g ->
  sane (ai_turn g)
  /\ initial_board (ai_turn g) = initial_board g
  /\ (game_over (ai_turn g) = true ->
        game_over g = true \/ solution (board (ai_turn g))).
Proof.
  intros Hs. pose proof Hs as (Hwf & Hd & Hext).
  destruct (game_over g) eqn:Hover.
  { unfold ai_turn. rewrite Hover. split; [done|]. split; [done|]. by left. }
  destruct (ai_turn_cases g Hover)
    as [->|(solved & Hsolve & Hi & _ & _ & Hgo & Hb)].
  { split; [done|]. split; [done|]. intros ?. congruence. }
  destruct (solve_digits _ _ Hwf Hd Hsolve) as [Hwft Hdt].
  assert (sane (ai_turn g)) as Hs'.
  { unfold sane. rewrite Hi, Hb.
    destruct (empty_cells (board g)) as [|[r c] rest] eqn:Hempty; [done|].
    assert ((r, c) ∈ empty_cells (board g)) as (Hr & Hc & H0)%elem_of_empty_cells
      by (rewrite Hempty; by left).
    split; [by apply wf_set_cell|]. split.
    - apply digits_board_set_cell; auto.
    - apply extends_edit; [done|]. by apply (extends_blank _ (board g)). }
  split; [done|]. split; [done|]. rewrite Hgo. intros Hfull. right.
  destruct Hs' as (Hwf' & Hd' & _). by apply complete_solution.
Qed.

(** [on_cell_edit] keeps the board sane, never changes a clue, and ends
    the game only on a solved grid. *)
Lemma on_cell_edit_sane g row col v :
  sane g ->
  sane (on_cell_edit g row col v)
  /\ initial_board (on_cell_edit g row col v) = initial_board g
  /\ (game_over (on_cell_edit g row col v) = true ->
        game_over g = true \/ solution (board (on_cell_edit g row col v))).
Proof.
  intros Hs. pose proof Hs as (Hwf & Hd & Hext). unfold on_cell_edit.
  destruct (game_over g) eqn:Hover; cbn [orb].
  { split; [done|]. split; [done|]. by left. }
  destruct (Z.eqb_spec (cell (initial_board g) row col) 0) as [H0|Hnz]; cbn [negb].
  2:{ split; [done|]. split; [done|]. intros ?. congruence. }
  destruct v as [|num|].
  - split; [|split; [done|cbn; intros ?; congruence]].
    split; [by apply wf_set_cell|]. split.
    + apply digits_board_set_cell; auto. lia.
    + by apply extends_edit.
  - destruct (negb ((1 <=? num) && (num <=? 9))) eqn:Hnum.
    { split; [done|]. split; [done|]. intros ?. congruence. }
    apply negb_false_iff, andb_true_iff in Hnum as [H1%Z.leb_le H9%Z.leb_le].
    destruct (strict g && negb (num =? cell (solution_board g) row col)).
    { split; [done|]. split; [done|]. intros ?. congruence. }
    assert (wf_board (set_cell (board g) row col num)
            /\ digits_board (set_cell (board g) row col num)
            /\ extends (initial_board g) (set_cell (board g) row col num))
      as Hs1.
    { split; [by apply wf_set_cell|]. split.
      - apply digits_board_set_cell; auto. lia.
      - by apply extends_edit. }
    destruct (SudokuDp.is_complete (set_cell (board g) row col num)) eqn:Hfull.
    + split; [done|]. split; [done|]. intros _. right. cbn.
      destruct Hs1 as (? & ? & _). by apply complete_solution.
    + match goal with
      | |- context [ai_turn ?g1] =>
          destruct (ai_turn_sane g1 Hs1) as (Hs2 & Hi2 & Hgo2)
      end.
      split; [done|]. split; [done|]. intros Hg. right.
      destruct (Hgo2 Hg) as [Hbad|?]; [|done]. cbn in Hbad. congruence.
  - split; [done|]. split; [done|]. intros ?. congruence.
Qed.

(** *** [ai_turn] on a valid board *)

(** On a valid board that has a completion and an empty cell, the AI
    fills the first empty cell of the row-major scan with the digit of
    a completion, and nothing else changes. *)
Lemma ai_turn_valid g t0 r c rest :
  game_over g = false -> valid_board (board g) -> completion (board g) t0 ->
  empty_cells (board g) = (r, c) :: rest ->
  exists t, completion (board g) t
    /\ board (ai_turn g) = set_cell (board g) r c (cell t r c)
    /\ empty_cells (board (ai_turn g)) = rest
    /\ valid_board (board (ai_turn g))
    /\ completion (board (ai_turn g)) t.
Proof.
  intros Hover Hv [Hsol0 Hext0] Hempty. pose proof Hv as (Hwf & Hd & Hnc).
  destruct (solve_complete _ t0 Hwf Hd Hsol0 Hext0) as [t Hsolve].
  pose proof (solve_sound _ _ Hwf Hd Hnc Hsolve) as Ht.
  assert ((r, c) ∈ empty_cells (board g)) as (Hr & Hc & H0)%elem_of_empty_cells
    by (rewrite Hempty; by left).
  destruct (AiFacts.completion_fill _ t r c Hv Ht Hr Hc H0) as (Hv' & Ht' & Hdig).
  destruct (ai_turn_cases g Hover) as [Hsame|(solved & Hsolve' & _ & _ & _ & _ & Hb)].
  - exfalso. unfold ai_turn in Hsame. rewrite Hover in Hsame.
    unfold SudokuDp.solve_dp in Hsame. rewrite Hsolve in Hsame.
    destruct t as [|row0 t]; [by destruct Ht as [[[? _] _] _]|].
    apply (f_equal board) in Hsame. cbn [board] in Hsame.
    rewrite fill_first_empty_hint, first_empty_filter in Hsame.
    fold (empty_cells (board g)) in Hsame. rewrite Hempty in Hsame.
    apply (f_equal (fun b => cell b r c)) in Hsame.
    rewrite cell_set_cell_eq in Hsame by done. lia.
  - rewrite Hsolve in Hsolve'. injection Hsolve' as <-.
    rewrite Hempty in Hb. exists t. rewrite Hb.
    split; [done|]. split; [done|].
    split; [apply empty_cells_fill_head; auto; lia|done].
Qed.

(** The hint of sudoku_dp.py is the AI's next move. *)
Lemma show_hint_ai_turn g :
  game_over g = false ->
  board (ai_turn g)
  = match show_hint g with
    | None => board g
    | Some (r, c, v) => set_cell (board g) r c v
    end.
Proof.
  intros Hover. unfold ai_turn, show_hint. rewrite Hover.
  destruct (SudokuDp.solve_dp (board g)) as [[|row0 solved]|]; [done| |done].
  cbn [board]. apply fill_first_empty_hint.
Qed.

(** *** Strict mode on a generated puzzle *)

Lemma carved_from_fill sol b r c :
  SudokuDp.carved_from sol b -> SudokuDp.carved_from sol (set_cell b r c (cell sol r c)).
Proof.
  intros Hcarved r' c' Hr' Hc'.
  destruct (decide ((r, c) = (r', c'))) as [[= <- <-]|Hne].
  - destruct (decide (r < length b)%nat) as [Hlt|Hge].
    + destruct (decide (c < length (b !!! r))%nat) as [Hlt'|Hge'].
      * right. unfold cell, set_cell.
        rewrite list_lookup_total_insert_eq by done.
        by rewrite list_lookup_total_insert_eq by done.
      * unfold set_cell. rewrite (list_insert_ge (b !!! r)) by lia.
        rewrite list_insert_id; [by apply Hcarved|].
        by apply list_lookup_lookup_total_lt.
    + unfold set_cell. rewrite (list_insert_ge b) by lia. by apply Hcarved.
  - rewrite cell_set_cell_ne by done. by apply Hcarved.
Qed.

(** On track, the solver returns the reference grid. *)
Lemma on_track_solve g :
  on_track g -> BitmaskSolver.solve (board g) = Some (solution_board g).
Proof.
  intros (Hsol & Hwfi & Hci & Hone & Hwf & Hc & Hext).
  destruct (HolesFacts.carved_valid _ _ Hsol Hwf Hc) as [(_ & Hd & Hnc) [_ Hexts]].
  destruct (solve_complete _ _ Hwf Hd Hsol Hexts) as [t Hsolve].
  destruct (solve_sound _ _ Hwf Hd Hnc Hsolve) as [Hsolt Hextt].
  rewrite Hsolve. f_equal.
  apply (unique_completion _ (initial_board g)); auto.
  by apply (extends_trans _ (board g)).
Qed.

Lemma ai_turn_on_track g : on_track g -> on_track (ai_turn g).
Proof.
  intros Ht. pose proof Ht as (Hsol & Hwfi & Hci & Hone & Hwf & Hc & Hext).
  destruct (game_over g) eqn:Hover.
  { unfold ai_turn. by rewrite Hover. }
  destruct (ai_turn_cases g Hover)
    as [->|(solved & Hsolve & Hi & Hsb & _ & _ & Hb)]; [done|].
  rewrite on_track_solve in Hsolve by done. injection Hsolve as <-.
  unfold on_track. rewrite Hi, Hsb, Hb.
  destruct (empty_cells (board g)) as [|[r c] rest] eqn:Hempty; [done|].
  assert ((r, c) ∈ empty_cells (board g)) as (Hr & Hc' & H0)%elem_of_empty_cells
    by (rewrite Hempty; by left).
  split; [done|]. split; [done|]. split; [done|]. split; [done|].
  split; [by apply wf_set_cell|]. split; [by apply carved_from_fill|].
  apply extends_edit; [done|]. by apply (extends_blank _ (board g)).
Qed.

(** In strict mode an edit keeps the game on track. *)
Lemma on_cell_edit_on_track g row col v :
  strict g = true -> on_track g -> on_track (on_cell_edit g row col v).
Proof.
  intros Hstrict Ht. pose proof Ht as (Hsol & Hwfi & Hci & Hone & Hwf & Hc & Hext).
  unfold on_cell_edit.
  destruct (game_over g || negb (cell (initial_board g) row col =? 0)) eqn:Hguard;
    [done|].
  apply orb_false_iff in Hguard as [Hover Hclue].
  apply negb_false_iff, Z.eqb_eq in Hclue.
  destruct v as [|num|]; [|rewrite Hstrict|done].
  - unfold on_track. cbn.
    split; [done|]. split; [done|]. split; [done|]. split; [done|].
    split; [by apply wf_set_cell|]. split; [by apply carved_from_clear|].
    by apply extends_edit.
  - destruct (negb ((1 <=? num) && (num <=? 9))); [done|]. cbn [andb].
    destruct (Z.eqb_spec num (cell (solution_board g) row col)) as [->|Hne];
      cbn [negb]; [|done].
    assert (on_track (Game (set_cell (board g) row col (cell (solution_board g) row col))
                           (initial_board g) (solution_board g) (game_over g)
                           (strict g) (difficulty g))) as Ht1.
    { unfold on_track. cbn.
      split; [done|]. split; [done|]. split; [done|]. split; [done|].
      split; [by apply wf_set_cell|]. split; [by apply carved_from_fill|].
      by apply extends_edit. }
    destruct (SudokuDp.is_complete _).
    + exact Ht1.
    + rewrite Hstrict in Ht1. rewrite Hover in Ht1 |- *. by apply ai_turn_on_track.
Qed.

Lemma new_game_on_track g r :
  Generator.rng_ok r -> on_track (new_game g r) /\ game_over (new_game g r) = false.
Proof.
  intros Hok. unfold new_game.
  pose proof (generate_puzzle_dp_carved (difficulty g) r Hok) as (Hwf & Hc & Hone).
  pose proof (full_board_solution r Hok) as Hsol.
  destruct (SudokuDp.generate_puzzle (difficulty g) r) as [puzzle full] eqn:Hgen.
  assert (full = Generator.full_board r) as ->.
  { unfold SudokuDp.generate_puzzle in Hgen. by injection Hgen as _ <-. }
  cbn [fst snd] in Hwf, Hc, Hone. split; [|done].
  unfold on_track. cbn.
  split; [done|]. split; [done|]. split; [done|]. split; [done|].
  split; [done|]. split; [done|]. apply extends_refl.
Qed.

Lemma on_track_completion g :
  on_track g -> valid_board (board g) /\ completion (board g) (solution_board g).
Proof.
  intros (Hsol & _ & _ & _ & Hwf & Hc & _). by apply HolesFacts.carved_valid.
Qed.

End DpGameFacts.

(** ** Checks on the sample boards *)

Module MoreChecks.
Import Completion Examples MoreExamples.

#[global] Instance peers_dec r c r' c' : Decision (peers r c r' c').
Proof. unfold peers. apply _. Defined.

Lemma digits_board_check b :
  Forall (fun '(r, c) => 0 <= cell b r c <= 9) all_cells -> digits_board b.
Proof.
  intros Hall r c. by apply (Checks.all_cells_forall (fun r c => 0 <= cell b r c <= 9)).
Qed.

Lemma no_conflict_check b :
  Forall (fun '(r, c) =>
    Forall (fun '(r', c') =>
      peers r c r' c' -> cell b r c <> 0 -> cell b r c <> cell b r' c') all_cells)
    all_cells ->
  no_conflict b.
Proof.
  intros Hall r c r' c' Hr Hc Hr' Hc'.
  pose proof (Checks.all_cells_forall
                (fun r c => Forall (fun '(r', c') =>
                   peers r c r' c' -> cell b r c <> 0 -> cell b r c <> cell b r' c')
                   all_cells) Hall r c Hr Hc) as Hrow.
  by apply (Checks.all_cells_forall
              (fun r' c' => peers r c r' c' -> cell b r c <> 0 ->
                            cell b r c <> cell b r' c') Hrow).
Qed.

Lemma valid_board_check b :
  wf_board b ->
  Forall (fun '(r, c) => 0 <= cell b r c <= 9) all_cells ->
  Forall (fun '(r, c) =>
    Forall (fun '(r', c') =>
      peers r c r' c' -> cell b r c <> 0 -> cell b r c <> cell b r' c') all_cells)
    all_cells ->
  valid_board b.
Proof.
  intros Hwf Hd Hnc. split; [done|].
  split; [by apply digits_board_check|by apply no_conflict_check].
Qed.

Lemma carved_from_check sol b :
  Forall (fun '(r, c) => cell b r c = 0 \/ cell b r c = cell sol r c) all_cells ->
  SudokuDp.carved_from sol b.
Proof.
  intros Hall r c.
  by apply (Checks.all_cells_forall
              (fun r c => cell b r c = 0 \/ cell b r c = cell sol r c)).
Qed.

Lemma two_holes_wf : wf_board two_holes_board.
Proof. apply (bool_decide_unpack _). by vm_compute. Qed.

Lemma two_holes_carved : SudokuDp.carved_from pattern_board two_holes_board.
Proof. apply carved_from_check, (bool_decide_unpack _). by vm_compute. Qed.

Lemma two_holes_valid : valid_board two_holes_board.
Proof.
  apply (HolesFacts.carved_valid pattern_board).
  - apply Checks.pattern_board_solution.
  - apply two_holes_wf.
  - apply two_holes_carved.
Qed.

Lemma two_holes_completion : completion two_holes_board pattern_board.
Proof.
  apply (HolesFacts.carved_valid pattern_board).
  - apply Checks.pattern_board_solution.
  - apply two_holes_wf.
  - apply two_holes_carved.
Qed.

Lemma four_solutions_valid : valid_board four_solutions_board.
Proof.
  apply (HolesFacts.carved_valid pattern_board).
  - apply Checks.pattern_board_solution.
  - apply (bool_decide_unpack _). by vm_compute.
  - apply carved_from_check, (bool_decide_unpack _). by vm_compute.
Qed.

Lemma late_dead_cell_valid : valid_board late_dead_cell_board.
Proof.
  apply valid_board_check; apply (bool_decide_unpack _); by vm_compute.
Qed.

End MoreChecks.


(** ** [is_complete]: distinct values and the Sudoku invariant *)

Module DistinctFacts.
Import PropagationFacts.

(** The nine boxes: no cell twice, every cell on the board and in the
    box of the corner. *)
Lemma box_cells_facts :
  Forall (fun o : nat * nat =>
            NoDup (box_cells o.1 o.2)
            /\ Forall (fun ij : nat * nat =>
                         (ij.1 < 9)%nat /\ (ij.2 < 9)%nat
                         /\ get_box_index ij.1 ij.2 = get_box_index o.1 o.2)
                      (box_cells o.1 o.2))
         block_origins.
Proof. apply (bool_decide_unpack _). by vm_compute. Qed.

Lemma box_cells_peers br bc i j i' j' :
  (br, bc) ∈ block_origins ->
  (i, j) ∈ box_cells br bc -> (i', j') ∈ box_cells br bc ->
  (i < 9)%nat /\ (j < 9)%nat /\ (i' < 9)%nat /\ (j' < 9)%nat
  /\ get_box_index i j = get_box_index i' j'.
Proof.
  intros Ho Hin Hin'. pose proof box_cells_facts as Hall.
  rewrite Forall_forall in Hall. destruct (Hall _ Ho) as [_ Hcells].
  rewrite Forall_forall in Hcells. cbn [fst snd] in Hcells.
  destruct (Hcells _ Hin) as (? & ? & Hbox).
  destruct (Hcells _ Hin') as (? & ? & Hbox').
  cbn [fst snd] in *. repeat split; try done. congruence.
Qed.

(** On a full board without clash the nine values of every row, column
    and box are distinct. *)
Lemma no_conflict_distinct b :
  wf_board b -> no_conflict b ->
  (forall r c, (r < 9)%nat -> (c < 9)%nat -> cell b r c <> 0) ->
  (forall r, (r < 9)%nat -> NoDup (row_vals b r))
  /\ (forall c, (c < 9)%nat -> NoDup (col_vals b c))
  /\ (forall br bc, (br, bc) ∈ block_origins -> NoDup (box_vals b br bc)).
Proof.
  intros Hwf Hnc Hfull. split; [|split].
  - intros r Hr. apply NoDup_alt. intros i j x Hi Hj.
    destruct (decide (i = j)) as [|Hne]; [done|]. exfalso.
    pose proof (lookup_lt_Some _ _ _ Hi) as Hi9.
    pose proof (lookup_lt_Some _ _ _ Hj) as Hj9.
    unfold row_vals in *. rewrite wf_board_row in Hi9, Hj9 by done.
    apply (Hnc r i r j); auto.
    + split; [congruence|by left].
    + unfold cell. by rewrite (list_lookup_total_correct _ _ _ Hi),
        (list_lookup_total_correct _ _ _ Hj).
  - intros c Hc. unfold col_vals, range9.
    apply NoDup_fmap_2_strong; [|apply NoDup_seq].
    intros i j Hi%elem_of_seq Hj%elem_of_seq Heq.
    destruct (decide (i = j)) as [|Hne]; [done|]. exfalso.
    apply (Hnc i c j c); auto; try lia.
    + split; [congruence|by right; left].
    + apply Hfull; lia.
  - intros br bc Ho. unfold box_vals.
    pose proof box_cells_facts as Hall. rewrite Forall_forall in Hall.
    destruct (Hall _ Ho) as [Hnd _]. cbn [fst snd] in Hnd.
    apply NoDup_fmap_2_strong; [|done].
    intros [i j] [i' j'] Hin Hin' Heq.
    destruct (decide ((i, j) = (i', j'))) as [|Hne]; [done|]. exfalso.
    destruct (box_cells_peers br bc i j i' j' Ho Hin Hin')
      as (Hi & Hj & Hi' & Hj' & Hbox).
    apply (Hnc i j i' j'); auto.
    split; [done|by right; right].
Qed.

Lemma NoDup_digits_list : NoDup digits.
Proof. apply (bool_decide_unpack _). by vm_compute. Qed.

(** On a board of digits and blanks, nine distinct non-zero values are
    the nine digits. *)
Lemma distinct_valid_complete b :
  wf_board b -> digits_board b ->
  ((forall r c, (r < 9)%nat -> (c < 9)%nat -> cell b r c <> 0)
   /\ (forall r, (r < 9)%nat -> NoDup (row_vals b r))
   /\ (forall c, (c < 9)%nat -> NoDup (col_vals b c))
   /\ (forall br bc, (br, bc) ∈ block_origins -> NoDup (box_vals b br bc)))
  <-> valid_complete b.
Proof.
  intros Hwf Hd. split.
  - intros (Hnz & Hrows & Hcols & Hboxes).
    assert (forall r c, (r < 9)%nat -> (c < 9)%nat -> 1 <= cell b r c <= 9) as Hdig.
    { intros r c Hr Hc. specialize (Hd r c Hr Hc). specialize (Hnz r c Hr Hc). lia. }
    split; [|split].
    + intros r Hr. apply DpGameFacts.NoDup_digits;
        [by apply Hrows|by apply wf_board_row|].
      intros x (c & Hc & <-)%elem_of_row_vals; auto.
    + intros c Hc. apply DpGameFacts.NoDup_digits; [by apply Hcols|done|].
      intros x (r & Hr & <-)%elem_of_col_vals; auto.
    + intros br bc Ho. apply DpGameFacts.NoDup_digits; [by apply Hboxes|done|].
      intros x (i & j & Hi & Hj & <-)%elem_of_box_vals.
      pose proof (block_origin_cells br bc Ho) as Hrange.
      rewrite Forall_forall in Hrange.
      destruct (Hrange (i, j)) as [Hi9 Hj9];
        [by apply GeneratorFacts.elem_of_box_cells|].
      by apply Hdig.
  - intros (Hrows & Hcols & Hboxes). split; [|split; [|split]].
    + intros r c Hr Hc H0.
      assert (cell b r c ∈ digits) as Hin.
      { rewrite <- (Hrows r Hr). apply elem_of_row_vals; [done..|]. by exists c. }
      apply DpGameFacts.elem_of_digits in Hin. lia.
    + intros r Hr. rewrite (Hrows r Hr). apply NoDup_digits_list.
    + intros c Hc. rewrite (Hcols c Hc). apply NoDup_digits_list.
    + intros br bc Ho. rewrite (Hboxes br bc Ho). apply NoDup_digits_list.
Qed.

End DistinctFacts.

(** * Main results *)

Import Examples.

(** C1 (amended).  Every puzzle instance returned by the carving
    generator of sudoku_dp.py, whatever the difficulty and the outcomes
    of the shuffles, has exactly one completion: the initial grid is the
    reference grid with some cells cleared,
    [count_solutions(initial, 2) == 1], the reference grid is the only
    complete valid grid that extends the initial grid, and
    [solve_dp(initial)] returns the reference grid.  (The generator of
    sudoku_hybrid.py clears cells without counting and gives no such
    guarantee.) *)
Theorem generate_puzzle_unique_solution (d : Generator.difficulty)
    (g : Generator.rng) :
  Generator.rng_ok g ->
  extends (SudokuDp.generate_puzzle d g).1 (SudokuDp.generate_puzzle d g).2
  /\ BitmaskSolver.count_solutions (SudokuDp.generate_puzzle d g).1 2 = 1
  /\ (forall t, solution t -> extends (SudokuDp.generate_puzzle d g).1 t ->
                t = (SudokuDp.generate_puzzle d g).2)
  /\ SudokuDp.solve_dp (SudokuDp.generate_puzzle d g).1
     = Some (SudokuDp.generate_puzzle d g).2.
Proof.
  intros Hok.
  destruct (GeneratorFacts.generate_puzzle_dp_carved d g Hok)
    as (Hwf & Hcarved & Hone).
  destruct (GeneratorFacts.generate_puzzle_dp_unique d g Hok) as [_ Hsolve].
  pose proof (GeneratorFacts.full_board_solution g Hok) as Hsol.
  split; [by apply GeneratorFacts.carved_from_extends|].
  split; [done|]. split; [|done].
  intros t. by apply GeneratorFacts.unique_completion.
Qed.

Lemma generate_puzzle_unique_solution_witness :
  Generator.rng_ok rng_id
  /\ BitmaskSolver.count_solutions
       (SudokuDp.generate_puzzle Generator.Easy rng_id).1 2 = 1
  /\ SudokuDp.solve_dp (SudokuDp.generate_puzzle Generator.Easy rng_id).1
     = Some (SudokuDp.generate_puzzle Generator.Easy rng_id).2.
Proof.
  assert (Generator.rng_ok rng_id) as Hok.
  { unfold Generator.rng_ok, Rng.outcome. simpl. repeat split; reflexivity. }
  split; [exact Hok|].
  destruct (generate_puzzle_unique_solution Generator.Easy rng_id Hok)
    as (_ & Hone & _ & Hsolve).
  split; [exact Hone|exact Hsolve].
Defined.

(** C1, as stated, fails for sudoku_hybrid.py: with the identity
    shuffles and difficulty Easy its generator returns a puzzle on which
    [count_solutions(initial, 2)] is 2. *)
Lemma hybrid_generate_puzzle_not_unique :
  Generator.rng_ok rng_id
  /\ BitmaskSolver.count_solutions
       (Hybrid.generate_puzzle (Some Generator.Easy) rng_id).1 2 = 2
  /\ BitmaskSolver.count_solutions
       (Hybrid.generate_puzzle (Some Generator.Easy) rng_id).1 2 <> 1.
Proof.
  split; [apply Checks.rng_id_ok|]. split; [by vm_compute|by vm_compute].
Qed.

(** C2 (amended).  For every grid and every [limit >= 1],
    [count_solutions(grid, limit)] is a non-negative integer, at most
    [1 + (limit - 1) * e] with [e] the number of empty cells, and it can
    exceed [limit].  It is the count of [_backtrack_count] on the list
    of empty cells, where the end of the list counts 1 and every other
    level adds the counts of its recursive calls, one for each digit the
    masks allow, in increasing order, and returns the running sum as
    soon as it is [>= limit], without clamping it.  On a valid board
    (9x9, digits and blanks, no clash) that has [N] completions the
    result [c] satisfies [min(limit, N) <= c <= N]: only distinct
    completions are counted, [c = N] when [N < limit], and [c >= limit]
    when [N >= limit]. *)
Theorem count_solutions_range (b : grid) (limit : Z) :
  1 <= limit ->
  0 <= BitmaskSolver.count_solutions b limit
    <= 1 + (limit - 1) * Z.of_nat (length (empty_cells b))
  /\ BitmaskSolver.count_solutions b limit
     = (BitmaskSolver._backtrack_count limit (empty_cells b)
          (BitmaskSolver._initialize_masks b).1).1
  /\ (forall s, (BitmaskSolver._backtrack_count limit [] s).1 = 1)
  /\ (forall s r c rest,
        BitmaskSolver.ready s ((r, c) :: rest) ->
        (BitmaskSolver._backtrack_count limit ((r, c) :: rest) s).1
        = Reach.running_count limit
            ((fun k => (BitmaskSolver._backtrack_count limit rest
                          (BitmaskSolver.placed s r c (get_box_index r c) k)).1)
               <$> filter (fun k =>
                             Z.land (BitmaskSolver.taken_mask s r c
                                       (get_box_index r c))
                                    (Z.shiftl 1 k) = 0) bits9) 0)
  /\ (Completion.valid_board b ->
      exists l : list grid,
        NoDup l
        /\ (forall t, t ∈ l <-> Completion.completion b t)
        /\ Z.min limit (Z.of_nat (length l))
             <= BitmaskSolver.count_solutions b limit
             <= Z.of_nat (length l)).
Proof.
  intros Hlimit. split; [|split; [|split; [|split]]].
  - rewrite BitmaskSolverFacts.count_solutions_unfold.
    by apply BitmaskSolverFacts.backtrack_count_range.
  - apply BitmaskSolverFacts.count_solutions_unfold.
  - done.
  - intros s r c rest Hready. by apply LeavesFacts.backtrack_count_running.
  - intros Hvalid.
    destruct (LeavesFacts.count_solutions_leaves b limit Hlimit Hvalid)
      as (Hnd & Hin & Hcount).
    by exists (Reach.leaves (empty_cells b) (BitmaskSolver._initialize_masks b).1).
Qed.

Lemma count_solutions_range_witness :
  1 <= 2
  /\ Completion.valid_board four_solutions_board
  /\ BitmaskSolver.ready (dp_store four_solutions_board)
       [(6, 2); (6, 5); (6, 8); (7, 2); (7, 5); (8, 2); (8, 5); (8, 8)]%nat
  /\ 0 <= BitmaskSolver.count_solutions four_solutions_board 2
       <= 1 + (2 - 1) * Z.of_nat (length (empty_cells four_solutions_board))
  /\ (BitmaskSolver._backtrack_count 2
        [(6, 2); (6, 5); (6, 8); (7, 2); (7, 5); (8, 2); (8, 5); (8, 8)]%nat
        (dp_store four_solutions_board)).1
     = Reach.running_count 2
         ((fun k => (BitmaskSolver._backtrack_count 2
                       [(6, 5); (6, 8); (7, 2); (7, 5); (8, 2); (8, 5); (8, 8)]%nat
                       (BitmaskSolver.placed (dp_store four_solutions_board)
                          6 2 (get_box_index 6 2) k)).1)
            <$> filter (fun k =>
                          Z.land (BitmaskSolver.taken_mask
                                    (dp_store four_solutions_board) 6 2
                                    (get_box_index 6 2))
                                 (Z.shiftl 1 k) = 0) bits9) 0
  /\ exists l : list grid,
       NoDup l
       /\ (forall t, t ∈ l <-> Completion.completion four_solutions_board t)
       /\ Z.min 2 (Z.of_nat (length l))
            <= BitmaskSolver.count_solutions four_solutions_board 2
            <= Z.of_nat (length l).
Proof.
  assert (1 <= 2) as Hlimit by lia.
  pose proof MoreChecks.four_solutions_valid as Hvalid.
  pose proof (BitmaskSolverFacts.count_ready four_solutions_board
                (proj1 Hvalid) (proj1 (proj2 Hvalid))) as Hready.
  destruct (count_solutions_range four_solutions_board 2 Hlimit)
    as (Hrange & _ & _ & Hlevel & Hcount).
  split; [exact Hlimit|]. split; [exact Hvalid|]. split; [exact Hready|].
  split; [exact Hrange|]. split; [|exact (Hcount Hvalid)].
  exact (Hlevel _ _ _ _ Hready).
Defined.

(** C2, as stated, fails: on a board with four completions the count
    with limit 2 is 3. *)
Lemma count_solutions_exceeds_limit :
  BitmaskSolver.count_solutions four_solutions_board 2 = 3
  /\ ~ (0 <= BitmaskSolver.count_solutions four_solutions_board 2 <= 2).
Proof. split; [by vm_compute|]. vm_compute. intros [_ H]. by apply H. Qed.

(** C3.  Trial and undo.  In [_backtrack] and [_backtrack_count] the
    undo of a placement on an empty cell whose digit the masks allowed
    gives back the store exactly; a failing [_backtrack] and every
    [_backtrack_count] return the store they were called on; a failing
    [_solve_dp_helper] returns the board and the three mask arrays it
    was called on.  The cell lists are those the search runs on: empty
    cells, without repetition. *)
Theorem failing_branch_restores_state :
  (forall s r c box_idx k,
     Z.land (BitmaskSolver.taken_mask s r c box_idx) (Z.shiftl 1 k) = 0 ->
     cell (BitmaskSolver.board s) r c = 0 ->
     BitmaskSolver.write
       (BitmaskSolver.clear_bits (BitmaskSolver.placed s r c box_idx k)
          r c box_idx (Z.shiftl 1 k)) r c 0 = s)
  /\ (forall cells s s',
        cells_empty (BitmaskSolver.board s) cells -> NoDup cells ->
        BitmaskSolver._backtrack cells s = (false, s') -> s' = s)
  /\ (forall limit cells s,
        cells_empty (BitmaskSolver.board s) cells -> NoDup cells ->
        (BitmaskSolver._backtrack_count limit cells s).2 = s)
  /\ (forall set_iter, (forall l, set_iter l ≡ₚ l) ->
      forall fuel s res s',
        Hybrid._solve_dp_helper set_iter fuel s = Some (res, s') ->
        Hybrid.truthy res (Hybrid.board s') = false ->
        Hybrid.board s' = Hybrid.board s
        /\ Hybrid.row_mask s' = Hybrid.row_mask s
        /\ Hybrid.col_mask s' = Hybrid.col_mask s
        /\ Hybrid.box_mask s' = Hybrid.box_mask s).
Proof.
  split; [|split; [|split]].
  - intros. by apply BitmaskSolverFacts.undo_placed.
  - intros cells s s'. apply BitmaskSolverFacts.backtrack_restores.
  - intros limit cells s. apply BitmaskSolverFacts.backtrack_count_restores.
  - intros set_iter Hperm fuel s res s' Hrun Hfail.
    destruct (HybridSearchFacts.solve_dp_helper_frame set_iter Hperm
                fuel s res s' Hrun) as [_ Hsame].
    exact (Hsame Hfail).
Qed.

Lemma failing_branch_restores_state_witness :
  BitmaskSolver._backtrack [(4, 4)]%nat (dp_store late_dead_cell_board)
    = (false, dp_store late_dead_cell_board)
  /\ (BitmaskSolver._backtrack_count 2 (empty_cells four_solutions_board)
        (dp_store four_solutions_board)).2
     = dp_store four_solutions_board
  /\ BitmaskSolver.write
       (BitmaskSolver.clear_bits
          (BitmaskSolver.placed (dp_store four_solutions_board) 6 2 6 4)
          6 2 6 (Z.shiftl 1 4)) 6 2 0 = dp_store four_solutions_board
  /\ (exists s',
        Hybrid._solve_dp_helper id 82 (hybrid_store late_dead_cell_board)
          = Some (Hybrid.RNone, s')
        /\ Hybrid.board s' = Hybrid.board (hybrid_store late_dead_cell_board)
        /\ Hybrid.row_mask s'
           = Hybrid.row_mask (hybrid_store late_dead_cell_board)
        /\ Hybrid.col_mask s'
           = Hybrid.col_mask (hybrid_store late_dead_cell_board)
        /\ Hybrid.box_mask s'
           = Hybrid.box_mask (hybrid_store late_dead_cell_board)).
Proof.
  destruct failing_branch_restores_state as (Hundo & Hfail & Hcount & Hhelper).
  split; [|split; [|split]].
  - assert ((BitmaskSolver._backtrack [(4, 4)]%nat
               (dp_store late_dead_cell_board)).1 = false) as Hok
      by (vm_compute; reflexivity).
    destruct (BitmaskSolver._backtrack [(4, 4)]%nat
                (dp_store late_dead_cell_board)) as [ok s'] eqn:Hrun.
    cbn [fst] in Hok. subst ok.
    rewrite (Hfail [(4, 4)]%nat (dp_store late_dead_cell_board) s');
      [reflexivity| | |exact Hrun];
      apply (bool_decide_unpack _); vm_compute; exact I.
  - apply Hcount; apply (bool_decide_unpack _); vm_compute; exact I.
  - apply Hundo; vm_compute; reflexivity.
  - destruct (Hybrid._solve_dp_helper id 82 (hybrid_store late_dead_cell_board))
      as [[res s']|] eqn:Hrun.
    + assert (fst <$> Hybrid._solve_dp_helper id 82
                        (hybrid_store late_dead_cell_board)
              = Some Hybrid.RNone) as Hres by (vm_compute; reflexivity).
      rewrite Hrun in Hres. cbn in Hres. injection Hres as ->.
      exists s'. split; [reflexivity|].
      apply (Hhelper id (fun l => Permutation_refl l) 82%nat _ _ _ Hrun).
      reflexivity.
    + exfalso.
      assert (is_Some (Hybrid._solve_dp_helper id 82
                         (hybrid_store late_dead_cell_board))) as [x Hx]
        by (vm_compute; eexists; reflexivity).
      rewrite Hrun in Hx. discriminate Hx.
Defined.

(** C4.  Propagation never guesses.  Whenever [solve_dnc_subgrid]
    writes a cell, the digit is at that moment the unique candidate of
    the cell: the cell is empty and the digit is the only one of 1..9
    absent from its row, its column and its box.  On every 9x9 board
    [solve_dnc_phase] returns, its result is reached from the input by
    such forced moves only, and every complete valid grid that extends
    the input extends the result. *)
Theorem propagation_places_forced_digits :
  (forall b p r c,
     Hybrid.dnc_cell (b, p) (r, c) = (b, p)
     \/ exists d, Hybrid.unique_candidate b r c d
                  /\ Hybrid.dnc_cell (b, p) (r, c) = (set_cell b r c d, true))
  /\ forall b, wf_board b ->
       exists b', Hybrid.solve_dnc_phase b = Some b'
                  /\ rtc Hybrid.forced_step b b'
                  /\ forall t, solution t -> extends b t -> extends b' t.
Proof.
  split; [apply PropagationFacts.dnc_cell_forced|].
  intros b Hwf.
  destruct (PropagationFacts.solve_dnc_phase_total b Hwf)
    as (b' & Hrun & Hrtc & _ & _).
  exists b'. split; [done|]. split; [done|].
  intros t. by apply PropagationFacts.forced_steps_keep_solution.
Qed.

Lemma propagation_places_forced_digits_witness :
  (exists d, Hybrid.unique_candidate two_holes_board 0 0 d
             /\ Hybrid.dnc_cell (two_holes_board, false) (0, 0)%nat
                = (set_cell two_holes_board 0 0 d, true))
  /\ wf_board two_holes_board
  /\ solution pattern_board
  /\ extends two_holes_board pattern_board
  /\ exists b', Hybrid.solve_dnc_phase two_holes_board = Some b'
                /\ rtc Hybrid.forced_step two_holes_board b'
                /\ extends b' pattern_board.
Proof.
  destruct propagation_places_forced_digits as [Hcell Hphase].
  assert (wf_board two_holes_board) as Hwf
    by (apply (bool_decide_unpack _); vm_compute; exact I).
  assert (extends two_holes_board pattern_board) as Hext
    by (apply Checks.extends_check, (bool_decide_unpack _); vm_compute; exact I).
  split; [|split; [exact Hwf|split; [exact Checks.pattern_board_solution|
    split; [exact Hext|]]]].
  - destruct (Hcell two_holes_board false 0 0)%nat as [Hsame|Hforced];
      [|exact Hforced].
    exfalso.
    assert ((Hybrid.dnc_cell (two_holes_board, false) (0, 0)%nat).2 = true)
      as Hflag by (vm_compute; reflexivity).
    rewrite Hsame in Hflag. discriminate Hflag.
  - destruct (Hphase two_holes_board Hwf) as (b' & Hrun & Hrtc & Hkeep).
    exists b'. split; [exact Hrun|]. split; [exact Hrtc|].
    exact (Hkeep pattern_board Checks.pattern_board_solution Hext).
Defined.

(** C5.  Propagation is idempotent.  On every 9x9 board the result of
    [solve_dnc_phase] is a board on which a further full sweep places
    nothing, and running [solve_dnc_phase] on it returns it unchanged. *)
Theorem propagation_idempotent (b : grid) :
  wf_board b ->
  exists b', Hybrid.solve_dnc_phase b = Some b'
             /\ Hybrid.dnc_pass b' = (b', false)
             /\ Hybrid.solve_dnc_phase b' = Some b'.
Proof.
  intros Hwf.
  destruct (PropagationFacts.solve_dnc_phase_total b Hwf)
    as (b' & Hrun & _ & _ & Hfix).
  exists b'. split; [done|]. split; [done|].
  unfold Hybrid.solve_dnc_phase. cbn [Hybrid.dnc_loop]. by rewrite Hfix.
Qed.

Lemma propagation_idempotent_witness :
  wf_board two_holes_board
  /\ exists b', Hybrid.solve_dnc_phase two_holes_board = Some b'
                /\ Hybrid.dnc_pass b' = (b', false)
                /\ Hybrid.solve_dnc_phase b' = Some b'.
Proof.
  assert (wf_board two_holes_board) as Hwf
    by (apply (bool_decide_unpack _); vm_compute; exact I).
  split; [exact Hwf|]. exact (propagation_idempotent two_holes_board Hwf).
Defined.

(** C6 (amended).  [_find_mrv_cell_bitmask] returns [None] exactly when
    the board has no empty cell.  Otherwise the first empty cell, in
    row-major order, that has fewer than two candidates decides: when it
    has none it is returned with the empty set, the unsolvable-state
    signal; when it has one it is returned with that candidate, and the
    scan stops there, so a zero-candidate cell further on is not
    reported by this call. *)
Theorem find_mrv_dead_cell (s : Hybrid.store) :
  (Hybrid._find_mrv_cell_bitmask s = None <->
   forall r c, (r < 9)%nat -> (c < 9)%nat -> cell (Hybrid.board s) r c <> 0)
  /\ forall r c,
       (r < 9)%nat -> (c < 9)%nat -> cell (Hybrid.board s) r c = 0 ->
       (forall r' c', (r' < 9)%nat -> (c' < 9)%nat ->
          Hybrid.before r c (r', c') -> cell (Hybrid.board s) r' c' = 0 ->
          (2 <= Hybrid.popcount (Hybrid._candidates_bitmask s r' c'))%nat) ->
       (Hybrid.popcount (Hybrid._candidates_bitmask s r c) = 0%nat ->
        Hybrid._find_mrv_cell_bitmask s = Some (r, c, []))
       /\ (Hybrid.popcount (Hybrid._candidates_bitmask s r c) = 1%nat ->
           Hybrid._find_mrv_cell_bitmask s
           = Some (r, c, Hybrid._bitmask_to_set (Hybrid._candidates_bitmask s r c))).
Proof.
  split; [apply HybridFacts.find_mrv_none|].
  intros r c Hr Hc H0 Hbefore. split; intros Hcount.
  - by apply HybridFacts.find_mrv_first_dead.
  - by apply HybridFacts.find_mrv_first_single.
Qed.

Lemma find_mrv_dead_cell_witness :
  Hybrid._find_mrv_cell_bitmask (hybrid_store first_dead_cell_board)
  = Some (4%nat, 4%nat, []).
Proof.
  destruct (find_mrv_dead_cell (hybrid_store first_dead_cell_board))
    as [_ Hfirst].
  destruct (Hfirst 4 4)%nat as [Hdead _].
  - lia.
  - lia.
  - vm_compute. reflexivity.
  - apply (Checks.all_cells_forall
             (fun r' c' => Hybrid.before 4 4 (r', c') ->
                cell (Hybrid.board (hybrid_store first_dead_cell_board)) r' c' = 0 ->
                (2 <= Hybrid.popcount
                        (Hybrid._candidates_bitmask
                           (hybrid_store first_dead_cell_board) r' c'))%nat)).
    apply (bool_decide_unpack _). vm_compute. exact I.
  - apply Hdead. vm_compute. reflexivity.
Defined.

(** C6, as stated, fails: on this board cell (4, 4) is empty with no
    candidate, and the query returns cell (0, 0), which has one. *)
Lemma find_mrv_skips_dead_cell :
  cell (Hybrid.board (hybrid_store late_dead_cell_board)) 4 4 = 0
  /\ Hybrid.popcount
       (Hybrid._candidates_bitmask (hybrid_store late_dead_cell_board) 4 4)
     = 0%nat
  /\ Hybrid._find_mrv_cell_bitmask (hybrid_store late_dead_cell_board)
     = Some (0%nat, 0%nat, [1])
  /\ Hybrid.popcount
       (Hybrid._candidates_bitmask (hybrid_store late_dead_cell_board) 0 0)
     = 1%nat.
Proof. repeat split; by vm_compute. Qed.

(** C7.  Every reference grid, [shuffle_board(get_base_pattern())], is a
    complete valid Sudoku grid: whatever permutation of 1..9 the digit
    shuffle gives and whatever the six band shuffles give, the result is
    9x9 and each of its rows, columns and 3x3 boxes is a permutation of
    1..9. *)
Theorem reference_grid_valid (g : Generator.rng) :
  Generator.rng_ok g ->
  wf_board (Generator.full_board g) /\ valid_complete (Generator.full_board g).
Proof.
  intros Hok. split.
  - by apply GeneratorFacts.full_board_wf.
  - by apply GeneratorFacts.full_board_valid.
Qed.

Lemma reference_grid_valid_witness :
  Generator.rng_ok rng_id
  /\ wf_board (Generator.full_board rng_id)
  /\ valid_complete (Generator.full_board rng_id).
Proof.
  assert (Generator.rng_ok rng_id) as Hok.
  { unfold Generator.rng_ok, Rng.outcome. simpl. repeat split; reflexivity. }
  split; [exact Hok|]. exact (reference_grid_valid rng_id Hok).
Defined.

(** C8.  [is_complete] returns True exactly when no cell is 0 and every
    row, every column and every 3x3 box holds nine distinct values,
    which on a board of digits and blanks are the nine digits.  For
    sudoku_dp.py this holds on every 9x9 board: its [is_complete] checks
    the three families.  [is_complete] of sudoku_hybrid.py looks for
    empty cells only, and reads [self.board], which never holds a
    clash: the board comes from the generator, from an entry that
    [is_valid] accepted, or from a solver digit.  On every 9x9 board
    without a clash it returns True exactly in the same case. *)
Theorem is_complete_characterised (b : grid) :
  wf_board b ->
  (SudokuDp.is_complete b = true <->
   (forall r c, (r < 9)%nat -> (c < 9)%nat -> cell b r c <> 0)
   /\ (forall r, (r < 9)%nat -> NoDup (row_vals b r))
   /\ (forall c, (c < 9)%nat -> NoDup (col_vals b c))
   /\ (forall br bc, (br, bc) ∈ block_origins -> NoDup (box_vals b br bc)))
  /\ (no_conflict b ->
      (Hybrid.is_complete b = true <->
       (forall r c, (r < 9)%nat -> (c < 9)%nat -> cell b r c <> 0)
       /\ (forall r, (r < 9)%nat -> NoDup (row_vals b r))
       /\ (forall c, (c < 9)%nat -> NoDup (col_vals b c))
       /\ (forall br bc, (br, bc) ∈ block_origins -> NoDup (box_vals b br bc))))
  /\ (digits_board b ->
      ((forall r c, (r < 9)%nat -> (c < 9)%nat -> cell b r c <> 0)
       /\ (forall r, (r < 9)%nat -> NoDup (row_vals b r))
       /\ (forall c, (c < 9)%nat -> NoDup (col_vals b c))
       /\ (forall br bc, (br, bc) ∈ block_origins -> NoDup (box_vals b br bc)))
      <-> valid_complete b).
Proof.
  intros Hwf. split; [|split].
  - by apply CompleteFacts.is_complete_dp_spec.
  - intros Hnc. rewrite CompleteFacts.is_complete_hybrid_spec. split.
    + intros Hfull. split; [done|]. by apply DistinctFacts.no_conflict_distinct.
    + by intros [Hfull _].
  - intros Hd. by apply DistinctFacts.distinct_valid_complete.
Qed.

Lemma is_complete_characterised_witness :
  wf_board pattern_board
  /\ no_conflict pattern_board
  /\ digits_board pattern_board
  /\ Hybrid.is_complete pattern_board = true
  /\ SudokuDp.is_complete pattern_board = true
  /\ valid_complete pattern_board.
Proof.
  pose proof Checks.pattern_board_solution as (Hwf & Hdig & Hnc).
  assert (digits_board pattern_board) as Hd.
  { intros r c Hr Hc. specialize (Hdig r c Hr Hc). lia. }
  destruct (is_complete_characterised pattern_board Hwf)
    as (Hdp & Hhybrid & Hvalid).
  assert (Hybrid.is_complete pattern_board = true) as Hfull
    by (vm_compute; reflexivity).
  pose proof (proj1 (Hhybrid Hnc) Hfull) as Hdistinct.
  split; [exact Hwf|]. split; [exact Hnc|]. split; [exact Hd|].
  split; [exact Hfull|]. split.
  - exact (proj2 Hdp Hdistinct).
  - exact (proj1 (Hvalid Hd) Hdistinct).
Defined.

(** C9.  The scheduler never selects a filled cell.  In every state of
    the board and of the queue, hence in every state reached by any
    sequence of fills, pushes and pops, the entry that [ai_make_move]
    pops for play, after the stale entries are dropped and the queue is
    rebuilt if it ran empty, names a cell that is empty on the current
    board; the selection does not touch the board.  So a filled cell is
    never returned, whatever was enqueued for it earlier. *)
Theorem scheduler_selects_empty_cell (g g' : Scheduler.game) (row col : nat) :
  Scheduler.select_move g = Some (row, col, g') ->
  cell (Scheduler.board g) row col = 0
  /\ Scheduler.board g' = Scheduler.board g.
Proof.
  unfold Scheduler.select_move.
  destruct (SchedulerFacts.prepare_queue_head g) as [Hboard Hhead].
  destruct (Scheduler.pq (Scheduler.prepare_queue g)) as [|[[n r] c] q];
    [done|].
  intros [= <- <- <-]. by split.
Qed.

Lemma scheduler_selects_empty_cell_witness :
  exists g', Scheduler.select_move stale_game = Some (6, 2, g')%nat
             /\ cell (Scheduler.board stale_game) 6 2 = 0
             /\ Scheduler.board g' = Scheduler.board stale_game.
Proof.
  destruct (Scheduler.select_move stale_game) as [[[row col] g']|] eqn:Hrun.
  - assert ((fun x => (x.1.1, x.1.2)) <$> Scheduler.select_move stale_game
            = Some (6, 2)%nat) as Hcell by (vm_compute; reflexivity).
    rewrite Hrun in Hcell. cbn in Hcell. injection Hcell as -> ->.
    exists g'. split; [reflexivity|].
    exact (scheduler_selects_empty_cell stale_game g' 6 2 Hrun).
  - exfalso.
    assert (is_Some (Scheduler.select_move stale_game)) as [x Hx]
      by (vm_compute; eexists; reflexivity).
    rewrite Hrun in Hx. discriminate Hx.
Defined.

(** C10.  A solver that succeeds keeps the clues.  When
    [BitmaskSolver.solve], [solve_dp] (of either file) or [solve_hybrid]
    returns a grid, that grid agrees with the input on every cell that
    was filled in the input. *)
Theorem solver_keeps_clues :
  (forall b t, BitmaskSolver.solve b = Some t -> extends b t)
  /\ (forall b t, SudokuDp.solve_dp b = Some t -> extends b t)
  /\ (forall set_iter, (forall l, set_iter l ≡ₚ l) ->
      forall b t, Hybrid.solve_dp set_iter b = Some (Some t) -> extends b t)
  /\ (forall set_iter, (forall l, set_iter l ≡ₚ l) ->
      forall b t, Hybrid.solve_hybrid set_iter b = Some (Some t) ->
                  extends b t).
Proof.
  split; [|split; [|split]].
  - apply BitmaskSolverFacts.solve_extends.
  - intros b t. apply BitmaskSolverFacts.solve_extends.
  - intros set_iter Hperm b t. by apply HybridSearchFacts.solve_dp_extends.
  - intros set_iter Hperm b t. by apply HybridFacts.solve_hybrid_extends.
Qed.

Lemma solver_keeps_clues_witness :
  (exists t, BitmaskSolver.solve four_solutions_board = Some t
             /\ extends four_solutions_board t)
  /\ (exists t, SudokuDp.solve_dp four_solutions_board = Some t
                /\ extends four_solutions_board t)
  /\ (exists t, Hybrid.solve_dp id four_solutions_board = Some (Some t)
                /\ extends four_solutions_board t)
  /\ (exists t, Hybrid.solve_hybrid id four_solutions_board = Some (Some t)
                /\ extends four_solutions_board t).
Proof.
  destruct solver_keeps_clues as (Hsolve & Hdp & Hhelper & Hhybrid).
  split; [|split; [|split]].
  - destruct (BitmaskSolver.solve four_solutions_board) as [t|] eqn:Hrun.
    + exists t. split; [reflexivity|]. exact (Hsolve _ _ Hrun).
    + exfalso.
      assert (is_Some (BitmaskSolver.solve four_solutions_board)) as [x Hx]
        by (vm_compute; eexists; reflexivity).
      rewrite Hrun in Hx. discriminate Hx.
  - destruct (SudokuDp.solve_dp four_solutions_board) as [t|] eqn:Hrun.
    + exists t. split; [reflexivity|]. exact (Hdp _ _ Hrun).
    + exfalso.
      assert (is_Some (SudokuDp.solve_dp four_solutions_board)) as [x Hx]
        by (vm_compute; eexists; reflexivity).
      rewrite Hrun in Hx. discriminate Hx.
  - destruct (Hybrid.solve_dp id four_solutions_board) as [[t|]|] eqn:Hrun.
    + exists t. split; [reflexivity|].
      exact (Hhelper id (fun l => Permutation_refl l) _ _ Hrun).
    + exfalso.
      assert (is_Some (Hybrid.solve_dp id four_solutions_board ≫= id))
        as [x Hx] by (vm_compute; eexists; reflexivity).
      rewrite Hrun in Hx. discriminate Hx.
    + exfalso.
      assert (is_Some (Hybrid.solve_dp id four_solutions_board)) as [x Hx]
        by (vm_compute; eexists; reflexivity).
      rewrite Hrun in Hx. discriminate Hx.
  - destruct (Hybrid.solve_hybrid id four_solutions_board) as [[t|]|] eqn:Hrun.
    + exists t. split; [reflexivity|].
      exact (Hhybrid id (fun l => Permutation_refl l) _ _ Hrun).
    + exfalso.
      assert (is_Some (Hybrid.solve_hybrid id four_solutions_board ≫= id))
        as [x Hx] by (vm_compute; eexists; reflexivity).
      rewrite Hrun in Hx. discriminate Hx.
    + exfalso.
      assert (is_Some (Hybrid.solve_hybrid id four_solutions_board)) as [x Hx]
        by (vm_compute; eexists; reflexivity).
      rewrite Hrun in Hx. discriminate Hx.
Defined.
(** * Further results *)

Import Completion MoreExamples.

(** X1.  [BitmaskSolver.solve] is sound: on a valid board (9x9, digits
    or blanks, no two peers alike) a grid it returns is a complete valid
    grid that keeps every clue. *)
Theorem bitmask_solve_sound (b t : grid) :
  valid_board b -> BitmaskSolver.solve b = Some t -> completion b t.
Proof.
  intros (Hwf & Hd & Hnc) Hsolve.
  by apply BitmaskSolverFacts.solve_sound.
Qed.

Lemma bitmask_solve_sound_witness :
  valid_board two_holes_board
  /\ BitmaskSolver.solve two_holes_board = Some pattern_board
  /\ completion two_holes_board pattern_board.
Proof.
  assert (BitmaskSolver.solve two_holes_board = Some pattern_board) as Hsolve
    by (vm_compute; reflexivity).
  split; [exact MoreChecks.two_holes_valid|]. split; [exact Hsolve|].
  exact (bitmask_solve_sound two_holes_board pattern_board
           MoreChecks.two_holes_valid Hsolve).
Defined.

(** X2.  [BitmaskSolver.solve] is complete: on a valid board it returns
    [None] exactly when the board has no completion. *)
Theorem bitmask_solve_none_iff (b : grid) :
  valid_board b ->
  BitmaskSolver.solve b = None <-> ~ exists t, completion b t.
Proof.
  intros (Hwf & Hd & Hnc). split.
  - intros Hnone [t [Hsol Hext]].
    destruct (BitmaskSolverFacts.solve_complete b t Hwf Hd Hsol Hext) as [t' Ht'].
    congruence.
  - intros Hno. destruct (BitmaskSolver.solve b) as [t|] eqn:Hsolve; [|done].
    exfalso. apply Hno. exists t. by apply BitmaskSolverFacts.solve_sound.
Qed.

Lemma bitmask_solve_none_iff_witness :
  valid_board late_dead_cell_board
  /\ BitmaskSolver.solve late_dead_cell_board = None
  /\ ~ exists t, completion late_dead_cell_board t.
Proof.
  assert (BitmaskSolver.solve late_dead_cell_board = None) as Hnone
    by (vm_compute; reflexivity).
  split; [exact MoreChecks.late_dead_cell_valid|]. split; [exact Hnone|].
  exact (proj1 (bitmask_solve_none_iff late_dead_cell_board
                  MoreChecks.late_dead_cell_valid) Hnone).
Defined.

(** X3.  [count_solutions] returns 0 exactly when the board has no
    completion (valid board, limit at least 1). *)
Theorem count_solutions_zero_iff (b : grid) (limit : Z) :
  1 <= limit -> valid_board b ->
  BitmaskSolver.count_solutions b limit = 0 <-> ~ exists t, completion b t.
Proof.
  intros Hlim (Hwf & Hd & Hnc). split.
  - intros Hzero [t Ht].
    pose proof (CountFacts.completion_count_pos b limit t Hlim Hwf Hd Ht). lia.
  - intros Hno.
    pose proof (BitmaskSolverFacts.backtrack_count_nonneg limit (empty_cells b)
                  (BitmaskSolver._initialize_masks b).1 Hlim) as Hnn.
    rewrite <- BitmaskSolverFacts.count_solutions_unfold in Hnn.
    destruct (decide (1 <= BitmaskSolver.count_solutions b limit)) as [Hpos|]; [|lia].
    exfalso. apply Hno. by apply (CountFacts.count_pos_completion b limit).
Qed.

Lemma count_solutions_zero_iff_witness :
  1 <= 2 /\ valid_board late_dead_cell_board
  /\ (BitmaskSolver.count_solutions late_dead_cell_board 2 = 0
      <-> ~ exists t, completion late_dead_cell_board t).
Proof.
  split; [lia|]. split; [exact MoreChecks.late_dead_cell_valid|].
  apply (count_solutions_zero_iff late_dead_cell_board 2); [lia|].
  exact MoreChecks.late_dead_cell_valid.
Defined.

(** X4.  With a limit of 2 or more, [count_solutions] returns 1 exactly
    when the board has one completion and no other: the test
    [solutions != 1] of the generator is a uniqueness test. *)
Theorem count_solutions_one_iff (b : grid) (limit : Z) :
  2 <= limit -> valid_board b ->
  BitmaskSolver.count_solutions b limit = 1 <->
  exists t, completion b t /\ forall t', completion b t' -> t' = t.
Proof.
  intros Hlim (Hwf & Hd & Hnc). split.
  - intros Hone.
    destruct (CountFacts.count_pos_completion b limit) as [t Ht]; auto; [lia..|].
    exists t. split; [done|]. intros t' Ht'.
    destruct (decide (t' = t)) as [|Hne]; [done|]. exfalso.
    destruct Ht as [Hsol Hext], Ht' as [Hsol' Hext'].
    pose proof (BitmaskSolverFacts.count_solutions_two b limit t' t) as Htwo.
    rewrite Hone in Htwo.
    assert (Z.min limit 2 <= 1) by (apply Htwo; auto; lia). lia.
  - intros (t & Ht & Huniq).
    pose proof (CountFacts.completion_count_pos b limit t) as Hpos.
    destruct (decide (2 <= BitmaskSolver.count_solutions b limit)) as [Htwo|];
      [|assert (1 <= BitmaskSolver.count_solutions b limit)
          by (apply Hpos; auto; lia); lia].
    exfalso.
    destruct (CountFacts.count_two_completions b limit) as (t1 & t2 & H1 & H2 & Hne);
      auto; [lia|].
    apply Hne. by rewrite (Huniq t1 H1), (Huniq t2 H2).
Qed.

Lemma count_solutions_one_iff_witness :
  2 <= 2 /\ valid_board two_holes_board
  /\ BitmaskSolver.count_solutions two_holes_board 2 = 1
  /\ exists t, completion two_holes_board t
               /\ forall t', completion two_holes_board t' -> t' = t.
Proof.
  assert (BitmaskSolver.count_solutions two_holes_board 2 = 1) as Hone
    by (vm_compute; reflexivity).
  split; [lia|]. split; [exact MoreChecks.two_holes_valid|]. split; [exact Hone|].
  apply (count_solutions_one_iff two_holes_board 2); [lia| |exact Hone].
  exact MoreChecks.two_holes_valid.
Defined.

(** X5.  [_initialize_masks] rebuilds the solver state from the board:
    the board is untouched, [empty_cells] lists the empty cells in
    row-major order, and bit [k] of a row, column or box mask is set
    exactly when digit [k + 1] stands in that row, column or box. *)
Theorem initialize_masks_rebuilds_state (b : grid) :
  digits_board b ->
  BitmaskSolver.board (BitmaskSolver._initialize_masks b).1 = b
  /\ (BitmaskSolver._initialize_masks b).2 = empty_cells b
  /\ BitmaskSolver.mirrors (BitmaskSolver._initialize_masks b).1.
Proof.
  intros Hd. destruct (BitmaskSolverFacts.initialize_masks_board b) as [Hb Hcells].
  split; [done|]. split; [done|].
  by apply BitmaskSolverFacts.initialize_masks_mirrors.
Qed.

Lemma initialize_masks_rebuilds_state_witness :
  digits_board two_holes_board
  /\ (BitmaskSolver._initialize_masks two_holes_board).2 = [(0, 0); (5, 5)]%nat
  /\ BitmaskSolver.mirrors (BitmaskSolver._initialize_masks two_holes_board).1.
Proof.
  assert (digits_board two_holes_board) as Hd
    by apply MoreChecks.two_holes_valid.
  destruct (initialize_masks_rebuilds_state two_holes_board Hd)
    as (_ & Hcells & Hm).
  split; [exact Hd|]. split; [|exact Hm].
  rewrite Hcells. vm_compute. reflexivity.
Defined.

(** X6.  After [_initialize_masks], [_count_options(r, c)] of
    sudoku_dp.py is the number of candidates of the empty cell: the
    digits 1..9 absent from its row, its column and its box, as
    [get_candidates] of sudoku_hybrid.py computes them. *)
Theorem count_options_counts_candidates (b : grid) (r c : nat) :
  wf_board b -> digits_board b -> (r < 9)%nat -> (c < 9)%nat ->
  cell b r c = 0 ->
  BitmaskSolver._count_options (BitmaskSolver._initialize_masks b).1 r c
  = length (Hybrid.get_candidates b r c).
Proof.
  intros Hwf Hd Hr Hc H0.
  pose proof (BitmaskSolverFacts.initialize_masks_board b) as [Hb _].
  pose proof (BitmaskSolverFacts.initialize_masks_mirrors b Hd) as Hm.
  rewrite CandidateFacts.count_options_candidates; rewrite ?Hb; done.
Qed.

Lemma count_options_counts_candidates_witness :
  wf_board two_holes_board /\ digits_board two_holes_board
  /\ (0 < 9)%nat /\ cell two_holes_board 0 0 = 0
  /\ BitmaskSolver._count_options
       (BitmaskSolver._initialize_masks two_holes_board).1 0 0
     = length (Hybrid.get_candidates two_holes_board 0 0).
Proof.
  assert (cell two_holes_board 0 0 = 0) as H0 by (vm_compute; reflexivity).
  split; [exact MoreChecks.two_holes_wf|].
  split; [apply MoreChecks.two_holes_valid|]. split; [lia|]. split; [exact H0|].
  apply (count_options_counts_candidates two_holes_board 0 0).
  - exact MoreChecks.two_holes_wf.
  - apply MoreChecks.two_holes_valid.
  - lia.
  - lia.
  - exact H0.
Defined.

(** X7.  After [_init_bitmasks], whatever the mask arrays and the cache
    held before, the bitmask view of the candidates agrees with the set
    view: [_bitmask_to_set(_candidates_bitmask(board, r, c))] is
    [get_candidates(board, r, c)] and [bin(mask).count("1")] is its
    size. *)
Theorem candidate_mask_is_candidate_set (s : Hybrid.store) (r c : nat) :
  wf_board (Hybrid.board s) -> digits_board (Hybrid.board s) ->
  (r < 9)%nat -> (c < 9)%nat ->
  Hybrid._bitmask_to_set (Hybrid._candidates_bitmask (Hybrid._init_bitmasks s) r c)
  = Hybrid.get_candidates (Hybrid.board s) r c
  /\ Hybrid.popcount (Hybrid._candidates_bitmask (Hybrid._init_bitmasks s) r c)
     = length (Hybrid.get_candidates (Hybrid.board s) r c).
Proof.
  intros Hwf Hd Hr Hc.
  pose proof (CandidateFacts.init_bitmasks_mirrors s Hd) as Hm.
  pose proof (HybridSearchFacts.init_bitmasks_board s) as Hb.
  rewrite <- Hb in Hwf |- *.
  split.
  - by apply CandidateFacts.bitmask_candidates.
  - by apply CandidateFacts.popcount_candidates_length.
Qed.

Lemma candidate_mask_is_candidate_set_witness :
  wf_board two_holes_board /\ digits_board two_holes_board
  /\ Hybrid._bitmask_to_set
       (Hybrid._candidates_bitmask (hybrid_store two_holes_board) 5 5)
     = Hybrid.get_candidates two_holes_board 5 5.
Proof.
  split; [exact MoreChecks.two_holes_wf|].
  split; [apply MoreChecks.two_holes_valid|].
  apply (candidate_mask_is_candidate_set
           (Hybrid.Store two_holes_board [] [] [] ∅) 5 5).
  - exact MoreChecks.two_holes_wf.
  - apply MoreChecks.two_holes_valid.
  - lia.
  - lia.
Defined.

(** X8.  [is_valid(board, row, col, num)] holds exactly when no peer of
    the cell (same row, column or box, the cell itself excluded) holds
    [num]; for a digit on an empty cell of a 9x9 board this is
    membership in [get_candidates(board, row, col)]. *)
Theorem is_valid_characterised (b : grid) (row col : nat) (num : Z) :
  (row < 9)%nat -> (col < 9)%nat ->
  (Hybrid.is_valid b row col num = true <->
   forall r c, (r < 9)%nat -> (c < 9)%nat -> peers row col r c ->
               cell b r c <> num)
  /\ (wf_board b -> cell b row col = 0 -> 1 <= num <= 9 ->
      (Hybrid.is_valid b row col num = true
       <-> num ∈ Hybrid.get_candidates b row col)).
Proof.
  intros Hr Hc. split; [by apply CandidateFacts.is_valid_spec|].
  intros Hwf H0 Hnum.
  rewrite CandidateFacts.is_valid_spec by done.
  rewrite <- CandidateFacts.absent_peers by (auto; lia).
  rewrite <- CandidateFacts.absent_vals by done.
  rewrite PropagationFacts.elem_of_get_candidates. tauto.
Qed.

Lemma is_valid_characterised_witness :
  (0 < 9)%nat
  /\ Hybrid.is_valid two_holes_board 0 0 1 = true
  /\ 1 ∈ Hybrid.get_candidates two_holes_board 0 0.
Proof.
  assert (Hybrid.is_valid two_holes_board 0 0 1 = true) as Hok
    by (vm_compute; reflexivity).
  split; [lia|]. split; [exact Hok|].
  destruct (is_valid_characterised two_holes_board 0 0 1) as [_ Hcand]; [lia..|].
  apply Hcand; [exact MoreChecks.two_holes_wf|vm_compute; reflexivity|lia|exact Hok].
Defined.

(** X9.  The generator of sudoku_dp.py never clears more cells than the
    difficulty asks for: the puzzle has at most [target_holes] blanks
    (30, 45 or 55). *)
Theorem dp_generate_puzzle_hole_bound (d : Generator.difficulty) (g : Generator.rng) :
  Generator.rng_ok g ->
  (length (empty_cells (SudokuDp.generate_puzzle d g).1)
   <= SudokuDp.target_holes d)%nat.
Proof.
  intros Hok. unfold SudokuDp.generate_puzzle. cbn [fst].
  apply HolesFacts.carve_holes; [lia|].
  by rewrite HolesFacts.full_board_no_blank.
Qed.

Lemma dp_generate_puzzle_hole_bound_witness :
  Generator.rng_ok rng_id
  /\ (length (empty_cells (SudokuDp.generate_puzzle Generator.Easy rng_id).1)
      <= 30)%nat.
Proof.
  split; [exact Checks.rng_id_ok|].
  exact (dp_generate_puzzle_hole_bound Generator.Easy rng_id Checks.rng_id_ok).
Defined.

(** X10.  The generator of sudoku_hybrid.py clears exactly the first
    [remove_count] cells of the shuffled cell list: the puzzle has
    exactly 30, 45, 55 or 40 blanks, it is a valid board, and the
    reference grid is one of its completions. *)
Theorem hybrid_generate_puzzle_blanks (d : option Generator.difficulty)
    (g : Generator.rng) :
  Generator.rng_ok g ->
  empty_cells (Hybrid.generate_puzzle d g).1
    ≡ₚ take (Hybrid.remove_count d)
            (Rng.shuffled (Generator.cells_sigma g) all_cells)
  /\ length (empty_cells (Hybrid.generate_puzzle d g).1) = Hybrid.remove_count d
  /\ valid_board (Hybrid.generate_puzzle d g).1
  /\ completion (Hybrid.generate_puzzle d g).1 (Hybrid.generate_puzzle d g).2.
Proof.
  intros Hok.
  pose proof (HolesFacts.hybrid_puzzle_blanks d g Hok) as Hblanks.
  split; [done|]. split.
  - rewrite Hblanks, length_take.
    rewrite (Permutation_length (HolesFacts.shuffled_cells g Hok)).
    rewrite HolesFacts.length_all_cells.
    pose proof (HolesFacts.remove_count_le d). lia.
  - destruct (HolesFacts.hybrid_puzzle_carved d g Hok) as [Hwf Hcarved].
    apply (HolesFacts.carved_valid _ _); [|done..].
    by apply GeneratorFacts.full_board_solution.
Qed.

Lemma hybrid_generate_puzzle_blanks_witness :
  Generator.rng_ok rng_id
  /\ length (empty_cells (Hybrid.generate_puzzle (Some Generator.Hard) rng_id).1)
     = 55%nat.
Proof.
  split; [exact Checks.rng_id_ok|].
  exact (proj1 (proj2 (hybrid_generate_puzzle_blanks (Some Generator.Hard) rng_id
                         Checks.rng_id_ok))).
Defined.

(** X11.  Propagation stops at a fixed point of the naked-single rule:
    on the board [solve_dnc_phase] returns, no empty cell has exactly
    one candidate. *)
Theorem propagation_leaves_no_single (b b' : grid) (r c : nat) :
  wf_board b -> Hybrid.solve_dnc_phase b = Some b' ->
  (r < 9)%nat -> (c < 9)%nat -> cell b' r c = 0 ->
  length (Hybrid.get_candidates b' r c) <> 1%nat.
Proof.
  intros Hwf Hrun Hr Hc H0.
  destruct (PropagationFacts.solve_dnc_phase_total b Hwf)
    as (b'' & Hrun' & _ & _ & Hpass).
  rewrite Hrun in Hrun'. injection Hrun' as <-.
  apply FixpointFacts.dnc_pass_quiet; auto. by rewrite Hpass.
Qed.

Lemma propagation_leaves_no_single_witness :
  wf_board four_solutions_board
  /\ Hybrid.solve_dnc_phase four_solutions_board = Some four_solutions_board
  /\ (6 < 9)%nat /\ (2 < 9)%nat /\ cell four_solutions_board 6 2 = 0
  /\ length (Hybrid.get_candidates four_solutions_board 6 2) <> 1%nat.
Proof.
  assert (wf_board four_solutions_board) as Hwf
    by apply MoreChecks.four_solutions_valid.
  assert (Hybrid.solve_dnc_phase four_solutions_board = Some four_solutions_board)
    as Hrun by (vm_compute; reflexivity).
  assert (cell four_solutions_board 6 2 = 0) as H0 by (vm_compute; reflexivity).
  split; [exact Hwf|]. split; [exact Hrun|]. split; [lia|]. split; [lia|].
  split; [exact H0|].
  apply (propagation_leaves_no_single four_solutions_board four_solutions_board 6 2
           Hwf Hrun); [lia|lia|exact H0].
Defined.

(** X12.  Propagation keeps a valid board valid and neither loses nor
    adds a completion: the board [solve_dnc_phase] returns has exactly
    the completions of the board it was given. *)
Theorem propagation_keeps_completions (b b' : grid) :
  valid_board b -> Hybrid.solve_dnc_phase b = Some b' ->
  valid_board b' /\ forall t, completion b' t <-> completion b t.
Proof.
  intros Hv Hrun. pose proof Hv as (Hwf & _).
  destruct (PropagationFacts.solve_dnc_phase_total b Hwf)
    as (b'' & Hrun' & Hsteps & _ & _).
  rewrite Hrun in Hrun'. injection Hrun' as <-.
  split; [by apply (FixpointFacts.forced_steps_valid b)|].
  intros t. by apply FixpointFacts.forced_steps_completions.
Qed.

Lemma propagation_keeps_completions_witness :
  valid_board two_holes_board
  /\ Hybrid.solve_dnc_phase two_holes_board = Some pattern_board
  /\ valid_board pattern_board
  /\ forall t, completion pattern_board t <-> completion two_holes_board t.
Proof.
  assert (Hybrid.solve_dnc_phase two_holes_board = Some pattern_board) as Hrun
    by (vm_compute; reflexivity).
  split; [exact MoreChecks.two_holes_valid|]. split; [exact Hrun|].
  exact (propagation_keeps_completions two_holes_board pattern_board
           MoreChecks.two_holes_valid Hrun).
Defined.

(** X13.  [solve_dp] of sudoku_hybrid.py is sound and complete on a
    valid board, whatever the order the candidate sets are visited in:
    it returns; a grid it returns is a completion of the board; and it
    returns [None] exactly when the board has no completion.  The cache
    never makes it answer wrongly. *)
Theorem hybrid_solve_dp_correct (set_iter : list Z -> list Z) (b : grid) :
  (forall l, set_iter l ≡ₚ l) -> valid_board b ->
  is_Some (Hybrid.solve_dp set_iter b)
  /\ (forall t, Hybrid.solve_dp set_iter b = Some (Some t) -> completion b t)
  /\ (Hybrid.solve_dp set_iter b = Some None <-> ~ exists t, completion b t).
Proof.
  intros Hperm Hv. pose proof Hv as (Hwf & _).
  pose proof (HybridSearchFacts.solve_dp_total set_iter Hperm b Hwf) as Htotal.
  split; [done|]. split.
  - intros t. by apply HybridSoundFacts.solve_dp_some.
  - split; [by apply HybridSoundFacts.solve_dp_none|].
    intros Hno. destruct Htotal as [[t|] Hrun]; [|done].
    exfalso. apply Hno. exists t. by apply (HybridSoundFacts.solve_dp_some set_iter).
Qed.

Lemma hybrid_solve_dp_correct_witness :
  (forall l : list Z, id l ≡ₚ l) /\ valid_board two_holes_board
  /\ Hybrid.solve_dp id two_holes_board = Some (Some pattern_board)
  /\ completion two_holes_board pattern_board.
Proof.
  assert (forall l : list Z, id l ≡ₚ l) as Hperm by (intros l; reflexivity).
  assert (Hybrid.solve_dp id two_holes_board = Some (Some pattern_board)) as Hrun
    by (vm_compute; reflexivity).
  split; [exact Hperm|]. split; [exact MoreChecks.two_holes_valid|].
  split; [exact Hrun|].
  exact (proj1 (proj2 (hybrid_solve_dp_correct id two_holes_board Hperm
                         MoreChecks.two_holes_valid)) pattern_board Hrun).
Defined.

(** X14.  [solve_hybrid] (propagation, then search) is sound and
    complete on a valid board: it returns; a grid it returns is a
    completion of the board; and it returns [None] exactly when the
    board has no completion. *)
Theorem solve_hybrid_correct (set_iter : list Z -> list Z) (b : grid) :
  (forall l, set_iter l ≡ₚ l) -> valid_board b ->
  is_Some (Hybrid.solve_hybrid set_iter b)
  /\ (forall t, Hybrid.solve_hybrid set_iter b = Some (Some t) -> completion b t)
  /\ (Hybrid.solve_hybrid set_iter b = Some None <-> ~ exists t, completion b t).
Proof.
  intros Hperm Hv. pose proof Hv as (Hwf & _).
  pose proof (HybridFacts.solve_hybrid_total set_iter Hperm b Hwf) as Htotal.
  split; [done|]. split.
  - intros t. by apply FixpointFacts.solve_hybrid_some.
  - split; [by apply FixpointFacts.solve_hybrid_none|].
    intros Hno. destruct Htotal as [[t|] Hrun]; [|done].
    exfalso. apply Hno. exists t. by apply (FixpointFacts.solve_hybrid_some set_iter).
Qed.

Lemma solve_hybrid_correct_witness :
  (forall l : list Z, id l ≡ₚ l) /\ valid_board late_dead_cell_board
  /\ Hybrid.solve_hybrid id late_dead_cell_board = Some None
  /\ ~ exists t, completion late_dead_cell_board t.
Proof.
  assert (forall l : list Z, id l ≡ₚ l) as Hperm by (intros l; reflexivity).
  assert (Hybrid.solve_hybrid id late_dead_cell_board = Some None) as Hrun
    by (vm_compute; reflexivity).
  split; [exact Hperm|]. split; [exact MoreChecks.late_dead_cell_valid|].
  split; [exact Hrun|].
  exact (proj1 (proj2 (proj2 (solve_hybrid_correct id late_dead_cell_board Hperm
                                MoreChecks.late_dead_cell_valid))) Hrun).
Defined.

(** X15.  Minimum remaining values.  When the masks mirror the board
    and every empty cell keeps two candidates or more,
    [_find_mrv_cell_bitmask] returns an empty cell with its candidate
    set such that every empty cell scanned before it has strictly more
    candidates and every empty cell scanned after it has at least as
    many: the first cell of least count in row-major order. *)
Theorem find_mrv_picks_least (s : Hybrid.store) (r c : nat) (cands : list Z) :
  wf_board (Hybrid.board s) -> BitmaskSolver.mirrors (masks_of s) ->
  (forall r' c', (r' < 9)%nat -> (c' < 9)%nat -> cell (Hybrid.board s) r' c' = 0 ->
                 (2 <= length (Hybrid.get_candidates (Hybrid.board s) r' c'))%nat) ->
  Hybrid._find_mrv_cell_bitmask s = Some (r, c, cands) ->
  (r < 9)%nat /\ (c < 9)%nat /\ cell (Hybrid.board s) r c = 0
  /\ cands = Hybrid.get_candidates (Hybrid.board s) r c
  /\ exists pre post,
       all_cells = pre ++ (r, c) :: post
       /\ Forall (fun '(r', c') => cell (Hybrid.board s) r' c' = 0 ->
            (length cands < length (Hybrid.get_candidates (Hybrid.board s) r' c'))%nat)
            pre
       /\ Forall (fun '(r', c') => cell (Hybrid.board s) r' c' = 0 ->
            (length cands <= length (Hybrid.get_candidates (Hybrid.board s) r' c'))%nat)
            post.
Proof. apply MrvFacts.find_mrv_least. Qed.

Lemma find_mrv_picks_least_witness :
  Hybrid._find_mrv_cell_bitmask (hybrid_store four_solutions_board)
    = Some (6%nat, 8%nat, [2; 8])
  /\ [2; 8] = Hybrid.get_candidates
                (Hybrid.board (hybrid_store four_solutions_board)) 6 8.
Proof.
  assert (Hybrid._find_mrv_cell_bitmask (hybrid_store four_solutions_board)
          = Some (6%nat, 8%nat, [2; 8])) as Hmrv by (vm_compute; reflexivity).
  assert (Hybrid.board (hybrid_store four_solutions_board) = four_solutions_board)
    as Hb by apply HybridSearchFacts.init_bitmasks_board.
  split; [exact Hmrv|].
  destruct (find_mrv_picks_least (hybrid_store four_solutions_board) 6 8 [2; 8])
    as (_ & _ & _ & Hcands & _).
  - rewrite Hb. apply MoreChecks.four_solutions_valid.
  - apply CandidateFacts.init_bitmasks_mirrors. apply MoreChecks.four_solutions_valid.
  - rewrite Hb.
    apply (Checks.all_cells_forall
             (fun r' c' => cell four_solutions_board r' c' = 0 ->
                (2 <= length (Hybrid.get_candidates four_solutions_board r' c'))%nat)).
    apply (bool_decide_unpack _). vm_compute. exact I.
  - exact Hmrv.
  - exact Hcands.
Defined.

(** X16.  [initialize_priority_queue] rebuilds the queue from the board
    alone: it holds one entry [(n, i, j)] for every empty cell that has
    a candidate, with [n] the number of its candidates, and nothing
    else; [pq_entries] holds the cells of these entries; the board is
    untouched and the entries come out in ascending tuple order. *)
Theorem initialize_priority_queue_entries (g : Scheduler.game) :
  Scheduler.board (Scheduler.initialize_priority_queue g) = Scheduler.board g
  /\ (forall n i j,
        (n, i, j) ∈ Scheduler.pq (Scheduler.initialize_priority_queue g) <->
        (i < 9)%nat /\ (j < 9)%nat /\ cell (Scheduler.board g) i j = 0
        /\ n = length (Hybrid.get_candidates (Scheduler.board g) i j)
        /\ n <> 0%nat)
  /\ (forall i j,
        (i, j) ∈ Scheduler.pq_entries (Scheduler.initialize_priority_queue g) <->
        exists n, (n, i, j) ∈ Scheduler.pq (Scheduler.initialize_priority_queue g))
  /\ NoDup (Scheduler.pq (Scheduler.initialize_priority_queue g))
  /\ StronglySorted Queue.entry_le
       (Scheduler.pq (Scheduler.initialize_priority_queue g)).
Proof.
  destruct (QueueFacts.initialize_priority_queue_spec g)
    as (Hb & Helem & Hent & Hnd & Hsorted).
  split; [done|]. split; [|split; [|done]].
  - intros n i j. apply (Helem (n, i, j)).
  - intros i j. rewrite (Hent (i, j)). cbn [fst snd]. split.
    + intros (Hi & Hj & n & Hw). exists n. apply Helem. cbn. tauto.
    + intros (n & Hin). apply Helem in Hin. cbn in Hin.
      split; [tauto|]. split; [tauto|]. exists n. tauto.
Qed.



(** X18.  The hint of sudoku_hybrid.py targets the most constrained
    cell: while the game runs, [show_hint] leaves the board as it is
    and names an empty cell with its candidates whose entry
    [(number of candidates, row, col)] is least, in tuple order, among
    the empty cells that have a candidate; it names no cell exactly
    when no empty cell has a candidate. *)
Theorem hybrid_show_hint_least (g : HybridGame.game) :
  HybridGame.game_over g = false ->
  HybridGame.board (HybridGame.show_hint g).1 = HybridGame.board g
  /\ match (HybridGame.show_hint g).2 with
     | Some (row, col, cands) =>
         (row < 9)%nat /\ (col < 9)%nat /\ cell (HybridGame.board g) row col = 0
         /\ cands = Hybrid.get_candidates (HybridGame.board g) row col
         /\ cands <> []
         /\ forall r c, (r < 9)%nat -> (c < 9)%nat ->
              cell (HybridGame.board g) r c = 0 ->
              Hybrid.get_candidates (HybridGame.board g) r c <> [] ->
              Scheduler.entry_leb
                (length cands, row, col)
                (length (Hybrid.get_candidates (HybridGame.board g) r c), r, c)
              = true
     | None =>
         forall r c, (r < 9)%nat -> (c < 9)%nat ->
           cell (HybridGame.board g) r c = 0 ->
           Hybrid.get_candidates (HybridGame.board g) r c = []
     end.
Proof. apply HybridGameFacts.show_hint_least. Qed.

Lemma hybrid_show_hint_least_witness :
  HybridGame.game_over hybrid_game = false
  /\ HybridGame.board (HybridGame.show_hint hybrid_game).1
     = HybridGame.board hybrid_game.
Proof.
  split; [reflexivity|].
  exact (proj1 (hybrid_show_hint_least hybrid_game eq_refl)).
Defined.

(** X19.  What [ai_make_move] does to the board.  On a valid board
    with a queue that names cells of the board it returns; when it
    returns True exactly one cell changed: an empty cell received the
    digit a completion of the board has there, so the board stays valid
    and keeps that completion; when it returns False the board is
    unchanged. *)
Theorem ai_make_move_fills_completion_digit (set_iter : list Z -> list Z)
    (g : Scheduler.game) :
  (forall l, set_iter l ≡ₚ l) ->
  valid_board (Scheduler.board g) -> Queue.in_range (Scheduler.pq g) ->
  exists moved g',
    Scheduler.ai_make_move set_iter g = Some (moved, g')
    /\ Queue.in_range (Scheduler.pq g')
    /\ if moved then
         exists row col t,
           (row < 9)%nat /\ (col < 9)%nat
           /\ cell (Scheduler.board g) row col = 0
           /\ completion (Scheduler.board g) t
           /\ Scheduler.board g'
              = set_cell (Scheduler.board g) row col (cell t row col)
           /\ valid_board (Scheduler.board g')
           /\ completion (Scheduler.board g') t
       else Scheduler.board g' = Scheduler.board g.
Proof.
  intros Hperm Hv Hq. pose proof Hv as (Hwf & _).
  destruct (AiFacts.ai_make_move_total set_iter Hperm g Hwf) as [[moved g'] Hrun].
  exists moved, g'. split; [done|]. destruct moved.
  - destruct (AiFacts.ai_make_move_true set_iter Hperm g g' Hv Hq Hrun)
      as (row & col & t & Hr & Hc & H0 & Ht & Hb & Hq').
    split; [done|]. exists row, col, t.
    destruct (AiFacts.completion_fill _ t row col Hv Ht Hr Hc H0) as (Hv' & Ht' & _).
    rewrite Hb. done.
  - split; [by apply (AiFacts.ai_make_move_false_in_range set_iter g)|].
    by apply (AiFacts.ai_make_move_false set_iter).
Qed.

Lemma ai_make_move_fills_completion_digit_witness :
  (forall l : list Z, id l ≡ₚ l)
  /\ valid_board (Scheduler.board idle_scheduler)
  /\ exists moved g',
       Scheduler.ai_make_move id idle_scheduler = Some (moved, g').
Proof.
  assert (forall l : list Z, id l ≡ₚ l) as Hperm by (intros l; reflexivity).
  assert (Queue.in_range (Scheduler.pq idle_scheduler)) as Hq by constructor.
  split; [exact Hperm|]. split; [exact MoreChecks.two_holes_valid|].
  destruct (ai_make_move_fills_completion_digit id idle_scheduler Hperm
              MoreChecks.two_holes_valid Hq) as (moved & g' & Hrun & _).
  exists moved, g'. exact Hrun.
Defined.

(** X20.  The AI never gives up on a solvable position: on a valid
    board that has a completion and an empty cell, [ai_make_move]
    returns True, whatever the queue holds. *)
Theorem ai_make_move_progress (set_iter : list Z -> list Z)
    (g : Scheduler.game) (t : grid) (r c : nat) :
  (forall l, set_iter l ≡ₚ l) ->
  valid_board (Scheduler.board g) -> completion (Scheduler.board g) t ->
  (r < 9)%nat -> (c < 9)%nat -> cell (Scheduler.board g) r c = 0 ->
  exists g', Scheduler.ai_make_move set_iter g = Some (true, g').
Proof. intros Hperm. by apply AiFacts.ai_make_move_moves. Qed.

Lemma ai_make_move_progress_witness :
  (forall l : list Z, id l ≡ₚ l)
  /\ completion (Scheduler.board idle_scheduler) pattern_board
  /\ cell (Scheduler.board idle_scheduler) 0 0 = 0
  /\ exists g', Scheduler.ai_make_move id idle_scheduler = Some (true, g').
Proof.
  assert (forall l : list Z, id l ≡ₚ l) as Hperm by (intros l; reflexivity).
  assert (cell (Scheduler.board idle_scheduler) 0 0 = 0) as H0
    by (vm_compute; reflexivity).
  split; [exact Hperm|]. split; [exact MoreChecks.two_holes_completion|].
  split; [exact H0|].
  apply (ai_make_move_progress id idle_scheduler pattern_board 0 0 Hperm
           MoreChecks.two_holes_valid MoreChecks.two_holes_completion);
    [lia|lia|exact H0].
Defined.

(** X21.  The AI turn of sudoku_dp.py.  While the game runs, on a valid
    board that has a completion, [ai_turn] fills the first empty cell of
    the row-major scan with the digit a completion has there and changes
    nothing else: the other empty cells stay empty, the board stays
    valid and keeps that completion. *)
Theorem dp_ai_turn_fills_first_empty (g : DpGame.game) (t0 : grid) (r c : nat)
    (rest : list (nat * nat)) :
  DpGame.game_over g = false -> valid_board (DpGame.board g) ->
  completion (DpGame.board g) t0 ->
  empty_cells (DpGame.board g) = (r, c) :: rest ->
  exists t, completion (DpGame.board g) t
    /\ DpGame.board (DpGame.ai_turn g) = set_cell (DpGame.board g) r c (cell t r c)
    /\ empty_cells (DpGame.board (DpGame.ai_turn g)) = rest
    /\ valid_board (DpGame.board (DpGame.ai_turn g))
    /\ completion (DpGame.board (DpGame.ai_turn g)) t.
Proof. apply DpGameFacts.ai_turn_valid. Qed.

Lemma dp_ai_turn_fills_first_empty_witness :
  DpGame.game_over dp_game = false
  /\ empty_cells (DpGame.board dp_game) = [(0, 0); (5, 5)]%nat
  /\ exists t, completion (DpGame.board dp_game) t
       /\ DpGame.board (DpGame.ai_turn dp_game)
          = set_cell (DpGame.board dp_game) 0 0 (cell t 0 0)
       /\ empty_cells (DpGame.board (DpGame.ai_turn dp_game)) = [(5, 5)]%nat.
Proof.
  assert (empty_cells (DpGame.board dp_game) = [(0, 0); (5, 5)]%nat) as Hempty
    by (vm_compute; reflexivity).
  split; [reflexivity|]. split; [exact Hempty|].
  destruct (dp_ai_turn_fills_first_empty dp_game pattern_board 0 0 [(5, 5)]%nat
              eq_refl MoreChecks.two_holes_valid MoreChecks.two_holes_completion
              Hempty) as (t & Ht & Hb & Hrest & _).
  exists t. split; [exact Ht|]. split; [exact Hb|exact Hrest].
Defined.

(** X22.  The hint of sudoku_dp.py is the AI's next move: while the
    game runs, the board after [ai_turn] is the board with the cell and
    the value [show_hint] names written in, and it is the board itself
    when no hint is shown. *)
Theorem dp_show_hint_is_ai_move (g : DpGame.game) :
  DpGame.game_over g = false ->
  DpGame.board (DpGame.ai_turn g)
  = match DpGame.show_hint g with
    | None => DpGame.board g
    | Some (r, c, v) => set_cell (DpGame.board g) r c v
    end.
Proof. apply DpGameFacts.show_hint_ai_turn. Qed.

Lemma dp_show_hint_is_ai_move_witness :
  DpGame.game_over dp_game = false
  /\ DpGame.show_hint dp_game = Some (0%nat, 0%nat, 1)
  /\ DpGame.board (DpGame.ai_turn dp_game)
     = set_cell (DpGame.board dp_game) 0 0 1.
Proof.
  assert (DpGame.show_hint dp_game = Some (0%nat, 0%nat, 1)) as Hhint
    by (vm_compute; reflexivity).
  split; [reflexivity|]. split; [exact Hhint|].
  pose proof (dp_show_hint_is_ai_move dp_game eq_refl) as Hmove.
  rewrite Hhint in Hmove. exact Hmove.
Defined.

(** X23.  What an edit can do in sudoku_dp.py.  From a sane state (a
    9x9 board of digits and blanks that shows every clue),
    [on_cell_edit], whatever was typed and including the AI turn it
    triggers, leads to a sane state with the same puzzle: no clue is
    ever changed; and it ends the game only on a complete valid grid.
    The same holds for [ai_turn] alone. *)
Theorem dp_on_cell_edit_sane (g : DpGame.game) (row col : nat)
    (v : Widget.entry_text) :
  DpGame.sane g ->
  (DpGame.sane (DpGame.on_cell_edit g row col v)
   /\ DpGame.initial_board (DpGame.on_cell_edit g row col v)
      = DpGame.initial_board g
   /\ (DpGame.game_over (DpGame.on_cell_edit g row col v) = true ->
       DpGame.game_over g = true
       \/ solution (DpGame.board (DpGame.on_cell_edit g row col v))))
  /\ (DpGame.sane (DpGame.ai_turn g)
      /\ DpGame.initial_board (DpGame.ai_turn g) = DpGame.initial_board g
      /\ (DpGame.game_over (DpGame.ai_turn g) = true ->
          DpGame.game_over g = true \/ solution (DpGame.board (DpGame.ai_turn g)))).
Proof.
  intros Hs. split.
  - by apply DpGameFacts.on_cell_edit_sane.
  - by apply DpGameFacts.ai_turn_sane.
Qed.

Lemma dp_on_cell_edit_sane_witness :
  DpGame.sane dp_game
  /\ DpGame.sane (DpGame.on_cell_edit dp_game 0 0 (Widget.Number 1))
  /\ DpGame.game_over (DpGame.on_cell_edit dp_game 0 0 (Widget.Number 1)) = true
  /\ solution (DpGame.board (DpGame.on_cell_edit dp_game 0 0 (Widget.Number 1))).
Proof.
  assert (DpGame.sane dp_game) as Hs.
  { split; [exact MoreChecks.two_holes_wf|].
    split; [apply MoreChecks.two_holes_valid|apply extends_refl]. }
  assert (DpGame.game_over (DpGame.on_cell_edit dp_game 0 0 (Widget.Number 1))
          = true) as Hover by (vm_compute; reflexivity).
  destruct (dp_on_cell_edit_sane dp_game 0 0 (Widget.Number 1) Hs)
    as [(Hs' & _ & Hend) _].
  split; [exact Hs|]. split; [exact Hs'|]. split; [exact Hover|].
  destruct (Hend Hover) as [Hbad|Hsol]; [discriminate Hbad|exact Hsol].
Defined.

(** X24.  Strict mode keeps the game of sudoku_dp.py on track.  When the
    puzzle has the reference grid as its only counted solution and
    every filled cell of the board agrees with that grid, then after
    [on_cell_edit] in strict mode, whatever was typed and including the
    AI turn it triggers, every filled cell still agrees with the
    reference grid, which is therefore still a completion of the
    board. *)
Theorem dp_strict_edit_on_track (g : DpGame.game) (row col : nat)
    (v : Widget.entry_text) :
  DpGame.strict g = true -> DpGame.on_track g ->
  DpGame.on_track (DpGame.on_cell_edit g row col v)
  /\ valid_board (DpGame.board (DpGame.on_cell_edit g row col v))
  /\ completion (DpGame.board (DpGame.on_cell_edit g row col v))
                (DpGame.solution_board g).
Proof.
  intros Hstrict Ht.
  pose proof (DpGameFacts.on_cell_edit_on_track g row col v Hstrict Ht) as Ht'.
  split; [done|].
  assert (DpGame.solution_board (DpGame.on_cell_edit g row col v)
          = DpGame.solution_board g) as <-.
  { unfold DpGame.on_cell_edit.
    destruct (_ || _); [done|]. destruct v as [|num|]; [done| |done].
    destruct (negb _); [done|]. destruct (_ && _); [done|].
    destruct (SudokuDp.is_complete _); [done|].
    unfold DpGame.ai_turn. cbn [DpGame.game_over DpGame.board].
    destruct (DpGame.game_over g); [done|].
    by destruct (SudokuDp.solve_dp _) as [[|? ?]|]. }
  by apply DpGameFacts.on_track_completion.
Qed.

Lemma dp_strict_edit_on_track_witness :
  DpGame.strict dp_game = true /\ DpGame.on_track dp_game
  /\ DpGame.on_track (DpGame.on_cell_edit dp_game 5 5 (Widget.Number 4)).
Proof.
  assert (DpGame.on_track dp_game) as Ht.
  { split; [exact Checks.pattern_board_solution|].
    split; [exact MoreChecks.two_holes_wf|].
    split; [exact MoreChecks.two_holes_carved|].
    split; [vm_compute; reflexivity|].
    split; [exact MoreChecks.two_holes_wf|].
    split; [exact MoreChecks.two_holes_carved|apply extends_refl]. }
  split; [reflexivity|]. split; [exact Ht|].
  exact (proj1 (dp_strict_edit_on_track dp_game 5 5 (Widget.Number 4) eq_refl Ht)).
Defined.

(** X25.  On track, the AI of sudoku_dp.py plays the reference grid:
    while the game runs, [ai_turn] writes the digit of
    [solution_board] into the first empty cell of the row-major scan,
    and the game stays on track.  A new game starts on track. *)
Theorem dp_ai_turn_on_track (g : DpGame.game) :
  DpGame.on_track g -> DpGame.game_over g = false ->
  DpGame.on_track (DpGame.ai_turn g)
  /\ DpGame.board (DpGame.ai_turn g)
     = match empty_cells (DpGame.board g) with
       | [] => DpGame.board g
       | (r, c) :: _ =>
           set_cell (DpGame.board g) r c (cell (DpGame.solution_board g) r c)
       end
  /\ forall r, Generator.rng_ok r -> DpGame.on_track (DpGame.new_game g r).
Proof.
  intros Ht Hover. split; [by apply DpGameFacts.ai_turn_on_track|]. split.
  - apply DpGameFacts.ai_turn_solved; [done| |by destruct Ht as ([? _] & _)].
    by apply DpGameFacts.on_track_solve.
  - intros r Hok. by apply DpGameFacts.new_game_on_track.
Qed.

Lemma dp_ai_turn_on_track_witness :
  DpGame.on_track dp_game /\ DpGame.game_over dp_game = false
  /\ DpGame.board (DpGame.ai_turn dp_game)
     = set_cell (DpGame.board dp_game) 0 0 (cell (DpGame.solution_board dp_game) 0 0).
Proof.
  assert (DpGame.on_track dp_game) as Ht.
  { split; [exact Checks.pattern_board_solution|].
    split; [exact MoreChecks.two_holes_wf|].
    split; [exact MoreChecks.two_holes_carved|].
    split; [vm_compute; reflexivity|].
    split; [exact MoreChecks.two_holes_wf|].
    split; [exact MoreChecks.two_holes_carved|apply extends_refl]. }
  split; [exact Ht|]. split; [reflexivity|].
  destruct (dp_ai_turn_on_track dp_game Ht eq_refl) as (_ & Hb & _).
  assert (empty_cells (DpGame.board dp_game) = [(0, 0); (5, 5)]%nat) as Hempty
    by (vm_compute; reflexivity).
  rewrite Hempty in Hb. exact Hb.
Defined.

(** X26.  What an edit can do in sudoku_hybrid.py.  From a playable
    state (valid puzzle, valid board that shows every clue, queue
    entries on the board), [on_cell_edit], whatever was typed, leads to
    a playable state with the same puzzle; it changes no cell other
    than the edited one; and it ends the game only on a complete valid
    grid, although [is_complete] of this file only looks for blanks. *)
Theorem hybrid_on_cell_edit_playable (g : HybridGame.game) (row col : nat)
    (v : Widget.entry_text) :
  (row < 9)%nat -> (col < 9)%nat -> HybridGame.playable g ->
  HybridGame.playable (HybridGame.on_cell_edit g row col v).1
  /\ HybridGame.initial_board (HybridGame.on_cell_edit g row col v).1
     = HybridGame.initial_board g
  /\ (forall r c, (r, c) <> (row, col) ->
        cell (HybridGame.board (HybridGame.on_cell_edit g row col v).1) r c
        = cell (HybridGame.board g) r c)
  /\ (HybridGame.game_over (HybridGame.on_cell_edit g row col v).1 = true ->
        HybridGame.game_over g = true
        \/ solution (HybridGame.board (HybridGame.on_cell_edit g row col v).1)).
Proof. apply HybridGameFacts.on_cell_edit_playable. Qed.

Lemma hybrid_on_cell_edit_playable_witness :
  (0 < 9)%nat /\ HybridGame.playable hybrid_game
  /\ HybridGame.playable
       (HybridGame.on_cell_edit hybrid_game 0 0 (Widget.Number 4)).1
  /\ cell (HybridGame.board
             (HybridGame.on_cell_edit hybrid_game 0 0 (Widget.Number 4)).1) 0 0 = 0.
Proof.
  assert (HybridGame.playable hybrid_game) as Hp.
  { split; [exact MoreChecks.two_holes_valid|].
    split; [exact MoreChecks.two_holes_valid|].
    split; [apply extends_refl|constructor]. }
  split; [lia|]. split; [exact Hp|]. split.
  - apply (hybrid_on_cell_edit_playable hybrid_game 0 0 (Widget.Number 4)); [lia|lia|exact Hp].
  - vm_compute. reflexivity.
Defined.

(** X27.  What the AI turn can do in sudoku_hybrid.py.  From a playable
    state [ai_turn] returns, whatever the order the candidate sets are
    visited in and whatever the shuffles of a new game it starts, and
    leads to a playable state; it ends the game only on a complete
    valid grid. *)
Theorem hybrid_ai_turn_playable (set_iter : list Z -> list Z)
    (g : HybridGame.game) (r : Generator.rng) :
  (forall l, set_iter l ≡ₚ l) -> HybridGame.playable g -> Generator.rng_ok r ->
  exists g', HybridGame.ai_turn set_iter g r = Some g'
    /\ HybridGame.playable g'
    /\ (HybridGame.game_over g' = true ->
        HybridGame.game_over g = true \/ solution (HybridGame.board g')).
Proof.
  intros Hperm Hp Hok. pose proof Hp as (_ & (Hwf & _) & _).
  destruct (HybridGameFacts.ai_turn_total set_iter Hperm g r Hwf) as [g' Hrun].
  exists g'. split; [done|].
  by apply (HybridGameFacts.ai_turn_playable set_iter Hperm g r).
Qed.

Lemma hybrid_ai_turn_playable_witness :
  (forall l : list Z, id l ≡ₚ l) /\ HybridGame.playable hybrid_game
  /\ Generator.rng_ok rng_id
  /\ exists g', HybridGame.ai_turn id hybrid_game rng_id = Some g'
               /\ HybridGame.playable g'.
Proof.
  assert (forall l : list Z, id l ≡ₚ l) as Hperm by (intros l; reflexivity).
  assert (HybridGame.playable hybrid_game) as Hp.
  { split; [exact MoreChecks.two_holes_valid|].
    split; [exact MoreChecks.two_holes_valid|].
    split; [apply extends_refl|constructor]. }
  split; [exact Hperm|]. split; [exact Hp|]. split; [exact Checks.rng_id_ok|].
  destruct (hybrid_ai_turn_playable id hybrid_game rng_id Hperm Hp Checks.rng_id_ok)
    as (g' & Hrun & Hp' & _).
  exists g'. split; [exact Hrun|exact Hp'].
Defined.

(** X28.  A new game of sudoku_hybrid.py starts playable: after
    [new_game], with any outcomes of its shuffles, the state is
    playable, the game runs, and [solution_board] is a completion of
    the board; [reset_board] of a playable state gives a playable state
    on the puzzle as it was dealt. *)
Theorem hybrid_new_game_playable (g : HybridGame.game) (r : Generator.rng) :
  Generator.rng_ok r ->
  (HybridGame.playable (HybridGame.new_game g r)
   /\ HybridGame.game_over (HybridGame.new_game g r) = false
   /\ completion (HybridGame.board (HybridGame.new_game g r))
                 (HybridGame.solution_board (HybridGame.new_game g r)))
  /\ (HybridGame.playable g ->
      HybridGame.playable (HybridGame.reset_board g)
      /\ HybridGame.board (HybridGame.reset_board g) = HybridGame.initial_board g
      /\ HybridGame.game_over (HybridGame.reset_board g) = false).
Proof.
  intros Hok. split.
  - by apply HybridGameFacts.new_game_playable.
  - apply HybridGameFacts.reset_board_playable.
Qed.

Lemma hybrid_new_game_playable_witness :
  Generator.rng_ok rng_id
  /\ HybridGame.playable (HybridGame.new_game hybrid_game rng_id).
Proof.
  split; [exact Checks.rng_id_ok|].
  exact (proj1 (proj1 (hybrid_new_game_playable hybrid_game rng_id
                         Checks.rng_id_ok))).
Defined.

